(** * uecs: storage, trie of type sets, indexes and world

    A shallow embedding of the TypeScript sources of the uecs
    entity-component-system library (trie.ts, IdPool.ts, SparseSet.ts and
    world.ts), followed by the properties proved about them.

    Conventions of the embedding:
    - a JavaScript [number] that the code only uses as an integer is a [Z]
      (or a [nat] where it is an array length or a stack depth that the code
      never lets go below zero);
    - [undefined] is [None];
    - a [Map] is a [gmap]; a JavaScript array with holes, whose [length] the
      code never reads, is a [gmap nat]; an array that is read by position
      and by length is a [list];
    - a statement that throws is an explicit error result.

    Scope of the embedding of world.ts:
    - the components have no [added] and no [removed] method and the
      world has no [entityTracker], apart from [createWithAdded], which
      keeps the call of [added]; the [free] methods are code of the user
      that may do anything with the world;
    - [components] is a plain object, which also answers to the names it
      inherits from [Object.prototype] and enumerates the keys that read
      as numbers first: the class names are [plainName]s;
    - the entity sequence is a [number], exact up to [2^53] only: the ids
      are [safeInteger]s.
    [inScope] collects the worlds built within these bounds, where the
    keys of [components] are plain names and the entities are safe
    integers ([inScope_plainWorld]). *)

From stdpp Require Import gmap strings list fin_maps sorting.
From Stdlib Require Import ZArith Lia OrderedTypeEx.

Local Open Scope Z_scope.

(** ** trie.ts *)

Module TrieDefs.
Section trie.
Context {S : Type} `{Countable S} {T : Type}.

(** [type Trie<S, T> = { value?: T; branches?: Map<S, Trie<S, T>> }].
    An absent [branches] map answers every [get] with [undefined], like
    the empty map, so both are the empty [gmap]. *)
#[warnings="-register-all"] Inductive Trie : Type :=
  Node { value : option T; branches : gmap S Trie }.

Definition emptyTrie : Trie := Node None ∅.

(** [trie.branches?.get(s)] *)
Definition branch (t : Trie) (s : S) : option Trie := branches t !! s.

(** [getInTrie]: the loop over [seq] is the recursion on the list. *)
Fixpoint getInTrie (trie : Trie) (seq : list S) : option T :=
  match seq with
  | [] => value trie
  | s :: seq' =>
      match branch trie s with
      | None => None
      | Some b => getInTrie b seq'
      end
  end.

(** [setInTrie]: the source walks down, creating the missing branches,
    and assigns the value of the last node in place; the embedding
    rebuilds the spine it walked. *)
Fixpoint setInTrie (trie : Trie) (seq : list S) (v : T) : Trie :=
  match seq with
  | [] => Node (Some v) (branches trie)
  | s :: seq' =>
      let b := default emptyTrie (branch trie s) in
      Node (value trie) (<[s := setInTrie b seq' v]> (branches trie))
  end.

(** [foreachSubsequenceInTriesRec(trie, seq, seqStart, seqLen, found)]
    with a callback that collects every value and never answers [false].
    The pair [(seq, seqStart)] is the suffix [rest] of the sequence; the
    last round of the source's loop, [i = seqLen], reads [seq[seqLen]],
    which is [undefined] and names no branch. [scanBranches] is the
    [for] loop, [subsequenceValues] the whole call. *)
Fixpoint scanBranches (trie : Trie) (rest : list S) : list T :=
  match rest with
  | [] => []
  | s :: rest' =>
      match branch trie s with
      | Some b => option_list (value b) ++ scanBranches b rest'
      | None => []
      end ++ scanBranches trie rest'
  end.

Definition subsequenceValues (trie : Trie) (rest : list S) : list T :=
  option_list (value trie) ++ scanBranches trie rest.

Definition foreachSubsequenceInTrie (trie : Trie) (seq : list S) : list T :=
  subsequenceValues trie seq.

(** [class TrieSubsequenceIterator]. [path] and [seqIdx] are arrays that
    the code reads and writes by position only. *)
Record TrieSubsequenceIterator : Type := MkIt {
  path : gmap nat Trie;
  seqIdx : gmap nat Z;
  pathLen : nat;
  seq : option (list S);
  itValue : option T
}.

Definition newIterator : TrieSubsequenceIterator :=
  MkIt ∅ ∅ 0%nat None None.

(** [arr.length = n]: the positions from [n] on are dropped. *)
Definition truncate {A} (n : nat) (arr : gmap nat A) : gmap nat A :=
  filter (λ kv, (kv.1 < n)%nat) arr.

(** [reset(seq?, trie?)] *)
Definition reset (seq' : option (list S)) (trie : option Trie)
    (it : TrieSubsequenceIterator) : TrieSubsequenceIterator :=
  let path1 := match trie with Some t => <[0%nat := t]> (path it) | None => path it end in
  let seq1 := match seq' with Some q => Some q | None => seq it end in
  let seqIdx1 :=
    match seq1 with
    | Some q => truncate (length q) (seqIdx it)
    | None => seqIdx it
    end in
  MkIt path1 (<[0%nat := 0]> seqIdx1) 0%nat seq1 None.

(** [this.seq[i]] for a number [i] *)
Definition seqAt (q : list S) (i : Z) : option S :=
  if decide (0 ≤ i) then q !! Z.to_nat i else None.

(** The inner loop of [next],
    [while (++this.seqIdx[pathLen] >= seqLen) { ... }] followed by
    [this.pathLen = pathLen]. The local [pathLen] only goes down, so it is
    the recursion argument. The answer is [(true, it)] when the loop left
    through [return false] (the field [pathLen] is then not written), and
    [(false, it)] when the search goes on. [None]: the position was never
    written, a state the source does not recover from. *)
Fixpoint backtrack (seqLen : Z) (pl : nat) (it : TrieSubsequenceIterator)
    : option (bool * TrieSubsequenceIterator) :=
  i ← seqIdx it !! pl;
  if decide (seqLen ≤ i + 1) then
    let it1 := MkIt (path it) (<[pl := -1]> (seqIdx it)) (pathLen it) (seq it) (itValue it) in
    match pl with
    | O => Some (true, it1)
    | Datatypes.S pl' =>
        backtrack seqLen pl'
          (MkIt (delete pl (path it1)) (seqIdx it1) (pathLen it1) (seq it1) (itValue it1))
    end
  else
    Some (false, MkIt (path it) (<[pl := i + 1]> (seqIdx it)) pl (seq it) (itValue it)).

(** What one round of [while (true)] does. *)
Inductive Round : Type :=
  | Return (found : bool) (it : TrieSubsequenceIterator)
  | Continue (it : TrieSubsequenceIterator).

Definition afterBacktrack (r : option (bool * TrieSubsequenceIterator)) : option Round :=
  match r with
  | None => None
  | Some (true, it) => Some (Return false it)
  | Some (false, it) => Some (Continue it)
  end.

(** The body of [while (true)] in [next]. *)
Definition round (q : list S) (it : TrieSubsequenceIterator) : option Round :=
  let seqLen := Z.of_nat (length q) in
  let pl := pathLen it in
  trie ← path it !! pl;
  i ← seqIdx it !! pl;
  match seqAt q i ≫= branch trie with
  | Some b =>
      let pl1 := Datatypes.S pl in
      let it1 := MkIt (<[pl1 := b]> (path it)) (<[pl1 := i + 1]> (seqIdx it)) pl1
                      (seq it) (itValue it) in
      match value b with
      | Some v => Some (Return true (MkIt (path it1) (seqIdx it1) pl1 (seq it1) (Some v)))
      | None =>
          if decide (seqLen ≤ i + 1) then afterBacktrack (backtrack seqLen pl1 it1)
          else Some (Continue it1)
      end
  | None => afterBacktrack (backtrack seqLen pl it)
  end.

(** [while (true)], with a bound on the number of rounds. *)
Fixpoint rounds (fuel : nat) (q : list S) (it : TrieSubsequenceIterator)
    : option (bool * TrieSubsequenceIterator) :=
  match fuel with
  | O => None
  | Datatypes.S fuel' =>
      match round q it with
      | None => None
      | Some (Return b it') => Some (b, it')
      | Some (Continue it') => rounds fuel' q it'
      end
  end.

(** [next()]. [None] when [fuel] rounds were not enough, or when the
    iterator reads a position of [path] or [seqIdx] that was never
    written. *)
Definition next (fuel : nat) (it : TrieSubsequenceIterator)
    : option (bool * TrieSubsequenceIterator) :=
  match seq it, path it !! 0%nat with
  | Some q, Some rootTrie =>
      match itValue it, pathLen it, value rootTrie with
      | None, O, Some v =>
          Some (true, MkIt (path it) (seqIdx it) (pathLen it) (seq it) (Some v))
      | _, _, _ => rounds fuel q it
      end
  | _, _ => Some (false, it)
  end.

(** [for (it.reset(..); it.next(); ) { out.push(it.value) }]: the values
    the iterator yields until [next] answers [false]; [calls] bounds the
    number of calls. *)
Fixpoint drive (calls fuel : nat) (it : TrieSubsequenceIterator) : option (list T) :=
  match calls with
  | O => None
  | Datatypes.S calls' =>
      match next fuel it with
      | None => None
      | Some (false, _) => Some []
      | Some (true, it') =>
          match itValue it' with
          | Some v => cons v <$> drive calls' fuel it'
          | None => None
          end
      end
  end.

(** Rounds and calls that are always enough for a sequence of length [n]. *)
Definition searchFuel (n : nat) : nat := 3 * 2 ^ n + 2.

(** *** The search as a stack machine

    The definitions below describe the iterator between two rounds of its
    outer loop; they are used to prove it correct. *)

(** The stack of the search: the node and the sequence position of every
    level, the deepest level first. *)
Definition Frames : Type := list (Trie * Z).

Fixpoint stackAt (it : TrieSubsequenceIterator) (fr : Frames) : Prop :=
  match fr with
  | [] => True
  | (t, i) :: below =>
      path it !! length below = Some t ∧ seqIdx it !! length below = Some i ∧
      stackAt it below
  end.

(** What is still to be yielded once a level has finished the branch it
    is in: the branches after its position, then the levels below. *)
Fixpoint pending (q : list S) (fr : Frames) : list T :=
  match fr with
  | [] => []
  | (t, i) :: below => scanBranches t (drop (Z.to_nat (i + 1)) q) ++ pending q below
  end.

(** What is still to be yielded when the deepest level is about to try
    its position. *)
Definition remaining (q : list S) (fr : Frames) : list T :=
  match fr with
  | [] => []
  | (t, i) :: below => scanBranches t (drop (Z.to_nat i) q) ++ pending q below
  end.

(** A bound on the rounds still to run. *)
Fixpoint topCost (d : nat) : nat :=
  match d with O => 1 | Datatypes.S d' => 2 * topCost d' + 2 end.

Definition belowCost (d : nat) : nat :=
  match d with O => 0 | Datatypes.S d' => topCost d' + 1 end.

Definition pendingCost (n : Z) (fr : Frames) : nat :=
  foldr (λ f acc, belowCost (Z.to_nat (n - f.2)) + acc)%nat 0%nat fr.

Definition cost (n : Z) (fr : Frames) : nat :=
  match fr with
  | [] => 0
  | (_, i) :: below => topCost (Z.to_nat (n - i)) + pendingCost n below
  end.

Definition inRange (n : Z) (fr : Frames) : Prop :=
  Forall (λ f, 0 ≤ f.2 ≤ n) fr.

(** The iterator is at the head of a round with stack [fr]. *)
Definition atRound (q : list S) (it : TrieSubsequenceIterator) (fr : Frames) : Prop :=
  seq it = Some q ∧ fr ≠ [] ∧ pathLen it = pred (length fr) ∧
  stackAt it fr ∧ inRange (Z.of_nat (length q)) fr.

(** Once a value was yielded, or when the root holds none, [next] is the
    outer loop. *)
Definition pastRoot (it : TrieSubsequenceIterator) : Prop :=
  is_Some (itValue it) ∨ ∀ root, path it !! 0%nat = Some root → value root = None.

End trie.

(** Every subsequence of [l]: each element is kept or dropped. *)
Fixpoint sublists {A} (l : list A) : list (list A) :=
match l with
| [] => [[]]
| x :: l' => (cons x <$> sublists l') ++ sublists l'
end.

Arguments Frames : clear implicits.
Arguments Frames S {_ _} T.
Arguments Trie : clear implicits.
Arguments Trie S {_ _} T.
Arguments TrieSubsequenceIterator : clear implicits.
Arguments TrieSubsequenceIterator S {_ _} T.
Arguments Round : clear implicits.
Arguments Round S {_ _} T.
(** *** The recursive search with any callback *)

Section callback.
Context {S : Type} `{Countable S} {T : Type}.

(** [value != undefined && found(value) === false]: the callback [found]
    is code of the caller; [found v a] is its answer ([false] for the
    value [false], [true] for any other) and what it made of the state
    [a] it works on. The visit answers [false] when the search has to
    stop. *)
Definition visit {A} (found : T → A → bool * A) (v : option T) (a : A) : bool * A :=
  match v with
  | Some v => found v a
  | None => (true, a)
  end.

(** The [for] loop of [foreachSubsequenceInTriesRec], with the recursive
    call on the branch taken: [false] when a call of [found] stopped the
    search. *)
Fixpoint searchBranches {A} (found : T → A → bool * A) (trie : Trie S T) (rest : list S)
    (a : A) : bool * A :=
  match rest with
  | [] => (true, a)
  | s :: rest' =>
      let '(go, a1) :=
        match branch trie s with
        | Some b =>
            let '(go, a1) := visit found (value b) a in
            if go then searchBranches found b rest' a1 else (false, a1)
        | None => (true, a)
        end in
      if go then searchBranches found trie rest' a1 else (false, a1)
  end.

(** [foreachSubsequenceInTriesRec(trie, seq, seqStart, seqLen, found)];
    [rest] is [seq] from [seqStart] on. *)
Definition foreachSubsequenceInTriesRec {A} (found : T → A → bool * A) (trie : Trie S T)
    (rest : list S) (a : A) : bool * A :=
  let '(go, a1) := visit found (value trie) a in
  if go then searchBranches found trie rest a1 else (false, a1).

(** The calls of [found] on the values [vs] in turn, up to the first
    that answers [false]. *)
Fixpoint untilFalse {A} (found : T → A → bool * A) (vs : list T) (a : A) : bool * A :=
  match vs with
  | [] => (true, a)
  | v :: vs' =>
      let '(go, a1) := found v a in
      if go then untilFalse found vs' a1 else (false, a1)
  end.

End callback.

End TrieDefs.

(** ** Errors and results

    The [Error]s the sources throw, and the results of the calls that can
    throw. [OutOfFuel] is no error of the sources: it marks a loop of the
    embedding that its bound cut short. *)

Inductive Error : Type :=
  | SparseSetOverflow (value max : Z)
  | RangeError
  | TypeError
  | DeadEntity (type : string) (entity : Z)
  | DuplicateComponentType (type : string)
  | TypeNotInIndex (type : string)
  | OutOfFuel.

Inductive Result (A : Type) : Type :=
  | Ok (a : A)
  | Throw (e : Error).
Arguments Ok {A} a.
Arguments Throw {A} e.

(** [Array.prototype.sort(cmp)]: a stable insertion sort. ECMAScript fixes
    the outcome of [sort] only when [cmp] is a consistent comparator for the
    elements of the array, and then every stable sort gives this result. *)
Fixpoint insertSorted {A} (cmp : A → A → Z) (x : A) (sorted : list A) : list A :=
  match sorted with
  | [] => [x]
  | y :: rest =>
      if decide (0 < cmp y x) then x :: y :: rest
      else y :: insertSorted cmp x rest
  end.

Definition jsSort {A} (cmp : A → A → Z) (l : list A) : list A :=
  foldl (λ sorted x, insertSorted cmp x sorted) [] l.

(** The order of [<] and of the default [sort] on strings. *)
Definition compareStrings (a b : string) : Z :=
  match String.compare a b with
  | Lt => -1
  | Eq => 0
  | Gt => 1
  end.

(** The strict order of strings that [compareStrings] decides. *)
Definition strLt (a b : string) : Prop := String.compare a b = Lt.

#[global] Instance strLt_dec : RelDecision strLt.
Proof. intros a b. unfold strLt. apply _. Defined.

(** Sorting by a key: the comparator, and the order it sorts into. *)
Definition keyCmp {A} (key : A → string) (a b : A) : Z := compareStrings (key a) (key b).
Definition keyLe {A} (key : A → string) (a b : A) : Prop := ¬ strLt (key b) (key a).

(** ** SparseSet.ts *)

Module SparseSetDefs.

(** [private maxCapacity: number = 550_000] *)
Definition maxCapacity : Z := 550000.

(** [ToInt32], applied by every store into an [Int32Array]. *)
Definition toInt32 (x : Z) : Z := (x + 2 ^ 31) `mod` 2 ^ 32 - 2 ^ 31.

(** An [Int32Array] is a list of fixed length: a read outside it gives
    [undefined], a write outside it does nothing. *)
Definition taGet (a : list Z) (i : Z) : option Z :=
  if decide (0 ≤ i) then a !! Z.to_nat i else None.

Definition taSet (a : list Z) (i x : Z) : list Z :=
  if decide (0 ≤ i) then <[Z.to_nat i := toInt32 x]> a else a.

(** [new Int32Array(n)] *)
Definition taNew (n : nat) : list Z := replicate n 0.

(** [target.set(source)]: throws when [source] is the longer one. *)
Definition taCopy (target source : list Z) : Result (list Z) :=
  if decide (length source ≤ length target)%nat
  then Ok (source ++ drop (length source) target)
  else Throw RangeError.

Record SparseSet : Type := MkSparseSet {
  dense : list Z;
  sparse : list Z;
  size : Z;
  capacity : nat
}.

(** [constructor(capacity)] *)
Definition new (capacity : nat) : SparseSet :=
  MkSparseSet (taNew capacity) (taNew capacity) 0 capacity.

(** The resize of [add]. *)
Definition grow (value : Z) (s : SparseSet) : Result SparseSet :=
  let newCapacity := Z.to_nat (Z.max (Z.of_nat (capacity s) * 2) (value + 1)) in
  match taCopy (taNew newCapacity) (dense s), taCopy (taNew newCapacity) (sparse s) with
  | Ok newDense, Ok newSparse => Ok (MkSparseSet newDense newSparse (size s) newCapacity)
  | Throw e, _ | _, Throw e => Throw e
  end.

(** [add(value)]: the index written, and the set afterwards. *)
Definition add (value : Z) (s : SparseSet) : Result (Z * SparseSet) :=
  if decide (maxCapacity ≤ value) then Throw (SparseSetOverflow value maxCapacity)
  else
    match (if decide (Z.of_nat (capacity s) ≤ value) then grow value s else Ok s) with
    | Throw e => Throw e
    | Ok s1 =>
        let index := size s1 in
        Ok (index,
            MkSparseSet (taSet (dense s1) index value) (taSet (sparse s1) value index)
                        (size s1 + 1) (capacity s1))
    end.

(** [remove(value)]. A store at the position [undefined] does nothing,
    and a store of [undefined] writes [0]. *)
Definition remove (value : Z) (s : SparseSet) : SparseSet :=
  if decide (size s = 0) then s
  else
    let last := size s - 1 in
    let denseIndex := taGet (sparse s) value in
    let moved := taGet (dense s) last in
    let dense1 :=
      match denseIndex with
      | Some i => taSet (dense s) i (default 0 moved)
      | None => dense s
      end in
    let sparse1 :=
      match taGet dense1 last with
      | Some m => taSet (sparse s) m (default 0 denseIndex)
      | None => sparse s
      end in
    MkSparseSet dense1 sparse1 (size s - 1) (capacity s).

(** [has(value)]: [undefined < size] is false. *)
Definition has (value : Z) (s : SparseSet) : bool :=
  match taGet (sparse s) value with
  | None => false
  | Some i =>
      bool_decide (i < size s) &&
      match taGet (dense s) i with
      | Some x => bool_decide (x = value)
      | None => false
      end
  end.

Definition clear (s : SparseSet) : SparseSet :=
  MkSparseSet (dense s) (sparse s) 0 (capacity s).

Definition getSize (s : SparseSet) : Z := size s.
Definition getCapacity (s : SparseSet) : nat := capacity s.
Definition get (value : Z) (s : SparseSet) : option Z := taGet (sparse s) value.

(** The two arrays have [capacity] elements. *)
Definition wellFormed (s : SparseSet) : Prop :=
  length (dense s) = capacity s ∧ length (sparse s) = capacity s.

(** [getValues()] *)
Definition getValues (s : SparseSet) : list Z := dense s.

(** [this.dense[i]] for [i] from 0 up to [this.size]: what the loops of
    [forEach], [map] and [filter] read. A position past the end of the
    array reads [undefined]. The callbacks are code of the caller; they
    are taken not to change the set while the loop runs. *)
Definition denseValues (s : SparseSet) : list (option Z) :=
  (λ i, taGet (dense s) (Z.of_nat i)) <$> seq 0 (Z.to_nat (size s)).

(** [forEach(callback)]: [callback v a] is what the callback makes of the
    state [a] it works on. *)
Definition forEach {A} (callback : option Z → A → A) (s : SparseSet) (a : A) : A :=
  foldl (λ a v, callback v a) a (denseValues s).

(** [map(callback)] *)
Definition map {B} (callback : option Z → B) (s : SparseSet) : list B :=
  callback <$> denseValues s.

(** [filter(predicate)] *)
Definition filter (predicate : option Z → bool) (s : SparseSet) : list (option Z) :=
  List.filter predicate (denseValues s).

(** [[Symbol.iterator]()]: the iterator is its counter [index]. [next()]
    answers [Some value] for [{ done: false, value }] and [None] for
    [{ done: true, value: null }]. *)
Definition iteratorNext (index : Z) (s : SparseSet) : option (option Z) * Z :=
  if decide (index < size s) then (Some (taGet (dense s) index), index + 1)
  else (None, index).

(** [for (const v of set) out.push(v)], for at most [calls] calls of
    [next]. *)
Fixpoint iterate (calls : nat) (index : Z) (s : SparseSet) : option (list (option Z)) :=
  match calls with
  | O => None
  | Datatypes.S calls' =>
      match iteratorNext index s with
      | (Some v, index') => cons v <$> iterate calls' index' s
      | (None, _) => Some []
      end
  end.

(** The elements of an [Int32Array]. *)
Definition int32 (x : Z) : Prop := - 2 ^ 31 ≤ x < 2 ^ 31.

(** [value] is at a position of [dense] below [size]. *)
Definition stored (s : SparseSet) (value : Z) : Prop :=
  ∃ i, 0 ≤ i < size s ∧ taGet (dense s) i = Some value.

(** The set as [add] and [remove] keep it when [add] gets values that are
    not in the set and [remove] values that are: the positions of [dense]
    below [size] hold values that [sparse] sends back to their position. *)
Definition consistent (s : SparseSet) : Prop :=
  wellFormed s ∧ Z.of_nat (capacity s) < 2 ^ 31 ∧ 0 ≤ size s ≤ Z.of_nat (capacity s) ∧
  Forall int32 (sparse s) ∧
  ∀ i, 0 ≤ i < size s →
    ∃ value, taGet (dense s) i = Some value ∧ 0 ≤ value ∧ taGet (sparse s) value = Some i.

End SparseSetDefs.

(** ** IdPool.ts *)

Module IdPoolDefs.

(** [Number.MAX_SAFE_INTEGER] *)
Definition MAX_SAFE_INTEGER : Z := 2 ^ 53 - 1.

Record Interval : Type := MkInterval { left : Z; right : Z }.

Definition compareIntervals (a b : Interval) : Z :=
  if decide (left a < left b ∧ right a < right b) then -1
  else if decide (left a > left b ∧ right a > right b) then 1
  else 0.

(** [private free: Interval[]] *)
Definition IdPool : Type := list Interval.

(** [constructor()] *)
Definition new : IdPool := [MkInterval 1 MAX_SAFE_INTEGER].

(** [reserve()]: the id and the pool afterwards. With an empty [free]
    array the source reads [first.left] of [undefined]. *)
Definition reserve (free : IdPool) : Result (Z * IdPool) :=
  match free with
  | [] => Throw TypeError
  | first :: rest =>
      if decide (left first = MAX_SAFE_INTEGER) then Ok (0, free)
      else
        let id := left first in
        if decide (left first + 1 < right first) then
          Ok (id, MkInterval (left first + 1) (right first) :: rest)
        else if decide (left first + 1 = MAX_SAFE_INTEGER) then Ok (0, free)
        else Ok (id, rest)
  end.

(** [this.free.findIndex(interval => interval.left <= id && interval.right > id)] *)
Definition findIndex (id : Z) (free : IdPool) : option (nat * Interval) :=
  list_find (λ interval, left interval ≤ id ∧ right interval > id) free.

(** [release(id)] *)
Definition release (id : Z) (free : IdPool) : IdPool :=
  if decide (id = 0 ∨ id = MAX_SAFE_INTEGER) then free
  else
    let free1 :=
      match findIndex id free with
      | None => free ++ [MkInterval id (id + 1)]
      | Some (index, interval) =>
          take index free
            ++ [MkInterval (left interval) id; MkInterval (id + 1) (right interval)]
            ++ drop (Datatypes.S index) free
      end in
    jsSort compareIntervals free1.

(** The results of [n] calls of [reserve] in a row. *)
Fixpoint reserveMany (n : nat) (free : IdPool) : list Z :=
  match n with
  | O => []
  | Datatypes.S n' =>
      match reserve free with
      | Ok (id, free') => id :: reserveMany n' free'
      | Throw _ => []
      end
  end.

(** [id] is in one of the free intervals. *)
Definition isFree (id : Z) (free : IdPool) : bool :=
  bool_decide (is_Some (findIndex id free)).

(** [id] is inside [interval] and is not its left end. *)
Definition strictlyInside (id : Z) (interval : Interval) : Prop :=
  left interval < id < right interval.

(** [interval] lies below [id], or above it. *)
Definition apartFrom (id : Z) (interval : Interval) : Prop :=
  (right interval ≤ id ∧ left interval < id) ∨ id < left interval.

(** The free list as [reserve] expects it ("assumes that the free array
    is always sorted"): intervals that are not empty, hold ids from 1 up,
    lie one after the other, the last one ending at
    [Number.MAX_SAFE_INTEGER]. *)
Definition ordered (free : IdPool) : Prop :=
  StronglySorted (λ a b, right a ≤ left b) free ∧
  Forall (λ interval, 1 ≤ left interval < right interval ∧
                      right interval ≤ MAX_SAFE_INTEGER) free ∧
  right <$> last free = Some MAX_SAFE_INTEGER.

End IdPoolDefs.

(** ** world.ts: components, IndexBase and IndexIterator *)

Module IndexDefs.

(** A component: the name of its class ([constructor.name]), its data,
    and whether it has a [free] method. The optional methods [added] and
    [removed] are code of the user as well: the components here have
    none, see [WorldDefs.createWithAdded] for what [added] can do. *)
Record Component : Type := MkComponent {
  ctor : string;
  payload : Z;
  hasFree : bool
}.

#[global] Instance Component_eq_dec : EqDecision Component.
Proof. solve_decision. Defined.

(** An element of [IndexBase.storage]: [(undefined | Entity | C)]. *)
Inductive Cell : Type :=
  | CUndefined
  | CEntity (entity : Z)
  | CComponent (c : Component).

Definition cellOf (c : option Component) : Cell :=
  match c with Some c => CComponent c | None => CUndefined end.

(** [arr[i] = x] on an ordinary array: a store past the end extends the
    array, the positions in between are holes. *)
Definition arraySet {A} (hole : A) (arr : list A) (i : nat) (x : A) : list A :=
  if decide (i < length arr)%nat then <[i := x]> arr
  else arr ++ replicate (i - length arr) hole ++ [x].

(** [arr.pop()] *)
Definition arrayPop {A} (arr : list A) : option (A * list A) :=
  match last arr with
  | Some x => Some (x, removelast arr)
  | None => None
  end.

Record IndexBase : Type := MkIndexBase {
  types : list string;
  entityISByEntity : gmap Z nat;
  storage : list Cell;
  freeISs : list nat;
  addVer : Z;
  addVerObserved : bool;
  remVer : Z;
  remVerObserved : bool
}.

(** [new IndexBase(types)] *)
Definition new (types : list string) : IndexBase :=
  MkIndexBase types ∅ [] [] 0 true 0 true.

(** [for (iC = 0; iC < nC; ++iC) storage[iS + iC + 1] = components[iC]] *)
Definition storeComponents (iS nC : nat) (components : list (option Component))
    (storage : list Cell) : list Cell :=
  foldl (λ st iC, arraySet CUndefined st (iS + iC + 1)%nat (cellOf (mjoin (components !! iC))))
        storage (seq 0 nC).

(** [add(entity, components)] *)
Definition add (entity : Z) (components : list (option Component)) (ib : IndexBase)
    : IndexBase :=
  let '(iS, free1) :=
    match entityISByEntity ib !! entity with
    | Some iS => (iS, freeISs ib)
    | None =>
        match arrayPop (freeISs ib) with
        | Some (iS, rest) => (iS, rest)
        | None => (length (storage ib), freeISs ib)
        end
    end in
  let storage1 := arraySet CUndefined (storage ib) iS (CEntity entity) in
  MkIndexBase (types ib) (<[entity := iS]> (entityISByEntity ib))
    (storeComponents iS (length (types ib)) components storage1) free1
    (if addVerObserved ib then addVer ib + 1 else addVer ib) false
    (remVer ib) (remVerObserved ib).

(** [emplace(entity, type, component)] *)
Definition emplace (entity : Z) (type : string) (component : Component) (ib : IndexBase)
    : Result (bool * IndexBase) :=
  match entityISByEntity ib !! entity with
  | None => Ok (false, ib)
  | Some iS =>
      match list_find (λ t, t = type) (types ib) with
      | Some (iC, _) =>
          Ok (true,
              MkIndexBase (types ib) (entityISByEntity ib)
                (arraySet CUndefined (storage ib) (iS + iC + 1)%nat (CComponent component))
                (freeISs ib) (addVer ib) (addVerObserved ib) (remVer ib) (remVerObserved ib))
      | None => Throw (TypeNotInIndex type)
      end
  end.

(** [remove(entity)] *)
Definition remove (entity : Z) (ib : IndexBase) : bool * IndexBase :=
  match entityISByEntity ib !! entity with
  | None => (false, ib)
  | Some iS =>
      let storage1 := arraySet CUndefined (storage ib) iS CUndefined in
      (true,
       MkIndexBase (types ib) (delete entity (entityISByEntity ib))
         (storeComponents iS (length (types ib)) [] storage1)
         (freeISs ib ++ [iS])
         (addVer ib) (addVerObserved ib)
         (if remVerObserved ib then remVer ib + 1 else remVer ib) false)
  end.

(** [observeAddVer()] and [observeRemVer()] *)
Definition observeAddVer (ib : IndexBase) : Z * IndexBase :=
  (addVer ib,
   MkIndexBase (types ib) (entityISByEntity ib) (storage ib) (freeISs ib)
     (addVer ib) true (remVer ib) (remVerObserved ib)).

Definition observeRemVer (ib : IndexBase) : Z * IndexBase :=
  (remVer ib,
   MkIndexBase (types ib) (entityISByEntity ib) (storage ib) (freeISs ib)
     (addVer ib) (addVerObserved ib) (remVer ib) true).

(** [class IndexIteratorBase]: the fields the change tests use. The bound
    [indexBase] is an object shared with the world, so every method takes
    it and gives it back. *)
Record IndexIterator : Type := MkIndexIterator {
  names : list string;
  iS : Z;
  addVerSeen : Z;
  remVerSeen : Z
}.

(** [new IndexIteratorBase(indexBase, names)] *)
Definition newIndexIteratorBase (ib : IndexBase) (names : list string)
    : IndexIterator * IndexBase :=
  let '(a, ib1) := observeAddVer ib in
  let '(r, ib2) := observeRemVer ib1 in
  (MkIndexIterator names (-1 - Z.of_nat (length names)) a r, ib2).

(** [wasAddedTo()] *)
Definition wasAddedTo (it : IndexIterator) (ib : IndexBase)
    : bool * IndexIterator * IndexBase :=
  let '(a, ib1) := observeAddVer ib in
  if decide (addVerSeen it ≠ a)
  then (true, MkIndexIterator (names it) (iS it) a (remVerSeen it), ib1)
  else (false, it, ib1).

(** [wasRemovedFrom()] *)
Definition wasRemovedFrom (it : IndexIterator) (ib : IndexBase)
    : bool * IndexIterator * IndexBase :=
  let '(r, ib1) := observeRemVer ib in
  if decide (remVerSeen it ≠ r)
  then (true, MkIndexIterator (names it) (iS it) (addVerSeen it) r, ib1)
  else (false, it, ib1).

(** [wasChanged()]: [wasRemovedFrom] is not called after a [true]. *)
Definition wasChanged (it : IndexIterator) (ib : IndexBase)
    : bool * IndexIterator * IndexBase :=
  match wasAddedTo it ib with
  | (true, it1, ib1) => (true, it1, ib1)
  | (false, it1, ib1) => wasRemovedFrom it1 ib1
  end.

(** What can happen to an [IndexBase] between two calls on one of its
    iterators: the world adds or removes an entity, or another iterator
    of the same index looks at a counter. *)
Inductive Mutation : Type :=
  | MAdd (entity : Z) (components : list (option Component))
  | MRemove (entity : Z)
  | MObserveAddVer
  | MObserveRemVer.

Definition mutate (ib : IndexBase) (m : Mutation) : IndexBase :=
  match m with
  | MAdd entity components => add entity components ib
  | MRemove entity => (remove entity ib).2
  | MObserveAddVer => (observeAddVer ib).2
  | MObserveRemVer => (observeRemVer ib).2
  end.

(** Whether one of the mutations, applied in turn from [ib], is an [add],
    and whether one is a [remove] that answers [true]. *)
Fixpoint anyAdd (ms : list Mutation) : bool :=
  match ms with
  | [] => false
  | MAdd _ _ :: _ => true
  | _ :: ms' => anyAdd ms'
  end.

Fixpoint anyRemoved (ib : IndexBase) (ms : list Mutation) : bool :=
  match ms with
  | [] => false
  | m :: ms' =>
      match m with
      | MRemove entity => (remove entity ib).1
      | _ => false
      end || anyRemoved (mutate ib m) ms'
  end.

End IndexDefs.

(** ** world.ts: World *)

Module WorldDefs.
Import TrieDefs IndexDefs.

(** [export const Null: Entity = -1] and [singletonEntity = -2] *)
Definition Null : Z := -1.
Definition singletonEntity : Z := -2.

(** [TypeStorage<ComponentStorage<Component>>]: an object whose keys are
    enumerated by [for .. in] in the order they were added; each storage
    is an object read and written by entity only. The list holds the own
    properties of the object: it is the whole of the object for the
    class names that are [plainName]s. *)
Definition TypeStorage : Type := list (string * gmap Z Component).

(** The names every plain object inherits from [Object.prototype]. For
    a class of one of these names [this.components[type]] is not
    [undefined] before anything was stored: it is a function (the
    prototype itself for [__proto__]), the components are then written
    on that function, where [for .. in], [Object.keys] and
    [Object.entries] do not find them. *)
Definition inheritedNames : list string :=
  ["__defineGetter__"; "__defineSetter__"; "__lookupGetter__"; "__lookupSetter__";
   "__proto__"; "constructor"; "hasOwnProperty"; "isPrototypeOf";
   "propertyIsEnumerable"; "toLocaleString"; "toString"; "valueOf"].

(** A key that reads as a number ([class] names cannot, the [name] of a
    function can) is enumerated before the others, in the order of the
    numbers; all of them start with a digit. *)
Definition startsWithDigit (s : string) : bool :=
  match s with
  | String a _ => bool_decide (48 ≤ Ascii.nat_of_ascii a ≤ 57)%nat
  | EmptyString => false
  end.

(** The class names for which the object [components] is the list
    [TypeStorage]. *)
Definition plainName (type : string) : bool :=
  bool_decide (type ∉ inheritedNames) && negb (startsWithDigit type).

(** The integers [x] for which [x + 1] is exact on a [number]: the ids of
    the entities are among them. *)
Definition safeInteger (x : Z) : bool :=
  bool_decide (- IdPoolDefs.MAX_SAFE_INTEGER ≤ x ≤ IdPoolDefs.MAX_SAFE_INTEGER).

Fixpoint tsGet (cs : TypeStorage) (type : string) : option (gmap Z Component) :=
  match cs with
  | [] => None
  | (k, st) :: rest => if decide (k = type) then Some st else tsGet rest type
  end.

(** [if (cs[type] == null) cs[type] = {}; cs[type] = f(cs[type])] *)
Fixpoint tsUpdate (f : gmap Z Component → gmap Z Component) (type : string)
    (cs : TypeStorage) : TypeStorage :=
  match cs with
  | [] => [(type, f ∅)]
  | (k, st) :: rest =>
      if decide (k = type) then (k, f st) :: rest
      else (k, st) :: tsUpdate f type rest
  end.

(** The [IndexBase] objects are shared between the trie and the map
    [indexesByComponent]: they live in [indexes], and both hold their
    positions there. The scratch arrays ([create_typesP], [create_ecs],
    [index_specs], [index_ecs]) are written before they are read and
    emptied at the end of every call, so they are local values here. *)
Record World : Type := MkWorld {
  entitySequence : Z;
  entities : list Z;
  components : TypeStorage;
  indexesByComponent : gmap string (list nat);
  indexByComponents : Trie string nat;
  indexByComponentsSubIt : TrieSubsequenceIterator string nat;
  indexes : list IndexBase
}.

(** [new World()] *)
Definition new : World :=
  MkWorld 0 [] [] ∅ emptyTrie (reset (Some []) (Some emptyTrie) newIterator) [].

Definition setEntitySequence (x : Z) (w : World) : World :=
  MkWorld x (entities w) (components w) (indexesByComponent w) (indexByComponents w)
          (indexByComponentsSubIt w) (indexes w).
Definition setEntities (x : list Z) (w : World) : World :=
  MkWorld (entitySequence w) x (components w) (indexesByComponent w) (indexByComponents w)
          (indexByComponentsSubIt w) (indexes w).
Definition setComponents (x : TypeStorage) (w : World) : World :=
  MkWorld (entitySequence w) (entities w) x (indexesByComponent w) (indexByComponents w)
          (indexByComponentsSubIt w) (indexes w).
Definition setIndexesByComponent (x : gmap string (list nat)) (w : World) : World :=
  MkWorld (entitySequence w) (entities w) (components w) x (indexByComponents w)
          (indexByComponentsSubIt w) (indexes w).
Definition setIndexByComponents (x : Trie string nat) (w : World) : World :=
  MkWorld (entitySequence w) (entities w) (components w) (indexesByComponent w) x
          (indexByComponentsSubIt w) (indexes w).
Definition setSubIt (x : TrieSubsequenceIterator string nat) (w : World) : World :=
  MkWorld (entitySequence w) (entities w) (components w) (indexesByComponent w)
          (indexByComponents w) x (indexes w).
Definition setIndexes (x : list IndexBase) (w : World) : World :=
  MkWorld (entitySequence w) (entities w) (components w) (indexesByComponent w)
          (indexByComponents w) (indexByComponentsSubIt w) x.

(** [Set.prototype.add], [delete] and [has] on [entities]; the list keeps
    the order of insertion, which is the order [values()] yields. *)
Definition setAdd (entity : Z) (s : list Z) : list Z :=
  if decide (entity ∈ s) then s else s ++ [entity].
Definition setDelete (entity : Z) (s : list Z) : list Z :=
  filter (λ e, e ≠ entity) s.
Definition setHas (entity : Z) (s : list Z) : bool := bool_decide (entity ∈ s).

(** A method of [World]: it changes the world and returns or throws. What
    it did to the world before it threw stays done. The methods below are
    those of a world without [entityTracker] whose components have no
    [added] and no [removed] method. *)
Definition M (A : Type) : Type := World → World * Result A.

Definition ret {A} (a : A) : M A := λ w, (w, Ok a).
Definition throw {A} (e : Error) : M A := λ w, (w, Throw e).
Definition bind {A B} (m : M A) (k : A → M B) : M B :=
  λ w, match m w with
       | (w1, Ok a) => k a w1
       | (w1, Throw e) => (w1, Throw e)
       end.
Definition getWorld : M World := λ w, (w, Ok w).
Definition modify (f : World → World) : M unit := λ w, (f w, Ok tt).
Definition liftResult {A} (r : Result A) : M A := λ w, (w, r).

#[global] Instance M_ret : MRet M := @ret.
#[global] Instance M_bind : MBind M := λ A B k m, bind m k.

Fixpoint forEach {A} (l : list A) (body : A → M unit) : M unit :=
  match l with
  | [] => ret tt
  | x :: l' => bind (body x) (λ _, forEach l' body)
  end.

(** [exists(entity)] *)
Definition exists_ (entity : Z) (w : World) : bool := setHas entity (entities w).

(** [get(entity, componentClass)] *)
Definition get (entity : Z) (type : string) (w : World) : option Component :=
  match tsGet (components w) type with
  | None => None
  | Some storage => storage !! entity
  end.

(** [has(entity, componentClass)] *)
Definition has (entity : Z) (type : string) (w : World) : bool :=
  match tsGet (components w) type with
  | None => false
  | Some storage => bool_decide (is_Some (storage !! entity))
  end.

(** [size(componentConstructor?)]: [Object.keys] of a storage that was
    never registered throws. *)
Definition size (type : option string) (w : World) : Result Z :=
  match type with
  | None => Ok (Z.of_nat (length (entities w)))
  | Some type =>
      match tsGet (components w) type with
      | None => Throw TypeError
      | Some storage => Ok (Z.of_nat (base.size storage))
      end
  end.

(** [all()] *)
Definition all (w : World) : list Z := entities w.

(** [this.indexByComponentsSubIt.reset(types)]. The iterator was built on
    the trie object of the world, which [setInTrie] changes in place:
    [path[0]] is that object, so the model reads the trie of the world
    again on every reset. *)
Definition resetSubIt (types : list string) (w : World) : World :=
  setSubIt (reset (Some types) (Some (indexByComponents w)) (indexByComponentsSubIt w)) w.

(** [for (const itI = this.indexByComponentsSubIt; itI.next(); ) body(itI.value!)].
    [OutOfFuel] stands for a loop the bounds did not let finish. *)
Fixpoint forSubIt (calls fuel : nat) (body : nat → M unit) : M unit :=
  match calls with
  | O => throw OutOfFuel
  | Datatypes.S calls' =>
      λ w,
        match next fuel (indexByComponentsSubIt w) with
        | None => (w, Throw OutOfFuel)
        | Some (false, it) => (setSubIt it w, Ok tt)
        | Some (true, it) =>
            match itValue it with
            | Some index => bind (body index) (λ _, forSubIt calls' fuel body) (setSubIt it w)
            | None => (setSubIt it w, Throw TypeError)
            end
        end
  end.

Definition forEachSubsequenceIndex (types : list string) (body : nat → M unit) : M unit :=
  bind (modify (resetSubIt types))
       (λ _, forSubIt (searchFuel (length types)) (searchFuel (length types)) body).

(** [index.f(..)] for the index object at position [index]. *)
Definition withIndex {A} (index : nat) (f : IndexBase → Result (A * IndexBase)) : M A :=
  λ w,
    match indexes w !! index with
    | None => (w, Throw TypeError)
    | Some ib =>
        match f ib with
        | Ok (a, ib') => (setIndexes (<[index := ib']> (indexes w)) w, Ok a)
        | Throw e => (w, Throw e)
        end
    end.

(** [ecs[i] = components[types[i]][entity]] for every type of an index:
    a type without storage is a read of a property of [undefined]. *)
Fixpoint gather (cs : TypeStorage) (entity : Z) (types : list string)
    : Result (list (option Component)) :=
  match types with
  | [] => Ok []
  | type :: rest =>
      match tsGet cs type with
      | None => Throw TypeError
      | Some storage =>
          match gather cs entity rest with
          | Ok ecs => Ok (storage !! entity :: ecs)
          | Throw e => Throw e
          end
      end
  end.

(** The same with [if (ec === undefined) continue outerLoop]: [Ok None]
    is the [continue]. *)
Fixpoint gatherPresent (cs : TypeStorage) (entity : Z) (types : list string)
    : Result (option (list (option Component))) :=
  match types with
  | [] => Ok (Some [])
  | type :: rest =>
      match tsGet cs type with
      | None => Throw TypeError
      | Some storage =>
          match storage !! entity with
          | None => Ok None
          | Some c =>
              match gatherPresent cs entity rest with
              | Ok (Some ecs) => Ok (Some (Some c :: ecs))
              | other => other
              end
          end
      end
  end.

(** The check for two equal neighbours after sorting. *)
Fixpoint adjacentDuplicate (prev : option string) (types : list string) : option string :=
  match types with
  | [] => None
  | type :: rest =>
      if decide (Some type = prev) then Some type
      else adjacentDuplicate (Some type) rest
  end.

(** [create(...components)]. [this.entitySequence++] is the step of a
    [number]: it is [entity + 1] while the sequence is a [safeInteger],
    as it is in the worlds that are [inScope]. *)
Definition create (cs : list Component) : M Z :=
  w ← getWorld;
  let entity := entitySequence w in
  _ ← modify (setEntitySequence (entity + 1));
  _ ← modify (λ w, setEntities (setAdd entity (entities w)) w);
  _ ← forEach cs (λ c,
        modify (λ w, setComponents (tsUpdate (<[entity := c]>) (ctor c) (components w)) w));
  let typesP := jsSort compareStrings (ctor <$> cs) in
  _ ← match adjacentDuplicate None typesP with
      | Some type => throw (DuplicateComponentType type)
      | None => ret tt
      end;
  _ ← forEachSubsequenceIndex typesP (λ index,
        w ← getWorld;
        ib ← liftResult (from_option Ok (Throw TypeError) (indexes w !! index));
        ecs ← liftResult (gather (components w) entity (types ib));
        withIndex index (λ ib, Ok (tt, add entity ecs ib)));
  mret entity.

(** [create(...components)] of a world without [entityTracker], for
    components with a method [added]: [added c entity] is
    [c.added(entity)], code of the user that may call the world.
    [create] calls it before it stores the component. The
    array [create_typesP] is a field of the world that a call of [create]
    from inside [added] would overwrite: [added] stands for the methods
    that do not call [create]. *)
Definition createWithAdded (added : Component → Z → M unit) (cs : list Component) : M Z :=
  w ← getWorld;
  let entity := entitySequence w in
  _ ← modify (setEntitySequence (entity + 1));
  _ ← modify (λ w, setEntities (setAdd entity (entities w)) w);
  _ ← forEach cs (λ c,
        _ ← added c entity;
        modify (λ w, setComponents (tsUpdate (<[entity := c]>) (ctor c) (components w)) w));
  let typesP := jsSort compareStrings (ctor <$> cs) in
  _ ← match adjacentDuplicate None typesP with
      | Some type => throw (DuplicateComponentType type)
      | None => ret tt
      end;
  _ ← forEachSubsequenceIndex typesP (λ index,
        w ← getWorld;
        ib ← liftResult (from_option Ok (Throw TypeError) (indexes w !! index));
        ecs ← liftResult (gather (components w) entity (types ib));
        withIndex index (λ ib, Ok (tt, add entity ecs ib)));
  mret entity.

(** [emplace(entity, component)] *)
Definition emplace (entity : Z) (component : Component) : M unit :=
  let type := ctor component in
  w ← getWorld;
  if negb (setHas entity (entities w)) then throw (DeadEntity type entity)
  else
    _ ← modify (λ w, setComponents (tsUpdate (<[entity := component]>) type (components w)) w);
    w ← getWorld;
    match indexesByComponent w !! type with
    | None => mret tt
    | Some indexes =>
        forEach indexes (λ index,
          updated ← withIndex index (IndexDefs.emplace entity type component);
          if (updated : bool) then mret tt
          else
            w ← getWorld;
            ib ← liftResult (from_option Ok (Throw TypeError) (WorldDefs.indexes w !! index));
            ecs ← liftResult (gatherPresent (components w) entity (types ib));
            match ecs with
            | None => mret tt
            | Some ecs => withIndex index (λ ib, Ok (tt, add entity ecs ib))
            end)
    end.

(** [insert(entity, ...components)]; [entity + 1] is the sum of a
    [number], exact for an [entity] that is a [safeInteger]. *)
Definition insert (entity : Z) (cs : list Component) : M Z :=
  w ← getWorld;
  _ ← (if decide (entity > entitySequence w) then modify (setEntitySequence (entity + 1))
       else mret tt);
  _ ← modify (λ w, setEntities (setAdd entity (entities w)) w);
  _ ← forEach cs (emplace entity);
  mret entity.

(** [remove(entity, componentClass)] *)
Definition remove (entity : Z) (type : string) : M (option Component) :=
  w ← getWorld;
  match tsGet (components w) type with
  | None => mret None
  | Some storage =>
      let component := storage !! entity in
      _ ← modify (λ w, setComponents (tsUpdate (delete entity) type (components w)) w);
      match component with
      | None => mret None
      | Some c =>
          match indexesByComponent w !! type with
          | None => mret (Some c)
          | Some indexes =>
              _ ← forEach indexes (λ index,
                    withIndex index (λ ib, Ok (tt, (IndexDefs.remove entity ib).2)));
              mret (Some c)
          end
      end
  end.

(** The components of [entity], in the order of [for (key in components)]. *)
Definition heldComponents (cs : TypeStorage) (entity : Z) : list Component :=
  omap (λ kst, kst.2 !! entity) cs.

(** [destroy(entity)] up to the calls of [free]: everything the method
    does itself, for components without a method [removed]. The loop
    [for (const key in this.components)] visits the own keys of the
    object, which are all its storages when the class names are
    [plainName]s. The answer is the array [freeComponents]. *)
Definition destroyCleanup (entity : Z) : M (list Component) :=
  _ ← modify (λ w, setEntities (setDelete entity (entities w)) w);
  w ← getWorld;
  let held := heldComponents (components w) entity in
  _ ← modify (setComponents ((λ kst, (kst.1, delete entity kst.2)) <$> components w));
  let types := jsSort compareStrings (ctor <$> held) in
  _ ← forEachSubsequenceIndex types (λ index,
        withIndex index (λ ib, Ok (tt, (IndexDefs.remove entity ib).2)));
  mret (filter (λ c, hasFree c = true) held).

(** [destroy(entity)]. [free c entity] is the method [free(world, entity)]
    of the component [c]: code of the user, which gets the world and may
    do anything with it, also throw. *)
Definition destroy (free : Component → Z → M unit) (entity : Z) : M unit :=
  freeComponents ← destroyCleanup entity;
  forEach freeComponents (λ c, free c entity).

(** [registerSingleton(component)] *)
Definition registerSingleton (component : Component) : M unit :=
  w ← getWorld;
  _ ← (if negb (setHas singletonEntity (entities w))
       then modify (λ w, setEntities (setAdd singletonEntity (entities w)) w)
       else mret tt);
  emplace singletonEntity component.

(** [getSingleton(type)] *)
Definition getSingleton (type : string) (w : World) : option Component :=
  get singletonEntity type w.

(** [removeSingleton(type)] *)
Definition removeSingleton (type : string) : M unit :=
  w ← getWorld;
  if negb (setHas singletonEntity (entities w)) then mret tt
  else _ ← remove singletonEntity type; mret tt.

(** The iterator [index] returns: the position of its [IndexBase], and
    the iterator itself. *)
Definition IndexHandle : Type := nat * IndexIterator.

(** [new IndexIteratorBase(indexBase, names)] inside the world. *)
Definition newIndexIterator (index : nat) (names : list string) : M IndexHandle :=
  it ← withIndex index (λ ib, Ok (newIndexIteratorBase ib names));
  mret (index, it).

(** [index(indexSpec)]; [indexSpec] is the list of the [name: Class] pairs
    of the object, in the order of [Object.keys]. *)
Definition index (indexSpec : list (string * string)) : M IndexHandle :=
  _ ← forEach indexSpec (λ spec,
        modify (λ w, setComponents (tsUpdate id spec.2 (components w)) w));
  let specs := jsSort (λ a b, compareStrings a.2 b.2) indexSpec in
  let names := fst <$> specs in
  let types := snd <$> specs in
  match adjacentDuplicate None types with
  | Some type => throw (DuplicateComponentType type)
  | None =>
      w ← getWorld;
      match getInTrie (indexByComponents w) types with
      | Some indexBase => newIndexIterator indexBase names
      | None =>
          let indexBase := length (indexes w) in
          _ ← modify (λ w, setIndexes (indexes w ++ [IndexDefs.new types]) w);
          _ ← modify (λ w, setIndexByComponents (setInTrie (indexByComponents w) types indexBase) w);
          _ ← forEach types (λ c,
                modify (λ w, setIndexesByComponent
                               (<[c := default [] (indexesByComponent w !! c) ++ [indexBase]]>
                                  (indexesByComponent w)) w));
          _ ← forEach (entities w) (λ entity,
                w ← getWorld;
                ecs ← liftResult (gatherPresent (components w) entity types);
                match ecs with
                | None => mret tt
                | Some ecs => withIndex indexBase (λ ib, Ok (tt, add entity ecs ib))
                end);
          newIndexIterator indexBase names
      end
  end.

(** The calls a program can make on a world, [destroy] taken up to its
    calls of [free]. A [free] method gets the world and changes it only
    by calls of its own, which are further steps. *)
Inductive Call : Type :=
  | CallCreate (cs : list Component)
  | CallInsert (entity : Z) (cs : list Component)
  | CallEmplace (entity : Z) (c : Component)
  | CallRemove (entity : Z) (type : string)
  | CallDestroy (entity : Z)
  | CallIndex (indexSpec : list (string * string))
  | CallRegisterSingleton (c : Component)
  | CallRemoveSingleton (type : string).

(** The world after a call, whether it returned or threw. *)
Definition step (c : Call) (w : World) : World :=
  match c with
  | CallCreate cs => (create cs w).1
  | CallInsert entity cs => (insert entity cs w).1
  | CallEmplace entity c => (emplace entity c w).1
  | CallRemove entity type => (remove entity type w).1
  | CallDestroy entity => (destroyCleanup entity w).1
  | CallIndex indexSpec => (index indexSpec w).1
  | CallRegisterSingleton c => (registerSingleton c w).1
  | CallRemoveSingleton type => (removeSingleton type w).1
  end.

Definition run (calls : list Call) (w : World) : World := foldl (λ w c, step c w) w calls.

(** The worlds a program can reach from [new World()]. *)
Definition reachable (w : World) : Prop := ∃ calls, w = run calls new.

(** The calls within the scope of the embedding: the class names they
    pass are [plainName]s and the ids are [safeInteger]s. *)
Definition callInScope (c : Call) : bool :=
  match c with
  | CallCreate cs => forallb (λ c, plainName (ctor c)) cs
  | CallInsert entity cs => safeInteger entity && forallb (λ c, plainName (ctor c)) cs
  | CallEmplace entity c => safeInteger entity && plainName (ctor c)
  | CallRemove entity type => safeInteger entity && plainName type
  | CallDestroy entity => safeInteger entity
  | CallIndex indexSpec => forallb (λ spec, plainName spec.2) indexSpec
  | CallRegisterSingleton c => plainName (ctor c)
  | CallRemoveSingleton type => plainName type
  end.

(** Every call of the program is in scope and leaves an entity sequence
    that [++] and [entity + 1] still step exactly. *)
Fixpoint runInScope (calls : list Call) (w : World) : bool :=
  match calls with
  | [] => true
  | c :: calls' =>
      callInScope c &&
      bool_decide (entitySequence (step c w) ≤ IdPoolDefs.MAX_SAFE_INTEGER) &&
      runInScope calls' (step c w)
  end.

(** The worlds a program reaches from [new World()] within the scope of
    the embedding: by the calls above, which are those of a world
    without [entityTracker] on components without [added] and [removed],
    with class names that are [plainName]s and ids that are
    [safeInteger]s. *)
Definition inScope (w : World) : Prop :=
  ∃ calls, runInScope calls new = true ∧ w = run calls new.

(** What the scope gives: the keys of [components] are plain names and
    the entities are safe integers, so that the list [components] is the
    object of the source, whole and in the order of its enumeration. *)
Definition plainWorld (w : World) : Prop :=
  Forall (λ kst, plainName kst.1 = true) (components w) ∧
  Forall (λ e, safeInteger e = true) (entities w).

(** [entity] is in the index at position [index]. *)
Definition inIndex (entity : Z) (index : nat) (w : World) : bool :=
  match indexes w !! index with
  | Some ib => bool_decide (is_Some (entityISByEntity ib !! entity))
  | None => false
  end.

(** [entity] holds every type of the index at position [index]. *)
Definition holdsAll (entity : Z) (index : nat) (w : World) : bool :=
  match indexes w !! index with
  | Some ib => forallb (λ type, has entity type w) (types ib)
  | None => false
  end.

(** *** Invariants of the world *)

(** Only live entities hold components. *)
Definition deadHoldNothing (w : World) : Prop :=
  ∀ type entity c, get entity type w = Some c → entity ∈ entities w.

(** A component is stored under the name of its class. *)
Definition storedUnderCtor (w : World) : Prop :=
  ∀ type entity c, get entity type w = Some c → ctor c = type.

(** Every index is in the trie, at the sequence of its types, which is
    strictly sorted. *)
Definition indexesRegistered (w : World) : Prop :=
  ∀ i ib, indexes w !! i = Some ib →
    getInTrie (indexByComponents w) (types ib) = Some i ∧ StronglySorted strLt (types ib).

(** Every value of the trie is an index, stored at the sequence of its
    types. *)
Definition trieValuesValid (w : World) : Prop :=
  ∀ p i, getInTrie (indexByComponents w) p = Some i →
    ∃ ib, indexes w !! i = Some ib ∧ types ib = p.

Definition worldInv (w : World) : Prop :=
  0 ≤ entitySequence w ∧ deadHoldNothing w ∧ storedUnderCtor w ∧
  NoDup (fst <$> components w) ∧ indexesRegistered w ∧ trieValuesValid w.

(** Whatever the method answers, the world it leaves satisfies [Q]. *)
Definition hoare {A} (P : World → Prop) (m : M A) (Q : World → Prop) : Prop :=
  ∀ w, P w → Q (m w).1.



(** [getAll(entity)]: a component is an object, so [if (component)] holds
    exactly when the storage has one for the entity. *)
Definition getAll (entity : Z) (w : World) : list Component :=
  heldComponents (components w) entity.

(** [clear()]. The loop runs over the set [entities] while [destroy]
    deletes the entity it has just visited, which does not disturb the
    iteration of a [Set]. The definition is the loop of the source for
    [free] methods that neither add nor delete entities. *)
Definition clear (free : Component → Z → M unit) : M unit :=
  w ← getWorld;
  forEach (entities w) (destroy free).

(** *** Invariants of the indexes *)

(** The indexes listed under a component type exist and are on that
    type. *)
Definition byComponentSound (w : World) : Prop :=
  ∀ type ixs i, indexesByComponent w !! type = Some ixs → i ∈ ixs →
    ∃ ib, indexes w !! i = Some ib ∧ type ∈ types ib.

(** Every index is listed under each of its types. *)
Definition byComponentComplete (w : World) : Prop :=
  ∀ i ib type, indexes w !! i = Some ib → type ∈ types ib →
    ∃ ixs, indexesByComponent w !! type = Some ixs ∧ i ∈ ixs.

(** The types of the indexes have a storage. *)
Definition indexTypesStored (w : World) : Prop :=
  ∀ i ib type, indexes w !! i = Some ib → type ∈ types ib →
    is_Some (tsGet (components w) type).

(** An entity that is in an index is alive and holds every type of the
    index. *)
Definition indexSound (w : World) : Prop :=
  ∀ i entity, inIndex entity i w = true →
    entity ∈ entities w ∧ holdsAll entity i w = true.

Definition indexInv (w : World) : Prop :=
  worldInv w ∧ NoDup (entities w) ∧ byComponentSound w ∧ byComponentComplete w ∧
  indexTypesStored w ∧ indexSound w.

(** Two worlds that differ in the contents of their indexes only. *)
Definition onlyIndexes (w w' : World) : Prop :=
  entitySequence w' = entitySequence w ∧ entities w' = entities w ∧
  components w' = components w ∧ indexesByComponent w' = indexesByComponent w ∧
  indexByComponents w' = indexByComponents w ∧
  indexByComponentsSubIt w' = indexByComponentsSubIt w ∧
  types <$> indexes w' = types <$> indexes w.

End WorldDefs.

(** ** util.ts *)

Module UtilDefs.

(** [arr[i]] in a string concatenation: a position outside the array
    gives [undefined], which [+] writes as the text "undefined". *)
Definition textAt (arr : list string) (i : Z) : string :=
  if decide (0 ≤ i) then default "undefined"%string (arr !! Z.to_nat i) else "undefined"%string.

(** [join(arr, sep)] *)
Definition join (arr : list string) (sep : string) : string :=
  let end_ := Z.of_nat (length arr) - 1 in
  let out :=
    foldl (λ out i, out +:+ (textAt arr (Z.of_nat i) +:+ sep)) ""%string
          (seq 0 (Z.to_nat end_)) in
  out +:+ textAt arr end_.

End UtilDefs.

(** ** world.ts: iterating an index *)

Module IndexIteratorDefs.
Import IndexDefs.

(** [storage[i]], which is [undefined] outside the array. *)
Definition storageAt (storage : list Cell) (i : Z) : Cell :=
  if decide (0 ≤ i) then default CUndefined (storage !! Z.to_nat i) else CUndefined.

(** The members of an [IndexIteratorBase]: the properties [entity],
    [indexBase] and [names], its methods, and what it inherits from
    [Object.prototype]. *)
Definition iteratorMembers : list string :=
  ["entity"; "indexBase"; "names"; "start"; "next"; "first";
   "wasChanged"; "wasAddedTo"; "wasRemovedFrom"] ++ WorldDefs.inheritedNames.

(** [start] and [next] assign the components to properties of the
    iterator itself, [this[names[iC]]]: a component named like a member
    of the iterator replaces that member. The names that leave the
    iterator whole differ from its members, and from each other, as the
    keys of an index spec do. *)
Definition fieldNames (names : list string) : bool :=
  bool_decide (NoDup names) && forallb (λ name, bool_decide (name ∉ iteratorMembers)) names.

(** An [IndexIteratorBase] whose names are [fieldNames], together with
    the properties that [start] and [next] assign: [entity], which is
    [NaN] ([None]) or a value read from the storage, and the properties
    named by [names], in the order of [names]. *)
Record IndexCursor : Type := MkIndexCursor {
  iterator : IndexIterator;
  entity : option Cell;
  fields : list Cell
}.

Definition setIS (x : Z) (it : IndexIterator) : IndexIterator :=
  MkIndexIterator (names it) x (addVerSeen it) (remVerSeen it).

(** The iterator as its constructor leaves it. *)
Definition newIndexCursor (it : IndexIterator) : IndexCursor :=
  MkIndexCursor it None (replicate (length (names it)) CUndefined).

(** [start()] *)
Definition start (c : IndexCursor) : IndexCursor :=
  let nC := length (names (iterator c)) in
  MkIndexCursor (setIS (-1 - Z.of_nat nC) (iterator c)) None (replicate nC CUndefined).

(** The loop [do { iS += 1 + nC; ... } while (entity === undefined)] of
    [next]: the position it stops at, and the value it found there, or
    nothing at the end of the storage. [fuel] bounds the number of
    rounds. *)
Fixpoint seek (fuel : nat) (storage : list Cell) (nC : nat) (iS : Z) : option (Z * option Cell) :=
  match fuel with
  | O => None
  | S fuel' =>
      let iS := iS + 1 + Z.of_nat nC in
      if decide (iS >= Z.of_nat (length storage)) then Some (iS, None)
      else
        match storageAt storage iS with
        | CUndefined => seek fuel' storage nC iS
        | cell => Some (iS, Some cell)
        end
  end.

(** [next()], on the [IndexBase] the iterator is bound to. *)
Definition next (fuel : nat) (c : IndexCursor) (ib : IndexBase) : option (bool * IndexCursor) :=
  let nC := length (names (iterator c)) in
  match seek fuel (storage ib) nC (iS (iterator c)) with
  | None => None
  | Some (iS', None) =>
      Some (false, MkIndexCursor (setIS iS' (iterator c)) None (replicate nC CUndefined))
  | Some (iS', Some cell) =>
      Some (true,
            MkIndexCursor (setIS iS' (iterator c)) (Some cell)
              ((λ iC : nat, storageAt (storage ib) (iS' + Z.of_nat iC + 1)) <$> seq 0 nC))
  end.

(** [first()]: the answer [true] stands for the iterator itself, [false]
    for [undefined]. *)
Definition first (fuel : nat) (c : IndexCursor) (ib : IndexBase) : option (bool * IndexCursor) :=
  next fuel (start c) ib.

(** [for (; it.next(); ) { ... }] with a body that leaves the index
    alone: what the body sees in [entity] and in the named properties,
    round by round. *)
Fixpoint rounds (calls fuel : nat) (c : IndexCursor) (ib : IndexBase)
    : option (list (option Cell * list Cell)) :=
  match calls with
  | O => None
  | S calls' =>
      match next fuel c ib with
      | None => None
      | Some (false, _) => Some []
      | Some (true, c') =>
          match rounds calls' fuel c' ib with
          | None => None
          | Some rest => Some ((entity c', fields c') :: rest)
          end
      end
  end.

(** [for (it.start(); it.next(); ) { ... }] *)
Definition iterate (calls fuel : nat) (c : IndexCursor) (ib : IndexBase)
    : option (list (option Cell * list Cell)) :=
  rounds calls fuel (start c) ib.

(** The length of a record [(entity, ...components)] in the storage. *)
Definition recordLength (ib : IndexBase) : nat := S (length (types ib)).

(** The [nC] values of the storage that follow the position [iS]. *)
Definition cellsAt (storage : list Cell) (iS nC : nat) : list Cell :=
  (λ iC : nat, storageAt storage (Z.of_nat iS + Z.of_nat iC + 1)) <$> seq 0 nC.

(** The components the index stores with an entity. *)
Definition rowOf (ib : IndexBase) (e : Z) : option (list Cell) :=
  (λ iS, cellsAt (storage ib) iS (length (types ib))) <$> entityISByEntity ib !! e.

(** The record number [j] of the storage, unless it starts with
    [undefined], and the records of the storage in their order. *)
Definition rowAt (ib : IndexBase) (j : nat) : option (option Cell * list Cell) :=
  match storage ib !! (j * recordLength ib)%nat with
  | None | Some CUndefined => None
  | Some cell =>
      Some (Some cell, cellsAt (storage ib) (j * recordLength ib) (length (types ib)))
  end.

Definition records (ib : IndexBase) : list (option Cell * list Cell) :=
  omap (rowAt ib) (seq 0 (length (storage ib) / recordLength ib)).

(** The storage is a sequence of records: the record of an entity of the
    index starts with the entity, a record of the free list starts with
    [undefined], and every record is one or the other. *)
Definition laidOut (ib : IndexBase) : Prop :=
  Nat.divide (recordLength ib) (length (storage ib)) ∧
  (∀ e iS, entityISByEntity ib !! e = Some iS →
     Nat.divide (recordLength ib) iS ∧ storage ib !! iS = Some (CEntity e)) ∧
  NoDup (freeISs ib) ∧
  (∀ iS, iS ∈ freeISs ib →
     Nat.divide (recordLength ib) iS ∧ storage ib !! iS = Some CUndefined) ∧
  (∀ iS, Nat.divide (recordLength ib) iS → (iS < length (storage ib))%nat →
     (∃ e, entityISByEntity ib !! e = Some iS) ∨ iS ∈ freeISs ib).

End IndexIteratorDefs.

(** ** world.ts: the World on IdPool and SparseSet *)

Module SparseWorldDefs.
Import IndexDefs.

(** [ComponentStorage<Component>]: the array [components] and the set
    of the entities that hold one. [None] in the array is [undefined]. *)
Record ComponentStorage : Type := MkComponentStorage {
  components : list (option Component);
  sparseSet : SparseSetDefs.SparseSet
}.

(** [TypeStorage<ComponentStorage<Component>>]: the keys in the order
    they were set, which is the order of [for (const key in ...)]. The
    list holds the own properties of the object: it is the whole of the
    object for the class names that are [WorldDefs.plainName]s. *)
Definition TypeStorage : Type := list (string * ComponentStorage).


Fixpoint csGet (cs : TypeStorage) (type : string) : option ComponentStorage :=
  match cs with
  | [] => None
  | (k, st) :: rest => if decide (k = type) then Some st else csGet rest type
  end.

(** [cs[type] = st] *)
Fixpoint csSet (type : string) (st : ComponentStorage) (cs : TypeStorage) : TypeStorage :=
  match cs with
  | [] => [(type, st)]
  | (k, st') :: rest =>
      if decide (k = type) then (k, st) :: rest else (k, st') :: csSet type st rest
  end.

(** [components[index]] and [components[index] = x] for an index that is
    the size of a [SparseSet] or an element of its array [sparse]; these
    are never negative. *)
Definition componentAt (arr : list (option Component)) (index : Z) : option Component :=
  if decide (0 ≤ index) then mjoin (arr !! Z.to_nat index) else None.

Definition setComponentAt (arr : list (option Component)) (index : Z)
    (x : option Component) : list (option Component) :=
  if decide (0 ≤ index) then arraySet None arr (Z.to_nat index) x else arr.

(** The fields of the class; [views] belongs to [view], which is not
    part of this development. *)
Record World : Type := MkWorld {
  ids : IdPoolDefs.IdPool;
  entities : SparseSetDefs.SparseSet;
  componentsStorage : TypeStorage
}.

(** [new World()] *)
Definition new : World := MkWorld IdPoolDefs.new (SparseSetDefs.new 2048) [].

(** [exists(entity)] *)
Definition exists_ (entity : Z) (w : World) : bool := SparseSetDefs.has entity (entities w).

(** [size()] *)
Definition size (w : World) : Z := SparseSetDefs.getSize (entities w).

(** [has(entity, component)] *)
Definition has (entity : Z) (type : string) (w : World) : bool :=
  match csGet (componentsStorage w) type with
  | None => false
  | Some storage => SparseSetDefs.has entity (sparseSet storage)
  end.

(** [get(entity, component)] *)
Definition get (entity : Z) (type : string) (w : World) : option Component :=
  match csGet (componentsStorage w) type with
  | None => None
  | Some storage =>
      if negb (SparseSetDefs.has entity (sparseSet storage)) then None
      else
        match SparseSetDefs.get entity (sparseSet storage) with
        | Some index => componentAt (components storage) index
        | None => None
        end
  end.

(** [emplace(entity, component)]. The components are taken to have no
    property [name] of their own, so the type is the name of the class.
    The storage is registered before [add] runs, so it stays when [add]
    throws. *)
Definition emplace (entity : Z) (component : Component) (w : World) : World * Result unit :=
  let type := ctor component in
  if negb (SparseSetDefs.has entity (entities w)) then (w, Throw (DeadEntity type entity))
  else
    let storage :=
      default (MkComponentStorage [] (SparseSetDefs.new 2048))
              (csGet (componentsStorage w) type) in
    match SparseSetDefs.add entity (sparseSet storage) with
    | Throw e =>
        (MkWorld (ids w) (entities w) (csSet type storage (componentsStorage w)), Throw e)
    | Ok (index, sparseSet1) =>
        (MkWorld (ids w) (entities w)
           (csSet type
              (MkComponentStorage (setComponentAt (components storage) index (Some component))
                 sparseSet1)
              (componentsStorage w)),
         Ok tt)
    end.

(** The loop of [create] over the components. *)
Fixpoint emplaceAll (entity : Z) (cs : list Component) (w : World) : World * Result unit :=
  match cs with
  | [] => (w, Ok tt)
  | c :: rest =>
      match emplace entity c w with
      | (w1, Ok _) => emplaceAll entity rest w1
      | (w1, Throw e) => (w1, Throw e)
      end
  end.

(** [create(...components)] *)
Definition create (cs : list Component) (w : World) : World * Result Z :=
  match IdPoolDefs.reserve (ids w) with
  | Throw e => (w, Throw e)
  | Ok (entity, ids1) =>
      match SparseSetDefs.add entity (entities w) with
      | Throw e => (MkWorld ids1 (entities w) (componentsStorage w), Throw e)
      | Ok (_, entities1) =>
          match emplaceAll entity cs (MkWorld ids1 entities1 (componentsStorage w)) with
          | (w1, Ok _) => (w1, Ok entity)
          | (w1, Throw e) => (w1, Throw e)
          end
      end
  end.

(** [remove(entity, component)] *)
Definition remove (entity : Z) (type : string) (w : World) : World * option Component :=
  match csGet (componentsStorage w) type with
  | None => (w, None)
  | Some storage =>
      if negb (SparseSetDefs.has entity (sparseSet storage)) then (w, None)
      else
        let index := default 0 (SparseSetDefs.get entity (sparseSet storage)) in
        let out := componentAt (components storage) index in
        let lastIndex := SparseSetDefs.getSize (sparseSet storage) - 1 in
        let components1 :=
          setComponentAt (components storage) index
            (componentAt (components storage) lastIndex) in
        (MkWorld (ids w) (entities w)
           (csSet type
              (MkComponentStorage (removelast components1)
                 (SparseSetDefs.remove entity (sparseSet storage)))
              (componentsStorage w)),
         out)
  end.

(** The body of the loop of [destroy] for one storage: the component
    whose [free] it calls, if any, and the storage afterwards. The array
    [components] is left as it is. *)
Definition destroyIn (entity : Z) (storage : ComponentStorage)
    : option Component * ComponentStorage :=
  if SparseSetDefs.has entity (sparseSet storage) then
    let index := default 0 (SparseSetDefs.get entity (sparseSet storage)) in
    (match componentAt (components storage) index with
     | Some c => if hasFree c then Some c else None
     | None => None
     end,
     MkComponentStorage (components storage) (SparseSetDefs.remove entity (sparseSet storage)))
  else (None, storage).

(** [destroy(entity)]: the world afterwards, and the components whose
    [free()] it calls, in the order of the calls. A [free] method gets no
    argument; it is taken to return without touching the world. *)
Definition destroy (entity : Z) (w : World) : World * list Component :=
  (MkWorld (IdPoolDefs.release entity (ids w))
     (SparseSetDefs.remove entity (entities w))
     ((λ kst, (kst.1, (destroyIn entity kst.2).2)) <$> componentsStorage w),
   omap (λ kst, (destroyIn entity kst.2).1) (componentsStorage w)).

(** The world after the calls [create(...cs)] for the lists [css], one
    after the other. *)
Definition createAll (css : list (list Component)) (w : World) : World :=
  foldl (λ w cs, (create cs w).1) w css.

End SparseWorldDefs.

(** * Properties *)

(** ** The subsequence iterator of the trie *)

Section trie_search.
Import TrieDefs.
Context {S : Type} `{Countable S} {T : Type}.
Implicit Types (t b : Trie S T) (it : TrieSubsequenceIterator S T) (q : list S)
  (fr : Frames S T).

Lemma stackAt_ext it it' fr :
  (∀ j, (j < length fr)%nat → path it' !! j = path it !! j ∧ seqIdx it' !! j = seqIdx it !! j) →
  stackAt it fr → stackAt it' fr.
Proof.
  induction fr as [|[t i] below IH]; simpl; [done|].
  intros Hext (Hp & Hs & Hb).
  destruct (Hext (length below)) as [-> ->]; [lia|].
  split_and!; try done. apply IH; [|done]. intros j Hj. apply Hext. lia.
Qed.

Lemma pendingCost_cons n t i below :
  pendingCost n ((t, i) :: below) = (belowCost (Z.to_nat (n - i)) + pendingCost n below)%nat.
Proof. done. Qed.

Lemma topCost_pos d : (1 ≤ topCost d)%nat.
Proof. destruct d; simpl; lia. Qed.

Lemma belowCost_lt_top d : (belowCost d < topCost d)%nat.
Proof. destruct d; simpl; lia. Qed.

Lemma scanBranches_drop_none t q i :
  0 ≤ i → seqAt q i ≫= branch t = None →
  scanBranches t (drop (Z.to_nat i) q) = scanBranches t (drop (Z.to_nat (i + 1)) q).
Proof.
  intros Hi Hb. unfold seqAt in Hb. rewrite decide_True in Hb by done.
  replace (Z.to_nat (i + 1)) with (Datatypes.S (Z.to_nat i)) by lia.
  destruct (q !! Z.to_nat i) as [s|] eqn:Hq; simpl in Hb.
  - rewrite (drop_S _ _ _ Hq). simpl. by rewrite Hb.
  - apply lookup_ge_None in Hq. rewrite !drop_ge; [done|lia|lia].
Qed.

Lemma scanBranches_drop_some t b q i :
  0 ≤ i → seqAt q i ≫= branch t = Some b →
  scanBranches t (drop (Z.to_nat i) q) =
    (option_list (value b) ++ scanBranches b (drop (Z.to_nat (i + 1)) q))
    ++ scanBranches t (drop (Z.to_nat (i + 1)) q)
  ∧ i < Z.of_nat (length q).
Proof.
  intros Hi Hb. unfold seqAt in Hb. rewrite decide_True in Hb by done.
  replace (Z.to_nat (i + 1)) with (Datatypes.S (Z.to_nat i)) by lia.
  destruct (q !! Z.to_nat i) as [s|] eqn:Hq; simpl in Hb; [|done].
  rewrite (drop_S _ _ _ Hq). simpl. rewrite Hb. split; [done|].
  apply lookup_lt_Some in Hq. lia.
Qed.

Lemma scanBranches_drop_end t q i :
  Z.of_nat (length q) ≤ i → scanBranches t (drop (Z.to_nat i) q) = [].
Proof. intros. rewrite drop_ge; [done|lia]. Qed.

Lemma backtrack_unfold n pl it :
  backtrack n pl it =
    i ← seqIdx it !! pl;
    if decide (n ≤ i + 1) then
      let it1 := MkIt (path it) (<[pl := -1]> (seqIdx it)) (pathLen it) (seq it) (itValue it) in
      match pl with
      | O => Some (true, it1)
      | Datatypes.S pl' =>
          backtrack n pl'
            (MkIt (delete pl (path it1)) (seqIdx it1) (pathLen it1) (seq it1) (itValue it1))
      end
    else
      Some (false, MkIt (path it) (<[pl := i + 1]> (seqIdx it)) pl (seq it) (itValue it)).
Proof. by destruct pl. Qed.

(** The inner loop, started at the deepest level of [fr]. *)
Lemma backtrack_spec q fr : ∀ it,
  fr ≠ [] → stackAt it fr → inRange (Z.of_nat (length q)) fr → seq it = Some q →
  ∃ stop it', backtrack (Z.of_nat (length q)) (pred (length fr)) it = Some (stop, it') ∧
    itValue it' = itValue it ∧
    if stop then pending q fr = []
    else ∃ fr', atRound q it' fr' ∧ remaining q fr' = pending q fr ∧
                (cost (Z.of_nat (length q)) fr' < pendingCost (Z.of_nat (length q)) fr)%nat.
Proof.
  set (n := Z.of_nat (length q)).
  induction fr as [|[t i] below IH]; [done|].
  intros it _ (Hp & Hs & Hb) Hr Hq. simpl pred.
  apply Forall_cons in Hr as [Hi Hr]. simpl in Hi.
  destruct (decide (n ≤ i + 1)) as [Hend|Hmore].
  - (* this level is finished *)
    destruct below as [|f below'].
    + simpl in *. rewrite Hs. simpl. rewrite decide_True by done.
      eexists true, _. split; [done|]. split; [done|].
      rewrite scanBranches_drop_end; [done|lia].
    + set (it2 := MkIt (delete (length (f :: below')) (path it))
                    (<[length (f :: below') := -1]> (seqIdx it)) (pathLen it) (seq it) (itValue it)).
      destruct (IH it2) as (stop & it' & Hbt & Hv & Hres); [done| |done|done|].
      { eapply stackAt_ext; [|done]. intros j Hj. simpl in Hj |- *.
        rewrite lookup_delete_ne by lia. rewrite lookup_insert_ne by lia. done. }
      exists stop, it'. split.
      { cbn [backtrack length]. cbn [length] in Hs. rewrite Hs. simpl.
        rewrite decide_True by done. exact Hbt. }
      split; [done|].
      cbn [pending]. rewrite (scanBranches_drop_end t q (i + 1)) by lia. simpl app.
      destruct stop; [done|].
      destruct Hres as (fr' & ? & ? & ?). exists fr'. split_and!; try done.
      rewrite pendingCost_cons. lia.
  - (* one more position at this level *)
    eexists false, _. split.
    { rewrite backtrack_unfold, Hs. simpl. by rewrite decide_False. }
    split; [done|].
    exists ((t, i + 1) :: below). split_and!.
    + split_and!; try done.
      * simpl. split_and!.
        -- done.
        -- by rewrite lookup_insert_eq.
        -- eapply stackAt_ext; [|done]. intros j Hj. simpl.
           rewrite lookup_insert_ne by lia. done.
      * apply Forall_cons. split; [simpl; lia|done].
    + done.
    + cbn [cost]. rewrite pendingCost_cons.
      replace (Z.to_nat (n - i)) with (Datatypes.S (Z.to_nat (n - (i + 1)))) by lia.
      cbn [belowCost]. lia.
Qed.

Local Arguments backtrack : simpl never.

Lemma stackAt_bottom it fr :
  fr ≠ [] → stackAt it fr → ∃ f, last fr = Some f ∧ path it !! 0%nat = Some f.1.
Proof.
  induction fr as [|[t i] below IH]; [done|]. intros _ (Hp & Hs & Hb).
  destruct below as [|f below'].
  - exists (t, i). done.
  - destruct IH as (f' & ? & ?); [done|done|]. exists f'. done.
Qed.

(** One round of the outer loop. *)
Lemma round_spec q it fr :
  atRound q it fr →
  ∃ r, round q it = Some r ∧
    match r with
    | Return true it' =>
        ∃ v fr', itValue it' = Some v ∧ atRound q it' fr' ∧
          remaining q fr = v :: remaining q fr' ∧
          (cost (Z.of_nat (length q)) fr' < cost (Z.of_nat (length q)) fr)%nat
    | Return false it' => remaining q fr = []
    | Continue it' =>
        ∃ fr', atRound q it' fr' ∧ remaining q fr' = remaining q fr ∧
          itValue it' = itValue it ∧
          (cost (Z.of_nat (length q)) fr' < cost (Z.of_nat (length q)) fr)%nat
    end.
Proof.
  set (n := Z.of_nat (length q)).
  intros (Hq & Hne & Hpl & Hst & Hr).
  destruct fr as [|[t i] below]; [done|]. simpl in Hpl.
  pose proof Hst as (Hp & Hs & Hb).
  pose proof Hr as [Hi Hrb]%Forall_cons. simpl in Hi.
  unfold round. rewrite Hpl, Hp, Hs. cbn [mbind option_bind]. fold n.
  destruct (seqAt q i ≫= branch t) as [b|] eqn:Hbr.
  - (* the branch exists: one level deeper *)
    apply scanBranches_drop_some in Hbr as [Hscan Hlt]; [|lia].
    set (it1 := MkIt (<[Datatypes.S (length below) := b]> (path it))
                  (<[Datatypes.S (length below) := i + 1]> (seqIdx it))
                  (Datatypes.S (length below)) (seq it) (itValue it)).
    set (fr1 := (b, i + 1) :: (t, i) :: below).
    assert (Hst1 : ∀ v, stackAt (MkIt (path it1) (seqIdx it1) (pathLen it1) (seq it1) v) fr1).
    { intros v0. simpl. rewrite !lookup_insert_eq. split_and!; try done.
      - rewrite lookup_insert_ne by lia. done.
      - rewrite lookup_insert_ne by lia. done.
      - eapply stackAt_ext; [|exact Hb]. intros j Hj. simpl.
        rewrite !lookup_insert_ne by lia. done. }
    assert (Hr1 : inRange n fr1).
    { apply Forall_cons. split; [simpl; lia|done]. }
    assert (Hrem : remaining q ((t, i) :: below) = option_list (value b) ++ remaining q fr1).
    { simpl. rewrite Hscan. by rewrite <-!app_assoc. }
    assert (Hcost : (cost n fr1 < cost n ((t, i) :: below))%nat).
    { unfold fr1. cbn [cost]. rewrite pendingCost_cons.
      replace (Z.to_nat (n - i)) with (Datatypes.S (Z.to_nat (n - (i + 1)))) by lia.
      cbn [topCost belowCost]. lia. }
    destruct (value b) as [v|] eqn:Hv.
    + eexists. split; [done|]. exists v, fr1. split_and!; try done.
    + change (remaining q ((t, i) :: below) = remaining q fr1) in Hrem.
      destruct (decide (n ≤ i + 1)) as [Hend|Hmore].
      * destruct (backtrack_spec q fr1 it1) as (stop & it' & Hbt & Hval & Hres); try done.
        { apply (Hst1 (itValue it)). }
        simpl pred in Hbt. fold n in Hbt. rewrite Hbt.
        assert (Hrp : remaining q fr1 = pending q fr1).
        { unfold fr1. cbn [remaining pending].
          rewrite (scanBranches_drop_end b q (i + 1)) by lia.
          rewrite (scanBranches_drop_end b q (i + 1 + 1)) by lia. done. }
        assert (Hcp : (pendingCost n fr1 ≤ cost n fr1)%nat).
        { unfold fr1. cbn [cost]. rewrite (pendingCost_cons n b).
          pose proof (belowCost_lt_top (Z.to_nat (n - (i + 1)))). lia. }
        destruct stop; cbn [afterBacktrack].
        -- eexists. split; [done|]. cbn beta iota. by rewrite Hrem, Hrp.
        -- eexists. split; [done|]. cbn beta iota.
           destruct Hres as (fr' & ? & ? & ?). exists fr'.
           split_and!; [done|congruence|exact Hval|subst n; lia].
      * eexists. split; [done|]. exists fr1. split_and!; try done.
        split_and!; try done. apply (Hst1 (itValue it)).
  - (* no such branch: next position, or back up *)
    destruct (backtrack_spec q ((t, i) :: below) it) as (stop & it' & Hbt & Hval & Hres);
      try done.
    simpl pred in Hbt. fold n in Hbt. rewrite Hbt.
    assert (Hrp : remaining q ((t, i) :: below) = pending q ((t, i) :: below)).
    { cbn [remaining pending]. by rewrite (scanBranches_drop_none t q i) by (done || lia). }
    assert (Hcp : (pendingCost n ((t, i) :: below) < cost n ((t, i) :: below))%nat).
    { cbn [cost]. rewrite pendingCost_cons.
      pose proof (belowCost_lt_top (Z.to_nat (n - i))). lia. }
    destruct stop; cbn [afterBacktrack].
    + eexists. split; [done|]. cbn beta iota. by rewrite Hrp.
    + eexists. split; [done|]. cbn beta iota.
      destruct Hres as (fr' & ? & ? & ?). exists fr'.
      split_and!; [done|congruence|exact Hval|subst n; lia].
Qed.

(** The outer loop ends within [cost] rounds. *)
Lemma rounds_spec q : ∀ c it fr fuel,
  atRound q it fr → (cost (Z.of_nat (length q)) fr ≤ c)%nat → (c ≤ fuel)%nat →
  ∃ found it', rounds fuel q it = Some (found, it') ∧
    if found then
      ∃ v fr', itValue it' = Some v ∧ atRound q it' fr' ∧
        remaining q fr = v :: remaining q fr' ∧
        (cost (Z.of_nat (length q)) fr' < cost (Z.of_nat (length q)) fr)%nat
    else remaining q fr = [].
Proof.
  induction c as [|c IH]; intros it fr fuel Hat Hc Hf.
  - destruct Hat as (_ & Hne & _). destruct fr as [|[t i] below]; [done|].
    simpl in Hc. pose proof (topCost_pos (Z.to_nat (Z.of_nat (length q) - i))). lia.
  - destruct fuel as [|fuel]; [lia|].
    destruct (round_spec q it fr Hat) as (r & Hr & Hres).
    simpl. rewrite Hr. destruct r as [[] it'|it'].
    + exists true, it'. done.
    + exists false, it'. done.
    + destruct Hres as (fr' & Hat' & Hrem & Hval & Hlt).
      destruct (IH it' fr' fuel Hat') as (found & it'' & Hrs & Hres); [lia|lia|].
      exists found, it''. split; [done|].
      destruct found; [|congruence].
      destruct Hres as (v & fr'' & ? & ? & ? & ?). exists v, fr''.
      split_and!; try done; [congruence|lia].
Qed.

Lemma next_rounds q it fr fuel :
  atRound q it fr → pastRoot it → next fuel it = rounds fuel q it.
Proof.
  intros (Hq & Hne & Hpl & Hst & Hr) Hpast.
  destruct (stackAt_bottom it fr Hne Hst) as (f & _ & Hroot).
  unfold next. rewrite Hq, Hroot.
  destruct Hpast as [[v Hv]|Hnone].
  - by rewrite Hv.
  - rewrite (Hnone _ Hroot). by destruct (itValue it), (pathLen it).
Qed.

Lemma drive_spec q : ∀ calls it fr fuel,
  atRound q it fr → pastRoot it →
  (cost (Z.of_nat (length q)) fr < calls)%nat → (cost (Z.of_nat (length q)) fr ≤ fuel)%nat →
  drive calls fuel it = Some (remaining q fr).
Proof.
  induction calls as [|calls IH]; intros it fr fuel Hat Hpast Hc Hf; [lia|].
  simpl. rewrite (next_rounds q it fr) by done.
  destruct (rounds_spec q _ it fr fuel Hat (le_n _) Hf) as (found & it' & -> & Hres).
  destruct found.
  - destruct Hres as (v & fr' & Hv & Hat' & -> & Hlt). rewrite Hv.
    rewrite (IH it' fr'); [done|done| |lia|lia]. left. by exists v.
  - by rewrite Hres.
Qed.

Lemma topCost_closed d : (topCost d + 2 = 3 * 2 ^ d)%nat.
Proof. induction d as [|d IH]; [done|]. cbn [topCost]. rewrite Nat.pow_succ_r'. lia. Qed.

(** The iterator, reset on [q] with the trie [t] at [path[0]] and driven
    to the end, yields the values of the recursive search, in its order,
    whatever else the iterator held before. *)
Lemma drive_reset q t tr it0 calls fuel :
  path (reset (Some q) tr it0) !! 0%nat = Some t →
  (searchFuel (length q) ≤ calls)%nat → (searchFuel (length q) ≤ fuel)%nat →
  drive calls fuel (reset (Some q) tr it0) = Some (foreachSubsequenceInTrie t q).
Proof.
  intros Hroot Hc Hf. unfold searchFuel in *.
  pose proof (topCost_closed (length q)) as Hcost.
  set (it := reset (Some q) tr it0) in *.
  assert (Hat : ∀ v, atRound q (MkIt (path it) (seqIdx it) (pathLen it) (seq it) v) [(t, 0)]).
  { intros v. split_and!; try done.
    - simpl. split_and!; [done| |done]. apply lookup_insert_eq.
    - apply Forall_cons. split; [simpl; lia|done]. }
  assert (Hcost0 : cost (Z.of_nat (length q)) [(t, 0)] = topCost (length q)).
  { simpl. rewrite Z.sub_0_r, Nat2Z.id. lia. }
  unfold foreachSubsequenceInTrie, subsequenceValues.
  destruct (value t) as [v|] eqn:Hv.
  - destruct calls as [|calls]; [lia|].
    cbn [drive]. unfold next at 1. rewrite Hroot, Hv. cbn [seq it reset itValue pathLen].
    rewrite (drive_spec q calls _ [(t, 0)]);
      [|apply (Hat (Some v))|left; by eexists|rewrite Hcost0; lia|rewrite Hcost0; lia].
    simpl. by rewrite app_nil_r.
  - rewrite (drive_spec q calls it [(t, 0)]);
      [|apply (Hat None)| |rewrite Hcost0; lia|rewrite Hcost0; lia].
    + simpl. by rewrite app_nil_r.
    + right. intros root. rewrite Hroot. by intros [= <-].
Qed.

Lemma elem_of_sublists {A} (p l : list A) : p ∈ sublists l ↔ p `sublist_of` l.
Proof.
  revert p. induction l as [|x l IH]; intros p; simpl.
  - rewrite list_elem_of_singleton, sublist_nil_r. done.
  - rewrite elem_of_app, list_elem_of_fmap, sublist_cons_r. split.
    + intros [(p' & -> & Hp')|Hp]; [right|left]; [|by apply IH].
      exists p'. split; [done|]. by apply IH.
    + intros [Hp|(p' & -> & Hp')]; [right|left]; [by apply IH|].
      exists p'. split; [done|]. by apply IH.
Qed.

Lemma NoDup_sublists {A} (l : list A) : NoDup l → NoDup (sublists l).
Proof.
  induction 1 as [|x l Hx Hl IH]; simpl.
  - apply NoDup_singleton.
  - apply NoDup_app. split_and!.
    + apply NoDup_fmap_2; [|done]. by intros ?? [=].
    + intros p (p' & -> & Hp')%list_elem_of_fmap Hp.
      apply elem_of_sublists in Hp. apply Hx.
      eapply elem_of_sublist; [|exact Hp]. left.
    + done.
Qed.

Lemma omap_fmap_cons {A B} (f : list A → option B) (x : A) (ls : list (list A)) :
  omap f (cons x <$> ls) = omap (λ p, f (x :: p)) ls.
Proof. induction ls as [|p ls IH]; [done|]. csimpl. by rewrite IH. Qed.

Lemma omap_ext_eq {A B} (f g : A → option B) (l : list A) :
  (∀ x, f x = g x) → omap f l = omap g l.
Proof. intros Hfg. induction l as [|x l IH]; [done|]. csimpl. by rewrite Hfg, IH. Qed.

Lemma omap_none {A B} (l : list A) : omap (λ _, @None B) l = [].
Proof. by induction l. Qed.

(** The recursive search visits the stored sequences that are
    subsequences of [q], one visit per way of choosing the positions. *)
Lemma subsequenceValues_sublists : ∀ q t,
  subsequenceValues t q ≡ₚ omap (getInTrie t) (sublists q).
Proof.
  unfold subsequenceValues.
  induction q as [|s q IH]; intros t.
  - simpl. by destruct (value t).
  - cbn [scanBranches sublists]. rewrite omap_app, omap_fmap_cons.
    rewrite app_assoc.
    rewrite (Permutation_app_comm (option_list (value t))).
    rewrite <-app_assoc. apply Permutation_app; [|apply IH].
    destruct (branch t s) as [b|] eqn:Hb.
    + rewrite IH. erewrite omap_ext_eq; [done|]. intros p. simpl. by rewrite Hb.
    + rewrite (omap_ext_eq _ (λ _, None)); [by rewrite omap_none|].
      intros p. simpl. by rewrite Hb.
Qed.

(** C2. For every trie and every query sequence [q] without duplicates,
    the iterator, reset on [q] and driven by [next] until it answers
    [false], yields the values stored at the nodes whose path is a
    subsequence of [q], each node once: the values yielded are, up to
    their order, the values at the sequences [paths], which are the
    subsequences of [q] without repetition. The trie is the one the
    iterator was built on ([path[0]]); the bounds [searchFuel] on the calls
    and on the rounds of a call are always enough. *)
Theorem trie_subsequence_enumeration (t : Trie S T) (q : list S)
    (it0 : TrieSubsequenceIterator S T) :
  NoDup q → path it0 !! 0%nat = Some t →
  ∃ (paths : list (list S)) (vs : list T),
    NoDup paths ∧ (∀ p, p ∈ paths ↔ p `sublist_of` q) ∧
    vs ≡ₚ omap (getInTrie t) paths ∧
    ∀ calls fuel, (searchFuel (length q) ≤ calls)%nat → (searchFuel (length q) ≤ fuel)%nat →
      drive calls fuel (reset (Some q) None it0) = Some vs.
Proof.
  intros Hq Hroot. exists (sublists q), (foreachSubsequenceInTrie t q). split_and!.
  - by apply NoDup_sublists.
  - intros p. apply elem_of_sublists.
  - apply subsequenceValues_sublists.
  - intros calls fuel. by apply drive_reset.
Qed.

End trie_search.

(** A trie with the sequences [A, B] and [B], searched for [A, B]. *)
Lemma trie_subsequence_enumeration_witness :
  let t := TrieDefs.setInTrie
             (TrieDefs.setInTrie TrieDefs.emptyTrie ["A"; "B"]%string 1%nat) ["B"%string] 2%nat in
  let q := ["A"; "B"]%string in
  let it0 := TrieDefs.reset (Some []) (Some t) TrieDefs.newIterator in
  NoDup q ∧ TrieDefs.path it0 !! 0%nat = Some t ∧
  ∃ (paths : list (list string)) (vs : list nat),
    NoDup paths ∧ (∀ p, p ∈ paths ↔ p `sublist_of` q) ∧
    vs ≡ₚ omap (TrieDefs.getInTrie t) paths ∧
    ∀ calls fuel,
      (TrieDefs.searchFuel (length q) ≤ calls)%nat →
      (TrieDefs.searchFuel (length q) ≤ fuel)%nat →
      TrieDefs.drive calls fuel (TrieDefs.reset (Some q) None it0) = Some vs.
Proof.
  intros t q it0.
  assert (Hq : NoDup q) by (apply (bool_decide_unpack _); vm_compute; exact I).
  assert (Hroot : TrieDefs.path it0 !! 0%nat = Some t) by reflexivity.
  split; [exact Hq|]. split; [exact Hroot|].
  exact (trie_subsequence_enumeration t q it0 Hq Hroot).
Defined.

(** ** SparseSet *)

Section sparse_set.
Import SparseSetDefs.
Implicit Types (s : SparseSet) (a : list Z).

Lemma new_wellFormed n : wellFormed (new n).
Proof. split; apply length_replicate. Qed.

Lemma taCopy_grow a n :
  (length a ≤ n)%nat →
  ∃ a', taCopy (taNew n) a = Ok a' ∧ length a' = n ∧
        ∀ i, (i < length a)%nat → a' !! i = a !! i.
Proof.
  intros Hn. unfold taCopy, taNew. rewrite length_replicate, decide_True by done.
  eexists. split; [done|]. split.
  - rewrite length_app, length_drop, length_replicate. lia.
  - intros i Hi. by rewrite lookup_app_l.
Qed.

Lemma grow_spec v s :
  wellFormed s → Z.of_nat (capacity s) ≤ v →
  ∃ s', grow v s = Ok s' ∧ wellFormed s' ∧ size s' = size s ∧
    capacity s' = Z.to_nat (Z.max (Z.of_nat (capacity s) * 2) (v + 1)) ∧
    (∀ i, (i < capacity s)%nat → dense s' !! i = dense s !! i) ∧
    (∀ i, (i < capacity s)%nat → sparse s' !! i = sparse s !! i).
Proof.
  intros [Hd Hs] Hv. unfold grow.
  set (n := Z.to_nat (Z.max (Z.of_nat (capacity s) * 2) (v + 1))).
  destruct (taCopy_grow (dense s) n) as (d' & -> & Hld & Hd'); [lia|].
  destruct (taCopy_grow (sparse s) n) as (s' & -> & Hls & Hs'); [lia|].
  eexists. split; [done|]. simpl. split_and!; try done.
  - intros i Hi. apply Hd'. lia.
  - intros i Hi. apply Hs'. lia.
Qed.

Lemma taGet_Some a i x : taGet a i = Some x ↔ 0 ≤ i ∧ a !! Z.to_nat i = Some x.
Proof.
  unfold taGet. case_decide as Hi; split.
  - by intros ?.
  - by intros [_ ?].
  - done.
  - by intros [? _].
Qed.

Lemma taGet_taSet_ne a i j x : i ≠ j → taGet (taSet a i x) j = taGet a j.
Proof.
  intros Hij. unfold taGet, taSet. repeat case_decide; try done.
  rewrite list_lookup_insert_ne; [done|lia].
Qed.

Lemma length_taSet a i x : length (taSet a i x) = length a.
Proof. unfold taSet. case_decide; [apply length_insert|done]. Qed.

(** Adding [v] keeps every other member. *)
Lemma add_keeps_others v s i s' u :
  add v s = Ok (i, s') → wellFormed s → u ≠ v → has u s = true → has u s' = true.
Proof.
  unfold add. case_decide as Hmax; [done|].
  intros Hadd Hwf Huv Hu. unfold has in Hu.
  destruct (taGet (sparse s) u) as [j|] eqn:Hsu; [|done].
  apply andb_true_iff in Hu as [Hj%bool_decide_eq_true Hu].
  destruct (taGet (dense s) j) as [x|] eqn:Hdj; [|done].
  apply bool_decide_eq_true in Hu as ->.
  apply taGet_Some in Hsu as [Hu0 Hsu]. apply taGet_Some in Hdj as [Hj0 Hdj].
  pose proof (lookup_lt_Some _ _ _ Hsu) as Hul. pose proof (lookup_lt_Some _ _ _ Hdj) as Hjl.
  destruct Hwf as [Hd Hs].
  assert (∃ s1, (if decide (Z.of_nat (capacity s) ≤ v) then grow v s else Ok s) = Ok s1 ∧
            size s1 = size s ∧ sparse s1 !! Z.to_nat u = Some j ∧ dense s1 !! Z.to_nat j = Some u)
    as (s1 & Hs1 & Hsz & Hsu1 & Hdj1).
  { case_decide as Hcap; [|by exists s].
    destruct (grow_spec v s) as (s1 & ? & ? & ? & ? & Hd1 & Hs1); [done|done|].
    exists s1. split_and!; try done.
    - rewrite Hs1; [done|lia].
    - rewrite Hd1; [done|lia]. }
  rewrite Hs1 in Hadd. injection Hadd as <- <-.
  unfold has. simpl.
  rewrite taGet_taSet_ne by done.
  replace (taGet (sparse s1) u) with (Some j) by (symmetry; by apply taGet_Some).
  rewrite taGet_taSet_ne by lia.
  replace (taGet (dense s1) j) with (Some u) by (symmetry; by apply taGet_Some).
  apply andb_true_iff. split; apply bool_decide_eq_true; [lia|done].
Qed.

(** A member is inside the arrays. *)
Lemma has_lt_capacity u s : wellFormed s → has u s = true → 0 ≤ u < Z.of_nat (capacity s).
Proof.
  intros [_ Hs]. unfold has. destruct (taGet (sparse s) u) as [j|] eqn:Hsu; [|done].
  intros _. apply taGet_Some in Hsu as [? Hsu%lookup_lt_Some]. lia.
Qed.

Lemma add_wellFormed v s i s' : add v s = Ok (i, s') → wellFormed s → wellFormed s'.
Proof.
  unfold add. case_decide; [done|]. intros Hadd Hwf.
  assert (∃ s1, (if decide (Z.of_nat (capacity s) ≤ v) then grow v s else Ok s) = Ok s1 ∧
            wellFormed s1) as (s1 & Hs1 & [Hd Hs]).
  { case_decide; [|by exists s].
    destruct (grow_spec v s) as (s1 & ? & ? & _); [done|done|]. by exists s1. }
  rewrite Hs1 in Hadd. injection Hadd as <- <-.
  split; simpl; by rewrite length_taSet.
Qed.

Lemma remove_wellFormed v s : wellFormed s → wellFormed (remove v s).
Proof.
  intros [Hd Hs]. unfold remove. case_decide; [done|].
  split; simpl.
  - destruct (taGet (sparse s) v); [by rewrite length_taSet|done].
  - destruct (taGet _ (size s - 1)); [by rewrite length_taSet|done].
Qed.

Lemma clear_wellFormed s : wellFormed s → wellFormed (clear s).
Proof. done. Qed.

(** C5, amended. On a set whose arrays have [capacity] elements, [add(v)]
    throws if and only if [v >= 550_000], the [maxCapacity] of the code.
    For [0 <= v < 550_000] it returns the index written, the old size;
    when [v >= capacity] the capacity becomes the larger of twice the
    capacity and [v + 1], and every value that was a member stays a
    member; otherwise the capacity is unchanged. *)
Theorem add_capacity_bound (v : Z) (s : SparseSet) :
  wellFormed s →
  ((∃ e, add v s = Throw e) ↔ 550000 ≤ v) ∧
  (0 ≤ v < 550000 →
   ∃ s', add v s = Ok (size s, s') ∧ wellFormed s' ∧
     if decide (Z.of_nat (capacity s) ≤ v) then
       capacity s' = Z.to_nat (Z.max (Z.of_nat (capacity s) * 2) (v + 1)) ∧
       (2 * capacity s ≤ capacity s')%nat ∧ v + 1 ≤ Z.of_nat (capacity s') ∧
       ∀ u, has u s = true → has u s' = true
     else capacity s' = capacity s).
Proof.
  intros Hwf.
  assert (Hok : v < 550000 → ∃ s', add v s = Ok (size s, s') ∧
            capacity s' = if decide (Z.of_nat (capacity s) ≤ v)
                          then Z.to_nat (Z.max (Z.of_nat (capacity s) * 2) (v + 1))
                          else capacity s).
  { intros Hv. unfold add, maxCapacity. rewrite decide_False by lia.
    case_decide as Hcap.
    - destruct (grow_spec v s) as (s1 & -> & _ & -> & -> & _); [done|done|].
      eexists. split; [done|]. done.
    - eexists. split; [done|]. done. }
  split.
  - split.
    + intros [e He]. destruct (decide (550000 ≤ v)); [done|].
      destruct Hok as (s' & Hs' & _); [lia|]. congruence.
    + intros Hv. unfold add, maxCapacity. rewrite decide_True by done. by eexists.
  - intros [Hv0 Hv]. destruct Hok as (s' & Hadd & Hcap); [done|].
    exists s'. split; [done|]. split; [by eapply add_wellFormed|].
    case_decide as Hgrow; [|done].
    split_and!; [done|lia|lia|].
    intros u Hu. eapply add_keeps_others; [done|done| |done].
    apply (has_lt_capacity u s) in Hu; [lia|done].
Qed.

(** A set of capacity 4 that receives 10. *)
Lemma add_capacity_bound_witness :
  wellFormed (new 4) ∧ 0 ≤ 10 < 550000 ∧
  ∃ s', add 10 (new 4) = Ok (0, s') ∧ capacity s' = 11%nat.
Proof.
  split; [apply new_wellFormed|]. split; [lia|].
  destruct (add_capacity_bound 10 (new 4) (new_wellFormed 4)) as [_ Hadd].
  destruct (Hadd ltac:(lia)) as (s' & Hs' & _ & Hcap).
  exists s'. split; [exact Hs'|]. rewrite decide_True in Hcap by (simpl; lia).
  destruct Hcap as [-> _]. reflexivity.
Defined.

(** C5 with the bound 560_000 fails: 555_000 is below it, and [add]
    throws on a new set of capacity 2048. *)
Lemma add_bound_560000_fails :
  ¬ (∀ v s, wellFormed s → ((∃ e, add v s = Throw e) ↔ 560000 ≤ v)).
Proof.
  intros Hclaim.
  destruct (Hclaim 555000 (new 2048) (new_wellFormed _)) as [Hthrows _].
  assert (560000 ≤ 555000); [|lia].
  apply Hthrows. eexists. reflexivity.
Qed.
End sparse_set.

(** ** Sorting and IdPool *)

Section sort_perm.
Lemma insertSorted_perm {A} cmp (x : A) l : insertSorted cmp x l ≡ₚ x :: l.
Proof.
  induction l as [|y l IH]; simpl; [done|].
  case_decide; [done|]. rewrite IH. apply Permutation_swap.
Qed.

Lemma jsSort_perm {A} cmp (l : list A) : jsSort cmp l ≡ₚ l.
Proof.
  unfold jsSort. rewrite <-(app_nil_l l) at 2. generalize (@nil A) as acc.
  induction l as [|x l IH]; intros acc; simpl.
  - by rewrite app_nil_r.
  - rewrite IH, insertSorted_perm. simpl. apply Permutation_middle.
Qed.
End sort_perm.

Section id_pool.
Import IdPoolDefs.
Implicit Types (pool before after : IdPool) (iv : Interval).

Lemma MAX_SAFE_INTEGER_value : MAX_SAFE_INTEGER = 9007199254740991.
Proof. reflexivity. Qed.

(** One call of [reserve] on intervals that lie apart from [id] does not
    answer [id], and leaves such intervals. *)
Lemma reserve_apart id pool r pool' :
  id ≠ 0 → Forall (apartFrom id) pool → reserve pool = Ok (r, pool') →
  r ≠ id ∧ Forall (apartFrom id) pool'.
Proof.
  intros Hid Hpool. destruct pool as [|first rest]; [done|].
  pose proof Hpool as [Hfirst Hrest]%Forall_cons.
  unfold apartFrom in Hfirst. unfold reserve.
  repeat case_decide; intros [= <- <-]; (split; [lia|]); try done.
  apply Forall_cons. split; [|done]. unfold apartFrom. simpl. lia.
Qed.

Lemma reserveMany_apart id : ∀ n pool,
  id ≠ 0 → Forall (apartFrom id) pool → id ∉ reserveMany n pool.
Proof.
  induction n as [|n IH]; intros pool Hid Hpool; simpl; [apply not_elem_of_nil|].
  destruct (reserve pool) as [[r pool']|err] eqn:Hres; [|apply not_elem_of_nil].
  destruct (reserve_apart id pool r pool' Hid Hpool Hres) as [Hr Hpool'].
  apply not_elem_of_cons. split; [done|]. by apply IH.
Qed.

Lemma findIndex_middle id before iv after :
  Forall (apartFrom id) before → strictlyInside id iv →
  findIndex id (before ++ iv :: after) = Some (length before, iv).
Proof.
  intros Hbefore [Hl Hr]. unfold findIndex. apply list_find_Some. split; [|split].
  - by rewrite list_lookup_middle.
  - simpl. lia.
  - intros j y Hj Hlt. rewrite lookup_app_l in Hj by done.
    rewrite Forall_forall in Hbefore.
    destruct (Hbefore y) as [?|?]; [by eapply list_elem_of_lookup_2|lia|lia].
Qed.

Lemma release_middle id before iv after :
  id ≠ 0 → id ≠ MAX_SAFE_INTEGER →
  Forall (apartFrom id) before → strictlyInside id iv →
  release id (before ++ iv :: after) =
    jsSort compareIntervals
      (before ++ [MkInterval (left iv) id; MkInterval (id + 1) (right iv)] ++ after).
Proof.
  intros Hid Hmax Hbefore Hiv. unfold release.
  rewrite decide_False by lia. rewrite (findIndex_middle id before iv after) by done.
  assert (Hdrop : drop (Datatypes.S (length before)) (before ++ iv :: after) = after).
  { rewrite (cons_middle iv before after), app_assoc.
    apply drop_app_length'. rewrite length_app. simpl. lia. }
  by rewrite take_app_length, Hdrop.
Qed.

(** C7, amended. [release(id)] of an id that is free is not a no-op. When
    [id] is inside a free interval and is not its left end, and the other
    intervals lie apart from [id], the call replaces the interval
    [[left, right)] by [[left, id)] and [[id + 1, right)], and after it no
    sequence of calls of [reserve] answers [id]. *)
Theorem release_free_id_removes_it (before : IdPool) (iv : Interval) (after : IdPool)
    (id : Z) :
  id ≠ 0 → id ≠ MAX_SAFE_INTEGER →
  Forall (apartFrom id) before → strictlyInside id iv → Forall (apartFrom id) after →
  let pool := before ++ iv :: after in
  isFree id pool = true ∧
  release id pool ≡ₚ
    before ++ [MkInterval (left iv) id; MkInterval (id + 1) (right iv)] ++ after ∧
  ∀ n, id ∉ reserveMany n (release id pool).
Proof.
  intros Hid Hmax Hbefore Hiv Hafter pool. unfold pool. split_and!.
  - unfold isFree. rewrite (findIndex_middle id before iv after) by done.
    by apply bool_decide_eq_true.
  - rewrite release_middle by done. apply jsSort_perm.
  - intros n. apply reserveMany_apart; [done|].
    rewrite release_middle by done. rewrite jsSort_perm.
    destruct Hiv as [Hl Hr].
    apply Forall_app. split; [done|]. apply Forall_cons. split.
    { unfold apartFrom. simpl. lia. }
    apply Forall_cons. split; [|done]. unfold apartFrom. simpl. lia.
Qed.

(** On a new pool, after [release(5)], [reserve] never answers 5. *)
Lemma release_free_id_removes_it_witness :
  isFree 5 new = true ∧ ∀ n, 5 ∉ reserveMany n (release 5 new).
Proof.
  destruct (release_free_id_removes_it [] (MkInterval 1 MAX_SAFE_INTEGER) [] 5)
    as (Hfree & _ & Hnever).
  - lia.
  - rewrite MAX_SAFE_INTEGER_value. lia.
  - constructor.
  - unfold strictlyInside. simpl. rewrite MAX_SAFE_INTEGER_value. lia.
  - constructor.
  - split; [exact Hfree|exact Hnever].
Defined.

(** C7 fails as stated: on a new pool every id is free, and [release(5)]
    changes what the next five calls of [reserve] answer. *)
Lemma release_free_id_not_noop :
  isFree 5 new = true ∧
  reserveMany 5 new = [1; 2; 3; 4; 5] ∧
  reserveMany 5 (release 5 new) = [1; 2; 3; 4; 6].
Proof. split_and!; reflexivity. Qed.
End id_pool.

(** ** IndexBase and IndexIterator *)

Section index_iterator.
Import IndexDefs.
Implicit Types (ib : IndexBase) (ms : list Mutation).

Lemma remove_unfold entity ib :
  remove entity ib =
    match entityISByEntity ib !! entity with
    | None => (false, ib)
    | Some iS =>
        (true,
         MkIndexBase (types ib) (delete entity (entityISByEntity ib))
           (storeComponents iS (length (types ib)) []
              (arraySet CUndefined (storage ib) iS CUndefined))
           (freeISs ib ++ [iS]) (addVer ib) (addVerObserved ib)
           (if remVerObserved ib then remVer ib + 1 else remVer ib) false)
    end.
Proof. done. Qed.

Lemma add_addVer entity cs ib :
  addVer (add entity cs ib) = (if addVerObserved ib then addVer ib + 1 else addVer ib) ∧
  addVerObserved (add entity cs ib) = false ∧
  remVer (add entity cs ib) = remVer ib ∧
  remVerObserved (add entity cs ib) = remVerObserved ib.
Proof.
  unfold add. destruct (entityISByEntity ib !! entity); [done|].
  by destruct (arrayPop (freeISs ib)) as [[]|].
Qed.

Lemma remove_vers entity ib :
  addVer (remove entity ib).2 = addVer ib ∧
  addVerObserved (remove entity ib).2 = addVerObserved ib ∧
  remVer (remove entity ib).2 =
    (if (remove entity ib).1 && remVerObserved ib then remVer ib + 1 else remVer ib) ∧
  remVerObserved (remove entity ib).2 = negb (remove entity ib).1 && remVerObserved ib.
Proof. rewrite remove_unfold. destruct (entityISByEntity ib !! entity); simpl; by destruct (remVerObserved ib). Qed.

Lemma addVer_mono ms : ∀ ib, addVer ib ≤ addVer (foldl mutate ib ms).
Proof.
  induction ms as [|m ms IH]; intros ib; [done|]. simpl.
  etrans; [|apply IH]. destruct m; simpl.
  - destruct (add_addVer entity components ib) as (-> & _). destruct (addVerObserved ib); lia.
  - destruct (remove_vers entity ib) as (-> & _). done.
  - done.
  - done.
Qed.

Lemma remVer_mono ms : ∀ ib, remVer ib ≤ remVer (foldl mutate ib ms).
Proof.
  induction ms as [|m ms IH]; intros ib; [done|]. simpl.
  etrans; [|apply IH]. destruct m; simpl.
  - destruct (add_addVer entity components ib) as (_ & _ & -> & _). done.
  - destruct (remove_vers entity ib) as (_ & _ & -> & _).
    destruct ((remove entity ib).1 && remVerObserved ib); lia.
  - done.
  - done.
Qed.

(** Once the counter was looked at, it moves exactly when an [add] runs. *)
Lemma addVer_moves ms : ∀ ib,
  addVerObserved ib = true →
  (addVer ib < addVer (foldl mutate ib ms) ↔ anyAdd ms = true).
Proof.
  induction ms as [|m ms IH]; intros ib Hobs; simpl.
  - split; [lia|done].
  - destruct m; simpl.
    + split; [done|]. intros _.
      pose proof (addVer_mono ms (add entity components ib)) as Hm.
      destruct (add_addVer entity components ib) as (Ha & _). rewrite Ha, Hobs in Hm. lia.
    + destruct (remove_vers entity ib) as (Ha & Ho & _).
      rewrite <-(IH (remove entity ib).2) by congruence. by rewrite Ha.
    + by rewrite <-(IH (observeAddVer ib).2).
    + by rewrite <-(IH (observeRemVer ib).2).
Qed.

Lemma remVer_moves ms : ∀ ib,
  remVerObserved ib = true →
  (remVer ib < remVer (foldl mutate ib ms) ↔ anyRemoved ib ms = true).
Proof.
  induction ms as [|m ms IH]; intros ib Hobs; simpl.
  - split; [lia|done].
  - destruct m; cbn [mutate].
    + destruct (add_addVer entity components ib) as (_ & _ & Hr & Ho).
      rewrite <-(IH (add entity components ib)) by congruence. by rewrite Hr.
    + destruct (remove_vers entity ib) as (_ & _ & Hr & Ho).
      destruct (remove entity ib).1 eqn:Hrem; simpl.
      * split; [done|]. intros _.
        pose proof (remVer_mono ms (remove entity ib).2) as Hm.
        rewrite Hr, Hobs in Hm. simpl in Hm. lia.
      * rewrite <-(IH (remove entity ib).2) by (rewrite Ho, Hobs; done).
        by rewrite Hr.
    + by rewrite <-(IH (observeAddVer ib).2).
    + by rewrite <-(IH (observeRemVer ib).2).
Qed.

(** C8, amended. The counters are snapshotted when the iterator is built,
    so the first call of [wasAddedTo] answers whether an [add] ran on the
    bound index since then, and the first call of [wasRemovedFrom] whether
    a [remove] that found its entity did: [false] when none ran, [true]
    otherwise, whatever else happened to the index in between. *)
Theorem first_change_observation (ib : IndexBase) (names : list string)
    (ms : list Mutation) :
  let '(it, ib1) := newIndexIteratorBase ib names in
  let ib2 := foldl mutate ib1 ms in
  (wasAddedTo it ib2).1.1 = anyAdd ms ∧
  (wasRemovedFrom it ib2).1.1 = anyRemoved ib1 ms.
Proof.
  unfold newIndexIteratorBase. simpl.
  set (ib1 := MkIndexBase _ _ _ _ _ _ _ _).
  split.
  - unfold wasAddedTo. simpl.
    pose proof (addVer_moves ms ib1 eq_refl) as Hmoves.
    pose proof (addVer_mono ms ib1) as Hmono. simpl in *.
    case_decide as Hne; simpl.
    + symmetry. apply Hmoves. lia.
    + destruct (anyAdd ms); [|done]. destruct Hmoves as [_ Hlt]. specialize (Hlt eq_refl). lia.
  - unfold wasRemovedFrom. simpl.
    pose proof (remVer_moves ms ib1 eq_refl) as Hmoves.
    pose proof (remVer_mono ms ib1) as Hmono. simpl in *.
    case_decide as Hne; simpl.
    + symmetry. apply Hmoves. lia.
    + destruct (anyRemoved ib1 ms); [|done]. destruct Hmoves as [_ Hlt].
      specialize (Hlt eq_refl). lia.
Qed.

(** C8 fails as stated: an [add] between the construction and the first
    call makes the first [wasAddedTo] answer [true], and a [remove] of an
    entity of the index makes the first [wasRemovedFrom] answer [true]. *)
Lemma first_observation_true :
  let c := MkComponent "A" 0 false in
  let '(it, ib1) := newIndexIteratorBase (new ["A"%string]) ["a"%string] in
  let ib2 := mutate ib1 (MAdd 1 [Some c]) in
  (wasAddedTo it ib2).1.1 = true ∧
  let '(it', ib3) := newIndexIteratorBase ib2 ["a"%string] in
  (wasRemovedFrom it' (mutate ib3 (MRemove 1))).1.1 = true.
Proof. split; reflexivity. Qed.

End index_iterator.

(** ** The order of strings *)

Section string_order.

Lemma strLt_trans a b c : strLt a b → strLt b c → strLt a c.
Proof.
  unfold strLt. intros Hab%String_as_OT.cmp_lt Hbc%String_as_OT.cmp_lt.
  apply String_as_OT.cmp_lt. by eapply String_as_OT.lt_trans.
Qed.

Lemma strLt_irrefl a : ¬ strLt a a.
Proof.
  unfold strLt. intros Hlt. pose proof (String.compare_antisym a a) as Ha.
  rewrite Hlt in Ha. done.
Qed.

Lemma strLt_trichotomy a b : strLt a b ∨ a = b ∨ strLt b a.
Proof.
  unfold strLt. destruct (String.compare a b) eqn:Hab.
  - right. left. by apply String.compare_eq_iff.
  - by left.
  - right. right. rewrite String.compare_antisym, Hab. done.
Qed.

Lemma compareStrings_pos a b : 0 < compareStrings a b ↔ strLt b a.
Proof.
  unfold compareStrings, strLt. rewrite (String.compare_antisym b a).
  destruct (String.compare a b); simpl; split; (lia || done).
Qed.

#[global] Instance strLt_trans_inst : Transitive strLt.
Proof. intros a b c. apply strLt_trans. Qed.

End string_order.

Section sorting.
Context {A : Type} (key : A → string).

Lemma keyLe_trans a b c : (keyLe key) a b → (keyLe key) b c → (keyLe key) a c.
Proof.
  unfold keyLe. intros Hab Hbc Hca.
  destruct (strLt_trichotomy (key a) (key b)) as [Hlt|[Heq|Hlt]]; [|congruence|done].
  apply Hbc. by eapply strLt_trans.
Qed.

Lemma insertSorted_sorted x l :
  StronglySorted (keyLe key) l → StronglySorted (keyLe key) (insertSorted (keyCmp key) x l).
Proof.
  induction 1 as [|y l Hl IH Hy]; simpl.
  - repeat constructor.
  - unfold keyCmp at 1. case_decide as Hcmp.
    + apply compareStrings_pos in Hcmp.
      constructor; [by constructor|]. constructor.
      * unfold keyLe. intros Hyx. eapply strLt_irrefl, strLt_trans; eauto.
      * eapply Forall_impl; [exact Hy|]. intros z Hyz. simpl in Hyz.
        eapply keyLe_trans; [|exact Hyz].
        unfold keyLe. intros Hyx. eapply strLt_irrefl, strLt_trans; eauto.
    + rewrite compareStrings_pos in Hcmp. constructor; [done|].
      rewrite insertSorted_perm. by constructor.
Qed.

Lemma jsSort_sorted (l : list A) : StronglySorted (keyLe key) (jsSort (keyCmp key) l).
Proof.
  unfold jsSort. assert (Hnil : StronglySorted (keyLe key) []) by constructor.
  revert Hnil. generalize (@nil A) as acc.
  induction l as [|x l IH]; intros acc Hacc; simpl; [done|].
  apply IH. by apply insertSorted_sorted.
Qed.

End sorting.

Section strict.
Import WorldDefs.
(** Sorted and without equal neighbours is strictly sorted. *)
Lemma sorted_NoDup_strict (l : list string) :
  StronglySorted (keyLe id) l → NoDup l → StronglySorted strLt l.
Proof.
  induction 1 as [|x l Hl IH Hx]; intros Hnd; [constructor|].
  apply NoDup_cons in Hnd as [Hxl Hnd]. constructor; [by apply IH|].
  apply Forall_forall. intros y Hy. rewrite Forall_forall in Hx.
  specialize (Hx y Hy). unfold keyLe in Hx. simpl in Hx.
  destruct (strLt_trichotomy x y) as [?|[->|?]]; done.
Qed.

Lemma adjacentDuplicate_None_head prev (x : string) l :
  adjacentDuplicate prev (x :: l) = None →
  Some x ≠ prev ∧ adjacentDuplicate (Some x) l = None.
Proof. simpl. by case_decide. Qed.

Lemma sorted_adjacent_strict : ∀ (l : list string) prev,
  StronglySorted (keyLe id) l → adjacentDuplicate prev l = None →
  StronglySorted strLt l.
Proof.
  induction l as [|x l IH]; intros prev Hs Hadj; [constructor|].
  apply adjacentDuplicate_None_head in Hadj as [_ Hadj].
  apply StronglySorted_inv in Hs as [Hl Hx].
  assert (Hstrict : StronglySorted strLt l) by by eapply IH.
  constructor; [done|].
  destruct l as [|y l]; [constructor|].
  apply adjacentDuplicate_None_head in Hadj as [Hxy _].
  apply Forall_cons in Hx as [Hxy' _]. unfold keyLe in Hxy'. simpl in Hxy'.
  assert (strLt x y) as Hlt.
  { destruct (strLt_trichotomy x y) as [?|[->|?]]; done. }
  constructor; [done|].
  apply StronglySorted_inv in Hstrict as [_ Hy].
  eapply Forall_impl; [exact Hy|]. intros z Hz. by eapply strLt_trans.
Qed.

Lemma strict_NoDup (l : list string) : StronglySorted strLt l → NoDup l.
Proof.
  induction 1 as [|x l Hl IH Hx]; [constructor|].
  constructor; [|done]. intros Hin. rewrite Forall_forall in Hx.
  by apply (strLt_irrefl x), Hx.
Qed.

(** A strictly sorted list whose elements all occur in another one is a
    subsequence of it. *)
Lemma strict_subseteq_sublist : ∀ (q p : list string),
  StronglySorted strLt p → StronglySorted strLt q → p ⊆ q → p `sublist_of` q.
Proof.
  induction q as [|y q IH]; intros p Hp Hq Hpq.
  - destruct p as [|x p]; [done|]. specialize (Hpq x ltac:(left)). by apply elem_of_nil in Hpq.
  - apply StronglySorted_inv in Hq as [Hq Hy]. rewrite Forall_forall in Hy.
    destruct p as [|x p]; [apply sublist_nil_l|].
    apply StronglySorted_inv in Hp as [Hp Hx]. rewrite Forall_forall in Hx.
    destruct (decide (x = y)) as [->|Hxy].
    + apply sublist_skip, IH; [done|done|].
      intros z Hz. specialize (Hpq z ltac:(by right)).
      apply elem_of_cons in Hpq as [->|]; [|done].
      by apply (strLt_irrefl y) in Hx.
    + apply sublist_cons, IH; [by constructor; [|apply Forall_forall]|done|].
      assert (Hyx : strLt y x).
      { specialize (Hpq x ltac:(left)). apply elem_of_cons in Hpq as [|]; [done|]. by apply Hy. }
      intros z Hz. specialize (Hpq z Hz).
      apply elem_of_cons in Hpq as [->|]; [|done].
      apply elem_of_cons in Hz as [->|Hz]; [done|].
      exfalso. eapply (strLt_irrefl y), strLt_trans; [exact Hyx|]. by apply Hx.
Qed.
End strict.

(** ** World *)

Section type_storage.
Import IndexDefs WorldDefs.
Implicit Types (cs : TypeStorage) (f : gmap Z Component → gmap Z Component).

Lemma tsGet_tsUpdate f type cs type' :
  tsGet (tsUpdate f type cs) type' =
    if decide (type = type') then Some (f (default ∅ (tsGet cs type)))
    else tsGet cs type'.
Proof.
  induction cs as [|[k st] cs IH]; simpl.
  - by repeat case_decide.
  - repeat (case_decide; simpl; simplify_eq); try done.
Qed.

Lemma tsGet_Some_elem cs type st : tsGet cs type = Some st → (type, st) ∈ cs.
Proof.
  induction cs as [|[k st'] cs IH]; simpl; [done|].
  case_decide; [intros [= <-]; subst; left|right; by apply IH].
Qed.

Lemma tsGet_elem cs type st :
  NoDup (fst <$> cs) → (type, st) ∈ cs → tsGet cs type = Some st.
Proof.
  induction cs as [|[k st'] cs IH]; simpl; [by intros _ ?%elem_of_nil|].
  intros [Hk Hnd]%NoDup_cons [[= <- <-]|Hin]%elem_of_cons.
  - by rewrite decide_True.
  - rewrite decide_False; [by apply IH|].
    intros ->. apply Hk. apply list_elem_of_fmap. by exists (type, st).
Qed.

Lemma keys_tsUpdate f type cs :
  fst <$> tsUpdate f type cs =
    if decide (type ∈ fst <$> cs) then fst <$> cs else (fst <$> cs) ++ [type].
Proof.
  induction cs as [|[k st] cs IH]; [done|].
  cbn [tsUpdate]. rewrite fmap_cons. cbn [fst].
  destruct (decide (k = type)) as [->|Hne]; rewrite fmap_cons; cbn [fst].
  - rewrite decide_True; [done|left].
  - rewrite IH. destruct (decide (type ∈ fst <$> cs)).
    + rewrite decide_True; [done|by right].
    + rewrite decide_False; [done|]. intros [?|?]%elem_of_cons; done.
Qed.

Lemma NoDup_keys_tsUpdate f type cs :
  NoDup (fst <$> cs) → NoDup (fst <$> tsUpdate f type cs).
Proof.
  intros Hnd. rewrite keys_tsUpdate. case_decide; [done|].
  apply NoDup_app. split_and!; [done| |apply NoDup_singleton].
  intros x Hx ->%list_elem_of_singleton. done.
Qed.

Lemma tsGet_deleteAll (entity : Z) cs type :
  tsGet ((λ kst, (kst.1, delete entity kst.2)) <$> cs) type = delete entity <$> tsGet cs type.
Proof.
  induction cs as [|[k st] cs IH]; simpl; [done|]. case_decide; [done|apply IH].
Qed.

Lemma keys_deleteAll (entity : Z) cs :
  fst <$> ((λ kst : string * gmap Z Component, (kst.1, delete entity kst.2)) <$> cs) = fst <$> cs.
Proof. rewrite <-list_fmap_compose. by apply list_fmap_ext. Qed.

End type_storage.

(** * A small program logic for the methods of [World] *)
Section hoare.
Import IndexDefs WorldDefs.
Context {A : Type}.

Lemma hoare_ret P (a : A) : hoare P (ret a) P.
Proof. by intros w. Qed.

Lemma hoare_throw P e : hoare P (throw e : M A) P.
Proof. by intros w. Qed.

Lemma hoare_liftResult P (r : Result A) : hoare P (liftResult r) P.
Proof. by intros w. Qed.

Lemma hoare_weaken (P P' Q Q' : World → Prop) (m : M A) :
  hoare P' m Q' → (∀ w, P w → P' w) → (∀ w, Q' w → Q w) → hoare P m Q.
Proof. intros Hm HP HQ w Hw. by apply HQ, Hm, HP. Qed.
End hoare.

Section hoare_rules.
Import TrieDefs IndexDefs WorldDefs.
Lemma hoare_modify (P Q : World → Prop) f :
  (∀ w, P w → Q (f w)) → hoare P (modify f) Q.
Proof. intros Hf w Hw. by apply Hf. Qed.

Lemma hoare_bind {A B} (P R Q : World → Prop) (m : M A) (k : A → M B) :
  hoare P m R → (∀ a, hoare R (k a) Q) → (∀ w, R w → Q w) → hoare P (bind m k) Q.
Proof.
  intros Hm Hk HRQ w Hw. unfold bind. specialize (Hm w Hw).
  destruct (m w) as [w1 [a|e]]; simpl in *; [by apply Hk|by apply HRQ].
Qed.

Lemma hoare_bind_inv {A B} (P : World → Prop) (m : M A) (k : A → M B) :
  hoare P m P → (∀ a, hoare P (k a) P) → hoare P (bind m k) P.
Proof. intros. by eapply hoare_bind. Qed.

Lemma hoare_getWorld {B} (P Q : World → Prop) (k : World → M B) :
  (∀ w0, P w0 → hoare (λ w, w = w0) (k w0) Q) → hoare P (bind getWorld k) Q.
Proof. intros Hk w Hw. unfold bind, getWorld. by apply (Hk w Hw). Qed.

Lemma hoare_forEach {A} (P : World → Prop) (l : list A) body :
  (∀ x, x ∈ l → hoare P (body x) P) → hoare P (forEach l body) P.
Proof.
  induction l as [|x l IH]; intros Hbody; simpl; [apply hoare_ret|].
  apply hoare_bind_inv; [apply Hbody; left|]. intros _. apply IH.
  intros y Hy. apply Hbody. by right.
Qed.

Lemma hoare_withIndex {A} (P : World → Prop) index (f : IndexBase → Result (A * IndexBase)) :
  (∀ w ib a ib', P w → indexes w !! index = Some ib → f ib = Ok (a, ib') →
     P (setIndexes (<[index := ib']> (indexes w)) w)) →
  hoare P (withIndex index f) P.
Proof.
  intros Hf w Hw. unfold withIndex.
  destruct (indexes w !! index) as [ib|] eqn:Hib; [|done].
  destruct (f ib) as [[a ib']|e] eqn:Hfib; [|done]. simpl. by eapply Hf.
Qed.

Lemma hoare_forSubIt (P : World → Prop) calls fuel body :
  (∀ it w, P w → P (setSubIt it w)) → (∀ i, hoare P (body i) P) →
  hoare P (forSubIt calls fuel body) P.
Proof.
  intros Hit Hbody. induction calls as [|calls IH]; [apply hoare_throw|].
  intros w Hw. simpl.
  destruct (next fuel (indexByComponentsSubIt w)) as [[[] it]|]; simpl; [|by apply Hit|done].
  destruct (itValue it) as [i|]; [|by apply Hit].
  apply (hoare_bind_inv P); [apply Hbody|by intros _|by apply Hit].
Qed.

Lemma hoare_forEachSubsequenceIndex (P : World → Prop) types body :
  (∀ it w, P w → P (setSubIt it w)) → (∀ i, hoare P (body i) P) →
  hoare P (forEachSubsequenceIndex types body) P.
Proof.
  intros Hit Hbody. unfold forEachSubsequenceIndex.
  apply hoare_bind_inv; [apply hoare_modify; intros w Hw; by apply Hit|].
  intros _. by apply hoare_forSubIt.
Qed.
End hoare_rules.

Ltac unfold_monad := unfold mbind, WorldDefs.M_bind, mret, WorldDefs.M_ret.

Section invariant.
Import TrieDefs IndexDefs WorldDefs.
Implicit Types (w : World) (ib : IndexBase).

Lemma worldInv_new : worldInv new.
Proof.
  split_and!; try done.
  - simpl. constructor.
  - intros [|s p] i; [done|]. simpl. unfold branch. simpl. by rewrite lookup_empty.
Qed.

Lemma worldInv_setSubIt it w : worldInv w → worldInv (setSubIt it w).
Proof. done. Qed.

Lemma worldInv_setEntitySequence x w :
  0 ≤ x → worldInv w → worldInv (setEntitySequence x w).
Proof. intros ? (? & ? & ? & ? & ? & ?). done. Qed.

Lemma elem_of_setAdd (e e' : Z) s : e' ∈ setAdd e s ↔ e' = e ∨ e' ∈ s.
Proof.
  unfold setAdd. case_decide as Hin.
  - split; [by right|]. by intros [->|].
  - rewrite elem_of_app, list_elem_of_singleton. tauto.
Qed.

Lemma elem_of_setDelete (e e' : Z) s : e' ∈ setDelete e s ↔ e' ≠ e ∧ e' ∈ s.
Proof. unfold setDelete. by rewrite list_elem_of_filter. Qed.

Lemma worldInv_setAdd e w :
  worldInv w → worldInv (setEntities (setAdd e (entities w)) w).
Proof.
  intros (? & Hdead & ? & ? & ? & ?). split_and!; try done.
  intros type entity c Hget. simpl. apply elem_of_setAdd. right. by eapply Hdead.
Qed.

Lemma get_tsUpdate f type w e type' :
  get e type' (setComponents (tsUpdate f type (components w)) w) =
    if decide (type = type') then f (default ∅ (tsGet (components w) type)) !! e
    else get e type' w.
Proof. unfold get. simpl. rewrite tsGet_tsUpdate. by case_decide. Qed.

Lemma worldInv_tsUpdate f type w :
  worldInv w →
  (∀ st e c, tsGet (components w) type = Some st ∨ st = ∅ →
     f st !! e = Some c → st !! e = Some c ∨ (e ∈ entities w ∧ ctor c = type)) →
  worldInv (setComponents (tsUpdate f type (components w)) w).
Proof.
  intros (? & Hdead & Hctor & ? & ? & ?) Hf. split_and!; try done.
  - intros type' e c. rewrite get_tsUpdate. case_decide as Heq; [|apply Hdead].
    subst type'. intros Hget. simpl.
    destruct (tsGet (components w) type) as [st|] eqn:Hst; simpl in Hget.
    + destruct (Hf st e c) as [Hold|[? _]]; [by left|done| |done].
      apply (Hdead type e c). unfold get. by rewrite Hst.
    + destruct (Hf ∅ e c) as [Hold|[? _]]; [by right|done|done|done].
  - intros type' e c. rewrite get_tsUpdate. case_decide as Heq; [|apply Hctor].
    subst type'. intros Hget.
    destruct (tsGet (components w) type) as [st|] eqn:Hst; simpl in Hget.
    + destruct (Hf st e c) as [Hold|[_ ?]]; [by left|done| |done].
      apply (Hctor type e c). unfold get. by rewrite Hst.
    + destruct (Hf ∅ e c) as [Hold|[_ ?]]; [by right|done|done|done].
  - simpl. by apply NoDup_keys_tsUpdate.
Qed.

Lemma worldInv_store e c w :
  worldInv w → e ∈ entities w →
  worldInv (setComponents (tsUpdate (<[e := c]>) (ctor c) (components w)) w).
Proof.
  intros Hinv He. apply worldInv_tsUpdate; [done|].
  intros st e' c' _. rewrite lookup_insert. case_decide; [|by left].
  intros [= <-]. subst. by right.
Qed.

Lemma worldInv_register type w :
  worldInv w → worldInv (setComponents (tsUpdate id type (components w)) w).
Proof. intros Hinv. apply worldInv_tsUpdate; [done|]. intros st e c _ ?. by left. Qed.

Lemma worldInv_delete e type w :
  worldInv w → worldInv (setComponents (tsUpdate (delete e) type (components w)) w).
Proof.
  intros Hinv. apply worldInv_tsUpdate; [done|].
  intros st e' c _. rewrite lookup_delete. case_decide; [done|by left].
Qed.

Lemma get_deleteAll e e' type w :
  get e' type (setComponents ((λ kst, (kst.1, delete e kst.2)) <$> components w) w) =
    if decide (e = e') then None else get e' type w.
Proof.
  unfold get. simpl. rewrite tsGet_deleteAll.
  destruct (tsGet (components w) type) as [st|]; simpl; [|by case_decide].
  rewrite lookup_delete. done.
Qed.

Lemma worldInv_destroy e w :
  worldInv w →
  worldInv (setComponents ((λ kst, (kst.1, delete e kst.2)) <$>
                             components (setEntities (setDelete e (entities w)) w))
              (setEntities (setDelete e (entities w)) w)).
Proof.
  intros (? & Hdead & Hctor & ? & ? & ?). split_and!; try done.
  - intros type e' c. rewrite get_deleteAll. case_decide; [done|].
    intros Hget. simpl. apply elem_of_setDelete. split; [done|]. by eapply Hdead.
  - intros type e' c. rewrite get_deleteAll. case_decide; [done|]. apply Hctor.
  - simpl. by rewrite keys_deleteAll.
Qed.

Lemma worldInv_updIndex i ib ib' w :
  worldInv w → indexes w !! i = Some ib → types ib' = types ib →
  worldInv (setIndexes (<[i := ib']> (indexes w)) w).
Proof.
  intros (? & ? & ? & ? & Hreg & Hvalid) Hi Hty. split_and!; try done.
  - intros j ib'' Hj. simpl in *.
    destruct (decide (i = j)) as [->|Hne].
    + rewrite list_lookup_insert_eq in Hj by by eapply lookup_lt_Some.
      injection Hj as <-. rewrite Hty. by apply Hreg.
    + rewrite list_lookup_insert_ne in Hj by done. by apply Hreg.
  - intros p j Hp. simpl in *. destruct (Hvalid p j Hp) as (ib0 & Hj & Hty0).
    destruct (decide (i = j)) as [->|Hne].
    + exists ib'. rewrite list_lookup_insert_eq by by eapply lookup_lt_Some.
      split; [done|]. congruence.
    + exists ib0. by rewrite list_lookup_insert_ne.
Qed.

Lemma types_add e cs ib : types (add e cs ib) = types ib.
Proof.
  unfold add. destruct (entityISByEntity ib !! e); [done|].
  by destruct (arrayPop (freeISs ib)) as [[]|].
Qed.

Lemma types_remove e ib : types (IndexDefs.remove e ib).2 = types ib.
Proof. unfold IndexDefs.remove. by destruct (entityISByEntity ib !! e). Qed.

Lemma types_emplace e type c ib b ib' :
  IndexDefs.emplace e type c ib = Ok (b, ib') → types ib' = types ib.
Proof.
  unfold IndexDefs.emplace. destruct (entityISByEntity ib !! e); [|by intros [= <- <-]].
  destruct (list_find _ _) as [[]|]; [|done]. by intros [= <- <-].
Qed.

Lemma types_newIndexIteratorBase ib names :
  types (newIndexIteratorBase ib names).2 = types ib.
Proof. done. Qed.

(** A method that only changes the contents of indexes keeps the
    invariant. *)
Lemma hoare_withIndex_inv {A} i (f : IndexBase → Result (A * IndexBase)) :
  (∀ ib a ib', f ib = Ok (a, ib') → types ib' = types ib) →
  hoare worldInv (withIndex i f) worldInv.
Proof.
  intros Hf. apply hoare_withIndex. intros w ib a ib' Hinv Hib Hfib.
  eapply worldInv_updIndex; [done|done|]. by eapply Hf.
Qed.

Lemma hoare_addToIndex i e ecs :
  hoare worldInv (withIndex i (λ ib, Ok ((), add e ecs ib))) worldInv.
Proof. apply hoare_withIndex_inv. intros ib a ib' [= _ <-]. apply types_add. Qed.

Lemma hoare_removeFromIndex i e :
  hoare worldInv (withIndex i (λ ib, Ok ((), (IndexDefs.remove e ib).2))) worldInv.
Proof. apply hoare_withIndex_inv. intros ib a ib' [= _ <-]. apply types_remove. Qed.

Lemma emplace_inv e c : hoare worldInv (emplace e c) worldInv.
Proof.
  unfold emplace. unfold_monad.
  apply hoare_getWorld. intros w0 Hinv0.
  destruct (setHas e (entities w0)) eqn:Hlive; simpl.
  - apply bool_decide_eq_true in Hlive.
    eapply hoare_bind with (R := worldInv).
    + apply hoare_modify. intros w ->. by apply worldInv_store.
    + intros _. apply hoare_getWorld. intros w1 Hinv1.
      eapply hoare_weaken with (P' := worldInv); [|by intros ? ->|done].
      destruct (indexesByComponent w1 !! ctor c) as [ixs|]; [|apply hoare_ret].
      apply hoare_forEach. intros i _.
      apply hoare_bind_inv.
      { apply hoare_withIndex_inv. intros ib a ib'. apply types_emplace. }
      intros [|]; [apply hoare_ret|].
      apply hoare_getWorld. intros w2 Hinv2.
      eapply hoare_weaken with (P' := worldInv); [|by intros ? ->|done].
      apply hoare_bind_inv; [apply hoare_liftResult|]. intros ib.
      apply hoare_bind_inv; [apply hoare_liftResult|]. intros [ecs|]; [|apply hoare_ret].
      apply hoare_addToIndex.
    + done.
  - eapply hoare_weaken; [apply hoare_throw|by intros ? ->|done].
Qed.

End invariant.

Section trie_lemmas.
Import TrieDefs.
Context {S : Type} `{Countable S} {T : Type}.
Implicit Types (t : Trie S T) (p : list S).

Lemma getInTrie_setInTrie_eq : ∀ p t v, getInTrie (setInTrie t p v) p = Some v.
Proof.
  induction p as [|s p IH]; intros t v; [done|].
  simpl. unfold branch. simpl. rewrite lookup_insert_eq. apply IH.
Qed.

Lemma getInTrie_setInTrie_ne : ∀ p t v p',
  p ≠ p' → getInTrie (setInTrie t p v) p' = getInTrie t p'.
Proof.
  induction p as [|s p IH]; intros t v p' Hne.
  - destruct p' as [|s' p']; [done|]. done.
  - destruct p' as [|s' p']; [done|]. simpl. unfold branch at 1. simpl.
    destruct (decide (s = s')) as [->|Hs].
    + rewrite lookup_insert_eq. rewrite IH by congruence.
      unfold branch. destruct (branches t !! s') as [b|]; simpl; [done|].
      by destruct p'.
    + by rewrite lookup_insert_ne.
Qed.
End trie_lemmas.

Section invariant_methods.
Import TrieDefs IndexDefs WorldDefs.
Implicit Types (w : World) (ib : IndexBase).

Lemma create_inv cs : hoare worldInv (create cs) worldInv.
Proof.
  unfold create. unfold_monad.
  apply hoare_getWorld. intros w0 Hinv0. destruct (Hinv0) as (Hseq & _).
  set (e := entitySequence w0).
  set (R := λ w, worldInv w ∧ e ∈ entities w).
  eapply hoare_bind with (R := worldInv); [| |done].
  { apply hoare_modify. intros w ->. apply worldInv_setEntitySequence; [lia|done]. }
  intros _. eapply hoare_bind with (R := R); [| |by intros w []].
  { apply hoare_modify. intros w Hw. split; [by apply worldInv_setAdd|].
    simpl. apply elem_of_setAdd. by left. }
  intros _. eapply hoare_weaken with (P' := R) (Q' := R); [|done|by intros w []].
  apply hoare_bind_inv.
  { apply hoare_forEach. intros c _. apply hoare_modify. intros w [Hw He].
    split; [by apply worldInv_store|done]. }
  intros _. apply hoare_bind_inv.
  { destruct (adjacentDuplicate None _); [apply hoare_throw|apply hoare_ret]. }
  intros _. apply hoare_bind_inv; [|intros _; apply hoare_ret].
  apply hoare_forEachSubsequenceIndex; [by intros it w []|].
  intros i. apply hoare_getWorld. intros w1 Hw1.
  eapply hoare_weaken with (P' := R); [|by intros ? ->|done].
  apply hoare_bind_inv; [apply hoare_liftResult|]. intros ib.
  apply hoare_bind_inv; [apply hoare_liftResult|]. intros ecs.
  apply hoare_withIndex. intros w ib0 a ib' [Hw He] Hib [= _ <-].
  split; [|done]. eapply worldInv_updIndex; [done|done|apply types_add].
Qed.

Lemma insert_inv e cs : hoare worldInv (insert e cs) worldInv.
Proof.
  unfold insert. unfold_monad.
  apply hoare_getWorld. intros w0 Hinv0. destruct (Hinv0) as (Hseq & _).
  eapply hoare_bind with (R := worldInv); [| |done].
  { case_decide.
    - apply hoare_modify. intros w ->. apply worldInv_setEntitySequence; [lia|done].
    - eapply hoare_weaken; [apply hoare_ret|by intros ? ->|done]. }
  intros _. apply hoare_bind_inv.
  { apply hoare_modify. intros w Hw. by apply worldInv_setAdd. }
  intros _. apply hoare_bind_inv; [|intros _; apply hoare_ret].
  apply hoare_forEach. intros c _. apply emplace_inv.
Qed.

Lemma remove_inv e type : hoare worldInv (WorldDefs.remove e type) worldInv.
Proof.
  unfold WorldDefs.remove. unfold_monad.
  apply hoare_getWorld. intros w0 Hinv0.
  eapply hoare_weaken with (P' := worldInv); [|by intros ? ->|done].
  destruct (tsGet (components w0) type) as [st|]; [|apply hoare_ret].
  apply hoare_bind_inv.
  { apply hoare_modify. intros w Hw. by apply worldInv_delete. }
  intros _. destruct (st !! e) as [c|]; [|apply hoare_ret].
  destruct (indexesByComponent w0 !! type) as [ixs|]; [|apply hoare_ret].
  apply hoare_bind_inv; [|intros _; apply hoare_ret].
  apply hoare_forEach. intros i _. apply hoare_removeFromIndex.
Qed.

Lemma hoare_modify_bind {B} (P Q : World → Prop) f (k : unit → M B) :
  hoare (λ w, ∃ w0, P w0 ∧ w = f w0) (k tt) Q → hoare P (bind (modify f) k) Q.
Proof. intros Hk w Hw. apply Hk. by exists w. Qed.

Lemma destroyCleanup_inv e : hoare worldInv (destroyCleanup e) worldInv.
Proof.
  unfold destroyCleanup. unfold_monad.
  apply hoare_modify_bind.
  apply hoare_getWorld. intros w1 (w0 & Hinv0 & ->).
  eapply hoare_bind with (R := worldInv); [| |done].
  { apply hoare_modify. intros w ->. by apply worldInv_destroy. }
  intros _. apply hoare_bind_inv; [|intros _; apply hoare_ret].
  apply hoare_forEachSubsequenceIndex; [done|].
  intros i. apply hoare_removeFromIndex.
Qed.

Lemma registerSingleton_inv c : hoare worldInv (registerSingleton c) worldInv.
Proof.
  unfold registerSingleton. unfold_monad.
  apply hoare_getWorld. intros w0 Hinv0.
  eapply hoare_weaken with (P' := worldInv); [|by intros ? ->|done].
  apply hoare_bind_inv; [|intros _; apply emplace_inv].
  destruct (negb _); [|apply hoare_ret].
  apply hoare_modify. intros w Hw. by apply worldInv_setAdd.
Qed.

Lemma removeSingleton_inv type : hoare worldInv (removeSingleton type) worldInv.
Proof.
  unfold removeSingleton. unfold_monad.
  apply hoare_getWorld. intros w0 Hinv0.
  eapply hoare_weaken with (P' := worldInv); [|by intros ? ->|done].
  destruct (negb _); [apply hoare_ret|].
  apply hoare_bind_inv; [apply remove_inv|intros _; apply hoare_ret].
Qed.

Lemma newIndexIterator_inv i names : hoare worldInv (newIndexIterator i names) worldInv.
Proof.
  unfold newIndexIterator. unfold_monad.
  apply hoare_bind_inv; [|intros it; apply hoare_ret].
  apply hoare_withIndex_inv. by intros ib a ib' [= _ <-].
Qed.

Lemma worldInv_setIndexesByComponent x w :
  worldInv w → worldInv (setIndexesByComponent x w).
Proof. done. Qed.

Lemma worldInv_newIndex types w :
  worldInv w → getInTrie (indexByComponents w) types = None → StronglySorted strLt types →
  worldInv (setIndexByComponents
              (setInTrie (indexByComponents (setIndexes (indexes w ++ [IndexDefs.new types]) w))
                 types (length (indexes w)))
              (setIndexes (indexes w ++ [IndexDefs.new types]) w)).
Proof.
  intros (? & ? & ? & ? & Hreg & Hvalid) Hnone Hsorted. split_and!; try done.
  - intros i ib. simpl. intros Hi.
    apply lookup_app_Some in Hi as [Hi|[Hlen Hi]].
    + destruct (Hreg i ib Hi) as [Hget ?]. split; [|done].
      rewrite getInTrie_setInTrie_ne; [done|]. intros Heq. congruence.
    + apply list_lookup_singleton_Some in Hi as [Hi <-]. simpl.
      split; [|done]. rewrite getInTrie_setInTrie_eq. f_equal. lia.
  - intros p i. simpl. destruct (decide (types = p)) as [<-|Hne].
    + rewrite getInTrie_setInTrie_eq. intros [= <-].
      exists (IndexDefs.new types). split; [|done].
      rewrite lookup_app_r by done. by rewrite Nat.sub_diag.
    + rewrite getInTrie_setInTrie_ne by done. intros Hp.
      destruct (Hvalid p i Hp) as (ib & Hi & Hty). exists ib.
      split; [|done]. by apply lookup_app_l_Some.
Qed.

Lemma sorted_fmap_snd (l : list (string * string)) :
  StronglySorted (keyLe snd) l → StronglySorted (keyLe id) (snd <$> l).
Proof.
  induction 1 as [|x l Hl IH Hx]; [constructor|].
  rewrite fmap_cons. constructor; [done|]. by apply Forall_fmap.
Qed.

Lemma index_inv spec : hoare worldInv (index spec) worldInv.
Proof.
  unfold index. unfold_monad.
  apply hoare_bind_inv.
  { apply hoare_forEach. intros s _. apply hoare_modify. intros w Hw.
    by apply worldInv_register. }
  intros _.
  set (specs := jsSort _ spec).
  destruct (adjacentDuplicate None (snd <$> specs)) as [dup|] eqn:Hdup; [apply hoare_throw|].
  assert (Hsorted : StronglySorted strLt (snd <$> specs)).
  { eapply sorted_adjacent_strict; [|exact Hdup].
    apply sorted_fmap_snd. apply (jsSort_sorted snd). }
  apply hoare_getWorld. intros w1 Hinv1.
  destruct (getInTrie (indexByComponents w1) (snd <$> specs)) as [i|] eqn:Hget.
  { eapply hoare_weaken; [apply newIndexIterator_inv|by intros ? ->|done]. }
  apply hoare_modify_bind. apply hoare_modify_bind.
  eapply hoare_weaken with (P' := worldInv) (Q' := worldInv); [| |done].
  2:{ intros w (w' & (w0 & -> & ->) & ->). by apply worldInv_newIndex. }
  apply hoare_bind_inv.
  { apply hoare_forEach. intros c _. by apply hoare_modify. }
  intros _. apply hoare_bind_inv; [|intros _; apply newIndexIterator_inv].
  apply hoare_forEach. intros e _.
  apply hoare_getWorld. intros w2 Hinv2.
  eapply hoare_weaken with (P' := worldInv); [|by intros ? ->|done].
  apply hoare_bind_inv; [apply hoare_liftResult|]. intros [ecs|]; [|apply hoare_ret].
  apply hoare_addToIndex.
Qed.

Lemma step_inv c w : worldInv w → worldInv (step c w).
Proof.
  intros Hw. destruct c; simpl.
  - by apply create_inv.
  - by apply insert_inv.
  - by apply emplace_inv.
  - by apply remove_inv.
  - by apply destroyCleanup_inv.
  - by apply index_inv.
  - by apply registerSingleton_inv.
  - by apply removeSingleton_inv.
Qed.

Lemma run_inv calls : ∀ w, worldInv w → worldInv (run calls w).
Proof.
  induction calls as [|c calls IH]; intros w Hw; [done|].
  simpl. by apply IH, step_inv.
Qed.

(** Every world a program reaches satisfies the invariant. *)
Lemma reachable_inv w : reachable w → worldInv w.
Proof. intros [calls ->]. apply run_inv, worldInv_new. Qed.

End invariant_methods.

Section loops.
Import TrieDefs IndexDefs WorldDefs.
Implicit Types (w : World) (ib : IndexBase).

(** The loop over the shared iterator runs its body on the values the
    iterator yields, in their order, provided the body returns and leaves
    the iterator alone. [J seen] is the invariant after the values
    [seen]. *)
Lemma forSubIt_spec (J : list nat → World → Prop) body fuel : ∀ calls vs seen w,
  drive calls fuel (indexByComponentsSubIt w) = Some vs →
  J seen w →
  (∀ it seen w, J seen w → J seen (setSubIt it w)) →
  (∀ i seen w, i ∈ vs → J seen w →
     ∃ w', body i w = (w', Ok tt) ∧ J (seen ++ [i]) w' ∧
           indexByComponentsSubIt w' = indexByComponentsSubIt w) →
  ∃ w', forSubIt calls fuel body w = (w', Ok tt) ∧ J (seen ++ vs) w'.
Proof.
  induction calls as [|calls IH]; intros vs seen w Hdrive HJ Hit Hbody; [done|].
  simpl in Hdrive. simpl.
  destruct (next fuel (indexByComponentsSubIt w)) as [[[] it]|]; [| |done].
  - destruct (itValue it) as [v|]; [|done].
    destruct (drive calls fuel it) as [vs'|] eqn:Hdrive'; [|done].
    simpl in Hdrive. injection Hdrive as <-.
    destruct (Hbody v seen (setSubIt it w)) as (w1 & Hb & HJ1 & Hit1); [left|by apply Hit|].
    unfold bind. rewrite Hb.
    destruct (IH vs' (seen ++ [v]) w1) as (w' & Hloop & HJ'); try done.
    + by rewrite Hit1.
    + intros i seen' w' Hi. apply Hbody. by right.
    + exists w'. split; [done|]. by rewrite <-app_assoc in HJ'.
  - injection Hdrive as <-. eexists. split; [done|]. rewrite app_nil_r. by apply Hit.
Qed.

Lemma forEachSubsequenceIndex_spec (J : list nat → World → Prop) body types w :
  J [] w →
  (∀ it seen w, J seen w → J seen (setSubIt it w)) →
  (∀ i seen w', i ∈ foreachSubsequenceInTrie (indexByComponents w) types → J seen w' →
     ∃ w'', body i w' = (w'', Ok tt) ∧ J (seen ++ [i]) w'' ∧
            indexByComponentsSubIt w'' = indexByComponentsSubIt w') →
  ∃ w', forEachSubsequenceIndex types body w = (w', Ok tt) ∧
        J (foreachSubsequenceInTrie (indexByComponents w) types) w'.
Proof.
  intros HJ Hit Hbody. unfold forEachSubsequenceIndex, bind, modify.
  apply (forSubIt_spec J body _ _ _ [] (resetSubIt types w)); try done.
  - simpl. apply drive_reset; [apply lookup_insert_eq|done|done].
  - by apply Hit.
Qed.

(** The values the iterator yields are the indexes stored at the
    subsequences of the query. *)
Lemma elem_of_foreachSubsequenceInTrie (t : Trie string nat) q i :
  i ∈ foreachSubsequenceInTrie t q ↔ ∃ p, p `sublist_of` q ∧ getInTrie t p = Some i.
Proof.
  unfold foreachSubsequenceInTrie. rewrite subsequenceValues_sublists.
  rewrite list_elem_of_omap. split.
  - intros (p & Hp%elem_of_sublists & Hget). by exists p.
  - intros (p & Hp%elem_of_sublists & Hget). by exists p.
Qed.

Lemma inIndex_updIndex e i j ib' w :
  inIndex e j (setIndexes (<[i := ib']> (indexes w)) w) =
    if decide (i = j ∧ (i < length (indexes w))%nat)
    then bool_decide (is_Some (entityISByEntity ib' !! e))
    else inIndex e j w.
Proof.
  unfold inIndex. simpl. case_decide as Hij.
  - destruct Hij as [-> Hlt]. by rewrite list_lookup_insert_eq.
  - destruct (decide (i = j)) as [->|Hne].
    + rewrite list_insert_ge by lia. done.
    + by rewrite list_lookup_insert_ne.
Qed.

End loops.

(** ** The scope of the embedding *)

Section scope.
Import TrieDefs IndexDefs WorldDefs.
Implicit Types (w : World).

Lemma inScope_reachable w : inScope w → reachable w.
Proof. intros (calls & _ & ->). by exists calls. Qed.

Lemma runInScope_bound : ∀ calls w,
  runInScope calls w = true →
  entitySequence w ≤ IdPoolDefs.MAX_SAFE_INTEGER →
  entitySequence (run calls w) ≤ IdPoolDefs.MAX_SAFE_INTEGER.
Proof.
  induction calls as [|c calls IH]; intros w Hrun Hw; [done|].
  simpl in Hrun. apply andb_prop in Hrun as [[_ Hc%bool_decide_eq_true]%andb_prop Hrest].
  by apply (IH (step c w)).
Qed.

(** The entity sequence of a world in scope is a safe integer: the next
    [create] steps it exactly. *)
Lemma inScope_bound w : inScope w → 0 ≤ entitySequence w ≤ IdPoolDefs.MAX_SAFE_INTEGER.
Proof.
  intros Hw. split.
  - by destruct (reachable_inv w (inScope_reachable w Hw)) as [? _].
  - destruct Hw as (calls & Hrun & ->). by apply runInScope_bound.
Qed.

(** For components without a method [added], [createWithAdded] is
    [create]. *)
Lemma createWithAdded_no_hook cs w : createWithAdded (λ _ _, ret tt) cs w = create cs w.
Proof. reflexivity. Qed.

Lemma forallb_elem {A} (f : A → bool) (l : list A) :
  forallb f l = true → ∀ x, x ∈ l → f x = true.
Proof. intros Hl x Hx. by apply (proj1 (forallb_forall f l) Hl), list_elem_of_In. Qed.

Lemma plain_tsUpdate f type (cs : TypeStorage) :
  plainName type = true →
  Forall (λ kst, plainName kst.1 = true) cs →
  Forall (λ kst, plainName kst.1 = true) (tsUpdate f type cs).
Proof.
  intros Htype. induction cs as [|[k st] cs IH]; intros Hcs.
  - by constructor.
  - apply Forall_cons in Hcs as [Hk Hcs]. cbn [tsUpdate].
    case_decide; constructor; auto.
Qed.

Lemma safe_setAdd e (s : list Z) :
  safeInteger e = true →
  Forall (λ e, safeInteger e = true) s → Forall (λ e, safeInteger e = true) (setAdd e s).
Proof.
  intros He Hs. unfold setAdd. case_decide; [done|].
  apply Forall_app. split; [done|by constructor].
Qed.

Lemma safe_setDelete e (s : list Z) :
  Forall (λ e, safeInteger e = true) s → Forall (λ e, safeInteger e = true) (setDelete e s).
Proof.
  intros Hs. unfold setDelete. apply Forall_forall. intros x [_ Hx]%list_elem_of_filter.
  rewrite Forall_forall in Hs. by apply Hs.
Qed.

Lemma plainWorld_store e c w :
  plainName (ctor c) = true → plainWorld w →
  plainWorld (setComponents (tsUpdate (<[e := c]>) (ctor c) (components w)) w).
Proof. intros Hc [Hk He]. split; [by apply plain_tsUpdate|done]. Qed.

Lemma hoare_withIndex_plain {A} i (f : IndexBase → Result (A * IndexBase)) :
  hoare plainWorld (withIndex i f) plainWorld.
Proof. apply hoare_withIndex. by intros w ib a ib' Hw _ _. Qed.

Lemma emplace_plain e c :
  plainName (ctor c) = true → hoare plainWorld (emplace e c) plainWorld.
Proof.
  intros Hc. unfold emplace. unfold_monad.
  apply hoare_getWorld. intros w0 Hw0.
  destruct (setHas e (entities w0)); simpl.
  - eapply hoare_bind with (R := plainWorld); [| |done].
    + apply hoare_modify. intros w ->. by apply plainWorld_store.
    + intros _. apply hoare_getWorld. intros w1 Hw1.
      eapply hoare_weaken with (P' := plainWorld); [|by intros ? ->|done].
      destruct (indexesByComponent w1 !! ctor c) as [ixs|]; [|apply hoare_ret].
      apply hoare_forEach. intros i _.
      apply hoare_bind_inv; [apply hoare_withIndex_plain|].
      intros [|]; [apply hoare_ret|].
      apply hoare_getWorld. intros w2 Hw2.
      eapply hoare_weaken with (P' := plainWorld); [|by intros ? ->|done].
      apply hoare_bind_inv; [apply hoare_liftResult|]. intros ib.
      apply hoare_bind_inv; [apply hoare_liftResult|]. intros [ecs|]; [|apply hoare_ret].
      apply hoare_withIndex_plain.
  - eapply hoare_weaken; [apply hoare_throw|by intros ? ->|done].
Qed.

Lemma create_plain cs w :
  forallb (λ c, plainName (ctor c)) cs = true →
  safeInteger (entitySequence w) = true →
  plainWorld w → plainWorld (create cs w).1.
Proof.
  intros Hcs Hseq. revert w Hseq.
  cut (hoare (λ w, safeInteger (entitySequence w) = true ∧ plainWorld w) (create cs) plainWorld).
  { intros Hh w Hseq Hw. by apply Hh. }
  unfold create. unfold_monad.
  apply hoare_getWorld. intros w0 [Hseq Hw0].
  eapply hoare_bind with (R := plainWorld); [| |done].
  { apply hoare_modify. by intros w ->. }
  intros _. apply hoare_bind_inv.
  { apply hoare_modify. intros w [Hk He]. split; [done|]. by apply safe_setAdd. }
  intros _. apply hoare_bind_inv.
  { apply hoare_forEach. intros c Hc. apply hoare_modify. intros w Hw.
    apply plainWorld_store; [|done]. by apply (forallb_elem _ _ Hcs). }
  intros _. apply hoare_bind_inv.
  { destruct (adjacentDuplicate None _); [apply hoare_throw|apply hoare_ret]. }
  intros _. apply hoare_bind_inv; [|intros _; apply hoare_ret].
  apply hoare_forEachSubsequenceIndex; [by intros it w []|].
  intros i. apply hoare_getWorld. intros w1 Hw1.
  eapply hoare_weaken with (P' := plainWorld); [|by intros ? ->|done].
  apply hoare_bind_inv; [apply hoare_liftResult|]. intros ib.
  apply hoare_bind_inv; [apply hoare_liftResult|]. intros ecs.
  apply hoare_withIndex_plain.
Qed.

Lemma insert_plain e cs :
  safeInteger e = true → forallb (λ c, plainName (ctor c)) cs = true →
  hoare plainWorld (insert e cs) plainWorld.
Proof.
  intros He Hcs. unfold insert. unfold_monad.
  apply hoare_getWorld. intros w0 Hw0.
  eapply hoare_bind with (R := plainWorld); [| |done].
  { case_decide.
    - apply hoare_modify. by intros w ->.
    - eapply hoare_weaken; [apply hoare_ret|by intros ? ->|done]. }
  intros _. apply hoare_bind_inv.
  { apply hoare_modify. intros w [Hk Hs]. split; [done|]. by apply safe_setAdd. }
  intros _. apply hoare_bind_inv; [|intros _; apply hoare_ret].
  apply hoare_forEach. intros c Hc. apply emplace_plain.
  by apply (forallb_elem _ _ Hcs).
Qed.

Lemma remove_plain e type :
  plainName type = true → hoare plainWorld (WorldDefs.remove e type) plainWorld.
Proof.
  intros Htype. unfold WorldDefs.remove. unfold_monad.
  apply hoare_getWorld. intros w0 Hw0.
  eapply hoare_weaken with (P' := plainWorld); [|by intros ? ->|done].
  destruct (tsGet (components w0) type) as [st|]; [|apply hoare_ret].
  apply hoare_bind_inv.
  { apply hoare_modify. intros w [Hk Hs]. split; [by apply plain_tsUpdate|done]. }
  intros _. destruct (st !! e) as [c|]; [|apply hoare_ret].
  destruct (indexesByComponent w0 !! type) as [ixs|]; [|apply hoare_ret].
  apply hoare_bind_inv; [|intros _; apply hoare_ret].
  apply hoare_forEach. intros i _. apply hoare_withIndex_plain.
Qed.

Lemma destroyCleanup_plain e : hoare plainWorld (destroyCleanup e) plainWorld.
Proof.
  unfold destroyCleanup. unfold_monad.
  apply hoare_bind_inv.
  { apply hoare_modify. intros w [Hk Hs]. split; [done|]. by apply safe_setDelete. }
  intros _. apply hoare_getWorld. intros w1 Hw1.
  eapply hoare_bind with (R := plainWorld); [| |done].
  { apply hoare_modify. intros w ->. destruct Hw1 as [Hk Hs]. split; [|done].
    simpl. apply Forall_fmap. eapply Forall_impl; [exact Hk|]. by intros [k st]. }
  intros _. apply hoare_bind_inv; [|intros _; apply hoare_ret].
  apply hoare_forEachSubsequenceIndex; [by intros it w []|].
  intros i. apply hoare_withIndex_plain.
Qed.

Lemma registerSingleton_plain c :
  plainName (ctor c) = true → hoare plainWorld (registerSingleton c) plainWorld.
Proof.
  intros Hc. unfold registerSingleton. unfold_monad.
  apply hoare_getWorld. intros w0 Hw0.
  eapply hoare_weaken with (P' := plainWorld); [|by intros ? ->|done].
  apply hoare_bind_inv; [|intros _; by apply emplace_plain].
  destruct (negb _); [|apply hoare_ret].
  apply hoare_modify. intros w [Hk Hs]. split; [done|]. by apply safe_setAdd.
Qed.

Lemma removeSingleton_plain type :
  plainName type = true → hoare plainWorld (removeSingleton type) plainWorld.
Proof.
  intros Htype. unfold removeSingleton. unfold_monad.
  apply hoare_getWorld. intros w0 Hw0.
  eapply hoare_weaken with (P' := plainWorld); [|by intros ? ->|done].
  destruct (negb _); [apply hoare_ret|].
  apply hoare_bind_inv; [by apply remove_plain|intros _; apply hoare_ret].
Qed.

Lemma newIndexIterator_plain i names : hoare plainWorld (newIndexIterator i names) plainWorld.
Proof.
  unfold newIndexIterator. unfold_monad.
  apply hoare_bind_inv; [|intros it; apply hoare_ret]. apply hoare_withIndex_plain.
Qed.

Lemma index_plain spec :
  forallb (λ s : string * string, plainName s.2) spec = true →
  hoare plainWorld (index spec) plainWorld.
Proof.
  intros Hspec. unfold index. unfold_monad.
  apply hoare_bind_inv.
  { apply hoare_forEach. intros s Hs. apply hoare_modify. intros w [Hk He].
    split; [|done]. apply plain_tsUpdate; [|done].
    by apply (forallb_elem _ _ Hspec). }
  intros _.
  destruct (adjacentDuplicate None _) as [dup|]; [apply hoare_throw|].
  apply hoare_getWorld. intros w1 Hw1.
  eapply hoare_weaken with (P' := plainWorld); [|by intros ? ->|done].
  destruct (getInTrie (indexByComponents w1) _) as [i|]; [apply newIndexIterator_plain|].
  apply hoare_bind_inv; [apply hoare_modify; by intros w []|]. intros _.
  apply hoare_bind_inv; [apply hoare_modify; by intros w []|]. intros _.
  apply hoare_bind_inv.
  { apply hoare_forEach. intros c _. apply hoare_modify. by intros w []. }
  intros _. apply hoare_bind_inv; [|intros _; apply newIndexIterator_plain].
  apply hoare_forEach. intros e _.
  apply hoare_getWorld. intros w2 Hw2.
  eapply hoare_weaken with (P' := plainWorld); [|by intros ? ->|done].
  apply hoare_bind_inv; [apply hoare_liftResult|]. intros [ecs|]; [|apply hoare_ret].
  apply hoare_withIndex_plain.
Qed.

Lemma step_plain c w :
  callInScope c = true → safeInteger (entitySequence w) = true →
  plainWorld w → plainWorld (step c w).
Proof.
  intros Hc Hseq Hw. destruct c; simpl in *.
  - by apply create_plain.
  - apply andb_prop in Hc as [? ?]. by apply insert_plain.
  - apply andb_prop in Hc as [? ?]. by apply emplace_plain.
  - apply andb_prop in Hc as [? ?]. by apply remove_plain.
  - by apply destroyCleanup_plain.
  - by apply index_plain.
  - by apply registerSingleton_plain.
  - by apply removeSingleton_plain.
Qed.

Lemma runInScope_plain : ∀ calls w,
  runInScope calls w = true → worldInv w →
  entitySequence w ≤ IdPoolDefs.MAX_SAFE_INTEGER →
  plainWorld w → plainWorld (run calls w).
Proof.
  induction calls as [|c calls IH]; intros w Hrun Hinv Hseq Hw; [done|].
  simpl in Hrun. apply andb_prop in Hrun as [[Hc Hnext%bool_decide_eq_true]%andb_prop Hrest].
  simpl. apply IH; [done|by apply step_inv|done|].
  apply step_plain; [done| |done].
  apply bool_decide_eq_true. destruct Hinv as [? _].
  pose proof MAX_SAFE_INTEGER_value. lia.
Qed.

(** In the worlds within the scope, the keys of [components] are plain
    names and the entities are safe integers. *)
Lemma inScope_plainWorld w : inScope w → plainWorld w.
Proof.
  intros (calls & Hrun & ->). apply runInScope_plain; [done|apply worldInv_new| |].
  - pose proof MAX_SAFE_INTEGER_value. simpl. lia.
  - split; constructor.
Qed.
End scope.

Section destroy.
Import TrieDefs IndexDefs WorldDefs.
Implicit Types (w : World) (ib : IndexBase).

Lemma has_get e type w : has e type w = true ↔ ∃ c, get e type w = Some c.
Proof.
  unfold has, get. destruct (tsGet (components w) type) as [st|].
  - rewrite bool_decide_eq_true. done.
  - split; [done|by intros []].
Qed.

Lemma held_sublist_keys e (cs : TypeStorage) :
  (∀ k st c, (k, st) ∈ cs → st !! e = Some c → ctor c = k) →
  (ctor <$> heldComponents cs e) `sublist_of` (fst <$> cs).
Proof.
  unfold heldComponents. induction cs as [|[k st] cs IH]; intros Hctor; [done|].
  csimpl. destruct (st !! e) as [c|] eqn:Hc; csimpl.
  - rewrite (Hctor k st c); [|left|done]. apply sublist_skip, IH.
    intros k' st' c' Hin. apply Hctor. by right.
  - apply sublist_cons, IH. intros k' st' c' Hin. apply Hctor. by right.
Qed.

Lemma heldTypes_NoDup e w : worldInv w → NoDup (ctor <$> heldComponents (components w) e).
Proof.
  intros (_ & _ & Hctor & Hnd & _). eapply sublist_NoDup; [exact Hnd|].
  apply held_sublist_keys. intros k st c Hin Hc. apply (Hctor k e c).
  unfold get. by rewrite (tsGet_elem _ _ _ Hnd Hin).
Qed.

Lemma heldTypes_has e type w :
  worldInv w → has e type w = true → type ∈ ctor <$> heldComponents (components w) e.
Proof.
  intros (_ & _ & Hctor & _) [c Hget]%has_get.
  rewrite <-(Hctor type e c Hget). apply list_elem_of_fmap. exists c. split; [done|].
  unfold heldComponents. apply list_elem_of_omap. unfold get in Hget.
  destruct (tsGet (components w) type) as [st|] eqn:Hst; [|done].
  exists (type, st). split; [by apply tsGet_Some_elem|done].
Qed.

Lemma get_components e type w w' : components w' = components w → get e type w' = get e type w.
Proof. unfold get. by intros ->. Qed.

(** The sorted list of the types of [entity] is strictly sorted. *)
Lemma heldTypes_sorted e w :
  worldInv w →
  StronglySorted strLt (jsSort compareStrings (ctor <$> heldComponents (components w) e)).
Proof.
  intros Hinv. apply sorted_NoDup_strict.
  - apply (jsSort_sorted id).
  - rewrite jsSort_perm. by apply heldTypes_NoDup.
Qed.




End destroy.

Section world_claims.
Import TrieDefs IndexDefs WorldDefs.
Implicit Types (w : World) (ib : IndexBase).

Lemma reachable_step c w : reachable w → reachable (step c w).
Proof.
  intros [calls ->]. exists (calls ++ [c]). unfold run. by rewrite foldl_app.
Qed.

(** [destroy] with its calls of [free] stays among the reachable worlds
    when the [free] methods do: a [free] method that acts on the world
    through calls of its own adds further steps. *)
Lemma destroy_reachable (free : Component → Z → M unit) e w :
  (∀ c w', reachable w' → reachable (free c e w').1) →
  reachable w → reachable (destroy free e w).1.
Proof.
  intros Hfree Hw. unfold destroy. unfold_monad.
  apply (hoare_bind reachable reachable reachable); [| |done|done].
  - intros w' Hw'. apply (reachable_step (CallDestroy e) w' Hw').
  - intros frees. apply hoare_forEach. intros c _ w' Hw'. by apply Hfree.
Qed.

(** ** Lookups *)



(** ** Entity ids *)

Lemma forEach_modify {A} (f : A → World → World) : ∀ (l : list A) w,
  forEach l (λ x, modify (f x)) w = (foldl (λ w x, f x w) w l, Ok tt).
Proof. induction l as [|x l IH]; intros w; [done|]. simpl. unfold bind, modify. apply IH. Qed.

Lemma create_result cs w w' e : create cs w = (w', Ok e) → e = entitySequence w.
Proof.
  unfold create. unfold_monad. unfold bind at 1 2 3 4, getWorld, modify at 1 2.
  rewrite forEach_modify. unfold bind.
  repeat case_match; intros; unfold ret, throw in *; by simplify_eq.
Qed.

(** C6, amended. In a world a program can reach, every id [create]
    returns is a non-negative integer; it is never [Null] (-1) and never
    the singleton entity (-2). The first id of a world is 0. *)
Theorem create_ids_not_negative (w : World) (cs : list Component) (w' : World) (e : Z) :
  reachable w → create cs w = (w', Ok e) →
  (0 ≤ e ∧ e ≠ Null ∧ e ≠ singletonEntity) ∧ (create [] new).2 = Ok 0.
Proof.
  intros (Hseq & _)%reachable_inv ->%create_result.
  split; [|reflexivity]. unfold Null, singletonEntity. lia.
Qed.

(** C6 fails as stated: [create()] on a new world returns 0, which is
    not positive. *)
Lemma first_create_is_zero :
  ¬ (∀ w cs w' e, reachable w → create cs w = (w', Ok e) → 0 < e).
Proof.
  intros Hclaim.
  assert (0 < 0); [|lia].
  apply (Hclaim new [] (create [] new).1 0); [by exists []|reflexivity].
Qed.

(** ** [create] returns *)

Lemma adjacentDuplicate_NoDup : ∀ (l : list string) prev,
  NoDup l → (∀ p, prev = Some p → p ∉ l) → adjacentDuplicate prev l = None.
Proof.
  induction l as [|x l IH]; intros prev Hnd Hprev; [done|].
  apply NoDup_cons in Hnd as [Hx Hnd]. simpl. rewrite decide_False.
  - apply IH; [done|]. by intros p [= <-].
  - intros <-. apply (Hprev x); [done|left].
Qed.

Lemma gather_ok (cs : TypeStorage) e : ∀ tys,
  (∀ type, type ∈ tys → is_Some (tsGet cs type)) → ∃ ecs, gather cs e tys = Ok ecs.
Proof.
  induction tys as [|type tys IH]; intros Hst; [by eexists|].
  simpl. destruct (Hst type) as [st ->]; [left|].
  destruct IH as [ecs ->]; [|by eexists]. intros type' Hin. apply Hst. by right.
Qed.

Lemma tsGet_tsUpdate_is_Some f type (cs : TypeStorage) type' :
  is_Some (tsGet cs type') ∨ type' = type → is_Some (tsGet (tsUpdate f type cs) type').
Proof.
  intros Hty. rewrite tsGet_tsUpdate. case_decide as Heq; [by eexists|].
  destruct Hty as [|]; [done|]. by subst.
Qed.

Lemma stored_types e : ∀ (cs : list Component) w type,
  is_Some (tsGet (components w) type) ∨ type ∈ ctor <$> cs →
  is_Some (tsGet (components
    (foldl (λ w c, setComponents (tsUpdate (<[e := c]>) (ctor c) (components w)) w) w cs))
    type).
Proof.
  induction cs as [|c cs IH]; intros w type Hty.
  - destruct Hty as [|Hin]; [done|]. by apply elem_of_nil in Hin.
  - simpl. apply IH. rewrite fmap_cons in Hty.
    destruct Hty as [Hty|[->|Hin]%elem_of_cons].
    + left. simpl. apply tsGet_tsUpdate_is_Some. by left.
    + left. simpl. apply tsGet_tsUpdate_is_Some. by right.
    + by right.
Qed.

Lemma stored_inv e : ∀ (cs : list Component) w,
  worldInv w → e ∈ entities w →
  worldInv (foldl (λ w c, setComponents (tsUpdate (<[e := c]>) (ctor c) (components w)) w) w cs).
Proof.
  induction cs as [|c cs IH]; intros w Hinv He; [done|].
  simpl. apply IH; [by apply worldInv_store|done].
Qed.

(** In a world a program can reach, [create] with components of
    different classes returns, and returns the entity sequence. *)
Lemma create_returns cs w :
  worldInv w → NoDup (ctor <$> cs) → ∃ w', create cs w = (w', Ok (entitySequence w)).
Proof.
  intros Hinv Hnd.
  set (e := entitySequence w).
  set (w2 := setEntities (setAdd e (entities (setEntitySequence (e + 1) w)))
               (setEntitySequence (e + 1) w)).
  set (w3 := foldl (λ w c, setComponents (tsUpdate (<[e := c]>) (ctor c) (components w)) w) w2 cs).
  set (q := jsSort compareStrings (ctor <$> cs)).
  set (body := λ index : nat,
    bind getWorld (λ w0,
      bind (liftResult (from_option Ok (Throw TypeError) (indexes w0 !! index))) (λ ib,
        bind (liftResult (gather (components w0) e (types ib))) (λ ecs,
          withIndex index (λ ib0, Ok ((), add e ecs ib0)))))).
  assert (Hinv3 : worldInv w3).
  { apply stored_inv.
    - apply worldInv_setAdd, worldInv_setEntitySequence; [|done]. destruct Hinv. lia.
    - simpl. apply elem_of_setAdd. by left. }
  set (J := λ (seen : list nat) (w' : World),
         worldInv w' ∧ components w' = components w3 ∧
         indexByComponents w' = indexByComponents w3).
  destruct (forEachSubsequenceIndex_spec J body q w3) as (w4 & Hloop & _).
  { done. }
  { by intros it seen w' (? & ? & ?). }
  { intros i seen w' Hi (Hinv' & Hc & Ht).
    apply elem_of_foreachSubsequenceInTrie in Hi as (p & Hp & Hget).
    destruct (Hinv') as (_ & _ & _ & _ & _ & Hvalid).
    rewrite <-Ht in Hget. destruct (Hvalid p i Hget) as (ib & Hib & Hty).
    destruct (gather_ok (components w') e (types ib)) as [ecs Hecs].
    { intros type Htype. rewrite Hc. apply stored_types. right.
      rewrite Hty in Htype. apply (sublist_subseteq _ _ Hp) in Htype.
      unfold q in Htype. by rewrite jsSort_perm in Htype. }
    unfold body, bind, getWorld, liftResult. rewrite Hib. simpl. rewrite Hecs.
    unfold withIndex. rewrite Hib. eexists. split; [done|]. split; [|done].
    split_and!; try done. eapply worldInv_updIndex; [done|done|apply types_add]. }
  exists w4. unfold create. unfold_monad. unfold bind at 1 2 3 4, getWorld, modify at 1 2.
  rewrite forEach_modify. fold e. fold w2. fold w3. fold q.
  unfold bind at 1. rewrite adjacentDuplicate_NoDup; [|unfold q; by rewrite jsSort_perm|done].
  unfold ret at 1. unfold bind at 1.
  unfold body, getWorld in Hloop. by rewrite Hloop.
Qed.

Lemma emplace_ids e c w :
  entitySequence (emplace e c w).1 = entitySequence w ∧
  entities (emplace e c w).1 = entities w.
Proof.
  set (P := λ w', entitySequence w' = entitySequence w ∧ entities w' = entities w).
  assert (hoare P (emplace e c) P) as Hemplace; [|by apply Hemplace].
  unfold emplace. unfold_monad.
  apply hoare_getWorld. intros w0 HP0.
  eapply hoare_weaken with (P' := P); [|by intros ? ->|done].
  destruct (negb _); [apply hoare_throw|].
  apply hoare_bind_inv; [by apply hoare_modify|]. intros _.
  apply hoare_getWorld. intros w1 HP1.
  eapply hoare_weaken with (P' := P); [|by intros ? ->|done].
  destruct (indexesByComponent w1 !! ctor c) as [ixs|]; [|apply hoare_ret].
  apply hoare_forEach. intros i _.
  apply hoare_bind_inv; [by apply hoare_withIndex|].
  intros [|]; [apply hoare_ret|].
  apply hoare_getWorld. intros w2 HP2.
  eapply hoare_weaken with (P' := P); [|by intros ? ->|done].
  apply hoare_bind_inv; [apply hoare_liftResult|]. intros ib.
  apply hoare_bind_inv; [apply hoare_liftResult|]. intros [ecs|]; [|apply hoare_ret].
  by apply hoare_withIndex.
Qed.

Lemma forEach_emplace_ids e : ∀ cs w,
  entitySequence (forEach cs (emplace e) w).1 = entitySequence w ∧
  entities (forEach cs (emplace e) w).1 = entities w.
Proof.
  induction cs as [|c cs IH]; intros w; [done|].
  simpl. unfold bind. destruct (emplace_ids e c w) as [Hs He].
  destruct (emplace e c w) as [w1 [[]|err]]; simpl in *; [|done].
  destruct (IH w1) as [-> ->]. done.
Qed.

(** C9. In a world a program can reach, [insert(e, ...)] with [e] equal to
    the entity sequence leaves the sequence where it is, and [e] alive; the
    next [create], with components of different classes, returns [e]
    again. *)
Theorem insert_aliases_next_create (w : World) (cs cs' : list Component) :
  reachable w → NoDup (ctor <$> cs') →
  let e := entitySequence w in
  let w1 := (insert e cs w).1 in
  entitySequence w1 = e ∧ exists_ e w1 = true ∧ (create cs' w1).2 = Ok e.
Proof.
  intros Hreach Hnd e w1.
  assert (Hids : entitySequence w1 = e ∧ entities w1 = setAdd e (entities w)).
  { assert (Hins : w1 = (forEach cs (emplace e) (setEntities (setAdd e (entities w)) w)).1).
    { unfold w1, insert. unfold_monad. unfold bind, getWorld, modify.
      rewrite decide_False by (unfold e; lia). unfold ret at 1.
      by destruct (forEach cs (emplace e) _) as [w2 [[]|err]]. }
    rewrite Hins.
    by destruct (forEach_emplace_ids e cs (setEntities (setAdd e (entities w)) w)) as [-> ->]. }
  destruct Hids as [Hseq Hents]. split; [done|]. split.
  - unfold exists_, setHas. rewrite Hents. apply bool_decide_eq_true, elem_of_setAdd. by left.
  - destruct (create_returns cs' w1) as [w2 Hcreate]; [|done|].
    + apply reachable_inv. apply (reachable_step (CallInsert e cs) w Hreach).
    + rewrite Hcreate. simpl. by rewrite Hseq.
Qed.

(** C10. After [registerSingleton] on a world in which the entity -2 is
    not alive, [exists(-2)] answers [true], [size()] is one more than
    before, and [all()] yields -2. *)
Theorem singleton_entity_is_live (w : World) (c : Component) :
  exists_ singletonEntity w = false →
  let w' := (registerSingleton c w).1 in
  exists_ singletonEntity w' = true ∧
  size None w' = Ok (Z.of_nat (length (entities w)) + 1) ∧
  size None w = Ok (Z.of_nat (length (entities w))) ∧
  singletonEntity ∈ all w'.
Proof.
  intros Hnew w'.
  assert (Hents : entities w' = entities w ++ [singletonEntity]).
  { unfold w', registerSingleton. unfold_monad. unfold bind, getWorld.
    unfold exists_ in Hnew. rewrite Hnew. simpl.
    destruct (emplace_ids singletonEntity c
                (setEntities (setAdd singletonEntity (entities w)) w)) as [_ ->].
    simpl. unfold setAdd. rewrite decide_False; [done|].
    by apply bool_decide_eq_false in Hnew. }
  unfold exists_, setHas, size, all. rewrite Hents. split_and!.
  - apply bool_decide_eq_true, elem_of_app. right. left.
  - f_equal. rewrite length_app. simpl. lia.
  - done.
  - apply elem_of_app. right. left.
Qed.

(** ** Index coherence *)

(** C1. The code breaks the coherence of the indexes: after
    [insert(0, new A)], [index({a: A, b: B})] and [create(new B)] on a new
    world, entity 0 is alive, holds [A] and [B], and is not in the index
    on [A] and [B]. [insert] advances the entity sequence only past an
    id that exceeds it, so [create] hands out the id 0 again and updates
    the indexes for the new components only. *)
Lemma create_after_insert_breaks_coherence :
  let cA := MkComponent "A" 0 false in
  let cB := MkComponent "B" 0 false in
  let w := run [CallInsert 0 [cA];
                CallIndex [("a", "A"); ("b", "B")]%string;
                CallCreate [cB]] new in
  exists_ 0 w = true ∧ holdsAll 0 0 w = true ∧ inIndex 0 0 w = false.
Proof. vm_compute. done. Qed.

End world_claims.



(** The first entity of a new world. *)
Lemma create_ids_not_negative_witness :
  let cs := [IndexDefs.MkComponent "A" 0 false] in
  let w' := (WorldDefs.create cs WorldDefs.new).1 in
  WorldDefs.reachable WorldDefs.new ∧ WorldDefs.create cs WorldDefs.new = (w', Ok 0) ∧
  (0 ≤ 0 ∧ 0 ≠ WorldDefs.Null ∧ 0 ≠ WorldDefs.singletonEntity) ∧
  (WorldDefs.create [] WorldDefs.new).2 = Ok 0.
Proof.
  intros cs w'.
  assert (Hreach : WorldDefs.reachable WorldDefs.new) by (exists []; reflexivity).
  assert (Hcreate : WorldDefs.create cs WorldDefs.new = (w', Ok 0)) by reflexivity.
  split; [exact Hreach|]. split; [exact Hcreate|].
  exact (create_ids_not_negative WorldDefs.new cs w' 0 Hreach Hcreate).
Defined.

(** [insert(0, new A)] on a new world, then [create()]. *)
Lemma insert_aliases_next_create_witness :
  let cs := [IndexDefs.MkComponent "A" 0 false] in
  let w1 := (WorldDefs.insert 0 cs WorldDefs.new).1 in
  WorldDefs.reachable WorldDefs.new ∧ NoDup (IndexDefs.ctor <$> []) ∧
  WorldDefs.entitySequence w1 = 0 ∧ WorldDefs.exists_ 0 w1 = true ∧
  (WorldDefs.create [] w1).2 = Ok 0.
Proof.
  intros cs w1.
  assert (Hreach : WorldDefs.reachable WorldDefs.new) by (exists []; reflexivity).
  assert (Hnd : NoDup (IndexDefs.ctor <$> [])) by constructor.
  split; [exact Hreach|]. split; [exact Hnd|].
  exact (insert_aliases_next_create WorldDefs.new cs [] Hreach Hnd).
Defined.

(** The first singleton of a new world. *)
Lemma singleton_entity_is_live_witness :
  let c := IndexDefs.MkComponent "Config" 0 false in
  let w' := (WorldDefs.registerSingleton c WorldDefs.new).1 in
  WorldDefs.exists_ WorldDefs.singletonEntity WorldDefs.new = false ∧
  WorldDefs.exists_ WorldDefs.singletonEntity w' = true ∧
  WorldDefs.size None w' = Ok 1 ∧ WorldDefs.size None WorldDefs.new = Ok 0 ∧
  WorldDefs.singletonEntity ∈ WorldDefs.all w'.
Proof.
  intros c w'.
  assert (Hnew : WorldDefs.exists_ WorldDefs.singletonEntity WorldDefs.new = false)
    by reflexivity.
  split; [exact Hnew|].
  exact (singleton_entity_is_live WorldDefs.new c Hnew).
Defined.

(** * Further properties *)

Section trie_more.
Import TrieDefs.
Context {S : Type} `{Countable S} {T : Type}.
Implicit Types (t b : Trie S T) (q p : list S).

Lemma untilFalse_app {A} (found : T → A → bool * A) (vs ws : list T) (a : A) :
  untilFalse found (vs ++ ws) a =
    let '(go, a1) := untilFalse found vs a in
    if go then untilFalse found ws a1 else (false, a1).
Proof.
  revert a. induction vs as [|v vs IH]; intros a; simpl; [done|].
  destruct (found v a) as [[] a1]; [apply IH|done].
Qed.

Lemma visit_untilFalse {A} (found : T → A → bool * A) (v : option T) (a : A) :
  visit found v a = untilFalse found (option_list v) a.
Proof. destruct v as [v|]; simpl; [|done]. by destruct (found v a) as [[] ?]. Qed.

Lemma searchBranches_untilFalse {A} (found : T → A → bool * A) : ∀ q t (a : A),
  searchBranches found t q a = untilFalse found (scanBranches t q) a.
Proof.
  induction q as [|s q IH]; intros t a; [done|].
  cbn [searchBranches scanBranches]. rewrite untilFalse_app.
  destruct (branch t s) as [b|].
  - rewrite untilFalse_app, visit_untilFalse.
    destruct (untilFalse found (option_list (value b)) a) as [[] a1]; [|done].
    rewrite IH. destruct (untilFalse found (scanBranches b q) a1) as [[] a2]; [|done].
    apply IH.
  - simpl. apply IH.
Qed.

Lemma reset_root (seq' : option (list S)) (trie : option (Trie S T))
    (it0 : TrieSubsequenceIterator S T) :
  path (reset seq' trie it0) !! 0%nat = trie ∪ path it0 !! 0%nat.
Proof.
  destruct trie as [t|]; simpl.
  - rewrite lookup_insert_eq. by destruct (path it0 !! 0%nat).
  - by destruct (path it0 !! 0%nat).
Qed.

Lemma reset_seq (seq' : option (list S)) (trie : option (Trie S T))
    (it0 : TrieSubsequenceIterator S T) q :
  seq' ∪ seq it0 = Some q → reset seq' trie it0 = reset (Some q) trie it0.
Proof.
  unfold reset.
  destruct seq' as [q'|], (seq it0) as [q''|] eqn:Hq; intros [= <-]; done.
Qed.

(** X1. [setInTrie] followed by [getInTrie]: the value at the sequence
    that was set is the value set, and the value at every other sequence
    is what it was. *)
Theorem setInTrie_getInTrie t p (v : T) p' :
  getInTrie (setInTrie t p v) p' = if decide (p' = p) then Some v else getInTrie t p'.
Proof.
  case_decide as Hp.
  - subst. apply getInTrie_setInTrie_eq.
  - apply getInTrie_setInTrie_ne. congruence.
Qed.

(** X2. [foreachSubsequenceInTrie] with any callback calls [found] on the
    values of the search in their order, and stops at the first call that
    answers [false], which is then its own answer: it is the run of
    [found] over the list of values up to the first [false]. *)
Theorem foreachSubsequenceInTrie_stops {A} (found : T → A → bool * A) t q (a : A) :
  foreachSubsequenceInTriesRec found t q a = untilFalse found (foreachSubsequenceInTrie t q) a.
Proof.
  unfold foreachSubsequenceInTriesRec, foreachSubsequenceInTrie, subsequenceValues.
  rewrite untilFalse_app, visit_untilFalse.
  destruct (untilFalse found (option_list (value t)) a) as [[] a1]; [|done].
  apply searchBranches_untilFalse.
Qed.

(** X3. The iterator and the recursive search agree: after [reset], with
    or without a new sequence and a new trie, the calls of [next] yield
    the values that [foreachSubsequenceInTrie] finds for the sequence and
    the trie the iterator then holds, in the same order, whatever state an
    earlier search left the iterator in, and also when the sequence
    repeats a symbol. *)
Theorem iterator_agrees_with_recursion t q (it0 : TrieSubsequenceIterator S T)
    (seq' : option (list S)) (trie : option (Trie S T)) (calls fuel : nat) :
  seq' ∪ seq it0 = Some q → trie ∪ path it0 !! 0%nat = Some t →
  (searchFuel (length q) ≤ calls)%nat → (searchFuel (length q) ≤ fuel)%nat →
  drive calls fuel (reset seq' trie it0) = Some (foreachSubsequenceInTrie t q).
Proof.
  intros Hq Ht Hc Hf. rewrite (reset_seq seq' trie it0 q Hq).
  apply drive_reset; [|done..]. by rewrite reset_root.
Qed.

(** X4. The recursive search finds a stored value once for every way of
    deleting elements of the sequence that leaves the stored sequence:
    its values are, up to their order, the values at the [2 ^ n] choices
    of positions of the sequence. When the sequence repeats a symbol, the
    same value is found more than once. *)
Theorem foreachSubsequenceInTrie_multiplicity t q :
  foreachSubsequenceInTrie t q ≡ₚ omap (getInTrie t) (sublists q).
Proof. apply subsequenceValues_sublists. Qed.

End trie_more.

(** The trie with the sequences [A, B] and [B], searched for [A, B] by an
    iterator that was built on another trie and sequence. *)
Lemma iterator_agrees_with_recursion_witness :
  let t := TrieDefs.setInTrie
             (TrieDefs.setInTrie TrieDefs.emptyTrie ["A"; "B"]%string 1%nat) ["B"%string] 2%nat in
  let q := ["A"; "B"]%string in
  let it0 := TrieDefs.reset (Some ["C"%string]) (Some TrieDefs.emptyTrie) TrieDefs.newIterator in
  TrieDefs.drive 14 14 (TrieDefs.reset (Some q) (Some t) it0) = Some [1; 2]%nat.
Proof.
  intros t q it0.
  rewrite (iterator_agrees_with_recursion t q it0 (Some q) (Some t) 14 14);
    [reflexivity|reflexivity|reflexivity|vm_compute; lia|vm_compute; lia].
Defined.

Section util.
Import UtilDefs.

Lemma string_app_assoc (a b c : string) : (a +:+ b) +:+ c = a +:+ (b +:+ c).
Proof.
  induction a as [|x a IH]; [done|].
  change (String x ((a +:+ b) +:+ c) = String x (a +:+ (b +:+ c))). by rewrite IH.
Qed.

Lemma string_app_nil_r (a : string) : a +:+ "" = a.
Proof.
  induction a as [|x a IH]; [done|].
  change (String x (a +:+ "") = String x a). by rewrite IH.
Qed.

Lemma join_loop (sep : string) (arr : list string) : ∀ (pre : list string) (x : string) (out : string),
  arr = pre ++ [x] → ∀ (done_ rest : list string), pre = done_ ++ rest →
  foldl (λ out i, out +:+ (textAt arr (Z.of_nat i) +:+ sep)) out
        (seq (length done_) (length rest)) +:+ x
  = out +:+ String.concat sep (rest ++ [x]).
Proof.
  intros pre x out -> done_ rest. revert done_ out.
  induction rest as [|y rest IH]; intros done_ out ->; simpl; [done|].
  specialize (IH (done_ ++ [y]) (out +:+ (y +:+ sep))).
  rewrite length_app in IH. simpl in IH. rewrite Nat.add_1_r in IH.
  replace (textAt ((done_ ++ y :: rest) ++ [x]) (Z.of_nat (length done_))) with y.
  2:{ unfold textAt. rewrite decide_True by lia. rewrite Nat2Z.id.
      rewrite <-app_assoc. rewrite lookup_app_r by lia. by rewrite Nat.sub_diag. }
  rewrite IH by (by rewrite <-app_assoc).
  rewrite string_app_assoc. f_equal.
  destruct rest; simpl; by rewrite ?string_app_assoc.
Qed.

(** X5. [join] writes the elements of the array with the separator in
    between; of the empty array it makes the text of [undefined], since
    it reads the element at position -1. *)
Theorem join_concat (arr : list string) (sep : string) :
  join arr sep = match arr with [] => "undefined"%string | _ => String.concat sep arr end.
Proof.
  destruct arr as [|a arr']; [done|].
  destruct (exists_last (l := a :: arr')) as (pre & [x Harr]); [done|].
  rewrite Harr at 2. unfold join.
  replace (Z.of_nat (length (a :: arr')) - 1) with (Z.of_nat (length pre)).
  2:{ rewrite Harr, length_app. simpl. lia. }
  rewrite Nat2Z.id.
  replace (textAt (a :: arr') (Z.of_nat (length pre))) with x.
  2:{ unfold textAt. rewrite decide_True by lia. rewrite Nat2Z.id, Harr.
      rewrite lookup_app_r by lia. by rewrite Nat.sub_diag. }
  apply (join_loop sep (a :: arr') pre x "" Harr [] pre eq_refl).
Qed.

End util.

Section id_pool_more.
Import IdPoolDefs.
Implicit Types (pool : IdPool) (iv : Interval).

Lemma MAX_SAFE_INTEGER_big : 1000000 < MAX_SAFE_INTEGER.
Proof. reflexivity. Qed.

Lemma isFree_iff id pool :
  isFree id pool = true ↔ ∃ iv, iv ∈ pool ∧ left iv ≤ id < right iv.
Proof.
  unfold isFree, findIndex. rewrite bool_decide_eq_true. split.
  - intros [[i iv] Hf]. apply list_find_Some in Hf as (Hi & Hiv & _).
    exists iv. split; [by eapply list_elem_of_lookup_2|lia].
  - intros (iv & Hin & Hiv).
    eapply (list_find_elem_of (λ interval, left interval ≤ id ∧ right interval > id));
      [done|lia].
Qed.

Lemma isFree_false id pool :
  isFree id pool = false ↔ Forall (λ iv, ¬ (left iv ≤ id < right iv)) pool.
Proof.
  rewrite <-not_true_iff_false, isFree_iff, Forall_forall. split.
  - intros Hn iv Hin Hiv. apply Hn. by exists iv.
  - intros Hall (iv & Hin & Hiv). by apply (Hall iv).
Qed.

Lemma jsSort_snoc {A} (cmp : A → A → Z) (l : list A) (x : A) :
  jsSort cmp (l ++ [x]) = insertSorted cmp x (jsSort cmp l).
Proof. unfold jsSort. by rewrite foldl_app. Qed.

Lemma insertSorted_split {A} (cmp : A → A → Z) (x : A) (l1 l2 : list A) :
  Forall (λ y, ¬ 0 < cmp y x) l1 →
  match l2 with [] => True | y :: _ => 0 < cmp y x end →
  insertSorted cmp x (l1 ++ l2) = l1 ++ x :: l2.
Proof.
  intros Hl1 Hl2. induction Hl1 as [|y l1 Hy Hl1 IH]; simpl.
  - destruct l2 as [|y l2]; [done|]. simpl. by rewrite decide_True.
  - rewrite decide_False by done. by rewrite IH.
Qed.

(** Sorting a list that is in order already leaves it as it is. *)
Lemma jsSort_in_order {A} (cmp : A → A → Z) (R : A → A → Prop) (l : list A) :
  (∀ a b, R a b → ¬ 0 < cmp a b) → StronglySorted R l → jsSort cmp l = l.
Proof.
  intros HR. induction l as [|x l IH] using rev_ind; [done|].
  intros Hs. pose proof (StronglySorted_app_1_l _ _ _ Hs) as Hl.
  rewrite jsSort_snoc, IH by done.
  rewrite <-(app_nil_r l) at 1. rewrite (insertSorted_split cmp x l []); [done| |done].
  apply Forall_forall. intros y Hy. apply HR.
  eapply StronglySorted_app_1_elem_of; [exact Hs|done|left].
Qed.

Lemma compareIntervals_in_order a b :
  left a < right a → right a ≤ left b → ¬ 0 < compareIntervals a b.
Proof. unfold compareIntervals. repeat case_decide; lia. Qed.

Lemma ordered_sorted_cmp pool :
  ordered pool →
  StronglySorted (λ a b, left a < right a ∧ right a ≤ left b) pool.
Proof.
  intros (Hs & Hall & _). induction Hs as [|a l Hs IH Ha]; [constructor|].
  apply Forall_cons in Hall as [Hin Hall].
  constructor; [by apply IH|].
  eapply Forall_impl; [exact Ha|]. simpl. intros b Hb. lia.
Qed.

(** An ordered pool in which [id] is not free splits into the intervals
    below [id] and the intervals above it. *)
Lemma ordered_split id pool :
  ordered pool → id < MAX_SAFE_INTEGER → isFree id pool = false →
  ∃ below above, pool = below ++ above ∧ above ≠ [] ∧
    Forall (λ iv, right iv ≤ id) below ∧ Forall (λ iv, id < left iv) above.
Proof.
  intros (Hs & Hall & Hlast) Hid Hfree. apply isFree_false in Hfree.
  induction pool as [|a l IH]; [done|].
  apply StronglySorted_inv in Hs as [Hs Ha].
  apply Forall_cons in Hall as [Hin Hall].
  apply Forall_cons in Hfree as [Hna Hfree].
  destruct (decide (id < left a)) as [Hlt|Hge].
  - exists [], (a :: l). split_and!; [done|done|constructor|].
    apply Forall_cons. split; [done|].
    apply Forall_forall. intros b Hb.
    rewrite Forall_forall in Ha. rewrite Forall_forall in Hall.
    specialize (Ha b Hb). specialize (Hall b Hb). simpl in *. lia.
  - destruct l as [|b l'].
    + simpl in Hlast. injection Hlast as Hlast. lia.
    + destruct IH as (below & above & Hl & Hne & Hb & Ha'); [done|done|done|done|].
      exists (a :: below), above. rewrite Hl. split_and!; [done|done| |done].
      apply Forall_cons. split; [lia|done].
Qed.

Lemma last_app_ne {A} (l1 l2 : list A) : l2 ≠ [] → last (l1 ++ l2) = last l2.
Proof.
  intros Hne. destruct (exists_last Hne) as (l' & [x ->]).
  by rewrite app_assoc, !last_snoc.
Qed.

(** [release] of an id that is not free puts its interval in its place. *)
Lemma release_not_free id pool below above :
  ordered pool → 1 ≤ id < MAX_SAFE_INTEGER → pool = below ++ above → above ≠ [] →
  Forall (λ iv, right iv ≤ id) below → Forall (λ iv, id < left iv) above →
  release id pool = below ++ MkInterval id (id + 1) :: above.
Proof.
  intros Hord Hid -> Hne Hbelow Habove.
  assert (Hfree : isFree id (below ++ above) = false).
  { apply isFree_false, Forall_app. split.
    - eapply Forall_impl; [exact Hbelow|]. simpl. lia.
    - eapply Forall_impl; [exact Habove|]. simpl. lia. }
  unfold release. rewrite decide_False by lia.
  unfold isFree in Hfree. apply bool_decide_eq_false in Hfree.
  destruct (findIndex id (below ++ above)) as [[i iv]|] eqn:Hfind.
  { exfalso. apply Hfree. by eexists. }
  rewrite jsSort_snoc.
  rewrite (jsSort_in_order compareIntervals
             (λ a b, left a < right a ∧ right a ≤ left b));
    [|intros a b [??]; by apply compareIntervals_in_order|by apply ordered_sorted_cmp].
  apply insertSorted_split.
  - destruct Hord as (_ & Hall & _). apply Forall_app in Hall as [Hall _].
    apply Forall_forall. intros a Ha.
    rewrite Forall_forall in Hbelow. rewrite Forall_forall in Hall.
    specialize (Hbelow a Ha). specialize (Hall a Ha). simpl in *.
    unfold compareIntervals. simpl. repeat case_decide; lia.
  - destruct above as [|a above']; [done|].
    apply Forall_cons in Habove as [Ha _].
    destruct Hord as (_ & Hall & _). apply Forall_app in Hall as [_ Hall].
    apply Forall_cons in Hall as [[? ?] _].
    unfold compareIntervals. simpl. repeat case_decide; lia.
Qed.

Lemma ordered_insert id below above :
  ordered (below ++ above) → 1 ≤ id < MAX_SAFE_INTEGER → above ≠ [] →
  Forall (λ iv, right iv ≤ id) below → Forall (λ iv, id < left iv) above →
  ordered (below ++ MkInterval id (id + 1) :: above).
Proof.
  intros (Hs & Hall & Hlast) Hid Hne Hbelow Habove. split_and!.
  - apply StronglySorted_app_2.
    + intros a b Ha Hb. rewrite Forall_forall in Hbelow. specialize (Hbelow a Ha).
      apply elem_of_cons in Hb as [->|Hb]; [done|].
      rewrite Forall_forall in Habove. specialize (Habove b Hb). lia.
    + by apply StronglySorted_app_1_l in Hs.
    + constructor; [by apply StronglySorted_app_1_r in Hs|].
      eapply Forall_impl; [exact Habove|]. simpl. lia.
  - apply Forall_app in Hall as [H1 H2]. apply Forall_app. split; [done|].
    apply Forall_cons. split; [simpl; lia|done].
  - rewrite last_app_ne in Hlast by done. rewrite last_app_ne by done.
    destruct above; [done|]. done.
Qed.

Lemma reserve_ordered pool :
  ordered pool →
  ∃ first rest, pool = first :: rest ∧
    if decide (left first + 1 = MAX_SAFE_INTEGER)
    then rest = [] ∧ right first = MAX_SAFE_INTEGER ∧ reserve pool = Ok (0, pool)
    else reserve pool =
           Ok (left first,
               if decide (left first + 1 < right first)
               then MkInterval (left first + 1) (right first) :: rest else rest)
         ∧ (left first + 1 < right first ∨ rest ≠ []).
Proof.
  intros (Hs & Hall & Hlast). destruct pool as [|first rest]; [done|].
  exists first, rest. split; [done|].
  apply Forall_cons in Hall as [[? ?] Hall].
  apply StronglySorted_inv in Hs as [Hs Hfirst].
  case_decide as Hmax.
  - assert (rest = []) as ->.
    { destruct rest as [|b rest]; [done|].
      apply Forall_cons in Hfirst as [? _]. apply Forall_cons in Hall as [[? ?] _]. lia. }
    split; [done|]. split; [lia|]. unfold reserve.
    rewrite decide_False by lia. rewrite decide_False by lia. by rewrite decide_True.
  - unfold reserve. rewrite decide_False by lia.
    case_decide as Hmore.
    + split; [done|]. by left.
    + rewrite decide_False by done. split; [done|]. right. intros ->.
      simpl in Hlast. injection Hlast as Hlast. lia.
Qed.

(** What [reserve] does to an ordered pool. *)
Lemma reserve_spec pool :
  ordered pool →
  ∃ id pool', reserve pool = Ok (id, pool') ∧
    ((id = 0 ∧ pool' = pool ∧ ∀ j, isFree j pool = true → j = MAX_SAFE_INTEGER - 1)
     ∨ (1 ≤ id < MAX_SAFE_INTEGER - 1 ∧ isFree id pool = true ∧
        (∀ j, isFree j pool = true → id ≤ j) ∧
        ordered pool' ∧
        ∀ j, isFree j pool' = true ↔ isFree j pool = true ∧ j ≠ id)).
Proof.
  intros Hord. destruct (reserve_ordered pool Hord) as (first & rest & -> & Hres).
  pose proof Hord as (Hs & Hall & Hlast).
  apply Forall_cons in Hall as [[Hl Hr] Hall].
  apply StronglySorted_inv in Hs as [Hs Hfirst].
  case_decide as Hmax.
  - destruct Hres as (-> & Hright & Hres). eexists _, _. split; [exact Hres|]. left.
    split_and!; [done..|]. intros j (iv & Hin & Hiv)%isFree_iff.
    apply list_elem_of_singleton in Hin as ->. lia.
  - destruct Hres as [Hres Hne]. eexists _, _. split; [exact Hres|]. right.
    assert (Hlow : ∀ j, isFree j (first :: rest) = true → left first ≤ j).
    { intros j (iv & Hin & Hiv)%isFree_iff. apply elem_of_cons in Hin as [->|Hin]; [lia|].
      rewrite Forall_forall in Hfirst. specialize (Hfirst iv Hin). lia. }
    assert (Hlt : left first < MAX_SAFE_INTEGER - 1) by lia.
    split_and!; [lia|lia| |done| |].
    + apply isFree_iff. exists first. split; [left|lia].
    + case_decide as Hmore.
      * split_and!.
        -- constructor; [done|]. eapply Forall_impl; [exact Hfirst|]. simpl. lia.
        -- apply Forall_cons. split; [simpl; lia|done].
        -- destruct rest; done.
      * destruct Hne as [?|Hne]; [lia|]. split_and!; [done|done|].
        destruct rest; done.
    + intros j. rewrite !isFree_iff. case_decide as Hmore.
      * split.
        -- intros (iv & Hin & Hiv). apply elem_of_cons in Hin as [->|Hin].
           ++ simpl in Hiv. split; [|lia]. exists first. split; [left|lia].
           ++ split; [exists iv; split; [by right|done]|].
              rewrite Forall_forall in Hfirst. specialize (Hfirst iv Hin). lia.
        -- intros [(iv & Hin & Hiv) Hj]. apply elem_of_cons in Hin as [->|Hin].
           ++ exists (MkInterval (left first + 1) (right first)). split; [left|simpl; lia].
           ++ exists iv. split; [by right|done].
      * split.
        -- intros (iv & Hin & Hiv). split; [exists iv; split; [by right|done]|].
           rewrite Forall_forall in Hfirst. specialize (Hfirst iv Hin). lia.
        -- intros [(iv & Hin & Hiv) Hj]. apply elem_of_cons in Hin as [->|Hin]; [lia|].
           exists iv. done.
Qed.

Lemma isFree_insert id below above j :
  isFree j (below ++ MkInterval id (id + 1) :: above) = true ↔
  j = id ∨ isFree j (below ++ above) = true.
Proof.
  rewrite !isFree_iff. split.
  - intros (iv & Hin & Hiv). apply elem_of_app in Hin as [Hin|Hin].
    + right. exists iv. split; [apply elem_of_app; by left|done].
    + apply elem_of_cons in Hin as [->|Hin]; [simpl in Hiv; left; lia|].
      right. exists iv. split; [apply elem_of_app; by right|done].
  - intros [->|(iv & Hin & Hiv)].
    + exists (MkInterval id (id + 1)). split; [|simpl; lia].
      apply elem_of_app. right. left.
    + exists iv. split; [|done]. apply elem_of_app.
      apply elem_of_app in Hin as [Hin|Hin]; [by left|right; by right].
Qed.

(** What [release] does to an ordered pool when [id] is not free. *)
Lemma release_spec id pool :
  ordered pool → 1 ≤ id < MAX_SAFE_INTEGER → isFree id pool = false →
  ordered (release id pool) ∧
  length (release id pool) = Datatypes.S (length pool) ∧
  ∀ j, isFree j (release id pool) = true ↔ j = id ∨ isFree j pool = true.
Proof.
  intros Hord Hid Hfree.
  destruct (ordered_split id pool Hord) as (below & above & Hpool & Hne & Hb & Ha);
    [lia|done|].
  rewrite (release_not_free id pool below above) by done. subst pool. split_and!.
  - by apply ordered_insert.
  - rewrite !length_app. simpl. lia.
  - intros j. apply isFree_insert.
Qed.

Lemma ordered_new : ordered new.
Proof.
  split_and!; [repeat constructor| |done].
  apply Forall_singleton. simpl. pose proof MAX_SAFE_INTEGER_big. lia.
Qed.

Lemma reserveMany_from k : ∀ n,
  1 ≤ k → k + Z.of_nat n < MAX_SAFE_INTEGER →
  reserveMany n [MkInterval k MAX_SAFE_INTEGER] = (λ i, k + Z.of_nat i) <$> seq 0 n.
Proof.
  intros n. revert k. induction n as [|n IH]; intros k Hk Hn; [done|].
  cbn [reserveMany]. unfold reserve. simpl left. simpl right.
  rewrite decide_False by lia. rewrite decide_True by lia.
  rewrite IH by lia. cbn [seq fmap list_fmap]. f_equal; [f_equal; lia|].
  rewrite <-fmap_S_seq, <-list_fmap_compose. apply list_fmap_ext.
  intros _ i _. simpl. lia.
Qed.

(** A new pool issues the ids in order: the first [n] calls of
    [reserve] answer 1, 2, ..., [n], for every [n] up to
    [Number.MAX_SAFE_INTEGER - 2]. *)
Theorem reserve_counts_up (n : nat) :
  Z.of_nat n ≤ MAX_SAFE_INTEGER - 2 →
  reserveMany n new = (λ i, Z.of_nat i + 1) <$> seq 0 n.
Proof.
  intros Hn. unfold new. rewrite reserveMany_from by lia.
  apply list_fmap_ext. intros _ i _. lia.
Qed.

(** X6. On an ordered pool [reserve] does not throw. It answers the
    smallest free id, which is then no longer free while every other id
    is as free as before, and it leaves the pool ordered; or it answers 0
    and leaves the pool as it is, which happens only when no id but
    [Number.MAX_SAFE_INTEGER - 1] is free: that id is never issued. *)
Theorem reserve_least_free (pool : IdPool) :
  ordered pool →
  ∃ id pool', reserve pool = Ok (id, pool') ∧
    ((id = 0 ∧ pool' = pool ∧ ∀ j, isFree j pool = true → j = MAX_SAFE_INTEGER - 1)
     ∨ (1 ≤ id < MAX_SAFE_INTEGER - 1 ∧ isFree id pool = true ∧
        (∀ j, isFree j pool = true → id ≤ j) ∧
        ordered pool' ∧
        ∀ j, isFree j pool' = true ↔ isFree j pool = true ∧ j ≠ id)).
Proof. apply reserve_spec. Qed.

(** X7. On an ordered pool, [release(id)] of an id between 1 and
    [Number.MAX_SAFE_INTEGER - 1] that is not free makes [id] free and
    changes no other id. The pool stays ordered and gets one interval
    more: [release] never joins the interval [[id, id + 1)] to its
    neighbours. *)
Theorem release_makes_free (id : Z) (pool : IdPool) :
  ordered pool → 1 ≤ id < MAX_SAFE_INTEGER → isFree id pool = false →
  ordered (release id pool) ∧
  length (release id pool) = Datatypes.S (length pool) ∧
  ∀ j, isFree j (release id pool) = true ↔ j = id ∨ isFree j pool = true.
Proof. apply release_spec. Qed.

(** X8. [release] then [reserve]: on an ordered pool, an id from 1 up
    that is below every free id is the answer of the next [reserve] after
    its [release], and the two calls leave the pool as it was. *)
Theorem release_then_reserve (id : Z) (pool : IdPool) :
  ordered pool → 1 ≤ id → (∀ j, isFree j pool = true → id < j) →
  reserve (release id pool) = Ok (id, pool).
Proof.
  intros Hord Hid Hlow. pose proof Hord as (Hs & Hall & Hlast).
  destruct pool as [|first rest]; [done|].
  assert (Habove : Forall (λ iv, id < left iv) (first :: rest)).
  { apply Forall_forall. intros iv Hin. apply Hlow. apply isFree_iff.
    exists iv. split; [done|]. rewrite Forall_forall in Hall. specialize (Hall iv Hin). lia. }
  pose proof Habove as [Hfirst _]%Forall_cons.
  pose proof Hall as [[? ?] _]%Forall_cons.
  rewrite (release_not_free id (first :: rest) [] (first :: rest));
    [|done|lia|done|done|constructor|done].
  unfold reserve. simpl. rewrite decide_False by lia. rewrite decide_False by lia.
  by rewrite decide_False by lia.
Qed.

(** [reserve] then [release]: on an ordered pool, releasing the id
    that [reserve] has just answered makes the same ids free as before
    the two calls, in an ordered pool that has one interval more than the
    pool [reserve] left. *)
Theorem reserve_then_release (pool : IdPool) (id : Z) (pool' : IdPool) :
  ordered pool → reserve pool = Ok (id, pool') → id ≠ 0 →
  ordered (release id pool') ∧
  length (release id pool') = Datatypes.S (length pool') ∧
  ∀ j, isFree j (release id pool') = isFree j pool.
Proof.
  intros Hord Hres Hid.
  destruct (reserve_spec pool Hord) as (id' & pool'' & Hres' & Hcases).
  rewrite Hres in Hres'. injection Hres' as <- <-.
  destruct Hcases as [[? _]|(Hrange & Hfree & Hleast & Hord' & Hfree')]; [done|].
  assert (Hnot : isFree id pool' = false).
  { apply not_true_iff_false. rewrite Hfree'. by intros [_ ?]. }
  destruct (release_spec id pool' Hord') as (Hord'' & Hlen & Hfree''); [lia|done|].
  split_and!; [done|done|].
  intros j. apply eq_true_iff_eq. rewrite Hfree'', Hfree'.
  destruct (decide (j = id)) as [->|Hne]; [tauto|]. tauto.
Qed.

End id_pool_more.

(** The first ten ids of a new pool. *)
Lemma reserve_counts_up_witness :
  IdPoolDefs.reserveMany 10 IdPoolDefs.new = [1; 2; 3; 4; 5; 6; 7; 8; 9; 10].
Proof.
  rewrite (reserve_counts_up 10); [reflexivity|].
  pose proof MAX_SAFE_INTEGER_big. lia.
Defined.

(** A new pool is ordered, and its first id is 1. *)
Lemma reserve_least_free_witness :
  IdPoolDefs.ordered IdPoolDefs.new ∧
  ∃ id pool', IdPoolDefs.reserve IdPoolDefs.new = Ok (id, pool') ∧ (id = 0 ∨ 1 ≤ id).
Proof.
  split; [apply ordered_new|].
  destruct (reserve_least_free IdPoolDefs.new ordered_new) as (id & pool' & Hres & Hcases).
  exists id, pool'. split; [exact Hres|].
  destruct Hcases as [[Hz _]|[[Hpos _] _]]; [left; exact Hz|right; exact Hpos].
Defined.

(** The pool after three calls of [reserve], and the id 2 given back. *)
Lemma release_makes_free_witness :
  let pool := [IdPoolDefs.MkInterval 4 IdPoolDefs.MAX_SAFE_INTEGER] in
  IdPoolDefs.isFree 2 pool = false ∧
  IdPoolDefs.isFree 2 (IdPoolDefs.release 2 pool) = true ∧
  length (IdPoolDefs.release 2 pool) = 2%nat.
Proof.
  intros pool.
  assert (Hord : IdPoolDefs.ordered pool).
  { split; [repeat constructor|]. split; [|reflexivity].
    apply Forall_singleton. simpl. pose proof MAX_SAFE_INTEGER_big. lia. }
  assert (Hid : 1 ≤ 2 < IdPoolDefs.MAX_SAFE_INTEGER) by (pose proof MAX_SAFE_INTEGER_big; lia).
  assert (Hfree : IdPoolDefs.isFree 2 pool = false) by reflexivity.
  destruct (release_makes_free 2 pool Hord Hid Hfree) as (_ & Hlen & Hiff).
  split; [exact Hfree|]. split; [|exact Hlen].
  apply Hiff. left. reflexivity.
Defined.

(** The same pool: 2 is below the free ids 4, 5, ... *)
Lemma release_then_reserve_witness :
  let pool := [IdPoolDefs.MkInterval 4 IdPoolDefs.MAX_SAFE_INTEGER] in
  IdPoolDefs.reserve (IdPoolDefs.release 2 pool) = Ok (2, pool).
Proof.
  intros pool. apply (release_then_reserve 2 pool).
  - split; [repeat constructor|]. split; [|reflexivity].
    apply Forall_singleton. simpl. pose proof MAX_SAFE_INTEGER_big. lia.
  - lia.
  - intros j [iv [Hin Hiv]]%isFree_iff. apply list_elem_of_singleton in Hin. subst iv.
    simpl in Hiv. lia.
Defined.

(** A new pool: [reserve] answers 1, and [release(1)] makes the ids from
    1 up free again, in two intervals. *)
Lemma reserve_then_release_witness :
  let pool' := [IdPoolDefs.MkInterval 2 IdPoolDefs.MAX_SAFE_INTEGER] in
  IdPoolDefs.reserve IdPoolDefs.new = Ok (1, pool') ∧
  length (IdPoolDefs.release 1 pool') = 2%nat ∧
  ∀ j, IdPoolDefs.isFree j (IdPoolDefs.release 1 pool') = IdPoolDefs.isFree j IdPoolDefs.new.
Proof.
  intros pool'.
  assert (Hres : IdPoolDefs.reserve IdPoolDefs.new = Ok (1, pool')) by reflexivity.
  destruct (reserve_then_release IdPoolDefs.new 1 pool' ordered_new Hres ltac:(lia))
    as (_ & Hlen & Hfree).
  split; [exact Hres|]. split; [exact Hlen|exact Hfree].
Defined.

Section sparse_set_more.
Import SparseSetDefs.
Implicit Types (s : SparseSet) (a : list Z).

Ltac split_consistent := split; [|split; [|split; [|split]]].

Lemma toInt32_id x : int32 x → toInt32 x = x.
Proof.
  unfold int32, toInt32. intros Hx.
  rewrite Z.mod_small; lia.
Qed.

Lemma toInt32_int32 x : int32 (toInt32 x).
Proof.
  unfold int32, toInt32.
  pose proof (Z.mod_pos_bound (x + 2 ^ 31) (2 ^ 32) ltac:(lia)). lia.
Qed.

Lemma taGet_lt a i x : taGet a i = Some x → 0 ≤ i < Z.of_nat (length a).
Proof. intros [? Hl%lookup_lt_Some]%taGet_Some. lia. Qed.

Lemma taGet_taSet_eq a i x :
  0 ≤ i < Z.of_nat (length a) → taGet (taSet a i x) i = Some (toInt32 x).
Proof.
  intros Hi. unfold taGet, taSet. rewrite !decide_True by lia.
  apply list_lookup_insert_eq. lia.
Qed.

Lemma taGet_taSet a i j x :
  taGet (taSet a i x) j =
    if decide (i = j ∧ 0 ≤ i < Z.of_nat (length a)) then Some (toInt32 x) else taGet a j.
Proof.
  case_decide as Hij.
  - destruct Hij as [<- Hi]. by apply taGet_taSet_eq.
  - destruct (decide (i = j)) as [<-|Hne]; [|by apply taGet_taSet_ne].
    unfold taGet, taSet. repeat case_decide; try done.
    rewrite list_insert_ge; [done|lia].
Qed.

Lemma Forall_int32_taSet a i x : Forall int32 a → Forall int32 (taSet a i x).
Proof.
  intros Ha. unfold taSet. case_decide; [|done].
  apply Forall_insert; [done|apply toInt32_int32].
Qed.

Lemma has_stored s u : consistent s → has u s = true ↔ stored s u.
Proof.
  intros (Hwf & Hcap & Hsz & Hint & Hinv). unfold has, stored. split.
  - destruct (taGet (sparse s) u) as [i|] eqn:Hsu; [|done].
    intros [Hi%bool_decide_eq_true Hd]%andb_true_iff.
    destruct (taGet (dense s) i) as [x|] eqn:Hdi; [|done].
    apply bool_decide_eq_true in Hd as ->.
    exists i. split; [|done]. apply taGet_lt in Hdi. lia.
  - intros (i & Hi & Hdi). destruct (Hinv i Hi) as (v & Hv & _ & Hsv).
    rewrite Hdi in Hv. injection Hv as <-. rewrite Hsv, Hdi.
    apply andb_true_iff. split; apply bool_decide_eq_true; [lia|done].
Qed.

Lemma stored_inj s i j u :
  consistent s → 0 ≤ i < size s → 0 ≤ j < size s →
  taGet (dense s) i = Some u → taGet (dense s) j = Some u → i = j.
Proof.
  intros (_ & _ & _ & _ & Hinv) Hi Hj Hdi Hdj.
  destruct (Hinv i Hi) as (v & Hv & _ & Hsv). destruct (Hinv j Hj) as (v' & Hv' & _ & Hsv').
  congruence.
Qed.

Lemma stored_range s u : consistent s → stored s u → 0 ≤ u < Z.of_nat (capacity s).
Proof.
  intros (Hwf & _ & _ & _ & Hinv) (i & Hi & Hdi).
  destruct (Hinv i Hi) as (v & Hv & ? & Hsv%taGet_lt).
  destruct Hwf as [_ Hs]. rewrite Hs in Hsv. congruence.
Qed.

(** The values read by the loops, when the set is consistent. *)
Lemma denseValues_consistent s :
  consistent s →
  ∃ vs, denseValues s = Some <$> vs ∧ length vs = Z.to_nat (size s) ∧ NoDup vs ∧
        (∀ u, u ∈ vs ↔ stored s u) ∧
        ∀ i u, vs !! i = Some u ↔ (Z.of_nat i < size s ∧ taGet (dense s) (Z.of_nat i) = Some u).
Proof.
  intros Hc. pose proof Hc as (Hwf & Hcap & Hsz & Hint & Hinv).
  exists (take (Z.to_nat (size s)) (dense s)).
  assert (Hlen : length (take (Z.to_nat (size s)) (dense s)) = Z.to_nat (size s)).
  { rewrite length_take. destruct Hwf as [-> _]. lia. }
  assert (Hlook : ∀ i u, take (Z.to_nat (size s)) (dense s) !! i = Some u ↔
            (Z.of_nat i < size s ∧ taGet (dense s) (Z.of_nat i) = Some u)).
  { intros i u. rewrite taGet_Some, Nat2Z.id. split.
    - intros Hl. pose proof (lookup_lt_Some _ _ _ Hl) as Hi. rewrite Hlen in Hi.
      rewrite lookup_take_lt in Hl by lia. split; [lia|]. split; [lia|done].
    - intros (Hi & _ & Hl). rewrite lookup_take_lt by lia. done. }
  split_and!; [|done| | |done].
  - unfold denseValues. apply list_eq. intros i.
    rewrite !list_lookup_fmap.
    destruct (decide (i < Z.to_nat (size s))%nat) as [Hi|Hi].
    + rewrite lookup_seq_lt by done. simpl.
      destruct (Hinv (Z.of_nat i)) as (v & Hv & _); [lia|].
      rewrite Hv. symmetry. apply fmap_Some. exists v. split; [|done].
      apply Hlook. split; [lia|done].
    + rewrite lookup_seq_ge by lia. simpl. rewrite lookup_ge_None_2; [done|lia].
  - apply NoDup_alt. intros i j u Hi Hj.
    apply Hlook in Hi as [? Hi]. apply Hlook in Hj as [? Hj].
    assert (Z.of_nat i = Z.of_nat j); [|lia].
    eapply (stored_inj s); [done| | |done|done]; lia.
  - intros u. rewrite list_elem_of_lookup. unfold stored. split.
    + intros [i Hi]. apply Hlook in Hi as [? Hi]. exists (Z.of_nat i). split; [lia|done].
    + intros (i & Hi & Hdi). exists (Z.to_nat i). apply Hlook.
      rewrite Z2Nat.id by lia. split; [lia|done].
Qed.

(** A consistent set that misses a value of its range is not full. *)
Lemma consistent_not_full s v :
  consistent s → 0 ≤ v < Z.of_nat (capacity s) → ¬ stored s v → size s < Z.of_nat (capacity s).
Proof.
  intros Hc Hv Hnot.
  destruct (denseValues_consistent s Hc) as (vs & _ & Hlen & Hnd & Hin & _).
  assert (Hsub : v :: vs ⊆+ seqZ 0 (Z.of_nat (capacity s))).
  { apply NoDup_submseteq.
    - apply NoDup_cons. split; [|done]. by rewrite Hin.
    - intros u [->|Hu]%elem_of_cons; apply elem_of_seqZ; [lia|].
      apply Hin in Hu. apply (stored_range s u Hc) in Hu. lia. }
  apply submseteq_length in Hsub. rewrite length_seqZ in Hsub. simpl in Hsub.
  destruct Hc as (_ & _ & ? & _). lia.
Qed.

Lemma grow_consistent v s :
  consistent s → Z.of_nat (capacity s) ≤ v < maxCapacity →
  ∃ s', grow v s = Ok s' ∧ consistent s' ∧ size s' = size s ∧
        v < Z.of_nat (capacity s') ∧ (∀ u, stored s' u ↔ stored s u).
Proof.
  intros Hc Hv. pose proof Hc as (Hwf & Hcap & Hsz & Hint & Hinv).
  destruct (grow_spec v s Hwf) as (s' & Hg & Hwf' & Hsize & Hcap' & Hd & Hs); [lia|].
  assert (Hdz : ∀ i x, taGet (dense s) i = Some x → taGet (dense s') i = Some x).
  { intros i x Hi. pose proof (taGet_lt _ _ _ Hi) as Hlt.
    apply taGet_Some in Hi as [? Hi]. apply taGet_Some. split; [done|].
    rewrite Hd; [done|]. destruct Hwf as [Hl _]. lia. }
  assert (Hsz' : ∀ i x, taGet (sparse s) i = Some x → taGet (sparse s') i = Some x).
  { intros i x Hi. pose proof (taGet_lt _ _ _ Hi) as Hlt.
    apply taGet_Some in Hi as [? Hi]. apply taGet_Some. split; [done|].
    rewrite Hs; [done|]. destruct Hwf as [_ Hl]. lia. }
  exists s'. unfold maxCapacity in Hv. split; [done|].
  split; [|split; [done|split; [lia|]]].
  - split_consistent; [done|lia|lia| |].
    + unfold grow in Hg.
      destruct (taCopy _ (dense s)) as [d'|]; [|done].
      destruct (taCopy _ (sparse s)) as [sp|] eqn:Hcopy; [|done].
      injection Hg as <-. simpl. unfold taCopy in Hcopy. case_decide; [|done].
      injection Hcopy as <-. apply Forall_app. split; [done|].
      apply Forall_drop. unfold taNew. apply Forall_replicate. unfold int32. lia.
    + intros i Hi. rewrite Hsize in Hi. destruct (Hinv i Hi) as (x & Hx & ? & Hsx).
      exists x. split_and!; [by apply Hdz|done|by apply Hsz'].
  - intros u. unfold stored. rewrite Hsize. split.
    + intros (i & Hi & Hdi). exists i. split; [done|].
      destruct (Hinv i Hi) as (x & Hx & _). apply Hdz in Hx as Hx'. congruence.
    + intros (i & Hi & Hdi). exists i. split; [done|]. by apply Hdz.
Qed.

(** [add] of a value that is not in the set. *)
Lemma add_absent v s :
  consistent s → 0 ≤ v < maxCapacity → ¬ stored s v →
  ∃ s', add v s = Ok (size s, s') ∧ consistent s' ∧ size s' = size s + 1 ∧
        taGet (sparse s') v = Some (size s) ∧
        taGet (dense s') (size s) = Some v ∧
        ∀ u, stored s' u ↔ (u = v ∨ stored s u).
Proof.
  intros Hc Hv Hnot. unfold add. rewrite decide_False by lia.
  assert (∃ s1, (if decide (Z.of_nat (capacity s) ≤ v) then grow v s else Ok s) = Ok s1 ∧
            consistent s1 ∧ size s1 = size s ∧ v < Z.of_nat (capacity s1) ∧
            ∀ u, stored s1 u ↔ stored s u) as (s1 & -> & Hc1 & Hsize & Hcap1 & Hst).
  { case_decide as Hgrow.
    - apply grow_consistent; [done|lia].
    - exists s. split_and!; try done. lia. }
  rewrite <-Hsize.
  assert (Hfull : size s1 < Z.of_nat (capacity s1)).
  { apply (consistent_not_full s1 v); [done|lia|by rewrite Hst]. }
  pose proof Hc1 as ([Hld Hls] & Hcap & Hsz & Hint & Hinv).
  unfold maxCapacity in Hv.
  assert (Hv32 : toInt32 v = v) by (apply toInt32_id; unfold int32; lia).
  assert (Hn32 : toInt32 (size s1) = size s1) by (apply toInt32_id; unfold int32; lia).
  eexists. split; [done|]. simpl.
  assert (Hsv : taGet (taSet (sparse s1) v (size s1)) v = Some (size s1)).
  { rewrite taGet_taSet_eq by lia. by rewrite Hn32. }
  assert (Hdn : taGet (taSet (dense s1) (size s1) v) (size s1) = Some v).
  { rewrite taGet_taSet_eq by lia. by rewrite Hv32. }
  assert (Hold : ∀ i, 0 ≤ i < size s1 →
            taGet (taSet (dense s1) (size s1) v) i = taGet (dense s1) i).
  { intros i Hi. apply taGet_taSet_ne. lia. }
  split; [|split; [|split; [|split]]].
  - split_consistent; simpl.
    + split; simpl; by rewrite length_taSet.
    + done.
    + lia.
    + by apply Forall_int32_taSet.
    + intros i Hi. destruct (decide (i = size s1)) as [->|Hne].
      * exists v. split_and!; [done|lia|done].
      * destruct (Hinv i) as (x & Hx & ? & Hsx); [lia|].
        exists x. rewrite Hold by lia. split_and!; [done|done|].
        rewrite taGet_taSet_ne; [done|]. intros <-. apply Hnot, Hst.
        exists i. split; [lia|done].
  - lia.
  - done.
  - done.
  - intros u. rewrite <-Hst. unfold stored. simpl. split.
    + intros (i & Hi & Hdi). destruct (decide (i = size s1)) as [->|Hne].
      * left. congruence.
      * right. exists i. split; [lia|]. rewrite <-Hold by lia. done.
    + intros [->|(i & Hi & Hdi)].
      * exists (size s1). split; [lia|done].
      * exists i. split; [lia|]. by rewrite Hold.
Qed.

(** [remove] of a value that is in the set. *)
Lemma remove_stored v s :
  consistent s → stored s v →
  consistent (remove v s) ∧ size (remove v s) = size s - 1 ∧
  ∀ u, stored (remove v s) u ↔ (stored s u ∧ u ≠ v).
Proof.
  intros Hc (i & Hi & Hdi). pose proof Hc as ([Hld Hls] & Hcap & Hsz & Hint & Hinv).
  destruct (Hinv i Hi) as (v' & Hv' & Hv0 & Hsv). rewrite Hdi in Hv'. injection Hv' as <-.
  destruct (Hinv (size s - 1)) as (m & Hm & Hm0 & Hsm); [lia|].
  pose proof (taGet_lt _ _ _ Hsm) as Hmlt. pose proof (taGet_lt _ _ _ Hsv) as Hvlt.
  assert (Hm32 : toInt32 m = m) by (apply toInt32_id; unfold int32; lia).
  assert (Hi32 : toInt32 i = i) by (apply toInt32_id; unfold int32; lia).
  unfold remove. rewrite decide_False by lia. rewrite Hsv, Hm. simpl default.
  assert (Hlast : taGet (taSet (dense s) i m) (size s - 1) = Some m).
  { rewrite taGet_taSet. case_decide; [by rewrite Hm32|done]. }
  rewrite Hlast.
  assert (Hd1 : ∀ j, 0 ≤ j < size s - 1 →
            taGet (taSet (dense s) i m) j = if decide (j = i) then Some m else taGet (dense s) j).
  { intros j Hj. rewrite taGet_taSet. rewrite Hm32.
    destruct (decide (j = i)) as [->|Hne].
    - rewrite decide_True; [done|]. split; [done|lia].
    - rewrite decide_False; [done|]. intros [? _]. congruence. }
  split; [|split]; simpl.
  - split_consistent; simpl.
    + split; simpl; by rewrite length_taSet.
    + done.
    + lia.
    + by apply Forall_int32_taSet.
    + intros j Hj. rewrite Hd1 by done. case_decide as Hji.
      * subst j. exists m. split_and!; [done|done|].
        rewrite taGet_taSet_eq by lia. by rewrite Hi32.
      * destruct (Hinv j) as (x & Hx & ? & Hsx); [lia|].
        exists x. split_and!; [done|done|].
        rewrite taGet_taSet_ne; [done|]. intros <-.
        assert (j = size s - 1); [|lia]. congruence.
  - done.
  - intros u. unfold stored. simpl. split.
    + intros (j & Hj & Hdj). rewrite Hd1 in Hdj by done. case_decide as Hji.
      * subst j. injection Hdj as <-. split.
        -- exists (size s - 1). split; [lia|done].
        -- intros ->. assert (i = size s - 1); [|lia].
           eapply (stored_inj s); [done|lia|lia|done|done].
      * split; [exists j; split; [lia|done]|].
        intros ->. apply Hji. eapply (stored_inj s); [done|lia|lia|done|done].
    + intros [(j & Hj & Hdj) Huv].
      destruct (decide (j = size s - 1)) as [->|Hne].
      * exists i. rewrite Hm in Hdj. injection Hdj as <-.
        assert (i ≠ size s - 1) by (intros ->; congruence).
        split; [lia|]. rewrite Hd1 by lia. by rewrite decide_True.
      * exists j. split; [lia|]. rewrite Hd1 by lia. rewrite decide_False; [done|].
        intros ->. congruence.
Qed.

(** [remove] does not look whether the value is in the set: on a set that
    is not empty it always takes a value out. *)
Lemma remove_absent v s :
  consistent s → size s ≠ 0 → ¬ stored s v →
  size (remove v s) = size s - 1 ∧
  ∃ u, stored s u ∧ has u (remove v s) = false.
Proof.
  intros Hc Hne Hnot. pose proof Hc as ([Hld Hls] & Hcap & Hsz & Hint & Hinv).
  destruct (Hinv (size s - 1)) as (m & Hm & Hm0 & Hsm); [lia|].
  pose proof (taGet_lt _ _ _ Hsm) as Hmlt. pose proof (taGet_lt _ _ _ Hm) as Hlastlt.
  assert (Hm32 : toInt32 m = m) by (apply toInt32_id; unfold int32; lia).
  assert (Hmst : stored s m) by (exists (size s - 1); split; [lia|done]).
  unfold remove. rewrite decide_False by done. rewrite Hm. simpl default.
  split; [done|].
  destruct (taGet (sparse s) v) as [i|] eqn:Hsv.
  - assert (Hi32 : toInt32 i = i).
    { apply toInt32_id. apply taGet_Some in Hsv as [_ Hsv].
      rewrite Forall_forall in Hint. apply Hint. by eapply list_elem_of_lookup_2. }
    assert (Hlast : taGet (taSet (dense s) i m) (size s - 1) = Some m).
    { rewrite taGet_taSet. case_decide; [by rewrite Hm32|done]. }
    rewrite Hlast. simpl default.
    destruct (decide (0 ≤ i < size s - 1)) as [Hin|Hout].
    + destruct (Hinv i) as (a' & Ha & Ha0 & Hsa); [lia|].
      exists a'. split; [exists i; split; [lia|done]|].
      assert (a' ≠ m).
      { intros ->. assert (i = size s - 1); [|lia].
        eapply (stored_inj s); [done|lia|lia|done|done]. }
      unfold has. simpl. rewrite taGet_taSet_ne by done. rewrite Hsa.
      rewrite taGet_taSet_eq by lia. rewrite Hm32.
      rewrite (bool_decide_eq_false_2 (m = a')) by congruence. apply andb_false_r.
    + exists m. split; [done|].
      unfold has. simpl. rewrite taGet_taSet_eq by lia. rewrite Hi32.
      destruct (decide (i < 0)) as [Hneg|Hpos].
      * replace (taGet (taSet (dense s) i m) i) with (@None Z).
        2:{ unfold taGet. by rewrite decide_False by lia. }
        apply andb_false_r.
      * rewrite bool_decide_eq_false_2 by lia. done.
  - rewrite Hm. simpl default.
    exists m. split; [done|].
    unfold has. simpl. rewrite taGet_taSet_eq by lia.
    change (toInt32 0) with 0.
    destruct (decide (size s - 1 = 0)) as [Hz|Hnz].
    + rewrite bool_decide_eq_false_2 by lia. done.
    + destruct (Hinv 0) as (a' & Ha & _); [lia|]. rewrite Ha.
      rewrite (bool_decide_eq_false_2 (a' = m)); [apply andb_false_r|].
      intros ->. assert (0 = size s - 1); [|lia].
      eapply (stored_inj s); [done|lia|lia|done|done].
Qed.

Lemma new_consistent n : Z.of_nat n < 2 ^ 31 → consistent (new n).
Proof.
  intros Hn. split_consistent; simpl.
  - apply new_wellFormed.
  - done.
  - lia.
  - apply Forall_replicate. unfold int32. lia.
  - intros i Hi. lia.
Qed.

Lemma clear_consistent s : consistent s → consistent (clear s).
Proof.
  intros (Hwf & Hcap & Hsz & Hint & Hinv). split_consistent; simpl; try done; [lia|].
  intros i Hi. lia.
Qed.

Lemma has_clear s u : has u (clear s) = false.
Proof.
  unfold has, clear. simpl. destruct (taGet (sparse s) u) as [i|]; [|done].
  destruct (decide (i < 0)) as [Hneg|Hpos].
  - replace (taGet (dense s) i) with (@None Z); [apply andb_false_r|].
    unfold taGet. by rewrite decide_False by lia.
  - by rewrite bool_decide_eq_false_2.
Qed.

Lemma iterate_denseValues s : ∀ calls index,
  0 ≤ index → (Z.to_nat (size s - index) < calls)%nat →
  iterate calls index s = Some (drop (Z.to_nat index) (denseValues s)).
Proof.
  induction calls as [|calls IH]; intros index Hi Hc; [lia|].
  cbn [iterate]. unfold iteratorNext. case_decide as Hlt.
  - rewrite IH by lia. simpl.
    replace (Z.to_nat (index + 1)) with (Datatypes.S (Z.to_nat index)) by lia.
    f_equal. symmetry. apply drop_S. unfold denseValues.
    rewrite list_lookup_fmap, lookup_seq_lt by lia. simpl. by rewrite Z2Nat.id.
  - rewrite drop_ge; [done|]. unfold denseValues.
    rewrite length_fmap, length_seq. lia.
Qed.

Lemma has_false_stored s u : consistent s → has u s = false ↔ ¬ stored s u.
Proof. intros Hc. rewrite <-not_true_iff_false. by rewrite (has_stored s u Hc). Qed.

(** X9. [add(v)] of a value from 0 up to [maxCapacity - 1] that is not
    in a consistent set returns the old size as the index of [v], which
    [get(v)] answers afterwards; the size grows by one, [v] is in the set,
    every other value is in the set exactly when it was before, and the
    set stays consistent. *)
Theorem add_absent_value (v : Z) (s : SparseSet) :
  consistent s → 0 ≤ v < 550000 → has v s = false →
  ∃ s', add v s = Ok (getSize s, s') ∧ consistent s' ∧
        getSize s' = getSize s + 1 ∧ get v s' = Some (getSize s) ∧
        ∀ u, has u s' = true ↔ (u = v ∨ has u s = true).
Proof.
  intros Hc Hv Hnot. apply (has_false_stored s v Hc) in Hnot.
  destruct (add_absent v s Hc Hv Hnot) as (s' & Hadd & Hc' & Hsize & Hget & _ & Hst).
  exists s'. split_and!; try done.
  intros u. rewrite (has_stored s' u Hc'), (has_stored s u Hc). apply Hst.
Qed.

(** X10. [remove(v)] of a value that is in a consistent set takes out
    [v] and nothing else: the size goes down by one, [v] is no longer in
    the set, every other value is in the set exactly when it was before,
    and the set stays consistent. *)
Theorem remove_member (v : Z) (s : SparseSet) :
  consistent s → has v s = true →
  consistent (remove v s) ∧ getSize (remove v s) = getSize s - 1 ∧
  ∀ u, has u (remove v s) = true ↔ (has u s = true ∧ u ≠ v).
Proof.
  intros Hc Hv. apply (has_stored s v Hc) in Hv.
  destruct (remove_stored v s Hc Hv) as (Hc' & Hsize & Hst).
  split_and!; try done.
  intros u. rewrite (has_stored _ u Hc'), (has_stored s u Hc). apply Hst.
Qed.

(** X11. [remove] does not test whether the value is in the set. On a
    consistent set that is not empty, [remove(v)] of a value that is not
    in the set still makes the size go down by one, and a value that was
    in the set is no longer found by [has]. *)
Theorem remove_absent_value (v : Z) (s : SparseSet) :
  consistent s → getSize s ≠ 0 → has v s = false →
  getSize (remove v s) = getSize s - 1 ∧
  ∃ u, has u s = true ∧ has u (remove v s) = false.
Proof.
  intros Hc Hne Hnot. apply (has_false_stored s v Hc) in Hnot.
  destruct (remove_absent v s Hc Hne Hnot) as (Hsize & u & Hu & Hgone).
  split; [done|]. exists u. split; [|done]. by apply (has_stored s u Hc).
Qed.

(** X12. The loops of [forEach], [map] and [filter] and the iterator of
    a consistent set visit the values that are in the set, each of them
    once: the values read are a list without duplicates, as long as the
    size, whose elements are the values [has] finds; [get] answers the
    position of each value in that list, and the iterator, called until
    it is done, yields the same list. *)
Theorem iteration_visits_members (s : SparseSet) :
  consistent s →
  ∃ vs, denseValues s = Some <$> vs ∧
        Z.of_nat (length vs) = getSize s ∧ NoDup vs ∧
        (∀ u, u ∈ vs ↔ has u s = true) ∧
        (∀ i u, vs !! i = Some u → get u s = Some (Z.of_nat i)) ∧
        (∀ callback : option Z → list Z → list Z,
           forEach callback s [] = foldl (λ a v, callback (Some v) a) [] vs) ∧
        (∀ calls, (length vs < calls)%nat → iterate calls 0 s = Some (Some <$> vs)).
Proof.
  intros Hc. destruct (denseValues_consistent s Hc) as (vs & Hvs & Hlen & Hnd & Hin & Hlook).
  pose proof Hc as (_ & _ & Hsz & _ & Hinv).
  exists vs. split_and!; try done.
  - unfold getSize. lia.
  - intros u. rewrite Hin. symmetry. by apply has_stored.
  - intros i u [Hi Hd]%Hlook. unfold get.
    destruct (Hinv (Z.of_nat i)) as (x & Hx & _ & Hsx); [lia|]. congruence.
  - intros callback. unfold forEach. by rewrite Hvs, foldl_fmap.
  - intros calls Hcalls. rewrite (iterate_denseValues s calls 0); [by rewrite Hvs|lia|lia].
Qed.

(** [clear()] empties the set without touching the arrays: no value
    is found by [has], the loops visit nothing, the capacity is kept, and
    a consistent set stays consistent. *)
Theorem clear_empties (s : SparseSet) :
  getSize (clear s) = 0 ∧ getCapacity (clear s) = getCapacity s ∧
  getValues (clear s) = getValues s ∧
  (∀ u, has u (clear s) = false) ∧ denseValues (clear s) = [] ∧
  (consistent s → consistent (clear s)).
Proof.
  split_and!; try done.
  - intros u. apply has_clear.
  - apply clear_consistent.
Qed.

End sparse_set_more.

(** A set of capacity 4 that receives 10. *)
Lemma add_absent_value_witness :
  ∃ s', SparseSetDefs.add 10 (SparseSetDefs.new 4) = Ok (0, s') ∧
        SparseSetDefs.has 10 s' = true ∧ SparseSetDefs.get 10 s' = Some 0.
Proof.
  destruct (add_absent_value 10 (SparseSetDefs.new 4)) as (s' & Hadd & _ & _ & Hget & Hhas).
  - apply new_consistent. lia.
  - lia.
  - reflexivity.
  - exists s'. split; [exact Hadd|]. split; [|exact Hget]. apply Hhas. left. reflexivity.
Defined.

(** The set that [add(7)] and [add(3)] make of a new set of capacity 8. *)
Lemma sample_consistent :
  (∃ s1, SparseSetDefs.add 7 (SparseSetDefs.new 8) = Ok (0, s1) ∧
         SparseSetDefs.add 3 s1 =
           Ok (1, SparseSetDefs.MkSparseSet [7; 3; 0; 0; 0; 0; 0; 0]
                    [0; 0; 0; 1; 0; 0; 0; 0] 2 8)) ∧
  SparseSetDefs.consistent
    (SparseSetDefs.MkSparseSet [7; 3; 0; 0; 0; 0; 0; 0] [0; 0; 0; 1; 0; 0; 0; 0] 2 8).
Proof.
  split; [eexists; split; reflexivity|].
  split; [done|]. split; [simpl; lia|]. split; [simpl; lia|]. split.
  - repeat constructor; unfold SparseSetDefs.int32; lia.
  - simpl. intros i Hi. assert (i = 0 ∨ i = 1) as [->| ->] by lia;
      eexists; (split; [reflexivity|split; [|reflexivity]]); lia.
Qed.

(** From the set with 7 and 3, 7 is removed. *)
Lemma remove_member_witness :
  let s := SparseSetDefs.MkSparseSet [7; 3; 0; 0; 0; 0; 0; 0] [0; 0; 0; 1; 0; 0; 0; 0] 2 8 in
  SparseSetDefs.has 7 s = true ∧
  SparseSetDefs.has 7 (SparseSetDefs.remove 7 s) = false ∧
  SparseSetDefs.has 3 (SparseSetDefs.remove 7 s) = true.
Proof.
  intros s.
  assert (H7 : SparseSetDefs.has 7 s = true) by reflexivity.
  destruct (remove_member 7 s (proj2 sample_consistent) H7) as (_ & _ & Hiff).
  split; [exact H7|]. split.
  - apply not_true_iff_false. intros [_ Hne]%Hiff. by apply Hne.
  - apply Hiff. split; [reflexivity|lia].
Defined.

(** From the set with 7 and 3, 5 is removed. *)
Lemma remove_absent_value_witness :
  let s := SparseSetDefs.MkSparseSet [7; 3; 0; 0; 0; 0; 0; 0] [0; 0; 0; 1; 0; 0; 0; 0] 2 8 in
  SparseSetDefs.has 5 s = false ∧
  SparseSetDefs.getSize (SparseSetDefs.remove 5 s) = 1 ∧
  ∃ u, SparseSetDefs.has u s = true ∧ SparseSetDefs.has u (SparseSetDefs.remove 5 s) = false.
Proof.
  intros s.
  assert (H5 : SparseSetDefs.has 5 s = false) by reflexivity.
  split; [exact H5|].
  apply (remove_absent_value 5 s (proj2 sample_consistent)); [simpl; lia|exact H5].
Defined.

(** The loops over the set with 7 and 3. *)
Lemma iteration_visits_members_witness :
  let s := SparseSetDefs.MkSparseSet [7; 3; 0; 0; 0; 0; 0; 0] [0; 0; 0; 1; 0; 0; 0; 0] 2 8 in
  ∃ vs, SparseSetDefs.denseValues s = Some <$> vs ∧ NoDup vs ∧
        ∀ u, u ∈ vs ↔ SparseSetDefs.has u s = true.
Proof.
  intros s.
  destruct (iteration_visits_members s (proj2 sample_consistent))
    as (vs & Hvs & _ & Hnd & Hin & _).
  exists vs. split; [exact Hvs|]. split; [exact Hnd|exact Hin].
Defined.

(** ** The change tests of IndexIterator *)

Section index_changes.
Import IndexDefs.
Implicit Types (ib : IndexBase) (it : IndexIterator) (ms : list Mutation).

(** The iterator has seen the counter of additions of the index. *)
Lemma wasAddedTo_after it ib ms :
  addVerSeen it = addVer ib → addVerObserved ib = true →
  (wasAddedTo it (foldl mutate ib ms)).1.1 = anyAdd ms.
Proof.
  intros Hseen Hobs. unfold wasAddedTo. simpl.
  pose proof (addVer_moves ms ib Hobs) as Hmoves.
  pose proof (addVer_mono ms ib) as Hmono.
  case_decide as Hne; simpl.
  - symmetry. apply Hmoves. lia.
  - destruct (anyAdd ms); [|done]. destruct Hmoves as [_ Hlt]. specialize (Hlt eq_refl). lia.
Qed.

Lemma wasRemovedFrom_after it ib ms :
  remVerSeen it = remVer ib → remVerObserved ib = true →
  (wasRemovedFrom it (foldl mutate ib ms)).1.1 = anyRemoved ib ms.
Proof.
  intros Hseen Hobs. unfold wasRemovedFrom. simpl.
  pose proof (remVer_moves ms ib Hobs) as Hmoves.
  pose proof (remVer_mono ms ib) as Hmono.
  case_decide as Hne; simpl.
  - symmetry. apply Hmoves. lia.
  - destruct (anyRemoved ib ms); [|done]. destruct Hmoves as [_ Hlt].
    specialize (Hlt eq_refl). lia.
Qed.

Lemma wasAddedTo_sync it ib :
  addVerSeen (wasAddedTo it ib).1.2 = addVer (wasAddedTo it ib).2 ∧
  addVerObserved (wasAddedTo it ib).2 = true ∧
  remVerSeen (wasAddedTo it ib).1.2 = remVerSeen it ∧
  remVer (wasAddedTo it ib).2 = remVer ib ∧
  remVerObserved (wasAddedTo it ib).2 = remVerObserved ib.
Proof. unfold wasAddedTo. simpl. by case_decide. Qed.

Lemma wasRemovedFrom_sync it ib :
  remVerSeen (wasRemovedFrom it ib).1.2 = remVer (wasRemovedFrom it ib).2 ∧
  remVerObserved (wasRemovedFrom it ib).2 = true ∧
  addVerSeen (wasRemovedFrom it ib).1.2 = addVerSeen it ∧
  addVer (wasRemovedFrom it ib).2 = addVer ib ∧
  addVerObserved (wasRemovedFrom it ib).2 = addVerObserved ib.
Proof. unfold wasRemovedFrom. simpl. by case_decide. Qed.

(** X13. Every call of [wasAddedTo], not only the first, answers whether
    an [add] ran on the index since the previous call of [wasAddedTo] on
    the same iterator, and every call of [wasRemovedFrom] whether a
    [remove] that found its entity did since the previous call of
    [wasRemovedFrom], whatever the other iterators of the index looked at
    in between. *)
Theorem change_since_previous_call (it : IndexIterator) (ib : IndexBase)
    (ms : list Mutation) :
  (let '(_, it1, ib1) := wasAddedTo it ib in
   (wasAddedTo it1 (foldl mutate ib1 ms)).1.1 = anyAdd ms) ∧
  (let '(_, it1, ib1) := wasRemovedFrom it ib in
   (wasRemovedFrom it1 (foldl mutate ib1 ms)).1.1 = anyRemoved ib1 ms).
Proof.
  split.
  - pose proof (wasAddedTo_sync it ib) as (Hseen & Hobs & _).
    destruct (wasAddedTo it ib) as [[b it1] ib1]. by apply wasAddedTo_after.
  - pose proof (wasRemovedFrom_sync it ib) as (Hseen & Hobs & _).
    destruct (wasRemovedFrom it ib) as [[b it1] ib1]. by apply wasRemovedFrom_after.
Qed.

(** X14. [wasChanged] does not call [wasRemovedFrom] when [wasAddedTo]
    answers [true]. So when both an [add] and a [remove] that found its
    entity ran since the iterator was built, the first call of
    [wasChanged] answers [true] for the addition, the next call answers
    [true] again, for the removal, although the index did not change
    between the two calls, and only the third call answers [false]. *)
Theorem wasChanged_reports_twice (ib : IndexBase) (names : list string)
    (ms : list Mutation) :
  let '(it, ib1) := newIndexIteratorBase ib names in
  anyAdd ms = true → anyRemoved ib1 ms = true →
  let '(b1, it1, ib2) := wasChanged it (foldl mutate ib1 ms) in
  let '(b2, it2, ib3) := wasChanged it1 ib2 in
  let '(b3, _, _) := wasChanged it2 ib3 in
  b1 = true ∧ b2 = true ∧ b3 = false.
Proof.
  unfold newIndexIteratorBase. simpl.
  set (ib1 := MkIndexBase _ _ _ _ _ _ _ _).
  set (it := MkIndexIterator _ _ _ _).
  intros Hadd Hrem.
  pose proof (wasAddedTo_after it ib1 ms eq_refl eq_refl) as Ha. rewrite Hadd in Ha.
  pose proof (wasRemovedFrom_after it ib1 ms eq_refl eq_refl) as Hr. rewrite Hrem in Hr.
  set (ib2 := foldl mutate ib1 ms) in *.
  pose proof (wasAddedTo_sync it ib2) as (Hs1 & Ho1 & Hrs1 & Hrv1 & Hro1).
  unfold wasChanged at 1.
  destruct (wasAddedTo it ib2) as [[b1 it1] ib3] eqn:H1. simpl in *. subst b1.
  (* second call: nothing was added, the removal is still to be seen *)
  pose proof (wasAddedTo_after it1 ib3 [] Hs1 Ho1) as Ha2. simpl in Ha2.
  pose proof (wasAddedTo_sync it1 ib3) as (Hs2 & Ho2 & Hrs2 & Hrv2 & Hro2).
  unfold wasChanged at 1.
  destruct (wasAddedTo it1 ib3) as [[b2 it2] ib4] eqn:H2. simpl in *. subst b2.
  assert (Hr2 : (wasRemovedFrom it2 ib4).1.1 = true).
  { unfold wasRemovedFrom in Hr |- *. simpl in *.
    rewrite Hrs2, Hrs1, Hrv2, Hrv1. by case_decide. }
  pose proof (wasRemovedFrom_sync it2 ib4) as (Hs3 & Ho3 & Has3 & Hav3 & Hao3).
  destruct (wasRemovedFrom it2 ib4) as [[b2 it3] ib5] eqn:H3. simpl in *. subst b2.
  (* third call *)
  assert (Ha3 : (wasAddedTo it3 ib5).1.1 = false).
  { apply (wasAddedTo_after it3 ib5 []); congruence. }
  pose proof (wasAddedTo_sync it3 ib5) as (Hs4 & Ho4 & Hrs4 & Hrv4 & Hro4).
  unfold wasChanged.
  destruct (wasAddedTo it3 ib5) as [[b3 it4] ib6] eqn:H4. simpl in *. subst b3.
  assert (Hr3 : (wasRemovedFrom it4 ib6).1.1 = false).
  { apply (wasRemovedFrom_after it4 ib6 []); congruence. }
  destruct (wasRemovedFrom it4 ib6) as [[b3 it5] ib7]. simpl in *. by subst b3.
Qed.

End index_changes.

(** An index on [A] that gets an entity and loses it again while an
    iterator is not looking. *)
Lemma wasChanged_reports_twice_witness :
  let c := IndexDefs.MkComponent "A" 0 false in
  let ms := [IndexDefs.MAdd 1 [Some c]; IndexDefs.MRemove 1] in
  let '(it, ib1) := IndexDefs.newIndexIteratorBase (IndexDefs.new ["A"%string]) ["a"%string] in
  let '(b1, it1, ib2) := IndexDefs.wasChanged it (foldl IndexDefs.mutate ib1 ms) in
  let '(b2, it2, ib3) := IndexDefs.wasChanged it1 ib2 in
  let '(b3, _, _) := IndexDefs.wasChanged it2 ib3 in
  b1 = true ∧ b2 = true ∧ b3 = false.
Proof.
  exact (wasChanged_reports_twice (IndexDefs.new ["A"%string]) ["a"%string]
           [IndexDefs.MAdd 1 [Some (IndexDefs.MkComponent "A" 0 false)]; IndexDefs.MRemove 1]
           eq_refl eq_refl).
Defined.

(** ** The indexes of the world *)

Section index_membership.
Import TrieDefs IndexDefs WorldDefs.
Implicit Types (w : World) (ib : IndexBase) (e : Z).

Lemma forEach_spec {A} (J : list A → World → Prop) (body : A → M unit) : ∀ l seen w,
  J seen w →
  (∀ x seen w, x ∈ l → J seen w → ∃ w', body x w = (w', Ok tt) ∧ J (seen ++ [x]) w') →
  ∃ w', forEach l body w = (w', Ok tt) ∧ J (seen ++ l) w'.
Proof.
  induction l as [|x l IH]; intros seen w HJ Hbody.
  - exists w. split; [done|]. by rewrite app_nil_r.
  - destruct (Hbody x seen w) as (w1 & Hx & HJ1); [left|done|].
    destruct (IH (seen ++ [x]) w1) as (w' & Hl & HJ'); [done| |].
    { intros y seen' w' Hy. apply Hbody. by right. }
    exists w'. simpl. unfold bind. rewrite Hx. split; [done|].
    by rewrite <-app_assoc in HJ'.
Qed.

Lemma withIndex_ok {A} i (f : IndexBase → Result (A * IndexBase)) w ib a ib' :
  indexes w !! i = Some ib → f ib = Ok (a, ib') →
  withIndex i f w = (setIndexes (<[i := ib']> (indexes w)) w, Ok a).
Proof. intros Hi Hf. unfold withIndex. by rewrite Hi, Hf. Qed.

(** Membership in an [IndexBase] after its methods. *)
Lemma member_add e ecs ib e' :
  entityISByEntity (add e ecs ib) !! e' =
    if decide (e = e') then Some (default 0%nat (entityISByEntity (add e ecs ib) !! e))
    else entityISByEntity ib !! e'.
Proof.
  unfold add. destruct (entityISByEntity ib !! e) as [iS|] eqn:He.
  - simpl. rewrite lookup_insert. case_decide; [|done]. by rewrite lookup_insert_eq.
  - destruct (arrayPop (freeISs ib)) as [[iS rest]|]; simpl;
      rewrite lookup_insert; (case_decide; [|done]); by rewrite lookup_insert_eq.
Qed.

Lemma is_member_add e ecs ib e' :
  is_Some (entityISByEntity (add e ecs ib) !! e') ↔ e' = e ∨ is_Some (entityISByEntity ib !! e').
Proof.
  rewrite member_add. case_decide as He.
  - subst. split; [by left|by eexists].
  - split; [by right|]. by intros [->|].
Qed.

Lemma member_remove e ib e' :
  entityISByEntity (IndexDefs.remove e ib).2 !! e' =
    if decide (e = e') then None else entityISByEntity ib !! e'.
Proof.
  unfold IndexDefs.remove. destruct (entityISByEntity ib !! e) as [iS|] eqn:He; simpl.
  - by rewrite lookup_delete.
  - case_decide; [by subst|done].
Qed.

Lemma member_emplace e type c ib b ib' :
  IndexDefs.emplace e type c ib = Ok (b, ib') →
  entityISByEntity ib' = entityISByEntity ib ∧
  b = bool_decide (is_Some (entityISByEntity ib !! e)).
Proof.
  unfold IndexDefs.emplace. destruct (entityISByEntity ib !! e) as [iS|].
  - destruct (list_find _ _) as [[iC ?]|]; [|done]. intros [= <- <-]. split; [done|].
    symmetry. apply bool_decide_eq_true. by eexists.
  - intros [= <- <-]. split; [done|]. symmetry. apply bool_decide_eq_false. by intros [].
Qed.

Lemma emplace_ok e type c ib :
  type ∈ types ib → ∃ b ib', IndexDefs.emplace e type c ib = Ok (b, ib').
Proof.
  intros Hin. unfold IndexDefs.emplace. destruct (entityISByEntity ib !! e); [|by eexists _, _].
  destruct (list_find (λ t, t = type) (types ib)) as [[iC t]|] eqn:Hfind; [by eexists _, _|].
  apply list_find_None in Hfind. rewrite Forall_forall in Hfind. by destruct (Hfind type).
Qed.

Lemma holdsAll_updIndex e i ib ib' j w :
  indexes w !! i = Some ib → types ib' = types ib →
  holdsAll e j (setIndexes (<[i := ib']> (indexes w)) w) = holdsAll e j w.
Proof.
  intros Hi Hty. unfold holdsAll, has. simpl.
  destruct (decide (i = j)) as [->|Hne].
  - rewrite list_lookup_insert_eq by by eapply lookup_lt_Some. by rewrite Hi, Hty.
  - by rewrite list_lookup_insert_ne.
Qed.

Lemma holdsAll_types e i w ib :
  indexes w !! i = Some ib →
  holdsAll e i w = true ↔ ∀ type, type ∈ types ib → has e type w = true.
Proof.
  intros Hi. unfold holdsAll. rewrite Hi, forallb_forall.
  split; intros Hall type Hin; apply Hall; by apply list_elem_of_In.
Qed.

Lemma inIndex_lt e i w : inIndex e i w = true → (i < length (indexes w))%nat.
Proof.
  unfold inIndex. destruct (indexes w !! i) eqn:Hi; [|done]. intros _.
  by eapply lookup_lt_Some.
Qed.

(** [gatherPresent] returns when the types have a storage, and finds the
    components when the entity holds them all. *)
Lemma gatherPresent_spec (cs : TypeStorage) e : ∀ tys,
  (∀ type, type ∈ tys → is_Some (tsGet cs type)) →
  ∃ r, gatherPresent cs e tys = Ok r ∧
       (is_Some r ↔ ∀ type, type ∈ tys → ∃ st c, tsGet cs type = Some st ∧ st !! e = Some c).
Proof.
  induction tys as [|type tys IH]; intros Hst.
  - exists (Some []). split; [done|]. split; [|by eexists].
    intros _ type Hin. by apply elem_of_nil in Hin.
  - simpl. destruct (Hst type) as [st Hty]; [left|]. rewrite Hty.
    destruct IH as (r & Hr & Hiff); [intros type' Hin; apply Hst; by right|].
    destruct (st !! e) as [c|] eqn:Hc.
    + rewrite Hr. destruct r as [ecs|].
      * eexists. split; [done|]. split; [|by eexists].
        intros _ type' [->|Hin]%elem_of_cons; [by eexists _, _|].
        apply Hiff; [by eexists|done].
      * exists None. split; [done|]. split; [by intros []|].
        intros Hall. apply Hiff. intros type' Hin. apply Hall. by right.
    + exists None. split; [done|]. split; [by intros []|].
      intros Hall. destruct (Hall type) as (st' & c & Hst' & Hc'); [left|]. congruence.
Qed.

Lemma has_tsGet e type w :
  has e type w = true ↔ ∃ st c, tsGet (components w) type = Some st ∧ st !! e = Some c.
Proof.
  unfold has. destruct (tsGet (components w) type) as [st|].
  - rewrite bool_decide_eq_true. split.
    + intros [c Hc]. by exists st, c.
    + intros (st' & c & [= <-] & Hc). by exists c.
  - split; [done|]. by intros (? & ? & ? & _).
Qed.

Lemma onlyIndexes_refl w : onlyIndexes w w.
Proof. done. Qed.

Lemma onlyIndexes_trans w1 w2 w3 : onlyIndexes w1 w2 → onlyIndexes w2 w3 → onlyIndexes w1 w3.
Proof.
  intros (? & ? & ? & ? & ? & ? & ?) (? & ? & ? & ? & ? & ? & ?).
  split_and!; congruence.
Qed.

Lemma onlyIndexes_upd i ib ib' w :
  indexes w !! i = Some ib → types ib' = types ib →
  onlyIndexes w (setIndexes (<[i := ib']> (indexes w)) w).
Proof.
  intros Hi Hty. split_and!; try done. simpl.
  rewrite list_fmap_insert. apply list_insert_id.
  by rewrite list_lookup_fmap, Hi, Hty.
Qed.

Lemma types_lookup w w' i :
  types <$> indexes w' = types <$> indexes w →
  types <$> (indexes w' !! i) = types <$> (indexes w !! i).
Proof. intros Heq. by rewrite <-!list_lookup_fmap, Heq. Qed.

Lemma get_onlyIndexes e type w w' : onlyIndexes w w' → get e type w' = get e type w.
Proof. intros (_ & _ & Hc & _). unfold get. by rewrite Hc. Qed.

Lemma has_components e type w w' : components w' = components w → has e type w' = has e type w.
Proof. unfold has. by intros ->. Qed.

Lemma holdsAll_frame e i w w' :
  components w' = components w → types <$> indexes w' = types <$> indexes w →
  holdsAll e i w' = holdsAll e i w.
Proof.
  intros Hc Hty. unfold holdsAll. pose proof (types_lookup w w' i Hty) as Hi.
  destruct (indexes w' !! i) as [ib'|], (indexes w !! i) as [ib|]; try done.
  simpl in Hi. injection Hi as ->. apply eq_true_iff_eq. rewrite !forallb_forall.
  split; intros Hall type Hin.
  - rewrite <-(has_components e type w w' Hc). by apply Hall.
  - rewrite (has_components e type w w' Hc). by apply Hall.
Qed.

Lemma holdsAll_onlyIndexes e i w w' : onlyIndexes w w' → holdsAll e i w' = holdsAll e i w.
Proof. intros (_ & _ & Hc & _ & _ & _ & Hty). by apply holdsAll_frame. Qed.

Lemma holdsAll_gatherPresent e i w ib :
  indexes w !! i = Some ib →
  (∀ type, type ∈ types ib → is_Some (tsGet (components w) type)) →
  ∃ r, gatherPresent (components w) e (types ib) = Ok r ∧
       bool_decide (is_Some r) = holdsAll e i w.
Proof.
  intros Hi Hst. destruct (gatherPresent_spec (components w) e (types ib) Hst) as (r & Hr & Hiff).
  exists r. split; [done|]. apply eq_true_iff_eq.
  rewrite bool_decide_eq_true, Hiff, (holdsAll_types e i w ib Hi).
  by setoid_rewrite has_tsGet.
Qed.

(** One round of the loop of [emplace] over the indexes on the type. *)
Lemma emplace_round e c i w ib :
  indexes w !! i = Some ib → ctor c ∈ types ib →
  (∀ type, type ∈ types ib → is_Some (tsGet (components w) type)) →
  ∃ w',
    (updated ← withIndex i (IndexDefs.emplace e (ctor c) c);
     if (updated : bool) then mret ()
     else
       w ← getWorld;
       ib ← liftResult (from_option Ok (Throw TypeError) (indexes w !! i));
       ecs ← liftResult (gatherPresent (components w) e (types ib));
       match ecs with
       | None => mret ()
       | Some ecs => withIndex i (λ ib, Ok ((), add e ecs ib))
       end) w = (w', Ok ()) ∧
    onlyIndexes w w' ∧
    ∀ j e', inIndex e' j w' =
      if decide (j = i ∧ e' = e) then inIndex e i w || holdsAll e i w else inIndex e' j w.
Proof.
  intros Hi Hty Hst. unfold_monad.
  destruct (emplace_ok e (ctor c) c ib Hty) as (b & ib1 & Hemp).
  pose proof (types_emplace e (ctor c) c ib b ib1 Hemp) as Hty1.
  pose proof (member_emplace e (ctor c) c ib b ib1 Hemp) as [Hmem ->].
  unfold bind at 1. rewrite (withIndex_ok i _ w ib _ ib1 Hi Hemp).
  set (w1 := setIndexes (<[i := ib1]> (indexes w)) w).
  assert (Hw1 : onlyIndexes w w1) by by apply (onlyIndexes_upd i ib).
  assert (Hin1 : ∀ j e', inIndex e' j w1 = inIndex e' j w).
  { intros j e'. unfold w1. rewrite inIndex_updIndex. case_decide as Hij; [|done].
    destruct Hij as [<- _]. unfold inIndex. by rewrite Hi, Hmem. }
  assert (Hi1 : indexes w1 !! i = Some ib1).
  { simpl. apply list_lookup_insert_eq. by eapply lookup_lt_Some. }
  case_bool_decide as Hin.
  - exists w1. split; [done|]. split; [done|].
    intros j e'. rewrite Hin1. case_decide as Hje; [|done]. destruct Hje as [-> ->].
    unfold inIndex at 2. rewrite Hi. rewrite bool_decide_eq_true_2 by done.
    unfold inIndex. rewrite Hi. by rewrite bool_decide_eq_true_2.
  - unfold bind, getWorld, liftResult. rewrite Hi1. simpl.
    destruct (holdsAll_gatherPresent e i w1 ib1 Hi1) as (r & Hr & Hall).
    { intros type. rewrite Hty1. apply Hst. }
    rewrite (holdsAll_onlyIndexes e i w w1 Hw1) in Hall.
    assert (Hold : inIndex e i w = false).
    { unfold inIndex. rewrite Hi. by apply bool_decide_eq_false. }
    simpl in Hr. rewrite Hr. destruct r as [ecs|].
    + rewrite (withIndex_ok i _ w1 ib1 () (add e ecs ib1) Hi1 eq_refl).
      eexists. split; [done|]. split.
      { eapply onlyIndexes_trans; [exact Hw1|]. apply (onlyIndexes_upd i ib1); [done|].
        apply types_add. }
      intros j e'. rewrite inIndex_updIndex. case_decide as Hij.
      * destruct Hij as [<- _]. rewrite Hold. simpl. rewrite <-Hall.
        rewrite (bool_decide_eq_true_2 (is_Some (Some ecs))) by by eexists.
        case_decide as Hje.
        -- destruct Hje as [_ ->]. apply bool_decide_eq_true, is_member_add. by left.
        -- rewrite <-Hin1. unfold inIndex. rewrite Hi1. apply bool_decide_ext.
           rewrite is_member_add. split; [|by right]. intros [->|]; [|done]. by destruct Hje.
      * rewrite Hin1. rewrite decide_False; [done|]. intros [-> _]. apply Hij.
        split; [done|]. by eapply lookup_lt_Some.
    + exists w1. split; [done|]. split; [done|].
      intros j e'. rewrite Hin1. case_decide as Hje; [|done]. destruct Hje as [-> ->].
      rewrite Hold, <-Hall. symmetry. apply bool_decide_eq_false. by intros [].
Qed.

Lemma has_get_eq e type w e' type' w' :
  get e type w = get e' type' w' → has e type w = has e' type' w'.
Proof.
  intros Hget. apply eq_true_iff_eq. rewrite !has_get. by rewrite Hget.
Qed.

Lemma get_store e c w e' type :
  get e' type (setComponents (tsUpdate (<[e := c]>) (ctor c) (components w)) w) =
    if decide (e' = e ∧ type = ctor c) then Some c else get e' type w.
Proof.
  rewrite get_tsUpdate. case_decide as Hty.
  - subst type. rewrite lookup_insert. case_decide as He.
    + subst. by rewrite decide_True.
    + rewrite decide_False by (intros [-> _]; done).
      unfold get. by destruct (tsGet (components w) (ctor c)).
  - rewrite decide_False; [done|]. by intros [_ ->].
Qed.

Lemma holdsAll_mono e i w w' :
  types <$> indexes w' = types <$> indexes w →
  (∀ type, has e type w = true → has e type w' = true) →
  holdsAll e i w = true → holdsAll e i w' = true.
Proof.
  intros Hty Hhas. unfold holdsAll. pose proof (types_lookup w w' i Hty) as Hi.
  destruct (indexes w' !! i) as [ib'|], (indexes w !! i) as [ib|]; try done.
  simpl in Hi. injection Hi as ->. rewrite !forallb_forall.
  intros Hall type Hin. by apply Hhas, Hall.
Qed.

Lemma holdsAll_same e i w w' :
  types <$> indexes w' = types <$> indexes w →
  (∀ type, has e type w' = has e type w) →
  holdsAll e i w' = holdsAll e i w.
Proof.
  intros Hty Hhas. apply eq_true_iff_eq. split.
  - apply holdsAll_mono; [done|]. intros type. by rewrite Hhas.
  - apply holdsAll_mono; [done|]. intros type. by rewrite Hhas.
Qed.

Lemma inIndex_types e i w w' :
  types <$> indexes w' = types <$> indexes w → inIndex e i w' = true →
  ∃ ib, indexes w !! i = Some ib.
Proof.
  intros Hty Hin. pose proof (types_lookup w w' i Hty) as Hi. unfold inIndex in Hin.
  destruct (indexes w' !! i) as [ib'|]; [|done].
  destruct (indexes w !! i) as [ib|]; [by eexists|done].
Qed.

(** [emplace] on an entity that is alive: it returns, stores the
    component, and puts the entity into the indexes on the type of the
    component whose types it now holds all. *)
Lemma emplace_total e c w :
  indexInv w → e ∈ entities w →
  ∃ w', emplace e c w = (w', Ok ()) ∧
    onlyIndexes (setComponents (tsUpdate (<[e := c]>) (ctor c) (components w)) w) w' ∧
    (∀ j e', e' ≠ e → inIndex e' j w' = inIndex e' j w) ∧
    (∀ j ib, indexes w !! j = Some ib → ctor c ∈ types ib →
       inIndex e j w' = holdsAll e j w') ∧
    (∀ j ib, indexes w !! j = Some ib → ctor c ∉ types ib → inIndex e j w' = inIndex e j w).
Proof.
  intros (Hinv & Hnd & Hsound & Hcomplete & Hstored & Hix) He.
  set (w1 := setComponents (tsUpdate (<[e := c]>) (ctor c) (components w)) w).
  assert (Hin1 : ∀ j e', inIndex e' j w1 = inIndex e' j w) by done.
  assert (Hmono : ∀ j, holdsAll e j w = true → holdsAll e j w1 = true).
  { intros j. apply holdsAll_mono; [done|]. intros type [c' Hc']%has_get.
    apply has_get. unfold w1. rewrite get_store. case_decide; by eexists. }
  assert (Hstored1 : ∀ i ib type, indexes w !! i = Some ib → type ∈ types ib →
            is_Some (tsGet (components w1) type)).
  { intros i ib type Hi Hty. simpl. apply tsGet_tsUpdate_is_Some. left. by eapply Hstored. }
  unfold emplace. unfold_monad. unfold bind at 1, getWorld at 1.
  assert (Hlive : setHas e (entities w) = true) by by apply bool_decide_eq_true.
  rewrite Hlive. cbn [negb].
  unfold bind at 1, modify at 1. fold w1. unfold bind at 1, getWorld at 1.
  change (indexesByComponent w1) with (indexesByComponent w).
  destruct (indexesByComponent w !! ctor c) as [ixs|] eqn:Hixs.
  - set (J := λ (seen : list nat) (w' : World),
           onlyIndexes w1 w' ∧
           ∀ j e', inIndex e' j w' =
             if decide (j ∈ seen ∧ e' = e) then inIndex e j w1 || holdsAll e j w1
             else inIndex e' j w1).
    match goal with |- context [forEach ixs ?b] => set (body := b) end.
    destruct (forEach_spec J body ixs [] w1) as (w' & Hloop & Hw' & Hmem); [| |rewrite Hloop].
    + split; [apply onlyIndexes_refl|]. intros j e'.
      rewrite decide_False; [done|]. intros [Hj _]. by apply elem_of_nil in Hj.
    + intros i seen w' Hi [Hw' Hmem].
      destruct (Hsound (ctor c) ixs i Hixs Hi) as (ib & Hib & Hty).
      pose proof Hw' as (_ & _ & Hc' & _ & _ & _ & Htys).
      pose proof (types_lookup w1 w' i Htys) as Hi'. simpl in Hi'. rewrite Hib in Hi'.
      destruct (indexes w' !! i) as [ib'|] eqn:Hib'; [|done]. simpl in Hi'. injection Hi' as Hty'.
      destruct (emplace_round e c i w' ib') as (w'' & Hround & Hw'' & Hmem'').
      { done. }
      { by rewrite Hty'. }
      { intros type. rewrite Hty', Hc'. by apply (Hstored1 i ib). }
      exists w''. split; [exact Hround|]. split; [by eapply onlyIndexes_trans|].
      intros j e'. rewrite Hmem'', !Hmem, (holdsAll_onlyIndexes e i w1 w' Hw').
      destruct (decide (j = i ∧ e' = e)) as [[-> ->]|Hne].
      * rewrite (decide_True (P := i ∈ seen ++ [i] ∧ e = e));
          [|split; [apply elem_of_app; right; left|done]].
        case_decide; [|done]. by destruct (inIndex e i w1), (holdsAll e i w1).
      * apply decide_ext. rewrite elem_of_app, list_elem_of_singleton. tauto.
    + exists w'. split; [done|]. split; [done|]. simpl in Hmem. split_and!.
      * intros j e' Hne. rewrite Hmem, decide_False; [done|]. by intros [_ ?].
      * intros j ib Hib Hty.
        destruct (Hcomplete j ib (ctor c) Hib Hty) as (ixs' & Hixs' & Hj).
        rewrite Hixs in Hixs'. injection Hixs' as <-.
        rewrite Hmem, decide_True by done.
        rewrite (holdsAll_onlyIndexes e j w1 w' Hw'), Hin1.
        destruct (inIndex e j w) eqn:Hold; [|done].
        destruct (Hix j e Hold) as [_ Hall]. by rewrite (Hmono j Hall).
      * intros j ib Hib Hty. rewrite Hmem, decide_False; [done|].
        intros [Hj _]. destruct (Hsound (ctor c) ixs j Hixs Hj) as (ib' & Hib' & Hty').
        congruence.
  - exists w1. split; [done|]. split; [apply onlyIndexes_refl|]. split_and!; try done.
    intros j ib Hib Hty. destruct (Hcomplete j ib (ctor c) Hib Hty) as (ixs & Hixs' & _).
    congruence.
Qed.

Lemma lookup_types w w' i ib' :
  types <$> indexes w' = types <$> indexes w → indexes w' !! i = Some ib' →
  ∃ ib, indexes w !! i = Some ib ∧ types ib = types ib'.
Proof.
  intros Hty Hi'. pose proof (types_lookup w w' i Hty) as Hi. rewrite Hi' in Hi.
  destruct (indexes w !! i) as [ib|]; [|done]. exists ib. split; [done|].
  simpl in Hi. congruence.
Qed.

(** The invariants on the shape of the indexes only depend on the types
    of the indexes, on the map from the types and on the storages. *)
Lemma shape_frame w w' :
  indexesByComponent w' = indexesByComponent w →
  types <$> indexes w' = types <$> indexes w →
  (∀ type, is_Some (tsGet (components w) type) → is_Some (tsGet (components w') type)) →
  byComponentSound w ∧ byComponentComplete w ∧ indexTypesStored w →
  byComponentSound w' ∧ byComponentComplete w' ∧ indexTypesStored w'.
Proof.
  intros Hibc Hty Hst (Hsound & Hcomplete & Hstored). split_and!.
  - intros type ixs i. rewrite Hibc. intros Hixs Hi.
    destruct (Hsound type ixs i Hixs Hi) as (ib & Hib & Hin).
    destruct (lookup_types w' w i ib) as (ib' & Hib' & Htys); [done|done|].
    exists ib'. split; [done|]. by rewrite Htys.
  - intros i ib' type Hib' Hin. rewrite Hibc.
    destruct (lookup_types w w' i ib' Hty Hib') as (ib & Hib & Htys).
    apply (Hcomplete i ib); [done|]. by rewrite Htys.
  - intros i ib' type Hib' Hin.
    destruct (lookup_types w w' i ib' Hty Hib') as (ib & Hib & Htys).
    apply Hst. apply (Hstored i ib); [done|]. by rewrite Htys.
Qed.

Lemma emplace_dead e c w :
  e ∉ entities w → emplace e c w = (w, Throw (DeadEntity (ctor c) e)).
Proof.
  intros He. unfold emplace. unfold_monad. unfold bind at 1, getWorld at 1.
  assert (Hdead : setHas e (entities w) = false) by by apply bool_decide_eq_false.
  by rewrite Hdead.
Qed.

Lemma emplace_indexInv e c w : indexInv w → indexInv (emplace e c w).1.
Proof.
  intros Hinv. destruct (decide (e ∈ entities w)) as [He|He].
  2:{ by rewrite emplace_dead. }
  pose proof (emplace_inv e c w (proj1 Hinv)) as Hworld.
  destruct (emplace_total e c w Hinv He) as (w' & Hemp & Hw' & Hother & Hon & Hoff).
  rewrite Hemp in Hworld |- *. simpl in *.
  destruct Hinv as (Hinv & Hnd & Hsound & Hcomplete & Hstored & Hix).
  destruct Hw' as (Hseq & Hents & Hcs & Hibc & Htrie & Hit & Htys). simpl in *.
  assert (Hget : ∀ e' type, get e' type w' =
            if decide (e' = e ∧ type = ctor c) then Some c else get e' type w).
  { intros e' type. rewrite <-get_store. by apply get_components. }
  destruct (shape_frame w w') as (? & ? & ?); [done|done| |done|].
  { intros type Hty. rewrite Hcs. apply tsGet_tsUpdate_is_Some. by left. }
  split_and!; try done; [by rewrite Hents|].
  intros j e' Hin.
  destruct (inIndex_types e' j w w' Htys Hin) as [ib Hib].
  assert (Hmono : ∀ e'', holdsAll e'' j w = true → holdsAll e'' j w' = true).
  { intros e''. apply holdsAll_mono; [done|]. intros type [c' Hc']%has_get.
    apply has_get. rewrite Hget. case_decide; by eexists. }
  rewrite Hents. destruct (decide (e' = e)) as [->|Hne].
  - split; [done|]. destruct (decide (ctor c ∈ types ib)) as [Hty|Hty].
    + by rewrite <-(Hon j ib Hib Hty).
    + rewrite (Hoff j ib Hib Hty) in Hin. apply Hmono. by apply Hix.
  - rewrite (Hother j e' Hne) in Hin. destruct (Hix j e' Hin) as [? Hall].
    split; [done|]. by apply Hmono.
Qed.

(** One round of the loops of [remove] and [destroy] over indexes. *)
Lemma remove_round e i w ib :
  indexes w !! i = Some ib →
  ∃ w', withIndex i (λ ib, Ok ((), (IndexDefs.remove e ib).2)) w = (w', Ok ()) ∧
    onlyIndexes w w' ∧
    ∀ j e', inIndex e' j w' = if decide (j = i ∧ e' = e) then false else inIndex e' j w.
Proof.
  intros Hi. rewrite (withIndex_ok i _ w ib () (IndexDefs.remove e ib).2 Hi eq_refl).
  eexists. split; [done|]. split.
  - apply (onlyIndexes_upd i ib); [done|apply types_remove].
  - intros j e'. rewrite inIndex_updIndex. case_decide as Hij.
    + destruct Hij as [<- _]. rewrite member_remove. case_decide as He.
      * subst e'. rewrite decide_True by done. apply bool_decide_eq_false. by intros [].
      * rewrite decide_False by (intros [_ ->]; done). unfold inIndex. by rewrite Hi.
    + rewrite decide_False; [done|]. intros [-> _]. apply Hij. split; [done|].
      by eapply lookup_lt_Some.
Qed.

(** The loop that removes an entity from a list of indexes. *)
Lemma remove_loop e ixs w :
  (∀ i, i ∈ ixs → is_Some (indexes w !! i)) →
  ∃ w', forEach ixs (λ index, withIndex index (λ ib, Ok ((), (IndexDefs.remove e ib).2))) w
          = (w', Ok ()) ∧
    onlyIndexes w w' ∧
    ∀ j e', inIndex e' j w' = if decide (j ∈ ixs ∧ e' = e) then false else inIndex e' j w.
Proof.
  intros Hixs.
  set (J := λ (seen : list nat) (w' : World),
         onlyIndexes w w' ∧
         ∀ j e', inIndex e' j w' = if decide (j ∈ seen ∧ e' = e) then false else inIndex e' j w).
  destruct (forEach_spec J
              (λ index, withIndex index (λ ib, Ok ((), (IndexDefs.remove e ib).2))) ixs [] w)
    as (w' & Hloop & HJ).
  - split; [apply onlyIndexes_refl|]. intros j e'. rewrite decide_False; [done|].
    intros [Hj _]. by apply elem_of_nil in Hj.
  - intros i seen w' Hi [Hw' Hmem].
    destruct (Hixs i Hi) as [ib Hib].
    pose proof Hw' as (_ & _ & _ & _ & _ & _ & Htys).
    pose proof (types_lookup w w' i Htys) as Hi'. rewrite Hib in Hi'.
    destruct (indexes w' !! i) as [ib'|] eqn:Hib'; [|done].
    destruct (remove_round e i w' ib' Hib') as (w'' & Hround & Hw'' & Hmem'').
    exists w''. split; [done|]. split; [by eapply onlyIndexes_trans|].
    intros j e'. rewrite Hmem'', Hmem.
    destruct (decide (j = i ∧ e' = e)) as [[-> ->]|Hne].
    + rewrite decide_True; [done|]. split; [|done]. apply elem_of_app. right. left.
    + apply decide_ext. rewrite elem_of_app, list_elem_of_singleton. tauto.
  - exists w'. split; [done|]. exact HJ.
Qed.

Lemma get_delete e type w e' type' :
  get e' type' (setComponents (tsUpdate (delete e) type (components w)) w) =
    if decide (e' = e ∧ type' = type) then None else get e' type' w.
Proof.
  rewrite get_tsUpdate. case_decide as Hty.
  - subst type'. rewrite lookup_delete. case_decide as He.
    + subst. by rewrite decide_True.
    + rewrite decide_False by (intros [-> _]; done).
      unfold get. by destruct (tsGet (components w) type).
  - rewrite decide_False; [done|]. by intros [_ ->].
Qed.

(** [remove] returns the component the entity held, takes it out of the
    storage, and takes the entity out of the indexes on the type. *)
Lemma remove_total e type w :
  indexInv w →
  ∃ w', WorldDefs.remove e type w = (w', Ok (get e type w)) ∧
    entitySequence w' = entitySequence w ∧ entities w' = entities w ∧
    indexesByComponent w' = indexesByComponent w ∧
    indexByComponents w' = indexByComponents w ∧
    indexByComponentsSubIt w' = indexByComponentsSubIt w ∧
    types <$> indexes w' = types <$> indexes w ∧
    (∀ type', is_Some (tsGet (components w) type') → is_Some (tsGet (components w') type')) ∧
    (∀ e' type', get e' type' w' =
       if decide (e' = e ∧ type' = type) then None else get e' type' w) ∧
    (∀ j e', e' ≠ e → inIndex e' j w' = inIndex e' j w) ∧
    (∀ j ib, indexes w !! j = Some ib → type ∈ types ib → has e type w = true →
       inIndex e j w' = false) ∧
    (∀ j ib, indexes w !! j = Some ib → type ∉ types ib ∨ has e type w = false →
       inIndex e j w' = inIndex e j w).
Proof.
  intros (Hinv & Hnd & Hsound & Hcomplete & Hstored & Hix).
  unfold WorldDefs.remove. unfold_monad. unfold bind at 1, getWorld at 1.
  unfold get at 1. unfold has.
  destruct (tsGet (components w) type) as [st|] eqn:Hst.
  2:{ exists w. split_and!; try done.
      intros e' type'. case_decide as Heq; [|done]. destruct Heq as [-> ->].
      unfold get. by rewrite Hst. }
  unfold bind at 1, modify at 1.
  set (w1 := setComponents (tsUpdate (delete e) type (components w)) w).
  assert (Hkept : ∀ type', is_Some (tsGet (components w) type') →
            is_Some (tsGet (components w1) type')).
  { intros type' Hty. simpl. apply tsGet_tsUpdate_is_Some. by left. }
  assert (Hget1 : ∀ e' type', get e' type' w1 =
            if decide (e' = e ∧ type' = type) then None else get e' type' w).
  { intros e' type'. apply get_delete. }
  destruct (st !! e) as [c|] eqn:Hc.
  2:{ exists w1. split_and!; try done. }
  destruct (indexesByComponent w !! type) as [ixs|] eqn:Hixs.
  - destruct (remove_loop e ixs w1) as (w' & Hloop & Hw' & Hmem).
    { intros i Hi. destruct (Hsound type ixs i Hixs Hi) as (ib & Hib & _). by eexists. }
    unfold bind at 1. rewrite Hloop. exists w'. split; [done|].
    pose proof Hw' as (? & ? & Hcs & ? & ? & ? & ?).
    split_and!; try done.
    + intros type' Hty. rewrite Hcs. by apply Hkept.
    + intros e' type'. rewrite <-Hget1. by apply get_components.
    + intros j e' Hne. rewrite Hmem, decide_False; [done|]. by intros [_ ?].
    + intros j ib Hib Hty _.
      destruct (Hcomplete j ib type Hib Hty) as (ixs' & Hixs' & Hj).
      rewrite Hixs in Hixs'. injection Hixs' as <-. by rewrite Hmem, decide_True.
    + intros j ib Hib [Hty|Hhas].
      * rewrite Hmem, decide_False; [done|]. intros [Hj _].
        destruct (Hsound type ixs j Hixs Hj) as (ib' & Hib' & Hty'). congruence.
      * by apply bool_decide_eq_false in Hhas as [].
  - exists w1. split_and!; try done.
    + intros j ib Hib Hty _. destruct (Hcomplete j ib type Hib Hty) as (ixs & Hixs' & _).
      congruence.
Qed.

Lemma remove_indexInv e type w : indexInv w → indexInv (WorldDefs.remove e type w).1.
Proof.
  intros Hinv. pose proof (remove_inv e type w (proj1 Hinv)) as Hworld.
  destruct (remove_total e type w Hinv)
    as (w' & Hrem & Hseq & Hents & Hibc & Htrie & Hit & Htys & Hkept & Hget & Hother & Hon & Hoff).
  rewrite Hrem in Hworld |- *. simpl in *.
  destruct Hinv as (Hinv & Hnd & Hsound & Hcomplete & Hstored & Hix).
  destruct (shape_frame w w') as (? & ? & ?); [done..|].
  split_and!; try done; [by rewrite Hents|].
  intros j e' Hin. rewrite Hents.
  destruct (inIndex_types e' j w w' Htys Hin) as [ib Hib].
  destruct (decide (e' = e)) as [->|Hne].
  - destruct (decide (type ∈ types ib ∧ has e type w = true)) as [[Hty Hhas]|Hno].
    + by rewrite (Hon j ib Hib Hty Hhas) in Hin.
    + assert (Hcase : type ∉ types ib ∨ has e type w = false).
      { destruct (decide (type ∈ types ib)); [right|by left].
        destruct (has e type w); [|done]. destruct Hno. done. }
      rewrite (Hoff j ib Hib Hcase) in Hin. destruct (Hix j e Hin) as [? Hall].
      split; [done|].
      pose proof (proj1 (holdsAll_types e j w ib Hib) Hall) as Hall'.
      clear Hall. rename Hall' into Hall.
      destruct (lookup_types w' w j ib) as (ib' & Hib' & Htys'); [done|done|].
      apply (holdsAll_types e j w' ib' Hib'). intros type' Hty'. rewrite Htys' in Hty'.
      specialize (Hall type' Hty'). destruct Hcase as [Hty|Hhas].
      * rewrite <-Hall. apply has_get_eq. rewrite Hget, decide_False; [done|].
        intros [_ ->]. done.
      * rewrite <-Hall. apply has_get_eq. rewrite Hget, decide_False; [done|].
        intros [_ ->]. congruence.
  - rewrite (Hother j e' Hne) in Hin. destruct (Hix j e' Hin) as [? Hall].
    split; [done|]. rewrite <-Hall. apply holdsAll_same; [done|].
    intros type'. apply has_get_eq. rewrite Hget, decide_False; [done|]. by intros [? _].
Qed.

Lemma inIndex_setSubIt e i it w : inIndex e i (setSubIt it w) = inIndex e i w.
Proof. done. Qed.

(** The indexes whose types an entity holds are the ones the search of
    the trie finds for the sorted types of the entity. *)
Lemma holdsAll_found e i w :
  worldInv w → (i < length (indexes w))%nat → holdsAll e i w = true →
  i ∈ foreachSubsequenceInTrie (indexByComponents w)
        (jsSort compareStrings (ctor <$> heldComponents (components w) e)).
Proof.
  intros Hinv Hi Hall. apply elem_of_foreachSubsequenceInTrie.
  unfold holdsAll in Hall. destruct (indexes w !! i) as [ib|] eqn:Hib; [|done].
  destruct (Hinv) as (_ & _ & _ & _ & Hreg & _).
  destruct (Hreg i ib Hib) as [Hget Hsorted].
  exists (types ib). split; [|done].
  apply strict_subseteq_sublist; [done|by apply heldTypes_sorted|].
  intros type Htype. rewrite jsSort_perm. apply heldTypes_has; [done|].
  rewrite forallb_forall in Hall. apply Hall. by apply list_elem_of_In.
Qed.

(** What [destroy] does before it calls [free], to the entity and to the
    other entities. *)
Lemma destroyCleanup_total e w :
  indexInv w →
  ∃ w1, destroyCleanup e w =
          (w1, Ok (filter (λ c, hasFree c = true) (heldComponents (components w) e))) ∧
    entitySequence w1 = entitySequence w ∧ entities w1 = setDelete e (entities w) ∧
    indexesByComponent w1 = indexesByComponent w ∧
    indexByComponents w1 = indexByComponents w ∧
    types <$> indexes w1 = types <$> indexes w ∧
    (∀ type, is_Some (tsGet (components w1) type) ↔ is_Some (tsGet (components w) type)) ∧
    (∀ e' type, get e' type w1 = if decide (e = e') then None else get e' type w) ∧
    (∀ j e', e' ≠ e → inIndex e' j w1 = inIndex e' j w) ∧
    (∀ j, inIndex e j w1 = false).
Proof.
  intros (Hinv & Hnd & Hsound & Hcomplete & Hstored & Hix).
  set (held := heldComponents (components w) e).
  set (q := jsSort compareStrings (ctor <$> held)).
  set (w2 := setComponents ((λ kst, (kst.1, delete e kst.2)) <$> components w)
               (setEntities (setDelete e (entities w)) w)).
  set (body := λ i : nat, withIndex i (λ ib, Ok ((), (IndexDefs.remove e ib).2))).
  set (J := λ (seen : list nat) (w' : World),
         onlyIndexes w2 (setSubIt (indexByComponentsSubIt w2) w') ∧
         ∀ j e', inIndex e' j w' = if decide (j ∈ seen ∧ e' = e) then false else inIndex e' j w).
  destruct (forEachSubsequenceIndex_spec J body q w2) as (w1 & Hloop & Hw1 & Hmem).
  { split; [done|]. intros j e'. rewrite decide_False; [done|].
    intros [Hj _]. by apply elem_of_nil in Hj. }
  { by intros it seen w' [? ?]. }
  { intros i seen w' Hi [Hw' Hmem].
    apply elem_of_foreachSubsequenceInTrie in Hi as (p & _ & Hget).
    destruct Hinv as (_ & _ & _ & _ & _ & Hvalid).
    destruct (Hvalid p i Hget) as (ib0 & Hib0 & _).
    pose proof Hw' as (_ & _ & _ & _ & _ & _ & Htys). simpl in Htys.
    pose proof (types_lookup w w' i Htys) as Hi'. rewrite Hib0 in Hi'.
    destruct (indexes w' !! i) as [ib'|] eqn:Hib'; [|done].
    destruct (remove_round e i w' ib' Hib') as (w'' & Hround & Hw'' & Hmem'').
    exists w''. split; [exact Hround|]. split; [|by destruct Hw'' as (_ & _ & _ & _ & _ & ? & _)].
    split.
    - destruct Hw' as (? & ? & ? & ? & ? & ? & ?), Hw'' as (? & ? & ? & ? & ? & ? & ?).
      simpl in *. split_and!; simpl; congruence.
    - intros j e'. rewrite Hmem'', Hmem.
      destruct (decide (j = i ∧ e' = e)) as [[-> ->]|Hne].
      + rewrite decide_True; [done|]. split; [|done]. apply elem_of_app. right. left.
      + apply decide_ext. rewrite elem_of_app, list_elem_of_singleton. tauto. }
  exists w1. split.
  { unfold destroyCleanup. unfold_monad. unfold bind at 1 2 3 4. unfold modify at 1 2, getWorld.
    simpl. fold held. fold q. fold w2. fold body. by rewrite Hloop. }
  destruct Hw1 as (Hseq & Hents & Hcs & Hibc & Htrie & _ & Htys). simpl in *.
  split_and!; try done.
  - intros type. rewrite Hcs, tsGet_deleteAll. by rewrite fmap_is_Some.
  - intros e' type. rewrite (get_components e' type w2 w1 Hcs).
    apply (get_deleteAll e e' type (setEntities (setDelete e (entities w)) w)).
  - intros j e' Hne. rewrite Hmem, decide_False; [done|]. by intros [_ ?].
  - intros j. rewrite Hmem. case_decide as Hj; [done|].
    destruct (inIndex e j w) eqn:Hin; [|done]. destruct Hj. split; [|done].
    destruct (Hix j e Hin) as [_ Hall].
    apply holdsAll_found; [done|by apply inIndex_lt in Hin|done].
Qed.

Lemma NoDup_setDelete (e : Z) s : NoDup s → NoDup (setDelete e s).
Proof. apply NoDup_filter. Qed.

Lemma NoDup_setAdd (e : Z) s : NoDup s → NoDup (setAdd e s).
Proof.
  intros Hnd. unfold setAdd. case_decide; [done|].
  apply NoDup_app. split_and!; [done| |apply NoDup_singleton].
  intros x Hx ->%list_elem_of_singleton. done.
Qed.

Lemma destroyCleanup_indexInv e w : indexInv w → indexInv (destroyCleanup e w).1.
Proof.
  intros Hinv. pose proof (destroyCleanup_inv e w (proj1 Hinv)) as Hworld.
  destruct (destroyCleanup_total e w Hinv)
    as (w' & Hdes & Hseq & Hents & Hibc & Htrie & Htys & Hkept & Hget & Hother & Hgone).
  rewrite Hdes in Hworld |- *. simpl in *.
  destruct Hinv as (Hinv & Hnd & Hsound & Hcomplete & Hstored & Hix).
  destruct (shape_frame w w') as (? & ? & ?); [done|done|by intros type; rewrite Hkept|done|].
  split_and!; try done; [rewrite Hents; by apply NoDup_setDelete|].
  intros j e' Hin. destruct (decide (e' = e)) as [->|Hne]; [by rewrite Hgone in Hin|].
  rewrite (Hother j e' Hne) in Hin. destruct (Hix j e' Hin) as [? Hall].
  split; [rewrite Hents; by apply elem_of_setDelete|].
  rewrite <-Hall. apply holdsAll_same; [done|].
  intros type. apply has_get_eq. rewrite Hget, decide_False; [done|]. congruence.
Qed.

(** One round of the loop of [create] over the indexes found. *)
Lemma create_round e i w ib :
  indexes w !! i = Some ib →
  (∀ type, type ∈ types ib → is_Some (tsGet (components w) type)) →
  ∃ w',
    (w0 ← getWorld;
     ib ← liftResult (from_option Ok (Throw TypeError) (indexes w0 !! i));
     ecs ← liftResult (gather (components w0) e (types ib));
     withIndex i (λ ib, Ok ((), add e ecs ib))) w = (w', Ok ()) ∧
    onlyIndexes w w' ∧
    ∀ j e', inIndex e' j w' = if decide (j = i ∧ e' = e) then true else inIndex e' j w.
Proof.
  intros Hi Hst. unfold_monad. unfold bind, getWorld, liftResult. rewrite Hi. simpl.
  destruct (gather_ok (components w) e (types ib) Hst) as [ecs ->].
  rewrite (withIndex_ok i _ w ib () (add e ecs ib) Hi eq_refl).
  eexists. split; [done|]. split.
  - apply (onlyIndexes_upd i ib); [done|apply types_add].
  - intros j e'. rewrite inIndex_updIndex. case_decide as Hij.
    + destruct Hij as [<- _]. case_decide as He.
      * destruct He as [_ ->]. apply bool_decide_eq_true, is_member_add. by left.
      * unfold inIndex. rewrite Hi. apply bool_decide_ext. rewrite is_member_add.
        split; [|by right]. intros [->|]; [|done]. by destruct He.
    + rewrite decide_False; [done|]. intros [-> _]. apply Hij. split; [done|].
      by eapply lookup_lt_Some.
Qed.

(** The components of an entity after the loop of [create] that stores
    them. *)
Lemma get_stores e : ∀ (cs : list Component) w,
  let w' := foldl (λ w c, setComponents (tsUpdate (<[e := c]>) (ctor c) (components w)) w)
              w cs in
  (∀ e' type, e' ≠ e → get e' type w' = get e' type w) ∧
  (∀ type, type ∉ ctor <$> cs → get e type w' = get e type w) ∧
  (∀ type, type ∈ ctor <$> cs → ∃ c, c ∈ cs ∧ ctor c = type ∧ get e type w' = Some c) ∧
  (NoDup (ctor <$> cs) → ∀ c, c ∈ cs → get e (ctor c) w' = Some c).
Proof.
  induction cs as [|c cs IH]; intros w; simpl.
  - split_and!; try done.
    + intros type Hin. by apply elem_of_nil in Hin.
    + intros _ c Hin. by apply elem_of_nil in Hin.
  - destruct (IH (setComponents (tsUpdate (<[e := c]>) (ctor c) (components w)) w))
      as (Hother & Hout & Hin & Hnd).
    split_and!.
    + intros e' type Hne. rewrite Hother by done. rewrite get_store, decide_False; [done|].
      by intros [? _].
    + intros type Hty. rewrite not_elem_of_cons in Hty. destruct Hty as [Hc Hty].
      rewrite Hout by done. rewrite get_store, decide_False; [done|]. by intros [_ ?].
    + intros type Hty. destruct (decide (type ∈ ctor <$> cs)) as [Hcs|Hcs].
      * destruct (Hin type Hcs) as (c' & Hc' & Hty' & Hget). exists c'.
        split; [by right|done].
      * apply elem_of_cons in Hty as [->|]; [|done]. exists c. split; [left|].
        split; [done|]. rewrite Hout by done. rewrite get_store. by rewrite decide_True.
    + intros [Hc Hcs]%NoDup_cons c' [->|Hc']%elem_of_cons.
      * rewrite Hout by done. rewrite get_store. by rewrite decide_True.
      * by apply Hnd.
Qed.

Lemma stores_frame e : ∀ (cs : list Component) w,
  let w' := foldl (λ w c, setComponents (tsUpdate (<[e := c]>) (ctor c) (components w)) w)
              w cs in
  entitySequence w' = entitySequence w ∧ entities w' = entities w ∧
  indexesByComponent w' = indexesByComponent w ∧ indexByComponents w' = indexByComponents w ∧
  indexByComponentsSubIt w' = indexByComponentsSubIt w ∧ indexes w' = indexes w.
Proof.
  induction cs as [|c cs IH]; intros w; simpl; [done|].
  destruct (IH (setComponents (tsUpdate (<[e := c]>) (ctor c) (components w)) w))
    as (-> & -> & -> & -> & -> & ->). done.
Qed.

(** What [create] does before it looks at the types: the entity is
    alive and holds the components. *)
Lemma create_unfold cs w :
  let e := entitySequence w in
  let w2 := setEntities (setAdd e (entities w)) (setEntitySequence (e + 1) w) in
  let w3 := foldl (λ w c, setComponents (tsUpdate (<[e := c]>) (ctor c) (components w)) w)
              w2 cs in
  let typesP := jsSort compareStrings (ctor <$> cs) in
  create cs w =
    match adjacentDuplicate None typesP with
    | Some type => (w3, Throw (DuplicateComponentType type))
    | None =>
        match forEachSubsequenceIndex typesP (λ index,
                w0 ← getWorld;
                ib ← liftResult (from_option Ok (Throw TypeError) (indexes w0 !! index));
                ecs ← liftResult (gather (components w0) e (types ib));
                withIndex index (λ ib, Ok ((), add e ecs ib))) w3 with
        | (w4, Ok _) => (w4, Ok e)
        | (w4, Throw err) => (w4, Throw err)
        end
    end.
Proof.
  intros e w2 w3 typesP. unfold create. unfold_monad.
  unfold bind at 1 2 3 4, getWorld at 1, modify at 1 2.
  rewrite forEach_modify. fold e.
  change (entities (setEntitySequence (e + 1) w)) with (entities w).
  fold w2. fold w3. fold typesP.
  destruct (adjacentDuplicate None typesP); [done|].
  unfold ret at 1. unfold bind at 1. unfold bind at 1.
  by destruct (forEachSubsequenceIndex _ _ _) as [? []].
Qed.

Lemma subseteq_found (p q : list string) (t : Trie string nat) i :
  StronglySorted strLt p → NoDup q → getInTrie t p = Some i → p ⊆ q →
  i ∈ foreachSubsequenceInTrie t (jsSort compareStrings q).
Proof.
  intros Hp Hq Hget Hpq. apply elem_of_foreachSubsequenceInTrie.
  exists p. split; [|done]. apply strict_subseteq_sublist; [done| |].
  - apply sorted_NoDup_strict; [apply (jsSort_sorted id)|by rewrite jsSort_perm].
  - intros x Hx. rewrite jsSort_perm. by apply Hpq.
Qed.

(** [create] with components of different classes: it returns the entity
    sequence, the entity is alive and holds the components, and it is in
    every index whose types are among theirs. *)
Lemma create_total cs w :
  indexInv w → NoDup (ctor <$> cs) →
  let e := entitySequence w in
  ∃ w', create cs w = (w', Ok e) ∧
    entitySequence w' = e + 1 ∧ entities w' = setAdd e (entities w) ∧
    indexesByComponent w' = indexesByComponent w ∧
    indexByComponents w' = indexByComponents w ∧
    types <$> indexes w' = types <$> indexes w ∧
    (∀ type, is_Some (tsGet (components w) type) → is_Some (tsGet (components w') type)) ∧
    (∀ e' type, e' ≠ e → get e' type w' = get e' type w) ∧
    (∀ type, type ∉ ctor <$> cs → get e type w' = get e type w) ∧
    (∀ c, c ∈ cs → get e (ctor c) w' = Some c) ∧
    (∀ j e', e' ≠ e → inIndex e' j w' = inIndex e' j w) ∧
    (∀ j ib, indexes w !! j = Some ib → types ib ⊆ ctor <$> cs → inIndex e j w' = true) ∧
    (∀ j ib, indexes w !! j = Some ib → ¬ types ib ⊆ ctor <$> cs →
       inIndex e j w' = inIndex e j w).
Proof.
  intros (Hinv & Hnd & Hsound & Hcomplete & Hstored & Hix) Hcs e.
  rewrite create_unfold. fold e.
  set (w2 := setEntities (setAdd e (entities w)) (setEntitySequence (e + 1) w)).
  set (w3 := foldl (λ w c, setComponents (tsUpdate (<[e := c]>) (ctor c) (components w)) w)
               w2 cs).
  set (q := jsSort compareStrings (ctor <$> cs)).
  rewrite adjacentDuplicate_NoDup; [|unfold q; by rewrite jsSort_perm|done].
  destruct (stores_frame e cs w2) as (Hseq3 & Hents3 & Hibc3 & Htrie3 & Hit3 & Hixs3).
  destruct (get_stores e cs w2) as (Hother3 & Hout3 & _ & Hin3).
  fold w3 in Hseq3, Hents3, Hibc3, Htrie3, Hit3, Hixs3, Hother3, Hout3, Hin3.
  assert (Hkept3 : ∀ type, is_Some (tsGet (components w) type) ∨ type ∈ ctor <$> cs →
            is_Some (tsGet (components w3) type)).
  { intros type Hty. by apply (stored_types e cs w2 type). }
  set (body := λ index : nat,
    w0 ← getWorld;
    ib ← liftResult (from_option Ok (Throw TypeError) (indexes w0 !! index));
    ecs ← liftResult (gather (components w0) e (types ib));
    withIndex index (λ ib, Ok ((), add e ecs ib))).
  set (J := λ (seen : list nat) (w' : World),
         onlyIndexes w3 (setSubIt (indexByComponentsSubIt w3) w') ∧
         ∀ j e', inIndex e' j w' = if decide (j ∈ seen ∧ e' = e) then true else inIndex e' j w).
  destruct (forEachSubsequenceIndex_spec J body q w3) as (w4 & Hloop & Hw4 & Hmem).
  { split; [done|]. intros j e'. rewrite decide_False.
    - unfold inIndex. by rewrite Hixs3.
    - intros [Hj _]. by apply elem_of_nil in Hj. }
  { by intros it seen w' [? ?]. }
  { intros i seen w' Hi [Hw' Hmem].
    apply elem_of_foreachSubsequenceInTrie in Hi as (p & Hp & Hget).
    rewrite Htrie3 in Hget.
    destruct Hinv as (_ & _ & _ & _ & _ & Hvalid).
    destruct (Hvalid p i Hget) as (ib0 & Hib0 & Hty0).
    pose proof Hw' as (_ & _ & Hcs' & _ & _ & _ & Htys). simpl in Htys, Hcs'.
    rewrite Hixs3 in Htys. simpl in Htys.
    pose proof (types_lookup w w' i Htys) as Hi'. rewrite Hib0 in Hi'.
    destruct (indexes w' !! i) as [ib'|] eqn:Hib'; [|done].
    simpl in Hi'. injection Hi' as Hty'.
    destruct (create_round e i w' ib' Hib') as (w'' & Hround & Hw'' & Hmem'').
    { intros type Htype. rewrite Hcs'. apply Hkept3. right.
      rewrite Hty', Hty0 in Htype. apply (sublist_subseteq _ _ Hp) in Htype.
      unfold q in Htype. by rewrite jsSort_perm in Htype. }
    exists w''. split; [exact Hround|]. split; [|by destruct Hw'' as (_ & _ & _ & _ & _ & ? & _)].
    split.
    - destruct Hw' as (? & ? & ? & ? & ? & ? & ?), Hw'' as (? & ? & ? & ? & ? & ? & ?).
      simpl in *. split_and!; simpl; congruence.
    - intros j e'. rewrite Hmem'', Hmem.
      destruct (decide (j = i ∧ e' = e)) as [[-> ->]|Hne].
      + rewrite decide_True; [done|]. split; [|done]. apply elem_of_app. right. left.
      + apply decide_ext. rewrite elem_of_app, list_elem_of_singleton. tauto. }
  fold body. rewrite Hloop. exists w4. split; [done|].
  destruct Hw4 as (Hseq & Hents & Hcs4 & Hibc & Htrie & _ & Htys). simpl in *.
  assert (Hget4 : ∀ e' type, get e' type w4 = get e' type w3).
  { intros e' type. by apply get_components. }
  split_and!.
  - by rewrite Hseq, Hseq3.
  - by rewrite Hents, Hents3.
  - by rewrite Hibc, Hibc3.
  - by rewrite Htrie, Htrie3.
  - by rewrite Htys, Hixs3.
  - intros type Hty. rewrite Hcs4. apply Hkept3. by left.
  - intros e' type Hne. by rewrite Hget4, Hother3.
  - intros type Hty. by rewrite Hget4, Hout3.
  - intros c Hc. rewrite Hget4. by apply Hin3.
  - intros j e' Hne. rewrite Hmem, decide_False; [done|]. by intros [_ ?].
  - intros j ib Hib Hsub. rewrite Hmem, decide_True; [done|]. split; [|done].
    rewrite Htrie3. destruct Hinv as (_ & _ & _ & _ & Hreg & _).
    destruct (Hreg j ib Hib) as [Hget Hsorted].
    by apply (subseteq_found (types ib)).
  - intros j ib Hib Hsub. rewrite Hmem, decide_False; [done|]. intros [Hj _].
    apply elem_of_foreachSubsequenceInTrie in Hj as (p & Hp & Hget).
    rewrite Htrie3 in Hget.
    destruct Hinv as (_ & _ & _ & _ & _ & Hvalid).
    destruct (Hvalid p j Hget) as (ib0 & Hib0 & Hty0).
    apply Hsub. replace ib with ib0 by congruence. rewrite Hty0.
    intros x Hx. apply (sublist_subseteq _ _ Hp) in Hx. unfold q in Hx.
    by rewrite jsSort_perm in Hx.
Qed.

(** The test of [create] and [index] for equal neighbours finds a type
    that occurs twice. *)
Lemma adjacentDuplicate_Some : ∀ (l : list string) prev t,
  adjacentDuplicate prev l = Some t →
  (prev = Some t ∧ head l = Some t) ∨ ∃ l1 l2, l = l1 ++ t :: t :: l2.
Proof.
  induction l as [|x l IH]; intros prev t; simpl; [done|].
  case_decide as Heq.
  - intros [= <-]. left. done.
  - intros [[[= ->] Hhead]|(l1 & l2 & ->)]%IH.
    + right. destruct l as [|y l]; [done|]. simpl in Hhead. injection Hhead as ->.
      by exists [], l.
    + right. by exists (x :: l1), l2.
Qed.

Lemma duplicate_found (l : list string) :
  ¬ NoDup l →
  ∃ t, adjacentDuplicate None (jsSort compareStrings l) = Some t ∧
       (2 ≤ length (filter (λ x, x = t) l))%nat.
Proof.
  intros Hdup.
  destruct (adjacentDuplicate None (jsSort compareStrings l)) as [t|] eqn:Hadj.
  - exists t. split; [done|].
    apply adjacentDuplicate_Some in Hadj as [[? _]|(l1 & l2 & Hl)]; [done|].
    rewrite <-(jsSort_perm compareStrings l), Hl.
    rewrite filter_app, !filter_cons_True by done. rewrite length_app. simpl. lia.
  - destruct Hdup. rewrite <-(jsSort_perm compareStrings l). apply strict_NoDup.
    eapply sorted_adjacent_strict; [|exact Hadj]. apply (jsSort_sorted id).
Qed.

Lemma no_duplicate_NoDup (l : list string) :
  adjacentDuplicate None (jsSort compareStrings l) = None → NoDup l.
Proof.
  intros Hadj. destruct (decide (NoDup l)) as [|Hdup]; [done|].
  destruct (duplicate_found l Hdup) as (t & Ht & _). congruence.
Qed.

Lemma create_indexInv cs w : indexInv w → indexInv (create cs w).1.
Proof.
  intros Hinv. pose proof (create_inv cs w (proj1 Hinv)) as Hworld.
  set (e := entitySequence w).
  assert (Hframe : ∀ w',
    entities w' = setAdd e (entities w) →
    indexesByComponent w' = indexesByComponent w →
    types <$> indexes w' = types <$> indexes w →
    (∀ type, is_Some (tsGet (components w) type) → is_Some (tsGet (components w') type)) →
    (∀ e' type, has e' type w = true → has e' type w' = true) →
    (∀ j e', inIndex e' j w' = true →
       inIndex e' j w = true ∨
       (e' = e ∧ ∃ ib, indexes w !! j = Some ib ∧ ∀ type, type ∈ types ib → has e type w' = true)) →
    worldInv w' → indexInv w').
  { intros w' Hents Hibc Htys Hkept Hmono Hmem Hworld'.
    destruct Hinv as (Hinv & Hnd & Hsound & Hcomplete & Hstored & Hix).
    destruct (shape_frame w w') as (? & ? & ?); [done..|].
    split_and!; try done; [rewrite Hents; by apply NoDup_setAdd|].
    intros j e' Hin. rewrite Hents, elem_of_setAdd.
    destruct (Hmem j e' Hin) as [Hold|(-> & ib & Hib & Hall)].
    - destruct (Hix j e' Hold) as [? Hall]. split; [by right|].
      eapply holdsAll_mono; [done| |done]. intros type. apply Hmono.
    - split; [by left|].
      destruct (lookup_types w' w j ib) as (ib' & Hib' & Htys'); [done|done|].
      apply (holdsAll_types e j w' ib' Hib'). intros type Hty. apply Hall. by rewrite <-Htys'. }
  rewrite create_unfold in Hworld |- *. fold e in Hworld |- *.
  set (w2 := setEntities (setAdd e (entities w)) (setEntitySequence (e + 1) w)) in *.
  set (w3 := foldl (λ w c, setComponents (tsUpdate (<[e := c]>) (ctor c) (components w)) w)
               w2 cs) in *.
  destruct (adjacentDuplicate None (jsSort compareStrings (ctor <$> cs))) as [t|] eqn:Hadj.
  - simpl in *. destruct (stores_frame e cs w2) as (Hseq3 & Hents3 & Hibc3 & Htrie3 & Hit3 & Hixs3).
    destruct (get_stores e cs w2) as (Hother3 & Hout3 & Hin3 & _).
    fold w3 in Hseq3, Hents3, Hibc3, Htrie3, Hit3, Hixs3, Hother3, Hout3, Hin3.
    apply Hframe; try done.
    + by rewrite Hixs3.
    + intros type Hty. apply (stored_types e cs w2 type). by left.
    + intros e' type [c Hc]%has_get. apply has_get.
      destruct (decide (e' = e)) as [->|Hne]; [|rewrite Hother3 by done; by exists c].
      destruct (decide (type ∈ ctor <$> cs)) as [Hty|Hty].
      * destruct (Hin3 type Hty) as (c' & _ & _ & Hget). by exists c'.
      * rewrite Hout3 by done. by exists c.
    + intros j e' Hin. left. unfold inIndex in *. by rewrite Hixs3 in Hin.
  - apply no_duplicate_NoDup in Hadj as Hnd.
    destruct (create_total cs w Hinv Hnd)
      as (w' & Hcreate & Hseq & Hents & Hibc & Htrie & Htys & Hkept & Hother & Hout & Hin
          & Hmem & Hon & Hoff).
    fold e in Hseq, Hents, Hother, Hout, Hin, Hmem, Hon, Hoff.
    rewrite create_unfold in Hcreate. fold e w2 w3 in Hcreate. rewrite Hadj in Hcreate.
    rewrite Hcreate in Hworld |- *. simpl in *.
    apply Hframe; try done.
    + intros e' type [c Hc]%has_get. apply has_get.
      destruct (decide (e' = e)) as [->|Hne]; [|rewrite Hother by done; by exists c].
      destruct (decide (type ∈ ctor <$> cs)) as [Hty|Hty].
      * apply list_elem_of_fmap in Hty as (c' & -> & Hc'). exists c'. by apply Hin.
      * rewrite Hout by done. by exists c.
    + intros j e' Hin'. destruct (decide (e' = e)) as [->|Hne].
      2:{ left. by rewrite <-(Hmem j e' Hne). }
      destruct (inIndex_types e j w w' Htys Hin') as [ib Hib].
      destruct (decide (types ib ⊆ ctor <$> cs)) as [Hsub|Hsub].
      * right. split; [done|]. exists ib. split; [done|]. intros type Hty.
        apply Hsub in Hty. apply list_elem_of_fmap in Hty as (c' & -> & Hc').
        apply has_get. exists c'. by apply Hin.
      * left. by rewrite <-(Hoff j ib Hib Hsub).
Qed.

(** [index], step by step. *)
Lemma index_unfold spec w :
  let w1 := foldl (λ w (s : string * string),
                     setComponents (tsUpdate id s.2 (components w)) w) w spec in
  let specs := jsSort (λ a b, compareStrings a.2 b.2) spec in
  let names := fst <$> specs in
  let tys := snd <$> specs in
  index spec w =
    match adjacentDuplicate None tys with
    | Some t => (w1, Throw (DuplicateComponentType t))
    | None =>
        match getInTrie (indexByComponents w1) tys with
        | Some i => newIndexIterator i names w1
        | None =>
            let n := length (indexes w1) in
            let w2 := setIndexByComponents (setInTrie (indexByComponents w1) tys n)
                        (setIndexes (indexes w1 ++ [IndexDefs.new tys]) w1) in
            let w3 := foldl (λ w c, setIndexesByComponent
                                      (<[c := default [] (indexesByComponent w !! c) ++ [n]]>
                                         (indexesByComponent w)) w) w2 tys in
            match forEach (entities w1) (λ entity,
                    w ← getWorld;
                    ecs ← liftResult (gatherPresent (components w) entity tys);
                    match ecs with
                    | None => mret ()
                    | Some ecs => withIndex n (λ ib, Ok ((), add entity ecs ib))
                    end) w3 with
            | (w4, Ok _) => newIndexIterator n names w4
            | (w4, Throw err) => (w4, Throw err)
            end
        end
    end.
Proof.
  intros w1 specs names tys. unfold index. unfold_monad.
  unfold bind at 1. rewrite forEach_modify. fold w1. fold specs. fold names. fold tys.
  destruct (adjacentDuplicate None tys); [done|].
  unfold bind at 1, getWorld at 1.
  destruct (getInTrie (indexByComponents w1) tys); [done|].
  unfold bind at 1, modify at 1. unfold bind at 1, modify at 1.
  unfold bind at 1. rewrite forEach_modify. unfold bind at 1.
  cbv zeta. by destruct (forEach _ _ _) as [? []].
Qed.

Lemma register_frame : ∀ (spec : list (string * string)) w,
  let w1 := foldl (λ w (s : string * string),
                     setComponents (tsUpdate id s.2 (components w)) w) w spec in
  entitySequence w1 = entitySequence w ∧ entities w1 = entities w ∧
  indexesByComponent w1 = indexesByComponent w ∧ indexByComponents w1 = indexByComponents w ∧
  indexByComponentsSubIt w1 = indexByComponentsSubIt w ∧ indexes w1 = indexes w ∧
  (∀ e type, get e type w1 = get e type w) ∧
  (∀ type, is_Some (tsGet (components w1) type) ↔
           is_Some (tsGet (components w) type) ∨ type ∈ snd <$> spec).
Proof.
  induction spec as [|s spec IH]; intros w; simpl.
  - split_and!; try done. intros type. rewrite elem_of_nil. tauto.
  - destruct (IH (setComponents (tsUpdate id s.2 (components w)) w))
      as (-> & -> & -> & -> & -> & -> & Hget & Hst).
    split_and!; try done.
    + intros e type. rewrite Hget, get_tsUpdate. case_decide as Heq; [|done].
      subst. unfold get. by destruct (tsGet (components w) s.2).
    + intros type. rewrite Hst. simpl. rewrite tsGet_tsUpdate, elem_of_cons.
      case_decide as Heq.
      * subst. split; [intros _; right; by left|intros _; left; by eexists].
      * split; [intros [?|?]; [by left|right; by right]|].
        intros [?|[?|?]]; [by left|by subst|by right].
Qed.

Lemma byComponent_fold n : ∀ (tys : list string) w,
  let w3 := foldl (λ w c, setIndexesByComponent
                            (<[c := default [] (indexesByComponent w !! c) ++ [n]]>
                               (indexesByComponent w)) w) w tys in
  entitySequence w3 = entitySequence w ∧ entities w3 = entities w ∧
  components w3 = components w ∧ indexByComponents w3 = indexByComponents w ∧
  indexByComponentsSubIt w3 = indexByComponentsSubIt w ∧ indexes w3 = indexes w ∧
  (NoDup tys → ∀ type, indexesByComponent w3 !! type =
     if decide (type ∈ tys) then Some (default [] (indexesByComponent w !! type) ++ [n])
     else indexesByComponent w !! type).
Proof.
  induction tys as [|c tys IH]; intros w; simpl.
  - by split_and!.
  - destruct (IH (setIndexesByComponent
                    (<[c := default [] (indexesByComponent w !! c) ++ [n]]>
                       (indexesByComponent w)) w))
      as (-> & -> & -> & -> & -> & -> & Hibc).
    split_and!; try done.
    intros [Hc Hnd]%NoDup_cons type. rewrite (Hibc Hnd). simpl.
    destruct (decide (type = c)) as [->|Hne].
    + rewrite decide_False by done. rewrite decide_True by left. by rewrite lookup_insert_eq.
    + rewrite lookup_insert_ne by done. apply decide_ext. rewrite elem_of_cons. tauto.
Qed.

(** One round of the loop of [index] over the entities. *)
Lemma seed_round e (tys : list string) n w ib :
  indexes w !! n = Some ib → types ib = tys →
  (∀ type, type ∈ tys → is_Some (tsGet (components w) type)) →
  ∃ w',
    (w0 ← getWorld;
     ecs ← liftResult (gatherPresent (components w0) e tys);
     match ecs with
     | None => mret ()
     | Some ecs => withIndex n (λ ib, Ok ((), add e ecs ib))
     end) w = (w', Ok ()) ∧
    onlyIndexes w w' ∧
    ∀ j e', inIndex e' j w' =
      if decide (j = n ∧ e' = e) then inIndex e n w || holdsAll e n w else inIndex e' j w.
Proof.
  intros Hi Hty Hst. unfold_monad. unfold bind, getWorld, liftResult.
  destruct (holdsAll_gatherPresent e n w ib Hi) as (r & Hr & Hall).
  { intros type. rewrite Hty. apply Hst. }
  rewrite Hty in Hr. rewrite Hr. destruct r as [ecs|].
  - rewrite (withIndex_ok n _ w ib () (add e ecs ib) Hi eq_refl).
    eexists. split; [done|]. split.
    { apply (onlyIndexes_upd n ib); [done|apply types_add]. }
    intros j e'. rewrite inIndex_updIndex. rewrite <-Hall.
    rewrite (bool_decide_eq_true_2 (is_Some (Some ecs))) by by eexists.
    rewrite orb_true_r. case_decide as Hij.
    + destruct Hij as [<- _]. case_decide as He.
      * destruct He as [_ ->]. apply bool_decide_eq_true, is_member_add. by left.
      * unfold inIndex. rewrite Hi. apply bool_decide_ext. rewrite is_member_add.
        split; [|by right]. intros [->|]; [|done]. by destruct He.
    + rewrite decide_False; [done|]. intros [-> _]. apply Hij. split; [done|].
      by eapply lookup_lt_Some.
  - exists w. split; [done|]. split; [apply onlyIndexes_refl|].
    intros j e'. case_decide as Hje; [|done]. destruct Hje as [-> ->].
    rewrite <-Hall. rewrite (bool_decide_eq_false_2 (is_Some None)) by by intros [].
    by rewrite orb_false_r.
Qed.

Lemma newIndexIterator_total i names w ib :
  indexes w !! i = Some ib →
  ∃ w', newIndexIterator i names w = (w', Ok (i, (newIndexIteratorBase ib names).1)) ∧
    onlyIndexes w w' ∧ ∀ j e', inIndex e' j w' = inIndex e' j w.
Proof.
  intros Hi. unfold newIndexIterator. unfold_monad. unfold bind.
  rewrite (withIndex_ok i _ w ib _ _ Hi (f_equal Ok (surjective_pairing _))).
  eexists. split; [done|]. split.
  - by apply (onlyIndexes_upd i ib).
  - intros j e'. rewrite inIndex_updIndex. case_decide as Hij; [|done].
    destruct Hij as [<- _]. unfold inIndex. by rewrite Hi.
Qed.

Lemma sorted_spec_types (spec : list (string * string)) :
  NoDup (snd <$> spec) →
  let tys := snd <$> jsSort (λ a b, compareStrings a.2 b.2) spec in
  tys ≡ₚ snd <$> spec ∧ adjacentDuplicate None tys = None ∧ StronglySorted strLt tys.
Proof.
  intros Hnd tys.
  assert (Hperm : tys ≡ₚ snd <$> spec).
  { unfold tys. by rewrite jsSort_perm. }
  assert (Hadj : adjacentDuplicate None tys = None).
  { apply adjacentDuplicate_NoDup; [by rewrite Hperm|done]. }
  split; [done|]. split; [done|].
  eapply sorted_adjacent_strict; [|exact Hadj].
  apply sorted_fmap_snd. apply (jsSort_sorted snd).
Qed.

Lemma holdsAll_lookup e i w ib :
  indexes w !! i = Some ib → holdsAll e i w = forallb (λ type, has e type w) (types ib).
Proof. intros Hi. unfold holdsAll. by rewrite Hi. Qed.

Lemma forallb_has e w w' (tys : list string) :
  (∀ type, get e type w' = get e type w) →
  forallb (λ type, has e type w') tys = forallb (λ type, has e type w) tys.
Proof.
  intros Hget. apply eq_true_iff_eq. rewrite !forallb_forall.
  split; intros Hall type Hin.
  - rewrite <-(has_get_eq e type w' e type w (Hget type)). by apply Hall.
  - rewrite (has_get_eq e type w' e type w (Hget type)). by apply Hall.
Qed.

(** [index] on a set of types that has no index yet. *)
Lemma index_fresh spec w :
  indexInv w → NoDup (snd <$> spec) →
  let specs := jsSort (λ a b, compareStrings a.2 b.2) spec in
  let tys := snd <$> specs in
  let n := length (indexes w) in
  getInTrie (indexByComponents w) tys = None →
  ∃ w' ib it, index spec w = (w', Ok (n, it)) ∧ names it = fst <$> specs ∧
    indexes w' !! n = Some ib ∧ types ib = tys ∧
    entitySequence w' = entitySequence w ∧ entities w' = entities w ∧
    (∀ e type, get e type w' = get e type w) ∧
    (∀ type, is_Some (tsGet (components w') type) ↔
             is_Some (tsGet (components w) type) ∨ type ∈ tys) ∧
    types <$> indexes w' = (types <$> indexes w) ++ [tys] ∧
    (∀ j e, (j < n)%nat → inIndex e j w' = inIndex e j w) ∧
    (∀ e, inIndex e n w' =
            bool_decide (e ∈ entities w) && forallb (λ type, has e type w) tys) ∧
    (∀ type, indexesByComponent w' !! type =
       if decide (type ∈ tys) then Some (default [] (indexesByComponent w !! type) ++ [n])
       else indexesByComponent w !! type) ∧
    indexByComponents w' = setInTrie (indexByComponents w) tys n.
Proof.
  intros (Hinv & Hnd & Hsound & Hcomplete & Hstored & Hix) Hspec specs tys n Hnone.
  destruct (sorted_spec_types spec Hspec) as (Hperm & Hadj & Hsorted).
  fold specs tys in Hperm, Hadj, Hsorted.
  rewrite index_unfold. cbv zeta. fold specs tys. rewrite Hadj.
  destruct (register_frame spec w) as (Hseq1 & Hents1 & Hibc1 & Htrie1 & Hit1 & Hixs1 & Hget1 & Hst1).
  set (w1 := foldl _ w spec) in *.
  rewrite Htrie1, Hnone, Hixs1, Hents1. fold n.
  set (w2 := setIndexByComponents (setInTrie (indexByComponents w) tys n)
               (setIndexes (indexes w ++ [IndexDefs.new tys]) w1)).
  destruct (byComponent_fold n tys w2) as (Hseq3 & Hents3 & Hcs3 & Htrie3 & Hit3 & Hixs3 & Hibc3).
  set (w3 := foldl _ w2 tys) in *.
  assert (Hnew3 : indexes w3 !! n = Some (IndexDefs.new tys)).
  { rewrite Hixs3. simpl. by rewrite lookup_app_r, Nat.sub_diag. }
  assert (Hold3 : ∀ j e, (j < n)%nat → inIndex e j w3 = inIndex e j w).
  { intros j e Hj. unfold inIndex. rewrite Hixs3. simpl. by rewrite lookup_app_l. }
  assert (Hst3 : ∀ type, type ∈ tys → is_Some (tsGet (components w3) type)).
  { intros type Hty. rewrite Hcs3. simpl. apply Hst1. right. by rewrite <-Hperm. }
  assert (Hall3 : ∀ e, holdsAll e n w3 = forallb (λ type, has e type w) tys).
  { intros e. rewrite (holdsAll_lookup e n w3 _ Hnew3). simpl.
    apply forallb_has. intros type. rewrite <-Hget1. apply get_components. by rewrite Hcs3. }
  set (body := λ entity : Z,
    w0 ← getWorld;
    ecs ← liftResult (gatherPresent (components w0) entity tys);
    match ecs with
    | None => mret ()
    | Some ecs => withIndex n (λ ib, Ok ((), add entity ecs ib))
    end).
  set (J := λ (seen : list Z) (w' : World),
         onlyIndexes w3 w' ∧
         ∀ j e, inIndex e j w' =
           if decide (j = n ∧ e ∈ seen) then holdsAll e n w3 else inIndex e j w3).
  destruct (forEach_spec J body (entities w) [] w3) as (w4 & Hloop & Hw4 & Hmem4).
  { split; [apply onlyIndexes_refl|]. intros j e. rewrite decide_False; [done|].
    intros [_ He]. by apply elem_of_nil in He. }
  { intros e seen w' He [Hw' Hmem].
    pose proof Hw' as (_ & _ & Hcs' & _ & _ & _ & Htys').
    pose proof (types_lookup w3 w' n Htys') as Hn'. rewrite Hnew3 in Hn'.
    destruct (indexes w' !! n) as [ib'|] eqn:Hib'; [|done]. simpl in Hn'. injection Hn' as Hty'.
    destruct (seed_round e tys n w' ib' Hib' Hty') as (w'' & Hround & Hw'' & Hmem'').
    { intros type Hty. rewrite Hcs'. by apply Hst3. }
    exists w''. split; [exact Hround|]. split; [by eapply onlyIndexes_trans|].
    intros j e'. rewrite Hmem'', !Hmem, (holdsAll_onlyIndexes e n w3 w' Hw').
    assert (Hempty : inIndex e n w3 = false).
    { unfold inIndex. rewrite Hnew3. simpl. apply bool_decide_eq_false.
      rewrite lookup_empty. by intros []. }
    destruct (decide (j = n ∧ e' = e)) as [[-> ->]|Hne].
    - rewrite (decide_True (P := n = n ∧ e ∈ seen ++ [e]));
        [|split; [done|apply elem_of_app; right; left]].
      case_decide; [by destruct (holdsAll e n w3)|]. by rewrite Hempty.
    - apply decide_ext. rewrite elem_of_app, list_elem_of_singleton. tauto. }
  fold body. rewrite Hloop. simpl in Hmem4.
  pose proof Hw4 as (Hseq4 & Hents4 & Hcs4 & Hibc4 & Htrie4 & Hit4 & Htys4).
  pose proof (types_lookup w3 w4 n Htys4) as Hn4. rewrite Hnew3 in Hn4.
  destruct (indexes w4 !! n) as [ib4|] eqn:Hib4; [|done]. simpl in Hn4. injection Hn4 as Hty4.
  destruct (newIndexIterator_total n (fst <$> specs) w4 ib4 Hib4) as (w5 & Hnew & Hw5 & Hmem5).
  rewrite Hnew.
  pose proof Hw5 as (Hseq5 & Hents5 & Hcs5 & Hibc5 & Htrie5 & Hit5 & Htys5).
  pose proof (types_lookup w4 w5 n Htys5) as Hn5. rewrite Hib4 in Hn5.
  destruct (indexes w5 !! n) as [ib5|] eqn:Hib5; [|done]. simpl in Hn5. injection Hn5 as Hty5.
  exists w5, ib5, (newIndexIteratorBase ib4 (fst <$> specs)).1.
  split; [done|]. split; [done|]. split; [done|]. split; [by rewrite Hty5, Hty4|].
  split; [by rewrite Hseq5, Hseq4, Hseq3|]. split; [by rewrite Hents5, Hents4, Hents3|].
  assert (Hget5 : ∀ e type, get e type w5 = get e type w).
  { intros e type. rewrite <-Hget1. apply get_components. by rewrite Hcs5, Hcs4, Hcs3. }
  split; [done|]. split.
  { intros type. rewrite Hcs5, Hcs4, Hcs3. simpl. rewrite Hst1. by rewrite Hperm. }
  split.
  { rewrite Htys5, Htys4, Hixs3. simpl. by rewrite fmap_app. }
  split.
  { intros j e Hj. rewrite Hmem5, Hmem4, decide_False by lia. by apply Hold3. }
  split.
  { intros e. rewrite Hmem5, Hmem4. case_decide as He.
    - destruct He as [_ He]. rewrite Hall3. by rewrite bool_decide_eq_true_2.
    - rewrite bool_decide_eq_false_2 by (intros ?; by apply He).
      unfold inIndex. rewrite Hnew3. simpl. apply bool_decide_eq_false.
      rewrite lookup_empty. by intros []. }
  split.
  { intros type. rewrite Hibc5, Hibc4, Hibc3 by by apply strict_NoDup. simpl. by rewrite Hibc1. }
  by rewrite Htrie5, Htrie4, Htrie3.
Qed.

(** [index] on a set of types that has an index. *)
Lemma index_existing spec w i :
  indexInv w → NoDup (snd <$> spec) →
  let specs := jsSort (λ a b, compareStrings a.2 b.2) spec in
  let tys := snd <$> specs in
  getInTrie (indexByComponents w) tys = Some i →
  ∃ w' ib, index spec w = (w', Ok (i, (newIndexIteratorBase ib (fst <$> specs)).1)) ∧
    indexes w !! i = Some ib ∧ types ib = tys ∧
    entitySequence w' = entitySequence w ∧ entities w' = entities w ∧
    (∀ e type, get e type w' = get e type w) ∧
    (∀ type, is_Some (tsGet (components w') type) ↔
             is_Some (tsGet (components w) type) ∨ type ∈ tys) ∧
    indexesByComponent w' = indexesByComponent w ∧
    indexByComponents w' = indexByComponents w ∧
    types <$> indexes w' = types <$> indexes w ∧
    (∀ j e, inIndex e j w' = inIndex e j w).
Proof.
  intros (Hinv & Hnd & Hsound & Hcomplete & Hstored & Hix) Hspec specs tys Hsome.
  destruct (sorted_spec_types spec Hspec) as (Hperm & Hadj & Hsorted).
  fold specs tys in Hperm, Hadj, Hsorted.
  rewrite index_unfold. cbv zeta. fold specs tys. rewrite Hadj.
  destruct (register_frame spec w) as (Hseq1 & Hents1 & Hibc1 & Htrie1 & Hit1 & Hixs1 & Hget1 & Hst1).
  set (w1 := foldl _ w spec) in *.
  rewrite Htrie1, Hsome.
  destruct Hinv as (_ & _ & _ & _ & _ & Hvalid).
  destruct (Hvalid tys i Hsome) as (ib & Hib & Hty).
  destruct (newIndexIterator_total i (fst <$> specs) w1 ib) as (w' & Hnew & Hw' & Hmem).
  { by rewrite Hixs1. }
  pose proof Hw' as (Hseq & Hents & Hcs & Hibc & Htrie & Hit & Htys).
  exists w', ib. split; [exact Hnew|]. split; [done|]. split; [done|].
  split; [by rewrite Hseq|]. split; [by rewrite Hents|].
  split. { intros e type. rewrite <-Hget1. by apply get_components. }
  split. { intros type. rewrite Hcs, Hst1. by rewrite Hperm. }
  split; [by rewrite Hibc|]. split; [by rewrite Htrie|].
  split; [by rewrite Htys, Hixs1|].
  intros j e. rewrite Hmem. unfold inIndex. by rewrite Hixs1.
Qed.

Lemma indexInv_frame w w' :
  indexInv w → worldInv w' → entities w' = entities w →
  indexesByComponent w' = indexesByComponent w →
  types <$> indexes w' = types <$> indexes w →
  (∀ type, is_Some (tsGet (components w) type) → is_Some (tsGet (components w') type)) →
  (∀ e type, get e type w' = get e type w) →
  (∀ j e, inIndex e j w' = inIndex e j w) →
  indexInv w'.
Proof.
  intros (Hinv & Hnd & Hsound & Hcomplete & Hstored & Hix) Hworld Hents Hibc Htys Hkept Hget Hmem.
  destruct (shape_frame w w') as (? & ? & ?); [done..|].
  split_and!; try done; [by rewrite Hents|].
  intros j e. rewrite Hmem, Hents. intros Hin. destruct (Hix j e Hin) as [? Hall].
  split; [done|]. rewrite <-Hall. apply holdsAll_same; [done|].
  intros type. by apply has_get_eq.
Qed.

Lemma index_indexInv spec w : indexInv w → indexInv (index spec w).1.
Proof.
  intros Hinv. pose proof (index_inv spec w (proj1 Hinv)) as Hworld.
  set (specs := jsSort (λ a b, compareStrings a.2 b.2) spec).
  set (tys := snd <$> specs).
  destruct (adjacentDuplicate None tys) as [t|] eqn:Hadj.
  - rewrite index_unfold in Hworld |- *. cbv zeta in Hworld |- *.
    fold specs tys in Hworld |- *. rewrite Hadj in Hworld |- *. simpl in *.
    destruct (register_frame spec w)
      as (Hseq1 & Hents1 & Hibc1 & Htrie1 & Hit1 & Hixs1 & Hget1 & Hst1).
    apply (indexInv_frame w); try done.
    + by rewrite Hixs1.
    + intros type Hty. apply Hst1. by left.
    + intros j e. unfold inIndex. by rewrite Hixs1.
  - assert (Hspec : NoDup (snd <$> spec)).
    { apply no_duplicate_NoDup. unfold tys, specs in Hadj.
      destruct (adjacentDuplicate None (jsSort compareStrings (snd <$> spec))) as [t|] eqn:Hdup;
        [|done].
      exfalso. apply adjacentDuplicate_Some in Hdup as [[? _]|(l1 & l2 & Hl)]; [done|].
      assert (Hnd : NoDup (snd <$> jsSort (λ a b, compareStrings a.2 b.2) spec)).
      { apply strict_NoDup. eapply sorted_adjacent_strict; [|exact Hadj].
        apply sorted_fmap_snd. apply (jsSort_sorted snd). }
      rewrite jsSort_perm in Hnd. rewrite <-(jsSort_perm compareStrings) in Hnd.
      rewrite Hl in Hnd. apply NoDup_app in Hnd as (_ & _ & Hnd).
      apply NoDup_cons in Hnd as [Hnd _]. apply Hnd. left. }
    destruct (getInTrie (indexByComponents w) tys) as [i|] eqn:Hget.
    + destruct (index_existing spec w i Hinv Hspec Hget)
        as (w' & ib & Hindex & Hib & Hty & Hseq & Hents & Hgets & Hst & Hibc & Htrie & Htys & Hmem).
      rewrite Hindex in Hworld |- *. simpl in *.
      apply (indexInv_frame w); try done. intros type Hty'. apply Hst. by left.
    + destruct (index_fresh spec w Hinv Hspec Hget)
        as (w' & ib & it & Hindex & Hnames & Hib & Hty & Hseq & Hents & Hgets & Hst & Htys
            & Hold & Hnew & Hibc & Htrie).
      rewrite Hindex in Hworld |- *. simpl in *. fold specs tys in Hst, Htys, Hnew, Hibc, Hty.
      destruct Hinv as (Hinv & Hnd & Hsound & Hcomplete & Hstored & Hix).
      set (n := length (indexes w)) in *.
      assert (Hlook : ∀ j ib', indexes w' !! j = Some ib' →
                ((j < n)%nat ∧ ∃ ib0, indexes w !! j = Some ib0 ∧ types ib0 = types ib') ∨
                (j = n ∧ types ib' = tys)).
      { intros j ib' Hj. assert (Hj' : (types <$> indexes w') !! j = Some (types ib')).
        { by rewrite list_lookup_fmap, Hj. }
        rewrite Htys in Hj'. apply lookup_app_Some in Hj' as [Hj'|[Hlen Hj']].
        - left. rewrite list_lookup_fmap in Hj'.
          destruct (indexes w !! j) as [ib0|] eqn:Hib0; [|done].
          split; [by apply lookup_lt_Some in Hib0|]. exists ib0. split; [done|].
          simpl in Hj'. congruence.
        - right. rewrite length_fmap in Hlen, Hj'.
          apply list_lookup_singleton_Some in Hj' as [Hj' Heq]. split; [unfold n; lia|done]. }
      assert (Hup : ∀ j ib0, indexes w !! j = Some ib0 →
                ∃ ib', indexes w' !! j = Some ib' ∧ types ib' = types ib0).
      { intros j ib0 Hj. assert (Hj' : (types <$> indexes w') !! j = Some (types ib0)).
        { rewrite Htys. apply lookup_app_l_Some. by rewrite list_lookup_fmap, Hj. }
        rewrite list_lookup_fmap in Hj'. destruct (indexes w' !! j) as [ib'|]; [|done].
        exists ib'. split; [done|]. simpl in Hj'. congruence. }
      split_and!; try done.
      * by rewrite Hents.
      * intros type ixs j. rewrite Hibc. case_decide as Hty'.
        -- intros [= <-] [Hj|Hj%list_elem_of_singleton]%elem_of_app.
           ++ destruct (indexesByComponent w !! type) as [ixs0|] eqn:Hixs0;
                [|by apply elem_of_nil in Hj].
              destruct (Hsound type ixs0 j Hixs0 Hj) as (ib0 & Hib0 & Hin).
              destruct (Hup j ib0 Hib0) as (ib' & Hib' & Htys').
              exists ib'. split; [done|]. by rewrite Htys'.
           ++ subst j. exists ib. split; [done|]. by rewrite Hty.
        -- intros Hixs Hj. destruct (Hsound type ixs j Hixs Hj) as (ib0 & Hib0 & Hin).
           destruct (Hup j ib0 Hib0) as (ib' & Hib' & Htys').
           exists ib'. split; [done|]. by rewrite Htys'.
      * intros j ib' type Hj Hin. rewrite Hibc.
        destruct (Hlook j ib' Hj) as [[Hlt (ib0 & Hib0 & Htys0)]|[-> Htys0]].
        -- destruct (Hcomplete j ib0 type Hib0) as (ixs & Hixs & Hjin); [by rewrite Htys0|].
           rewrite Hixs. case_decide; (eexists; split; [done|]); [|done].
           apply elem_of_app. by left.
        -- rewrite Htys0 in Hin. rewrite decide_True by done. eexists. split; [done|].
           apply elem_of_app. right. left.
      * intros j ib' type Hj Hin. apply Hst.
        destruct (Hlook j ib' Hj) as [[Hlt (ib0 & Hib0 & Htys0)]|[-> Htys0]].
        -- left. apply (Hstored j ib0); [done|]. by rewrite Htys0.
        -- right. by rewrite <-Htys0.
      * intros j e Hin. rewrite Hents.
        assert (Hj : is_Some (indexes w' !! j)).
        { unfold inIndex in Hin. destruct (indexes w' !! j); [by eexists|done]. }
        destruct Hj as [ib' Hj].
        destruct (Hlook j ib' Hj) as [[Hlt (ib0 & Hib0 & Htys0)]|[-> Htys0]].
        -- rewrite (Hold j e Hlt) in Hin. destruct (Hix j e Hin) as [? Hall]. split; [done|].
           rewrite (holdsAll_lookup e j w ib0 Hib0) in Hall.
           rewrite (holdsAll_lookup e j w' ib' Hj), <-Htys0.
           rewrite <-Hall. apply forallb_has. intros type. apply Hgets.
        -- rewrite Hnew in Hin. apply andb_true_iff in Hin as [He%bool_decide_eq_true Hall].
           split; [done|]. rewrite (holdsAll_lookup e n w' ib' Hj), Htys0.
           rewrite <-Hall. apply forallb_has. intros type. apply Hgets.
Qed.

Lemma indexInv_new : indexInv new.
Proof.
  split_and!; try done.
  - apply worldInv_new.
  - constructor.
Qed.

Lemma indexInv_setEntitySequence x w :
  0 ≤ x → indexInv w → indexInv (setEntitySequence x w).
Proof.
  intros Hx (Hinv & ? & ? & ? & ? & ?). split_and!; try done.
  by apply worldInv_setEntitySequence.
Qed.

Lemma indexInv_setAdd e w : indexInv w → indexInv (setEntities (setAdd e (entities w)) w).
Proof.
  intros (Hinv & ? & ? & ? & ? & Hix). split_and!; try done.
  - by apply worldInv_setAdd.
  - by apply NoDup_setAdd.
  - intros j e' Hin. destruct (Hix j e' Hin) as [? ?]. split; [|done].
    simpl. apply elem_of_setAdd. by right.
Qed.

Lemma emplace_hoare e c : hoare indexInv (emplace e c) indexInv.
Proof. intros w. apply emplace_indexInv. Qed.

Lemma insert_indexInv e cs w : indexInv w → indexInv (insert e cs w).1.
Proof.
  revert w. change (hoare indexInv (insert e cs) indexInv).
  unfold insert. unfold_monad.
  apply hoare_getWorld. intros w0 Hinv0. destruct (Hinv0) as ((Hseq & _) & _).
  eapply hoare_bind with (R := indexInv); [| |done].
  { case_decide.
    - apply hoare_modify. intros w ->. apply indexInv_setEntitySequence; [lia|done].
    - eapply hoare_weaken; [apply hoare_ret|by intros ? ->|done]. }
  intros _. apply hoare_bind_inv.
  { apply hoare_modify. intros w Hw. by apply indexInv_setAdd. }
  intros _. apply hoare_bind_inv; [|intros _; apply hoare_ret].
  apply hoare_forEach. intros c _. apply emplace_hoare.
Qed.

Lemma registerSingleton_indexInv c w : indexInv w → indexInv (registerSingleton c w).1.
Proof.
  revert w. change (hoare indexInv (registerSingleton c) indexInv).
  unfold registerSingleton. unfold_monad.
  apply hoare_getWorld. intros w0 Hinv0.
  eapply hoare_weaken with (P' := indexInv); [|by intros ? ->|done].
  apply hoare_bind_inv; [|intros _; apply emplace_hoare].
  destruct (negb _); [|apply hoare_ret].
  apply hoare_modify. intros w Hw. by apply indexInv_setAdd.
Qed.

Lemma removeSingleton_indexInv type w : indexInv w → indexInv (removeSingleton type w).1.
Proof.
  revert w. change (hoare indexInv (removeSingleton type) indexInv).
  unfold removeSingleton. unfold_monad.
  apply hoare_getWorld. intros w0 Hinv0.
  eapply hoare_weaken with (P' := indexInv); [|by intros ? ->|done].
  destruct (negb _); [apply hoare_ret|].
  apply hoare_bind_inv; [intros w; apply remove_indexInv|intros _; apply hoare_ret].
Qed.

Lemma step_indexInv c w : indexInv w → indexInv (step c w).
Proof.
  destruct c; simpl.
  - apply create_indexInv.
  - apply insert_indexInv.
  - apply emplace_indexInv.
  - apply remove_indexInv.
  - apply destroyCleanup_indexInv.
  - apply index_indexInv.
  - apply registerSingleton_indexInv.
  - apply removeSingleton_indexInv.
Qed.

Lemma run_indexInv calls : ∀ w, indexInv w → indexInv (run calls w).
Proof.
  induction calls as [|c calls IH]; intros w Hw; [done|].
  simpl. apply IH. by apply step_indexInv.
Qed.

Lemma reachable_indexInv w : reachable w → indexInv w.
Proof. intros [calls ->]. apply run_indexInv, indexInv_new. Qed.

Lemma exists_elem e w : exists_ e w = true ↔ e ∈ entities w.
Proof. unfold exists_, setHas. apply bool_decide_eq_true. Qed.

Lemma inIndex_outside e i w : indexes w !! i = None → inIndex e i w = false.
Proof. unfold inIndex. by intros ->. Qed.

Lemma lookup_None_types w w' i :
  types <$> indexes w' = types <$> indexes w → indexes w !! i = None → indexes w' !! i = None.
Proof.
  intros Hty Hi. pose proof (types_lookup w w' i Hty) as Hl. rewrite Hi in Hl.
  by destruct (indexes w' !! i).
Qed.

(** X15. In a world built within the scope of the embedding (plain
    class names, safe ids, components without [added] and [removed]), an
    entity that is in an index is alive, and it holds a component of
    every type of the index. *)
Theorem index_members_hold_types (w : World) (i : nat) (e : Z) :
  inScope w → inIndex e i w = true →
  exists_ e w = true ∧ holdsAll e i w = true.
Proof.
  intros Hreach%inScope_reachable Hin. destruct (reachable_indexInv w Hreach) as (_ & _ & _ & _ & _ & Hix).
  destruct (Hix i e Hin). split; [by apply exists_elem|done].
Qed.


(** X17. In a world within the scope of the embedding, whose entity
    sequence is a safe integer, [create] with components of different
    classes with plain names returns the entity sequence and advances
    it; the entity is alive, holds the components, and is in every index
    whose types are among their classes; the other entities keep their
    components and their indexes. *)
Theorem create_joins_indexes (w : World) (cs : list Component) :
  inScope w → callInScope (CallCreate cs) = true → NoDup (ctor <$> cs) →
  let e := entitySequence w in
  ∃ w', create cs w = (w', Ok e) ∧
    entitySequence w' = e + 1 ∧ exists_ e w' = true ∧
    (∀ e', e' ≠ e → exists_ e' w' = exists_ e' w) ∧
    (∀ c, c ∈ cs → get e (ctor c) w' = Some c) ∧
    (∀ e' type, e' ≠ e → get e' type w' = get e' type w) ∧
    (∀ j ib, indexes w !! j = Some ib → types ib ⊆ ctor <$> cs → inIndex e j w' = true) ∧
    (∀ j e', e' ≠ e → inIndex e' j w' = inIndex e' j w).
Proof.
  intros Hreach%inScope_reachable _ Hcs e.
  destruct (create_total cs w (reachable_indexInv w Hreach) Hcs)
    as (w' & Hw' & Hseq & Hents & _ & _ & _ & _ & Hget & _ & Hheld & Hothers & Hin & _).
  fold e in Hw', Hseq, Hents, Hget, Hheld, Hothers, Hin.
  exists w'. split_and!; try done.
  - apply exists_elem. rewrite Hents. apply elem_of_setAdd. by left.
  - intros e' He'. apply eq_true_iff_eq. rewrite !exists_elem, Hents, elem_of_setAdd.
    split; [by intros [|]|by right].
Qed.

(** X18. In a world within the scope of the embedding, whose entity
    sequence is a safe integer, [create] with two components of one
    class (all classes with plain names) throws [DuplicateComponentType]
    for such a class, and it throws late: the entity sequence is
    advanced, the entity is alive and holds a component of every class
    given, and no index was told. *)
Theorem create_duplicate_types_throws (w : World) (cs : list Component) :
  inScope w → callInScope (CallCreate cs) = true → ¬ NoDup (ctor <$> cs) →
  let e := entitySequence w in
  ∃ w' type, create cs w = (w', Throw (DuplicateComponentType type)) ∧
    (2 ≤ length (filter (λ c, ctor c = type) cs))%nat ∧
    entitySequence w' = e + 1 ∧ exists_ e w' = true ∧
    (∀ c, c ∈ cs → has e (ctor c) w' = true) ∧
    indexes w' = indexes w.
Proof.
  intros _ _ Hdup e. destruct (duplicate_found _ Hdup) as (type & Hadj & Hlen).
  rewrite create_unfold. cbv zeta. fold e. rewrite Hadj.
  set (w2 := setEntities (setAdd e (entities w)) (setEntitySequence (e + 1) w)).
  destruct (stores_frame e cs w2) as (Hseq & Hents & _ & _ & _ & Hixs).
  destruct (get_stores e cs w2) as (_ & _ & Hheld & _).
  eexists _, type. split; [done|]. split_and!.
  - assert (Hfilter : length (filter (λ c, ctor c = type) cs) =
                      length (filter (λ x, x = type) (ctor <$> cs))).
    { clear. induction cs as [|c cs IH]; [done|].
      csimpl. rewrite !filter_cons. destruct (decide (ctor c = type)); simpl; by rewrite IH. }
    by rewrite Hfilter.
  - by rewrite Hseq.
  - apply exists_elem. rewrite Hents. apply elem_of_setAdd. by left.
  - intros c Hc. apply has_get.
    destruct (Hheld (ctor c)) as (c' & _ & _ & Hget); [by apply list_elem_of_fmap_2|].
    by exists c'.
  - by rewrite Hixs.
Qed.


(** X20. In a world within the scope of the embedding (plain class
    names, safe ids, components without [added] and [removed]),
    [destroy] up to the calls of [free]: the entity is not alive any
    more, holds nothing and is in no index at all; the other entities
    keep their components and their indexes; the [free] methods are then
    called for the components the entity held that have one. *)
Theorem destroy_leaves_every_index (free : Component → Z → M unit) (w : World) (e : Z) :
  inScope w →
  ∃ w1, destroyCleanup e w = (w1, Ok (filter (λ c, hasFree c = true) (getAll e w))) ∧
    destroy free e w =
      forEach (filter (λ c, hasFree c = true) (getAll e w)) (λ c, free c e) w1 ∧
    exists_ e w1 = false ∧
    (∀ e', e' ≠ e → exists_ e' w1 = exists_ e' w) ∧
    (∀ type, get e type w1 = None) ∧
    (∀ j, inIndex e j w1 = false) ∧
    (∀ e' type, e' ≠ e → get e' type w1 = get e' type w) ∧
    (∀ j e', e' ≠ e → inIndex e' j w1 = inIndex e' j w).
Proof.
  intros Hreach%inScope_reachable.
  destruct (destroyCleanup_total e w (reachable_indexInv w Hreach))
    as (w1 & Hw1 & _ & Hents & _ & _ & _ & _ & Hget & Hothers & Hout).
  exists w1. split_and!; try done.
  - unfold destroy. unfold_monad. unfold bind. by rewrite Hw1.
  - apply bool_decide_eq_false. rewrite Hents, elem_of_setDelete. by intros [].
  - intros e' He'. apply eq_true_iff_eq. rewrite !exists_elem, Hents, elem_of_setDelete.
    split; [by intros []|done].
  - intros type. rewrite Hget. by rewrite decide_True.
  - intros e' type He'. rewrite Hget. by rewrite decide_False.
Qed.

Lemma strict_perm_eq (l1 l2 : list string) :
  StronglySorted strLt l1 → StronglySorted strLt l2 → l1 ≡ₚ l2 → l1 = l2.
Proof.
  apply StronglySorted_unique_strong. intros x1 x2 _ _ H12 H21.
  destruct (strLt_irrefl x1). by eapply strLt_trans.
Qed.


(** X22. [index] on the types of an index the world has, in any order
    and under any names, makes no new [IndexBase]: the iterator it
    returns is on the one that exists, with the names in the order of
    the sorted types, and nothing in the world changes hands. *)
Theorem index_same_types_shared (w : World) (spec : list (string * string))
    (i : nat) (ib : IndexBase) :
  reachable w → NoDup (snd <$> spec) →
  indexes w !! i = Some ib → types ib ≡ₚ snd <$> spec →
  ∃ w' it, index spec w = (w', Ok (i, it)) ∧
    names it = fst <$> jsSort (λ a b, compareStrings a.2 b.2) spec ∧
    length (indexes w') = length (indexes w) ∧
    all w' = all w ∧
    (∀ e type, get e type w' = get e type w) ∧
    (∀ j e, inIndex e j w' = inIndex e j w).
Proof.
  intros Hreach Hspec Hib Hperm. pose proof (reachable_indexInv w Hreach) as Hinv.
  destruct (sorted_spec_types spec Hspec) as (Hperm' & _ & Hsorted).
  set (specs := jsSort (λ a b, compareStrings a.2 b.2) spec) in *.
  assert (Hget : getInTrie (indexByComponents w) (snd <$> specs) = Some i).
  { destruct Hinv as ((_ & _ & _ & _ & Hreg & _) & _).
    destruct (Hreg i ib Hib) as [Hget Hstrict].
    rewrite <-Hget. f_equal. apply strict_perm_eq; [done..|]. by rewrite Hperm'. }
  destruct (index_existing spec w i Hinv Hspec Hget)
    as (w' & ib' & Hindex & _ & _ & _ & Hents & Hgets & _ & _ & _ & Htys & Hmem).
  fold specs in Hindex.
  eexists w', _. split; [exact Hindex|]. split_and!; try done.
  apply (f_equal length) in Htys. by rewrite !length_fmap in Htys.
Qed.

(** X23. In a world within the scope of the embedding, [size] of a
    component class with a plain name counts the live entities that hold
    a component of the class; on a class the world has never seen it
    throws a [TypeError]. *)
Theorem size_counts_holders (w : World) (type : string) :
  inScope w → plainName type = true →
  size (Some type) w =
    if decide (is_Some (tsGet (components w) type))
    then Ok (Z.of_nat (length (filter (λ e, has e type w = true) (entities w))))
    else Throw TypeError.
Proof.
  intros Hreach%inScope_reachable _.
  destruct (reachable_indexInv w Hreach) as ((_ & Hdead & _) & Hnd & _).
  unfold size. destruct (tsGet (components w) type) as [st|] eqn:Hst.
  - rewrite decide_True by by eexists. do 2 f_equal.
    rewrite <-size_dom. unfold base.size, set_size. simpl. apply Permutation_length.
    apply NoDup_Permutation; [apply NoDup_elements|by apply NoDup_filter|].
    intros e. rewrite elem_of_elements, elem_of_dom, list_elem_of_filter.
    assert (Hhas : has e type w = true ↔ is_Some (st !! e)).
    { unfold has. rewrite Hst. apply bool_decide_eq_true. }
    rewrite Hhas. split; [|by intros []]. intros [c Hc]. split; [by eexists|].
    apply (Hdead type e c). unfold get. by rewrite Hst.
  - rewrite decide_False; [done|]. by intros [].
Qed.

Lemma holdsAll_on_types e j w w' ib ib' :
  indexes w !! j = Some ib → indexes w' !! j = Some ib' → types ib' = types ib →
  (∀ type, type ∈ types ib → get e type w' = get e type w) →
  holdsAll e j w' = holdsAll e j w.
Proof.
  intros Hj Hj' Hty Hget. apply eq_true_iff_eq.
  rewrite (holdsAll_types e j w ib Hj), (holdsAll_types e j w' ib' Hj'), Hty.
  split; intros Hall type Hin.
  - rewrite <-(Hall type Hin). apply has_get_eq. symmetry. by apply Hget.
  - rewrite <-(Hall type Hin). apply has_get_eq. by apply Hget.
Qed.

(** The loop of [insert]: the components are emplaced one after the
    other, so of two components of one class the later one stays. *)
Lemma emplace_loop e : ∀ (cs : list Component) w,
  indexInv w → e ∈ entities w →
  ∃ w', forEach cs (emplace e) w = (w', Ok ()) ∧ indexInv w' ∧
    entitySequence w' = entitySequence w ∧ entities w' = entities w ∧
    types <$> indexes w' = types <$> indexes w ∧
    (∀ e' type, get e' type w' =
       if decide (e' = e)
       then from_option Some (get e type w) (last (filter (λ c, ctor c = type) cs))
       else get e' type w) ∧
    (∀ j e', e' ≠ e → inIndex e' j w' = inIndex e' j w) ∧
    (∀ j ib, indexes w !! j = Some ib → (∃ c, c ∈ cs ∧ ctor c ∈ types ib) →
       inIndex e j w' = holdsAll e j w') ∧
    (∀ j ib, indexes w !! j = Some ib → (∀ c, c ∈ cs → ctor c ∉ types ib) →
       inIndex e j w' = inIndex e j w).
Proof.
  induction cs as [|c cs IH]; intros w Hinv He.
  - exists w. split_and!; try done.
    + intros e' type. simpl. by case_decide; subst.
    + intros j ib _ (c & Hc & _). by apply elem_of_nil in Hc.
  - destruct (emplace_total e c w Hinv He) as (w1 & Hw1 & Honly & Hothers1 & Hon1 & Hoff1).
    pose proof (emplace_indexInv e c w Hinv) as Hinv1. rewrite Hw1 in Hinv1. simpl in Hinv1.
    pose proof Honly as (Hseq1 & Hents1 & _ & _ & _ & _ & Htys1). simpl in Hseq1, Hents1, Htys1.
    assert (Hget1 : ∀ e' type, get e' type w1 =
              if decide (e' = e ∧ type = ctor c) then Some c else get e' type w).
    { intros e' type. rewrite (get_onlyIndexes _ _ _ _ Honly). apply get_store. }
    destruct (IH w1 Hinv1) as (w' & Hw' & Hinv' & Hseq & Hents & Htys & Hget & Hothers & Hon & Hoff).
    { by rewrite Hents1. }
    exists w'. simpl. unfold bind. rewrite Hw1. split; [done|]. split; [done|].
    split; [by rewrite Hseq|]. split; [by rewrite Hents|]. split; [by rewrite Htys|].
    split_and!.
    + intros e' type. rewrite Hget. case_decide as He'.
      * subst e'. rewrite filter_cons. rewrite Hget1.
        destruct (decide (ctor c = type)) as [<-|Hty].
        -- rewrite decide_True by done.
           destruct (filter (λ c0, ctor c0 = ctor c) cs) as [|c' l] eqn:Hl; [done|].
           rewrite last_cons_cons. destruct (last (c' :: l)) eqn:Hlast; [done|].
           by apply last_None in Hlast.
        -- rewrite decide_False; [done|]. by intros [_ ->].
      * rewrite Hget1. rewrite decide_False; [done|]. by intros [? _].
    + intros j e' He'. by rewrite Hothers, Hothers1.
    + intros j ib Hj (c' & Hc' & Hty).
      destruct (lookup_types w1 w j ib) as (ib1 & Hj1 & Hty1);
        [done|done|].
      destruct (decide (Exists (λ c'', ctor c'' ∈ types ib1) cs)) as [Hlater|Hnone].
      * apply (Hon j ib1); [done|]. apply Exists_exists in Hlater as (c'' & ? & ?). by exists c''.
      * assert (Hnone' : ∀ c'', c'' ∈ cs → ctor c'' ∉ types ib1).
        { intros c'' Hin'' Hty''. apply Hnone, Exists_exists. by exists c''. }
        rewrite (Hoff j ib1 Hj1 Hnone').
        apply elem_of_cons in Hc' as [->|Hc']; [|destruct (Hnone' c' Hc'); by rewrite Hty1].
        rewrite (Hon1 j ib Hj Hty). symmetry.
        destruct (lookup_types w' w1 j ib1) as (ib' & Hj' & Hty'); [done|done|].
        apply (holdsAll_on_types e j w1 w' ib1 ib'); [done|done|done|].
        intros type Hin. rewrite Hget, decide_True by done.
        destruct (last (filter (λ c0, ctor c0 = type) cs)) as [c''|] eqn:Hlast; [|done].
        apply last_Some_elem_of, list_elem_of_filter in Hlast as [Hc'' Hin''].
        destruct (Hnone' c'' Hin''). by rewrite Hc''.
    + intros j ib Hj Hnone.
      destruct (lookup_types w1 w j ib) as (ib1 & Hj1 & Hty1); [done|done|].
      rewrite (Hoff j ib1 Hj1).
      * apply (Hoff1 j ib Hj). apply Hnone. left.
      * intros c' Hc'. rewrite Hty1. apply Hnone. by right.
Qed.

(** X24. In a world within the scope of the embedding, [insert] of a
    safe id with components of classes with plain names never throws.
    The entity is alive afterwards; the
    entity sequence moves past an id that exceeds it and stays otherwise;
    under every class the entity holds the last component of the class
    given, or what it held; the indexes on a class given hold the entity
    exactly when it holds all their types; the other entities keep their
    components and their indexes. *)
Theorem insert_stores_components (w : World) (e : Z) (cs : list Component) :
  inScope w → callInScope (CallInsert e cs) = true →
  ∃ w', insert e cs w = (w', Ok e) ∧
    exists_ e w' = true ∧
    (∀ e', e' ≠ e → exists_ e' w' = exists_ e' w) ∧
    entitySequence w' = (if decide (e > entitySequence w) then e + 1 else entitySequence w) ∧
    (∀ type, get e type w' =
       from_option Some (get e type w) (last (filter (λ c, ctor c = type) cs))) ∧
    (∀ e' type, e' ≠ e → get e' type w' = get e' type w) ∧
    (∀ j ib, indexes w !! j = Some ib → (∃ c, c ∈ cs ∧ ctor c ∈ types ib) →
       inIndex e j w' = holdsAll e j w') ∧
    (∀ j e', e' ≠ e → inIndex e' j w' = inIndex e' j w).
Proof.
  intros Hreach%inScope_reachable _. pose proof (reachable_indexInv w Hreach) as Hinv.
  set (w0 := if decide (e > entitySequence w) then setEntitySequence (e + 1) w else w).
  set (w1 := setEntities (setAdd e (entities w0)) w0).
  assert (Hinv0 : indexInv w0).
  { unfold w0. case_decide; [|done]. apply indexInv_setEntitySequence; [|done].
    destruct Hinv as ((? & _) & _). lia. }
  assert (Hinv1 : indexInv w1) by by apply indexInv_setAdd.
  assert (Hents0 : entities w0 = entities w) by (unfold w0; by case_decide).
  assert (He : e ∈ entities w1).
  { simpl. apply elem_of_setAdd. by left. }
  assert (Hsame : components w1 = components w ∧ indexes w1 = indexes w).
  { unfold w1, w0. by case_decide. }
  destruct Hsame as [Hcs1 Hixs1].
  assert (Hget1 : ∀ e' type, get e' type w1 = get e' type w).
  { intros e' type. by apply get_components. }
  assert (Hin1 : ∀ j e', inIndex e' j w1 = inIndex e' j w).
  { intros j e'. unfold inIndex. by rewrite Hixs1. }
  destruct (emplace_loop e cs w1 Hinv1 He)
    as (w' & Hw' & _ & Hseq & Hents & Htys & Hget & Hothers & Hon & _).
  exists w'. split_and!.
  - unfold insert. unfold_monad. unfold bind at 1, getWorld at 1.
    assert (Hpre : (if decide (e > entitySequence w)
                    then modify (setEntitySequence (e + 1)) else ret ()) w = (w0, Ok ())).
    { unfold w0. by case_decide. }
    unfold bind at 1. rewrite Hpre. unfold bind at 1, modify at 1. fold w1.
    unfold bind at 1. by rewrite Hw'.
  - apply exists_elem. by rewrite Hents.
  - intros e' He'. apply eq_true_iff_eq. rewrite !exists_elem, Hents. simpl.
    rewrite elem_of_setAdd, Hents0. split; [by intros [|]|by right].
  - rewrite Hseq. unfold w1, w0. by case_decide.
  - intros type. rewrite Hget, decide_True by done. by rewrite Hget1.
  - intros e' type He'. rewrite Hget, decide_False by done. apply Hget1.
  - intros j ib Hj Hc. apply (Hon j ib); [by rewrite Hixs1|done].
  - intros j e' He'. by rewrite Hothers, Hin1.
Qed.

(** The singletons: [registerSingleton] never throws and makes the
    component the singleton of its class; [removeSingleton] of the class
    then takes it away again, and the other singletons stay. *)
Theorem singleton_round_trip (w : World) (c : Component) :
  reachable w →
  ∃ w1 w2, registerSingleton c w = (w1, Ok ()) ∧
    getSingleton (ctor c) w1 = Some c ∧
    (∀ type, type ≠ ctor c → getSingleton type w1 = getSingleton type w) ∧
    removeSingleton (ctor c) w1 = (w2, Ok ()) ∧
    getSingleton (ctor c) w2 = None ∧
    (∀ type, type ≠ ctor c → getSingleton type w2 = getSingleton type w).
Proof.
  intros Hreach. pose proof (reachable_indexInv w Hreach) as Hinv.
  set (w0 := if negb (setHas singletonEntity (entities w))
             then setEntities (setAdd singletonEntity (entities w)) w else w).
  assert (Hinv0 : indexInv w0).
  { unfold w0. destruct (negb _); [by apply indexInv_setAdd|done]. }
  assert (He : singletonEntity ∈ entities w0).
  { unfold w0. destruct (setHas _ _) eqn:Hhas; simpl.
    - by apply bool_decide_eq_true in Hhas.
    - apply elem_of_setAdd. by left. }
  assert (Hget0 : ∀ type, get singletonEntity type w0 = get singletonEntity type w).
  { intros type. apply get_components. unfold w0. by destruct (negb _). }
  destruct (emplace_total singletonEntity c w0 Hinv0 He) as (w1 & Hw1 & Honly & _).
  pose proof (emplace_indexInv singletonEntity c w0 Hinv0) as Hinv1.
  rewrite Hw1 in Hinv1. simpl in Hinv1.
  assert (Hget1 : ∀ type, get singletonEntity type w1 =
            if decide (type = ctor c) then Some c else get singletonEntity type w).
  { intros type. rewrite (get_onlyIndexes _ _ _ _ Honly), get_store, <-Hget0.
    case_decide as H1; case_decide as H2; try done; [by destruct H1|by destruct H1]. }
  destruct (remove_total singletonEntity (ctor c) w1 Hinv1)
    as (w2 & Hw2 & _ & Hents2 & _ & _ & _ & _ & _ & Hget2 & _).
  assert (He1 : setHas singletonEntity (entities w1) = true).
  { apply bool_decide_eq_true. destruct Honly as (_ & -> & _). done. }
  exists w1, w2. split_and!.
  - unfold registerSingleton. unfold_monad. unfold bind at 1, getWorld at 1.
    assert (Hpre : (if negb (setHas singletonEntity (entities w))
                    then modify (λ w, setEntities (setAdd singletonEntity (entities w)) w)
                    else ret ()) w = (w0, Ok ())).
    { unfold w0. by destruct (negb _). }
    unfold bind. by rewrite Hpre.
  - unfold getSingleton. by rewrite Hget1, decide_True.
  - intros type Hty. unfold getSingleton. by rewrite Hget1, decide_False.
  - unfold removeSingleton. unfold_monad. unfold bind at 1, getWorld at 1.
    rewrite He1. simpl. unfold bind. by rewrite Hw2.
  - unfold getSingleton. rewrite Hget2. by rewrite decide_True.
  - intros type Hty. unfold getSingleton. rewrite Hget2, decide_False by (by intros [_ ?]).
    by rewrite Hget1, decide_False.
Qed.

Lemma filter_all {A} (P : A → Prop) `{∀ x, Decision (P x)} (l : list A) :
  (∀ x, x ∈ l → P x) → filter P l = l.
Proof.
  induction l as [|x l IH]; intros Hall; [done|].
  rewrite filter_cons_True by (apply Hall; left). f_equal. apply IH.
  intros y Hy. apply Hall. by right.
Qed.

Lemma filter_none {A} (P : A → Prop) `{∀ x, Decision (P x)} (l : list A) :
  (∀ x, x ∈ l → ¬ P x) → filter P l = [].
Proof.
  induction l as [|x l IH]; intros Hall; [done|].
  rewrite filter_cons_False by (apply Hall; left). apply IH.
  intros y Hy. apply Hall. by right.
Qed.

Lemma held_get e c w :
  worldInv w → c ∈ heldComponents (components w) e ↔ get e (ctor c) w = Some c.
Proof.
  intros (_ & _ & Hctor & Hnd & _). unfold heldComponents. rewrite list_elem_of_omap. split.
  - intros ([k st] & Hin & Hc). simpl in Hc.
    assert (Hget : get e k w = Some c).
    { unfold get. by rewrite (tsGet_elem _ _ _ Hnd Hin). }
    by rewrite (Hctor k e c Hget).
  - unfold get. destruct (tsGet (components w) (ctor c)) as [st|] eqn:Hst; [|done].
    intros Hc. exists (ctor c, st). split; [by apply tsGet_Some_elem|done].
Qed.

(** X25. In a world within the scope of the embedding (plain class
    names, safe ids, components without [added] and [removed]), [getAll]
    lists the components the entity holds, one of each class; for an
    entity that is not alive the list is empty. *)
Theorem getAll_lists_held (w : World) (e : Z) :
  inScope w →
  NoDup (ctor <$> getAll e w) ∧
  (∀ c, c ∈ getAll e w ↔ get e (ctor c) w = Some c) ∧
  (exists_ e w = false → getAll e w = []).
Proof.
  intros Hreach%inScope_reachable. pose proof (reachable_indexInv w Hreach) as (Hinv & _).
  split_and!.
  - by apply heldTypes_NoDup.
  - intros c. by apply held_get.
  - intros Hdead. destruct (getAll e w) as [|c l] eqn:Hall; [done|].
    assert (Hc : c ∈ getAll e w) by (rewrite Hall; left).
    apply held_get in Hc; [|done]. destruct Hinv as (_ & Hlive & _).
    apply Hlive, exists_elem in Hc. congruence.
Qed.

(** X26. [clear] in a world within the scope of the embedding (plain
    class names, safe ids, components without [added] and [removed])
    where no component has a [free] method: it returns, no entity is
    alive afterwards, nothing is stored and every index is empty. The
    indexes themselves stay, and the entity sequence is not set back. *)
Theorem clear_removes_everything (free : Component → Z → M unit) (w : World) :
  inScope w → (∀ e type c, get e type w = Some c → hasFree c = false) →
  ∃ w', clear free w = (w', Ok ()) ∧
    all w' = [] ∧
    (∀ e type, get e type w' = None) ∧
    (∀ j e, inIndex e j w' = false) ∧
    length (indexes w') = length (indexes w) ∧
    entitySequence w' = entitySequence w.
Proof.
  intros Hreach%inScope_reachable Hnofree. pose proof (reachable_indexInv w Hreach) as Hinv.
  set (J := λ (seen : list Z) (w' : World),
    indexInv w' ∧ (∀ e type c, get e type w' = Some c → hasFree c = false) ∧
    entities w' = filter (λ x, x ∉ seen) (entities w) ∧
    entitySequence w' = entitySequence w ∧
    types <$> indexes w' = types <$> indexes w).
  destruct (forEach_spec J (destroy free) (entities w) [] w) as (w' & Hw' & HJ).
  { split_and!; try done. symmetry. apply filter_all. intros x _. apply not_elem_of_nil. }
  { intros x seen w1 Hx (Hinv1 & Hnofree1 & Hents1 & Hseq1 & Htys1).
    destruct (destroyCleanup_total x w1 Hinv1)
      as (w2 & Hw2 & Hseq2 & Hents2 & _ & _ & Htys2 & _ & Hget2 & _).
    assert (Hfrees : filter (λ c, hasFree c = true) (heldComponents (components w1) x) = []).
    { apply filter_none. intros c Hc%held_get; [|apply Hinv1].
      by rewrite (Hnofree1 _ _ _ Hc). }
    rewrite Hfrees in Hw2. exists w2. split.
    - unfold destroy. unfold_monad. unfold bind. by rewrite Hw2.
    - pose proof (destroyCleanup_indexInv x w1 Hinv1) as Hinv2. rewrite Hw2 in Hinv2.
      split_and!; try done.
      + intros e type c. rewrite Hget2. case_decide; [done|]. apply Hnofree1.
      + rewrite Hents2, Hents1. unfold setDelete. rewrite list_filter_filter.
        apply list_filter_iff. intros y. rewrite elem_of_app, list_elem_of_singleton. tauto.
      + by rewrite Hseq2.
      + by rewrite Htys2. }
  simpl in HJ. destruct HJ as (Hinv' & _ & Hents' & Hseq' & Htys').
  assert (Hempty : entities w' = []).
  { rewrite Hents'. apply filter_none. by intros x Hx []. }
  exists w'. split_and!; try done.
  - intros e type. destruct (get e type w') as [c|] eqn:Hget; [|done].
    destruct Hinv' as ((_ & Hlive & _) & _). apply Hlive in Hget.
    rewrite Hempty in Hget. by apply elem_of_nil in Hget.
  - intros j e. destruct (inIndex e j w') eqn:Hin; [|done].
    destruct Hinv' as (_ & _ & _ & _ & _ & Hix). destruct (Hix j e Hin) as [He _].
    rewrite Hempty in He. by apply elem_of_nil in He.
  - apply (f_equal length) in Htys'. by rewrite !length_fmap in Htys'.
Qed.

End index_membership.

Section index_membership_witnesses.
Import TrieDefs IndexDefs WorldDefs.

Ltac by_decision :=
  match goal with |- ?P => apply (bool_decide_unpack P); vm_compute; exact I end.

Ltac by_scope := eexists; split; [|reflexivity]; vm_compute; reflexivity.

(** Entity 0 holds an [A] and is in the index on [A]. *)
Lemma index_members_hold_types_witness :
  let w := run [CallIndex [("a", "A")]%string; CallCreate [MkComponent "A" 1 false]] new in
  inScope w ∧ inIndex 0 0 w = true ∧ exists_ 0 w = true ∧ holdsAll 0 0 w = true.
Proof.
  intros w.
  assert (Hreach : inScope w) by by_scope.
  assert (Hin : inIndex 0 0 w = true) by reflexivity.
  split; [exact Hreach|]. split; [exact Hin|].
  exact (index_members_hold_types w 0 0 Hreach Hin).
Defined.


(** An entity with an [A] and a [B] in a world with an index on [A]. *)
Lemma create_joins_indexes_witness :
  let w := run [CallIndex [("a", "A")]%string] new in
  let cs := [MkComponent "B" 2 false; MkComponent "A" 1 false] in
  inScope w ∧ callInScope (CallCreate cs) = true ∧ NoDup (ctor <$> cs) ∧
  ∃ w', create cs w = (w', Ok 0) ∧
    entitySequence w' = 0 + 1 ∧ exists_ 0 w' = true ∧
    (∀ e', e' ≠ 0 → exists_ e' w' = exists_ e' w) ∧
    (∀ c, c ∈ cs → get 0 (ctor c) w' = Some c) ∧
    (∀ e' type, e' ≠ 0 → get e' type w' = get e' type w) ∧
    (∀ j ib, indexes w !! j = Some ib → types ib ⊆ ctor <$> cs → inIndex 0 j w' = true) ∧
    (∀ j e', e' ≠ 0 → inIndex e' j w' = inIndex e' j w).
Proof.
  intros w cs.
  assert (Hreach : inScope w) by by_scope.
  assert (Hplain : callInScope (CallCreate cs) = true) by reflexivity.
  assert (Hcs : NoDup (ctor <$> cs)) by by_decision.
  split; [exact Hreach|]. split; [exact Hplain|]. split; [exact Hcs|].
  exact (create_joins_indexes w cs Hreach Hplain Hcs).
Defined.

(** Two components of the class [A], in a world with an index on [A]. *)
Lemma create_duplicate_types_throws_witness :
  let w := run [CallIndex [("a", "A")]%string] new in
  let cs := [MkComponent "A" 1 false; MkComponent "A" 2 false] in
  inScope w ∧ callInScope (CallCreate cs) = true ∧ ¬ NoDup (ctor <$> cs) ∧
  ∃ w' type, create cs w = (w', Throw (DuplicateComponentType type)) ∧
    (2 ≤ length (filter (λ c, ctor c = type) cs))%nat ∧
    entitySequence w' = 0 + 1 ∧ exists_ 0 w' = true ∧
    (∀ c, c ∈ cs → has 0 (ctor c) w' = true) ∧
    indexes w' = indexes w.
Proof.
  intros w cs.
  assert (Hreach : inScope w) by by_scope.
  assert (Hplain : callInScope (CallCreate cs) = true) by reflexivity.
  assert (Hcs : ¬ NoDup (ctor <$> cs)) by by_decision.
  split; [exact Hreach|]. split; [exact Hplain|]. split; [exact Hcs|].
  exact (create_duplicate_types_throws w cs Hreach Hplain Hcs).
Defined.


(** Entity 0 is destroyed; its component has a [free] method that does
    nothing. *)
Lemma destroy_leaves_every_index_witness :
  let w := run [CallIndex [("a", "A")]%string; CallCreate [MkComponent "A" 1 true]] new in
  let free := λ (c : Component) (e : Z), ret () in
  inScope w ∧
  ∃ w1, destroyCleanup 0 w = (w1, Ok (filter (λ c, hasFree c = true) (getAll 0 w))) ∧
    destroy free 0 w =
      forEach (filter (λ c, hasFree c = true) (getAll 0 w)) (λ c, free c 0) w1 ∧
    exists_ 0 w1 = false ∧
    (∀ e', e' ≠ 0 → exists_ e' w1 = exists_ e' w) ∧
    (∀ type, get 0 type w1 = None) ∧
    (∀ j, inIndex 0 j w1 = false) ∧
    (∀ e' type, e' ≠ 0 → get e' type w1 = get e' type w) ∧
    (∀ j e', e' ≠ 0 → inIndex e' j w1 = inIndex e' j w).
Proof.
  intros w free.
  assert (Hreach : inScope w) by by_scope.
  split; [exact Hreach|].
  exact (destroy_leaves_every_index free w 0 Hreach).
Defined.


(** The index on [A] and [B], asked for again as [B] and [A] under other
    names. *)
Lemma index_same_types_shared_witness :
  let w := run [CallIndex [("a", "A"); ("b", "B")]%string] new in
  let spec := [("y", "B"); ("x", "A")]%string in
  let ib := IndexDefs.new ["A"; "B"]%string in
  reachable w ∧ NoDup (snd <$> spec) ∧
  indexes w !! 0%nat = Some ib ∧ types ib ≡ₚ snd <$> spec ∧
  ∃ w' it, index spec w = (w', Ok (0%nat, it)) ∧
    names it = fst <$> jsSort (λ a b, compareStrings a.2 b.2) spec ∧
    length (indexes w') = length (indexes w) ∧
    all w' = all w ∧
    (∀ e type, get e type w' = get e type w) ∧
    (∀ j e, inIndex e j w' = inIndex e j w).
Proof.
  intros w spec ib.
  assert (Hreach : reachable w) by (eexists; reflexivity).
  assert (Hspec : NoDup (snd <$> spec)) by by_decision.
  assert (Hib : indexes w !! 0%nat = Some ib) by reflexivity.
  assert (Hperm : types ib ≡ₚ snd <$> spec) by apply perm_swap.
  split; [exact Hreach|]. split; [exact Hspec|]. split; [exact Hib|]. split; [exact Hperm|].
  exact (index_same_types_shared w spec 0 ib Hreach Hspec Hib Hperm).
Defined.

(** Two entities with an [A], one of them destroyed. *)
Lemma size_counts_holders_witness :
  let w := run [CallCreate [MkComponent "A" 1 false]; CallCreate [MkComponent "A" 2 false];
                CallDestroy 0] new in
  inScope w ∧ plainName "A" = true ∧
  size (Some "A"%string) w =
    if decide (is_Some (tsGet (components w) "A"))
    then Ok (Z.of_nat (length (filter (λ e, has e "A" w = true) (entities w))))
    else Throw TypeError.
Proof.
  intros w.
  assert (Hreach : inScope w) by by_scope.
  assert (Hplain : plainName "A" = true) by reflexivity.
  split; [exact Hreach|]. split; [exact Hplain|].
  exact (size_counts_holders w "A" Hreach Hplain).
Defined.

(** Entity 5 is inserted with two components of the class [A]. *)
Lemma insert_stores_components_witness :
  let w := run [CallIndex [("a", "A")]%string] new in
  let cs := [MkComponent "A" 1 false; MkComponent "A" 2 false] in
  inScope w ∧ callInScope (CallInsert 5 cs) = true ∧
  ∃ w', insert 5 cs w = (w', Ok 5) ∧
    exists_ 5 w' = true ∧
    (∀ e', e' ≠ 5 → exists_ e' w' = exists_ e' w) ∧
    entitySequence w' = (if decide (5 > entitySequence w) then 5 + 1 else entitySequence w) ∧
    (∀ type, get 5 type w' =
       from_option Some (get 5 type w) (last (filter (λ c, ctor c = type) cs))) ∧
    (∀ e' type, e' ≠ 5 → get e' type w' = get e' type w) ∧
    (∀ j ib, indexes w !! j = Some ib → (∃ c, c ∈ cs ∧ ctor c ∈ types ib) →
       inIndex 5 j w' = holdsAll 5 j w') ∧
    (∀ j e', e' ≠ 5 → inIndex e' j w' = inIndex e' j w).
Proof.
  intros w cs.
  assert (Hreach : inScope w) by by_scope.
  assert (Hplain : callInScope (CallInsert 5 cs) = true) by reflexivity.
  split; [exact Hreach|]. split; [exact Hplain|].
  exact (insert_stores_components w 5 cs Hreach Hplain).
Defined.

(** A second singleton. *)
Lemma singleton_round_trip_witness :
  let w := run [CallRegisterSingleton (MkComponent "Clock" 1 false)] new in
  let c := MkComponent "Config" 2 false in
  reachable w ∧
  ∃ w1 w2, registerSingleton c w = (w1, Ok ()) ∧
    getSingleton (ctor c) w1 = Some c ∧
    (∀ type, type ≠ ctor c → getSingleton type w1 = getSingleton type w) ∧
    removeSingleton (ctor c) w1 = (w2, Ok ()) ∧
    getSingleton (ctor c) w2 = None ∧
    (∀ type, type ≠ ctor c → getSingleton type w2 = getSingleton type w).
Proof.
  intros w c.
  assert (Hreach : reachable w) by (eexists; reflexivity).
  split; [exact Hreach|].
  exact (singleton_round_trip w c Hreach).
Defined.

(** The components of entity 0. *)
Lemma getAll_lists_held_witness :
  let w := run [CallCreate [MkComponent "B" 2 false; MkComponent "A" 1 false]] new in
  inScope w ∧
  NoDup (ctor <$> getAll 0 w) ∧
  (∀ c, c ∈ getAll 0 w ↔ get 0 (ctor c) w = Some c) ∧
  (exists_ 0 w = false → getAll 0 w = []).
Proof.
  intros w.
  assert (Hreach : inScope w) by by_scope.
  split; [exact Hreach|].
  exact (getAll_lists_held w 0 Hreach).
Defined.

(** A world with an index on [A] and two entities: entity 0 holds an [A],
    entity 1 an [A] and a [B]; both are in the index. *)
Lemma clear_removes_everything_witness :
  let cA := MkComponent "A" 1 false in
  let cA' := MkComponent "A" 2 false in
  let cB := MkComponent "B" 3 false in
  let w := run [CallIndex [("a", "A")]%string; CallCreate [cA]; CallCreate [cA'; cB]] new in
  let free := λ (c : Component) (e : Z), ret () in
  (inScope w ∧ (∀ e type c, get e type w = Some c → hasFree c = false)) ∧
  (all w = [0; 1] ∧ get 0 "A" w = Some cA ∧ get 1 "B" w = Some cB ∧
   inIndex 0 0 w = true ∧ inIndex 1 0 w = true) ∧
  ∃ w', clear free w = (w', Ok ()) ∧
    all w' = [] ∧
    (∀ e type, get e type w' = None) ∧
    (∀ j e, inIndex e j w' = false) ∧
    length (indexes w') = length (indexes w) ∧
    entitySequence w' = entitySequence w.
Proof.
  intros cA cA' cB w free.
  assert (Hreach : inScope w) by by_scope.
  assert (Hnofree : ∀ e type c, get e type w = Some c → hasFree c = false).
  { intros e type c Hget.
    assert (Hstored : c = cA ∨ c = cA' ∨ c = cB); [|by destruct Hstored as [->|[->| ->]]].
    unfold get in Hget.
    change (components w)
      with [("A"%string, <[0 := cA]> (<[1 := cA']> (∅ : gmap Z Component)));
            ("B"%string, <[1 := cB]> (∅ : gmap Z Component))] in Hget.
    unfold tsGet in Hget.
    destruct (decide ("A"%string = type)).
    - apply lookup_insert_Some in Hget as [[_ Hc]|[_ Hget]]; [by left|].
      apply lookup_insert_Some in Hget as [[_ Hc]|[_ Hget]]; [by right; left|].
      rewrite lookup_empty in Hget. discriminate Hget.
    - destruct (decide ("B"%string = type)); [|discriminate Hget].
      apply lookup_insert_Some in Hget as [[_ Hc]|[_ Hget]]; [by right; right|].
      rewrite lookup_empty in Hget. discriminate Hget. }
  split; [exact (conj Hreach Hnofree)|].
  split; [repeat split; reflexivity|].
  exact (clear_removes_everything free w Hreach Hnofree).
Defined.

End index_membership_witnesses.

(** ** Iterating an index *)

Section index_storage.
Import IndexDefs IndexIteratorDefs.
Implicit Types (ib : IndexBase) (st : list Cell) (e : Z).

Lemma arraySet_spec st (i : nat) (x : Cell) :
  (i ≤ length st)%nat →
  length (arraySet CUndefined st i x) = (length st `max` S i)%nat ∧
  ∀ p, arraySet CUndefined st i x !! p = if decide (p = i) then Some x else st !! p.
Proof.
  intros Hi. unfold arraySet. case_decide as Hlt.
  - split; [rewrite length_insert; lia|]. intros p. case_decide as Hp.
    + subst. by apply list_lookup_insert_eq.
    + by apply list_lookup_insert_ne.
  - assert (i = length st) as -> by lia. rewrite Nat.sub_diag. simpl. split.
    + rewrite length_app. simpl. lia.
    + intros p. case_decide as Hp.
      * subst. by rewrite lookup_app_r, Nat.sub_diag.
      * destruct (decide (p < length st)%nat).
        -- by rewrite lookup_app_l.
        -- rewrite lookup_app_r by lia. rewrite (lookup_ge_None_2 st p) by lia.
           destruct (p - length st)%nat as [|m] eqn:Hm; [lia|done].
Qed.

Lemma storeComponents_spec (iS : nat) (cs : list (option Component)) st : ∀ (nC : nat),
  (iS < length st)%nat →
  length (storeComponents iS nC cs st) = (length st `max` (iS + 1 + nC))%nat ∧
  ∀ p, storeComponents iS nC cs st !! p =
         if decide (iS < p ≤ iS + nC)%nat
         then Some (cellOf (mjoin (cs !! (p - iS - 1)%nat)))
         else st !! p.
Proof.
  intros nC Hlt. unfold storeComponents. induction nC as [|n [IHlen IH]].
  - simpl. split; [lia|]. intros p. rewrite decide_False; [done|lia].
  - rewrite seq_S, foldl_app. simpl.
    set (st' := foldl _ st (seq 0 n)) in *.
    destruct (arraySet_spec st' (iS + n + 1) (cellOf (mjoin (cs !! n)))) as [Hlen Hlook]; [lia|].
    split; [lia|]. intros p. rewrite Hlook, IH.
    destruct (decide (p = iS + n + 1)%nat) as [->|Hp].
    + rewrite decide_True by lia. by replace (iS + n + 1 - iS - 1)%nat with n by lia.
    + destruct (decide (iS < p ≤ iS + n)%nat).
      * by rewrite decide_True by lia.
      * by rewrite decide_False by lia.
Qed.

(** Writing a record at a position that is in the storage or at its
    end. *)
Lemma write_record st (nC iS : nat) (x : Cell) (cs : list (option Component)) :
  (iS ≤ length st)%nat →
  let st' := storeComponents iS nC cs (arraySet CUndefined st iS x) in
  length st' = (length st `max` (iS + S nC))%nat ∧
  st' !! iS = Some x ∧
  (∀ iC, (iC < nC)%nat → st' !! (iS + iC + 1)%nat = Some (cellOf (mjoin (cs !! iC)))) ∧
  (∀ p, (p < iS ∨ iS + nC < p)%nat → st' !! p = st !! p).
Proof.
  intros Hi st'. destruct (arraySet_spec st iS x Hi) as [Hlen1 Hlook1].
  destruct (storeComponents_spec iS cs (arraySet CUndefined st iS x) nC) as [Hlen Hlook]; [lia|].
  fold st' in Hlen, Hlook. split_and!.
  - lia.
  - rewrite Hlook, decide_False by lia. by rewrite Hlook1, decide_True.
  - intros iC HiC. rewrite Hlook, decide_True by lia.
    by replace (iS + iC + 1 - iS - 1)%nat with iC by lia.
  - intros p Hp. rewrite Hlook, decide_False by lia. rewrite Hlook1, decide_False; [done|lia].
Qed.

Lemma divide_apart (nC a b : nat) :
  Nat.divide (S nC) a → Nat.divide (S nC) b → a ≠ b → (b < a ∨ a + nC < b)%nat.
Proof.
  intros [j ->] [k ->] Hne. destruct (decide (k < j)%nat); [left; nia|right].
  assert (j < k)%nat by (destruct (decide (j = k)); [by subst|lia]). nia.
Qed.

Lemma divide_disjoint (nC a b : nat) :
  Nat.divide (S nC) a → Nat.divide (S nC) b → a ≠ b → (a + nC < b ∨ b + nC < a)%nat.
Proof.
  intros Ha Hb Hne. destruct (divide_apart nC a b Ha Hb Hne) as [?|?]; [|by left].
  destruct (divide_apart nC b a Hb Ha) as [?|?]; [done|lia|by right].
Qed.

Lemma divide_room (nC a n : nat) :
  Nat.divide (S nC) a → Nat.divide (S nC) n → (a < n)%nat → (a + S nC ≤ n)%nat.
Proof. intros [j ->] [k ->] Hlt. assert (j < k)%nat by nia. nia. Qed.

Lemma laidOut_new tys : laidOut (IndexDefs.new tys).
Proof.
  split_and!; simpl.
  - by exists 0%nat.
  - intros e iS. by rewrite lookup_empty.
  - constructor.
  - intros iS []%elem_of_nil.
  - intros iS _ Hlt. simpl in Hlt. lia.
Qed.

(** Two entities of the index have different records. *)
Lemma laidOut_inj ib e e' iS :
  laidOut ib → entityISByEntity ib !! e = Some iS → entityISByEntity ib !! e' = Some iS → e = e'.
Proof.
  intros (_ & Hmem & _) He He'. destruct (Hmem e iS He) as [_ H1].
  destruct (Hmem e' iS He') as [_ H2]. congruence.
Qed.

Lemma laidOut_free_not_member ib e iS :
  laidOut ib → entityISByEntity ib !! e = Some iS → iS ∉ freeISs ib.
Proof.
  intros (_ & Hmem & _ & Hfree & _) He Hin. destruct (Hmem e iS He) as [_ H1].
  destruct (Hfree iS Hin) as [_ H2]. congruence.
Qed.

(** Storing the record of [e] at [iS], a position that is its own, free
    or the end of the storage. *)
Lemma place_laidOut ib e (iS : nat) (cs : list (option Component)) free1 a ao r ro :
  laidOut ib →
  Nat.divide (recordLength ib) iS → (iS ≤ length (storage ib))%nat →
  (∀ e' iS', entityISByEntity ib !! e' = Some iS' → e' ≠ e → iS' ≠ iS) →
  (entityISByEntity ib !! e = None ∨ entityISByEntity ib !! e = Some iS) →
  NoDup free1 → (∀ x, x ∈ free1 ↔ x ∈ freeISs ib ∧ x ≠ iS) →
  laidOut (MkIndexBase (types ib) (<[e := iS]> (entityISByEntity ib))
             (storeComponents iS (length (types ib)) cs
                (arraySet CUndefined (storage ib) iS (CEntity e)))
             free1 a ao r ro).
Proof.
  intros (Hlen & Hmem & Hnd & Hfree & Hall) Hdiv Hle Hother Hown Hnd1 Hfree1.
  destruct (write_record (storage ib) (length (types ib)) iS (CEntity e) cs Hle)
    as (Hlen' & Hat & _ & Hout).
  set (st' := storeComponents _ _ _ _) in *.
  unfold recordLength in *.
  assert (Hstart : ∀ p, Nat.divide (S (length (types ib))) p → p ≠ iS →
            st' !! p = storage ib !! p).
  { intros p Hp Hne. apply Hout. destruct (divide_apart _ _ _ Hdiv Hp); [done|lia|lia]. }
  split_and!; simpl; unfold recordLength; simpl.
  - destruct (decide (iS < length (storage ib))%nat) as [Hlt|Hge].
    + pose proof (divide_room _ _ _ Hdiv Hlen Hlt). by replace (length st') with (length (storage ib)) by lia.
    + assert (iS = length (storage ib)) as Heq by lia. rewrite Hlen', <-Heq.
      replace (iS `max` (iS + S (length (types ib))))%nat with (iS + S (length (types ib)))%nat by lia.
      apply Nat.divide_add_r; [done|apply Nat.divide_refl].
  - intros e' iS'. rewrite lookup_insert. case_decide as He.
    + intros [= <-]. subst. done.
    + intros He'. destruct (Hmem e' iS' He') as [Hd Hs]. split; [done|].
      rewrite Hstart; [done|done|]. apply (Hother e' iS' He'). congruence.
  - done.
  - intros x [Hx Hne]%Hfree1. destruct (Hfree x Hx) as [Hd Hs]. split; [done|].
    by rewrite Hstart.
  - intros p Hp Hlt. destruct (decide (p = iS)) as [->|Hne].
    + left. exists e. by rewrite lookup_insert_eq.
    + assert (Hlt' : (p < length (storage ib))%nat).
      { destruct (decide (iS < length (storage ib))%nat) as [Hin|Hge].
        - pose proof (divide_room _ _ _ Hdiv Hlen Hin). lia.
        - assert (iS = length (storage ib)) as Heq by lia.
          destruct (divide_apart _ _ _ Hdiv Hp) as [?|?]; [done|lia|lia]. }
      destruct (Hall p Hp Hlt') as [[e' He']|Hin].
      * left. exists e'. rewrite lookup_insert_ne; [done|].
        intros <-. destruct Hown as [Hnone|Hsome]; congruence.
      * right. apply Hfree1. done.
Qed.

Lemma arrayPop_Some {A} (l : list A) x rest :
  arrayPop l = Some (x, rest) ↔ l = rest ++ [x].
Proof.
  unfold arrayPop. split.
  - destruct (last l) as [y|] eqn:Hlast; [|done]. intros [= <- <-].
    apply last_Some in Hlast as [l' ->]. by rewrite removelast_last.
  - intros ->. by rewrite last_snoc, removelast_last.
Qed.

Lemma arrayPop_None {A} (l : list A) : arrayPop l = None ↔ l = [].
Proof.
  unfold arrayPop. destruct (last l) as [y|] eqn:Hlast.
  - split; [done|]. intros ->. done.
  - split; [|done]. intros _. by apply last_None.
Qed.

(** The place [add] finds for an entity. *)
Lemma add_place e (cs : list (option Component)) ib :
  laidOut ib →
  ∃ (iS : nat) free1,
    add e cs ib =
      MkIndexBase (types ib) (<[e := iS]> (entityISByEntity ib))
        (storeComponents iS (length (types ib)) cs
           (arraySet CUndefined (storage ib) iS (CEntity e)))
        free1 (if addVerObserved ib then addVer ib + 1 else addVer ib) false
        (remVer ib) (remVerObserved ib) ∧
    Nat.divide (recordLength ib) iS ∧ (iS ≤ length (storage ib))%nat ∧
    (∀ e' iS', entityISByEntity ib !! e' = Some iS' → e' ≠ e → iS' ≠ iS) ∧
    (entityISByEntity ib !! e = None ∨ entityISByEntity ib !! e = Some iS) ∧
    NoDup free1 ∧ (∀ x, x ∈ free1 ↔ x ∈ freeISs ib ∧ x ≠ iS) ∧
    (entityISByEntity ib !! e = None → freeISs ib = [] → iS = length (storage ib)) ∧
    (entityISByEntity ib !! e = None → freeISs ib ≠ [] → freeISs ib = free1 ++ [iS]) ∧
    (is_Some (entityISByEntity ib !! e) → free1 = freeISs ib).
Proof.
  intros Hlaid. pose proof Hlaid as (Hlen & Hmem & Hnd & Hfree & Hall).
  unfold add. destruct (entityISByEntity ib !! e) as [iS|] eqn:He.
  - exists iS, (freeISs ib). destruct (Hmem e iS He) as [Hd Hs].
    split; [done|]. split; [done|]. split; [apply lookup_lt_Some in Hs; lia|].
    split_and!.
    + intros e' iS' He' Hne ->. apply Hne. symmetry. by eapply laidOut_inj.
    + by right.
    + done.
    + intros x. split; [|by intros []]. intros Hx. split; [done|]. intros ->.
      by eapply laidOut_free_not_member.
    + done.
    + done.
    + done.
  - destruct (arrayPop (freeISs ib)) as [[iS rest]|] eqn:Hpop.
    + apply arrayPop_Some in Hpop. exists iS, rest.
      assert (Hin : iS ∈ freeISs ib) by (rewrite Hpop; apply elem_of_app; right; left).
      destruct (Hfree iS Hin) as [Hd Hs]. rewrite Hpop in Hnd.
      apply NoDup_app in Hnd as (Hnd1 & Hdisj & _).
      split; [done|]. split; [done|]. split; [apply lookup_lt_Some in Hs; lia|].
      split_and!.
      * intros e' iS' He' _ ->. by eapply laidOut_free_not_member.
      * by left.
      * done.
      * intros x. rewrite Hpop, elem_of_app, list_elem_of_singleton. split.
        -- intros Hx. split; [by left|]. intros ->. apply (Hdisj iS Hx). left.
        -- intros [[?|?] ?]; done.
      * intros _ Hempty. rewrite Hpop in Hempty. by destruct rest.
      * done.
      * by intros [].
    + apply arrayPop_None in Hpop. exists (length (storage ib)), (freeISs ib).
      split; [done|]. split; [done|]. split; [done|].
      split_and!.
      * intros e' iS' He' _ Heq. destruct (Hmem e' iS' He') as [_ Hs].
        apply lookup_lt_Some in Hs. lia.
      * by left.
      * done.
      * intros x. rewrite Hpop. split; [by intros ?%elem_of_nil|by intros [?%elem_of_nil _]].
      * done.
      * done.
      * by intros [].
Qed.

Lemma add_laidOut e (cs : list (option Component)) ib : laidOut ib → laidOut (add e cs ib).
Proof.
  intros Hlaid.
  destruct (add_place e cs ib Hlaid)
    as (iS & free1 & -> & Hd & Hle & Hother & Hown & Hnd1 & Hfree1 & _).
  by apply place_laidOut.
Qed.

Lemma remove_laidOut e ib : laidOut ib → laidOut (IndexDefs.remove e ib).2.
Proof.
  intros Hlaid. pose proof Hlaid as (Hlen & Hmem & Hnd & Hfree & Hall).
  unfold IndexDefs.remove. destruct (entityISByEntity ib !! e) as [iS|] eqn:He; [|done].
  destruct (Hmem e iS He) as [Hd Hs]. pose proof (lookup_lt_Some _ _ _ Hs) as Hlt.
  destruct (write_record (storage ib) (length (types ib)) iS CUndefined []) as (Hlen' & Hat & _ & Hout);
    [lia|].
  simpl. set (st' := storeComponents _ _ _ _) in *. unfold recordLength in *.
  pose proof (divide_room _ _ _ Hd Hlen Hlt) as Hroom.
  assert (Hstart : ∀ p, Nat.divide (S (length (types ib))) p → p ≠ iS →
            st' !! p = storage ib !! p).
  { intros p Hp Hne. apply Hout. destruct (divide_apart _ _ _ Hd Hp); [done|lia|lia]. }
  split_and!; simpl; unfold recordLength; simpl.
  - by replace (length st') with (length (storage ib)) by lia.
  - intros e' iS'. rewrite lookup_delete. case_decide as Hee; [done|].
    intros He'. destruct (Hmem e' iS' He') as [Hd' Hs']. split; [done|].
    rewrite Hstart; [done|done|]. intros ->. apply Hee. by eapply laidOut_inj.
  - apply NoDup_app. split; [done|]. split; [|apply NoDup_singleton].
    intros x Hx ->%list_elem_of_singleton. by eapply laidOut_free_not_member.
  - intros x [Hx| ->%list_elem_of_singleton]%elem_of_app; [|done].
    destruct (Hfree x Hx) as [Hd' Hs']. split; [done|]. rewrite Hstart; [done|done|].
    intros ->. by eapply laidOut_free_not_member.
  - intros p Hp Hlt'. destruct (decide (p = iS)) as [->|Hne].
    + right. apply elem_of_app. right. left.
    + destruct (Hall p Hp) as [[e' He']|Hin]; [lia| |].
      * left. exists e'. rewrite lookup_delete_ne; [done|]. intros <-. congruence.
      * right. apply elem_of_app. by left.
Qed.

Lemma emplace_place e type c ib b ib' :
  IndexDefs.emplace e type c ib = Ok (b, ib') →
  (entityISByEntity ib !! e = None ∧ b = false ∧ ib' = ib) ∨
  ∃ (iS iC : nat),
    entityISByEntity ib !! e = Some iS ∧ b = true ∧
    types ib !! iC = Some type ∧ (∀ k t, types ib !! k = Some t → (k < iC)%nat → t ≠ type) ∧
    ib' = MkIndexBase (types ib) (entityISByEntity ib)
            (arraySet CUndefined (storage ib) (iS + iC + 1)%nat (CComponent c))
            (freeISs ib) (addVer ib) (addVerObserved ib) (remVer ib) (remVerObserved ib).
Proof.
  unfold IndexDefs.emplace. destruct (entityISByEntity ib !! e) as [iS|].
  - destruct (list_find _ _) as [[iC t]|] eqn:Hfind; [|done]. intros [= <- <-]. right.
    apply list_find_Some in Hfind as (Hat & -> & Hbefore). exists iS, iC.
    split_and!; try done.
  - intros [= <- <-]. by left.
Qed.

Lemma emplace_laidOut e type c ib b ib' :
  laidOut ib → IndexDefs.emplace e type c ib = Ok (b, ib') → laidOut ib'.
Proof.
  intros Hlaid Hemplace. pose proof Hlaid as (Hlen & Hmem & Hnd & Hfree & Hall).
  destruct (emplace_place _ _ _ _ _ _ Hemplace)
    as [(_ & _ & ->)|(iS & iC & He & _ & HiC & _ & ->)]; [done|].
  destruct (Hmem e iS He) as [Hd Hs]. pose proof (lookup_lt_Some _ _ _ Hs) as Hlt.
  pose proof (lookup_lt_Some _ _ _ HiC) as HiC'.
  unfold recordLength in *. pose proof (divide_room _ _ _ Hd Hlen Hlt) as Hroom.
  destruct (arraySet_spec (storage ib) (iS + iC + 1) (CComponent c)) as [Hlen' Hlook]; [lia|].
  assert (Hstart : ∀ p, Nat.divide (S (length (types ib))) p →
            arraySet CUndefined (storage ib) (iS + iC + 1) (CComponent c) !! p = storage ib !! p).
  { intros p Hp. rewrite Hlook, decide_False; [done|]. intros ->.
    destruct (decide (iS + iC + 1 = iS)%nat); [lia|].
    destruct (divide_apart _ _ _ Hd Hp); [done|lia|lia]. }
  split_and!; simpl; unfold recordLength; simpl.
  - by replace (length (arraySet _ _ _ _)) with (length (storage ib)) by lia.
  - intros e' iS' He'. destruct (Hmem e' iS' He'). split; [done|]. by rewrite Hstart.
  - done.
  - intros x Hx. destruct (Hfree x Hx). split; [done|]. by rewrite Hstart.
  - intros p Hp Hlt'. apply Hall; [done|lia].
Qed.

Lemma observe_laidOut ib :
  laidOut ib → laidOut (observeAddVer ib).2 ∧ laidOut (observeRemVer ib).2.
Proof. intros Hlaid. split; exact Hlaid. Qed.

Lemma newIndexIteratorBase_laidOut ib ns :
  laidOut ib → laidOut (newIndexIteratorBase ib ns).2.
Proof. intros Hlaid. exact Hlaid. Qed.

Lemma storageAt_nat st (n : nat) : storageAt st (Z.of_nat n) = default CUndefined (st !! n).
Proof. unfold storageAt. rewrite decide_True by lia. by rewrite Nat2Z.id. Qed.

Lemma cellsAt_ext st st' (iS nC : nat) (f : nat → Cell) :
  (∀ iC, (iC < nC)%nat → default CUndefined (st !! (iS + iC + 1)%nat) = f iC) →
  cellsAt st iS nC = f <$> seq 0 nC.
Proof.
  intros Hcells. unfold cellsAt. apply list_fmap_ext. intros i iC [-> Hlt]%lookup_seq.
  simpl. rewrite <-Hcells by done.
  replace (Z.of_nat iS + Z.of_nat i + 1) with (Z.of_nat (iS + i + 1)) by lia.
  apply storageAt_nat.
Qed.

Lemma cellsAt_same st st' (iS nC : nat) :
  (∀ iC, (iC < nC)%nat → st' !! (iS + iC + 1)%nat = st !! (iS + iC + 1)%nat) →
  cellsAt st' iS nC = cellsAt st iS nC.
Proof.
  intros Hcells. unfold cellsAt at 2. symmetry. rewrite (cellsAt_ext st' st' iS nC
    (λ iC : nat, storageAt st (Z.of_nat iS + Z.of_nat iC + 1))); [done|].
  intros iC HiC. rewrite Hcells by done.
  replace (Z.of_nat iS + Z.of_nat iC + 1) with (Z.of_nat (iS + iC + 1)) by lia.
  symmetry. apply storageAt_nat.
Qed.

Lemma rowOf_cellsAt ib e :
  rowOf ib e = (λ iS, cellsAt (storage ib) iS (length (types ib))) <$> entityISByEntity ib !! e.
Proof. done. Qed.

(** [add] stores the components given with the entity, [undefined] where
    the array of components is too short, and leaves the records of the
    other entities alone. *)
Lemma add_row e (cs : list (option Component)) ib e' :
  laidOut ib →
  rowOf (add e cs ib) e' =
    if decide (e' = e)
    then Some ((λ iC : nat, cellOf (mjoin (cs !! iC))) <$> seq 0 (length (types ib)))
    else rowOf ib e'.
Proof.
  intros Hlaid. pose proof Hlaid as (Hlen & Hmem & Hnd & Hfree & Hall).
  destruct (add_place e cs ib Hlaid)
    as (iS & free1 & -> & Hd & Hle & Hother & Hown & Hnd1 & Hfree1 & _).
  destruct (write_record (storage ib) (length (types ib)) iS (CEntity e) cs Hle)
    as (Hlen' & Hat & Hin & Hout).
  rewrite !rowOf_cellsAt. simpl. rewrite lookup_insert. case_decide as He.
  - subst e'. rewrite decide_True by done. simpl. f_equal.
    apply (cellsAt_ext _ (storage ib)). intros iC HiC. by rewrite Hin.
  - rewrite decide_False by congruence.
    destruct (entityISByEntity ib !! e') as [iS'|] eqn:He'; [|done]. simpl. f_equal.
    apply cellsAt_same. intros iC HiC. apply Hout.
    destruct (Hmem e' iS' He') as [Hd' _]. unfold recordLength in *.
    destruct (divide_disjoint _ _ _ Hd' Hd); [|lia|lia]. apply (Hother e' iS' He'). congruence.
Qed.

(** [remove] forgets the record of the entity and leaves the records of
    the other entities alone. *)
Lemma remove_row e ib e' :
  laidOut ib →
  rowOf (IndexDefs.remove e ib).2 e' = if decide (e' = e) then None else rowOf ib e'.
Proof.
  intros Hlaid. pose proof Hlaid as (Hlen & Hmem & Hnd & Hfree & Hall).
  unfold IndexDefs.remove. destruct (entityISByEntity ib !! e) as [iS|] eqn:He.
  - destruct (Hmem e iS He) as [Hd Hs]. pose proof (lookup_lt_Some _ _ _ Hs) as Hlt.
    destruct (write_record (storage ib) (length (types ib)) iS CUndefined [])
      as (Hlen' & Hat & _ & Hout); [lia|].
    rewrite !rowOf_cellsAt. simpl. rewrite lookup_delete. case_decide as Hee.
    + subst. by rewrite decide_True.
    + rewrite decide_False by congruence.
      destruct (entityISByEntity ib !! e') as [iS'|] eqn:He'; [|done]. simpl. f_equal.
      apply cellsAt_same. intros iC HiC. apply Hout.
      destruct (Hmem e' iS' He') as [Hd' _]. unfold recordLength in *.
      destruct (divide_disjoint _ _ _ Hd' Hd); [|lia|lia].
      intros ->. apply Hee. by eapply laidOut_inj.
  - simpl. case_decide as Hee; [|done]. subst. unfold rowOf. by rewrite He.
Qed.

(** [emplace] replaces the component at the place of its type in the
    record of the entity. *)
Lemma emplace_row e type c ib b ib' e' :
  laidOut ib → IndexDefs.emplace e type c ib = Ok (b, ib') →
  rowOf ib' e' =
    if decide (e' = e)
    then (λ row, match list_find (λ t, t = type) (types ib) with
                 | Some (iC, _) => <[iC := CComponent c]> row
                 | None => row
                 end) <$> rowOf ib e
    else rowOf ib e'.
Proof.
  intros Hlaid Hemplace. pose proof Hlaid as (Hlen & Hmem & Hnd & Hfree & Hall).
  destruct (emplace_place _ _ _ _ _ _ Hemplace)
    as [(He & _ & ->)|(iS & iC & He & _ & HiC & Hfirst & ->)].
  { case_decide; [|done]. subst. unfold rowOf. by rewrite He. }
  destruct (Hmem e iS He) as [Hd Hs]. pose proof (lookup_lt_Some _ _ _ Hs) as Hlt.
  pose proof (lookup_lt_Some _ _ _ HiC) as HiC'.
  unfold recordLength in *. pose proof (divide_room _ _ _ Hd Hlen Hlt) as Hroom.
  destruct (arraySet_spec (storage ib) (iS + iC + 1) (CComponent c)) as [Hlen' Hlook]; [lia|].
  assert (Hfind : list_find (λ t, t = type) (types ib) = Some (iC, type)).
  { apply list_find_Some. split_and!; done. }
  rewrite Hfind. rewrite !rowOf_cellsAt. simpl. case_decide as Hee.
  - subst e'. rewrite He. simpl. f_equal.
    rewrite (cellsAt_ext _ (storage ib) iS (length (types ib))
               (λ k : nat, if decide (k = iC) then CComponent c
                           else storageAt (storage ib) (Z.of_nat iS + Z.of_nat k + 1))).
    + unfold cellsAt. apply list_eq. intros k.
      destruct (decide (k = iC)) as [->|Hk].
      * rewrite list_lookup_insert_eq by (rewrite length_fmap, length_seq; lia).
        rewrite list_lookup_fmap, lookup_seq_lt by lia. simpl. by rewrite decide_True.
      * rewrite list_lookup_insert_ne by done. rewrite !list_lookup_fmap.
        destruct (seq 0 (length (types ib)) !! k) as [k'|] eqn:Hseq; [|done].
        apply lookup_seq in Hseq as [-> _]. simpl. by rewrite decide_False.
    + intros k Hk. rewrite Hlook. destruct (decide (k = iC)) as [->|Hne].
      * by rewrite decide_True.
      * rewrite decide_False by lia.
        replace (Z.of_nat iS + Z.of_nat k + 1) with (Z.of_nat (iS + k + 1)) by lia.
        by rewrite storageAt_nat.
  - destruct (entityISByEntity ib !! e') as [iS'|] eqn:He'; [|done]. simpl. f_equal.
    apply cellsAt_same. intros k Hk. rewrite Hlook, decide_False; [done|].
    destruct (Hmem e' iS' He') as [Hd' _].
    assert (iS' ≠ iS) by (intros ->; apply Hee; by eapply laidOut_inj).
    destruct (divide_disjoint _ _ _ Hd' Hd); [done|lia|lia].
Qed.

End index_storage.

Section index_iteration.
Import IndexDefs IndexIteratorDefs.
Implicit Types (ib : IndexBase) (c : IndexCursor).

Lemma rowAt_cell ib (j : nat) :
  rowAt ib j =
    match storage ib !! (j * recordLength ib)%nat with
    | None | Some CUndefined => None
    | Some cell =>
        Some (Some cell, cellsAt (storage ib) (j * recordLength ib) (length (types ib)))
    end.
Proof. done. Qed.

(** The loop of [next] stops at the next record that does not start with
    [undefined], or at the end of the storage. *)
Lemma seek_spec ib (k : nat) : ∀ (d j fuel : nat),
  length (storage ib) = (k * recordLength ib)%nat →
  (j + d = k)%nat → (d < fuel)%nat →
  (∃ (j' : nat) cell,
     (j ≤ j' < k)%nat ∧ (∀ i, (j ≤ i < j')%nat → rowAt ib i = None) ∧
     storage ib !! (j' * recordLength ib)%nat = Some cell ∧ cell ≠ CUndefined ∧
     seek fuel (storage ib) (length (types ib))
       (Z.of_nat (j * recordLength ib) - Z.of_nat (recordLength ib)) =
       Some (Z.of_nat (j' * recordLength ib), Some cell)) ∨
  ((∀ i, (j ≤ i < k)%nat → rowAt ib i = None) ∧
   seek fuel (storage ib) (length (types ib))
     (Z.of_nat (j * recordLength ib) - Z.of_nat (recordLength ib)) =
     Some (Z.of_nat (k * recordLength ib), None)).
Proof.
  induction d as [|d IH]; intros j fuel Hlen Hjd Hfuel.
  - right. split; [intros i Hi; lia|]. destruct fuel as [|fuel]; [lia|]. simpl.
    assert (j = k) as -> by lia. unfold recordLength in *.
    rewrite decide_True by lia. do 2 f_equal. lia.
  - destruct fuel as [|fuel]; [lia|]. simpl. unfold recordLength in *.
    set (r := S (length (types ib))) in *.
    replace (Z.of_nat (j * r) - Z.of_nat r + 1 + Z.of_nat (length (types ib)))
      with (Z.of_nat (j * r)) by (unfold r; lia).
    assert (Hlt : (j * r < length (storage ib))%nat) by (rewrite Hlen; unfold r; nia).
    rewrite decide_False by lia. rewrite storageAt_nat.
    destruct (lookup_lt_is_Some_2 _ _ Hlt) as [cell Hcell]. rewrite Hcell. simpl.
    assert (Hnext : Z.of_nat (j * r) = Z.of_nat (S j * r) - Z.of_nat r) by lia.
    assert (Hfound : cell ≠ CUndefined →
      ∃ (j' : nat) cell',
        (j ≤ j' < k)%nat ∧ (∀ i, (j ≤ i < j')%nat → rowAt ib i = None) ∧
        storage ib !! (j' * r)%nat = Some cell' ∧ cell' ≠ CUndefined ∧
        Some (Z.of_nat (j * r), Some cell) = Some (Z.of_nat (j' * r), Some cell')).
    { intros Hdef. exists j, cell. split; [lia|]. split; [intros i Hi; lia|]. done. }
    destruct cell as [|en|comp]; [|left; by apply Hfound..].
    clear Hfound.
    + rewrite Hnext. destruct (IH (S j) fuel Hlen) as
        [(j' & cell' & Hj' & Hnone & Hcell' & Hdef & Hseek)|[Hnone Hseek]]; [lia|lia| |].
      * left. exists j', cell'. split; [lia|]. split; [|done].
        intros i Hi. destruct (decide (i = j)) as [->|Hne]; [|apply Hnone; lia].
        rewrite rowAt_cell. unfold recordLength. fold r. by rewrite Hcell.
      * right. split; [|done].
        intros i Hi. destruct (decide (i = j)) as [->|Hne]; [|apply Hnone; lia].
        rewrite rowAt_cell. unfold recordLength. fold r. by rewrite Hcell.
Qed.

Lemma omap_seq_none ib (j n : nat) :
  (∀ i, (j ≤ i < j + n)%nat → rowAt ib i = None) → omap (rowAt ib) (seq j n) = [].
Proof.
  revert j. induction n as [|n IH]; intros j Hnone; [done|].
  simpl. rewrite Hnone by lia. apply IH. intros i Hi. apply Hnone. lia.
Qed.

(** The rounds of the loop see the records of the storage. *)
Lemma rounds_records ib (k : nat) : ∀ (d j calls fuel : nat) c,
  length (storage ib) = (k * recordLength ib)%nat →
  length (names (iterator c)) = length (types ib) →
  iS (iterator c) = Z.of_nat (j * recordLength ib) - Z.of_nat (recordLength ib) →
  (j + d = k)%nat → (d < calls)%nat → (d < fuel)%nat →
  rounds calls fuel c ib = Some (omap (rowAt ib) (seq j d)).
Proof.
  induction d as [d IH] using lt_wf_ind. intros j calls fuel c Hlen Hnames HiS Hjd Hcalls Hfuel.
  destruct calls as [|calls]; [lia|]. simpl. unfold next. rewrite Hnames, HiS.
  destruct (seek_spec ib k d j fuel Hlen Hjd Hfuel)
    as [(j' & cell & Hj' & Hnone & Hcell & Hdef & ->)|[Hnone ->]].
  - set (c' := MkIndexCursor _ _ _).
    assert (Hrest : rounds calls fuel c' ib = Some (omap (rowAt ib) (seq (S j') (k - S j')))).
    { apply IH; [lia|done|done| |lia|lia|lia]. unfold c'. cbn [iterator iS setIS]. lia. }
    rewrite Hrest.
    + simpl. f_equal.
      replace d with ((j' - j) + S (k - S j'))%nat by lia.
      rewrite seq_app, omap_app.
      rewrite (omap_seq_none ib j (j' - j)) by (intros i Hi; apply Hnone; lia).
      replace (j + (j' - j))%nat with j' by lia. simpl.
      rewrite rowAt_cell, Hcell. by destruct cell.
  - f_equal. symmetry. apply omap_seq_none. intros i Hi. apply Hnone. lia.
Qed.

(** [for (it.start(); it.next(); )] visits the records of the storage
    that do not start with [undefined], in their order. *)
Lemma iterate_records ib c (calls fuel : nat) :
  laidOut ib → length (names (iterator c)) = length (types ib) →
  (length (storage ib) / recordLength ib < calls)%nat →
  (length (storage ib) / recordLength ib < fuel)%nat →
  iterate calls fuel c ib = Some (records ib).
Proof.
  intros ([k Hlen] & _) Hnames Hcalls Hfuel. unfold iterate, records.
  assert (Hk : (length (storage ib) / recordLength ib = k)%nat).
  { rewrite Hlen. by apply Nat.div_mul. }
  rewrite Hk in *. apply (rounds_records ib k); try done; try lia.
  simpl. unfold recordLength. rewrite Hnames. lia.
Qed.

(** The records the loop sees are the entities of the index, each one
    once, with the components the index stores for it. *)
Lemma records_members ib :
  laidOut ib →
  NoDup (fst <$> records ib) ∧
  ∀ x fs, (x, fs) ∈ records ib ↔ ∃ e, x = Some (CEntity e) ∧ rowOf ib e = Some fs.
Proof.
  intros Hlaid. pose proof Hlaid as ([k Hlen] & Hmem & Hnd & Hfree & Hall).
  assert (Hk : (length (storage ib) / recordLength ib = k)%nat).
  { rewrite Hlen. by apply Nat.div_mul. }
  assert (Hrow : ∀ j x fs, rowAt ib j = Some (x, fs) ↔
            ∃ e, entityISByEntity ib !! e = Some (j * recordLength ib)%nat ∧
                 x = Some (CEntity e) ∧
                 fs = cellsAt (storage ib) (j * recordLength ib) (length (types ib))).
  { intros j x fs. rewrite rowAt_cell. split.
    - destruct (storage ib !! (j * recordLength ib)%nat) as [cell|] eqn:Hcell; [|done].
      destruct (Hall (j * recordLength ib)%nat) as [[e He]|Hin].
      + by exists j.
      + by eapply lookup_lt_Some.
      + destruct (Hmem e _ He) as [_ Hs]. rewrite Hcell in Hs. injection Hs as ->.
        intros [= <- <-]. by exists e.
      + destruct (Hfree _ Hin) as [_ Hs]. rewrite Hcell in Hs. by injection Hs as ->.
    - intros (e & He & -> & ->). destruct (Hmem e _ He) as [_ Hs]. by rewrite Hs. }
  unfold records. rewrite Hk. split.
  - assert (Hinj : ∀ j1 j2 x fs1 fs2,
              rowAt ib j1 = Some (x, fs1) → rowAt ib j2 = Some (x, fs2) → j1 = j2).
    { intros j1 j2 x fs1 fs2 (e1 & He1 & -> & _)%Hrow (e2 & He2 & [= <-] & _)%Hrow.
      rewrite He1 in He2. injection He2 as He2. unfold recordLength in He2. nia. }
    assert (Hgen : ∀ l : list nat, NoDup l → NoDup (fst <$> omap (rowAt ib) l)).
    { induction l as [|j l IH]; intros Hl; [constructor|].
      apply NoDup_cons in Hl as [Hj Hl]. simpl.
      destruct (rowAt ib j) as [[x fs]|] eqn:Hj'; [|by apply IH].
      rewrite fmap_cons. apply NoDup_cons. split; [|by apply IH].
      intros ([x' fs'] & Hx & Hin)%list_elem_of_fmap. simpl in Hx. subst x'.
      apply list_elem_of_omap in Hin as (j2 & Hj2 & Hrow2).
      by rewrite (Hinj j j2 x fs fs' Hj' Hrow2) in Hj. }
    apply Hgen, NoDup_seq.
  - intros x fs. rewrite list_elem_of_omap. split.
    + intros (j & _ & (e & He & -> & ->)%Hrow). exists e. split; [done|].
      rewrite rowOf_cellsAt, He. done.
    + intros (e & -> & Hfs). rewrite rowOf_cellsAt in Hfs.
      destruct (entityISByEntity ib !! e) as [iS|] eqn:He; [|done].
      simpl in Hfs. injection Hfs as <-.
      destruct (Hmem e iS He) as [[j ->] Hs]. exists j. split.
      * apply elem_of_seq. apply lookup_lt_Some in Hs. rewrite Hlen in Hs.
        unfold recordLength in *. nia.
      * apply Hrow. by exists e.
Qed.

End index_iteration.

(** Every index of a world that a program reaches has a property that
    a new [IndexBase] has and that the methods of [IndexBase] keep. *)
Section index_property.
Import IndexDefs WorldDefs.
Variable P : IndexBase → Prop.
Hypothesis P_new : ∀ tys, P (IndexDefs.new tys).
Hypothesis P_add : ∀ e cs ib, P ib → P (add e cs ib).
Hypothesis P_emplace : ∀ e type c ib b ib', P ib → IndexDefs.emplace e type c ib = Ok (b, ib') → P ib'.
Hypothesis P_remove : ∀ e ib, P ib → P (IndexDefs.remove e ib).2.
Hypothesis P_observe : ∀ ib ns, P ib → P (newIndexIteratorBase ib ns).2.

Let allP (w : World) : Prop := Forall P (indexes w).

Lemma hoare_withIndex_all {A} i (f : IndexBase → Result (A * IndexBase)) :
  (∀ ib a ib', P ib → f ib = Ok (a, ib') → P ib') →
  hoare allP (withIndex i f) allP.
Proof.
  intros Hf. apply hoare_withIndex. intros w ib a ib' Hall Hib Hfib.
  unfold allP in *. simpl. apply Forall_insert; [done|].
  eapply Hf; [|done]. by eapply Forall_lookup_1.
Qed.

Lemma hoare_add_all i e ecs :
  hoare allP (withIndex i (λ ib, Ok ((), add e ecs ib))) allP.
Proof. apply hoare_withIndex_all. intros ib a ib' Hib [= _ <-]. by apply P_add. Qed.

Lemma hoare_remove_all i e :
  hoare allP (withIndex i (λ ib, Ok ((), (IndexDefs.remove e ib).2))) allP.
Proof. apply hoare_withIndex_all. intros ib a ib' Hib [= _ <-]. by apply P_remove. Qed.

Lemma emplace_all e c : hoare allP (emplace e c) allP.
Proof.
  unfold emplace. unfold_monad.
  apply hoare_getWorld. intros w0 Hinv0.
  destruct (setHas e (entities w0)) eqn:Hlive; simpl.
  - eapply hoare_bind with (R := allP).
    + apply hoare_modify. by intros w ->.
    + intros _. apply hoare_getWorld. intros w1 Hinv1.
      eapply hoare_weaken with (P' := allP); [|by intros ? ->|done].
      destruct (indexesByComponent w1 !! ctor c) as [ixs|]; [|apply hoare_ret].
      apply hoare_forEach. intros i _.
      apply hoare_bind_inv.
      { apply hoare_withIndex_all. intros ib a ib'. apply P_emplace. }
      intros [|]; [apply hoare_ret|].
      apply hoare_getWorld. intros w2 Hinv2.
      eapply hoare_weaken with (P' := allP); [|by intros ? ->|done].
      apply hoare_bind_inv; [apply hoare_liftResult|]. intros ib.
      apply hoare_bind_inv; [apply hoare_liftResult|]. intros [ecs|]; [|apply hoare_ret].
      apply hoare_add_all.
    + done.
  - eapply hoare_weaken; [apply hoare_throw|by intros ? ->|done].
Qed.

Lemma create_all cs : hoare allP (create cs) allP.
Proof.
  unfold create. unfold_monad.
  apply hoare_getWorld. intros w0 Hinv0.
  eapply hoare_weaken with (P' := allP); [|by intros ? ->|done].
  apply hoare_bind_inv; [by apply hoare_modify|]. intros _.
  apply hoare_bind_inv; [by apply hoare_modify|]. intros _.
  apply hoare_bind_inv.
  { apply hoare_forEach. intros c _. by apply hoare_modify. }
  intros _. apply hoare_bind_inv.
  { destruct (adjacentDuplicate None _); [apply hoare_throw|apply hoare_ret]. }
  intros _. apply hoare_bind_inv; [|intros _; apply hoare_ret].
  apply hoare_forEachSubsequenceIndex; [done|].
  intros i. apply hoare_getWorld. intros w1 Hw1.
  eapply hoare_weaken with (P' := allP); [|by intros ? ->|done].
  apply hoare_bind_inv; [apply hoare_liftResult|]. intros ib.
  apply hoare_bind_inv; [apply hoare_liftResult|]. intros ecs.
  apply hoare_add_all.
Qed.

Lemma insert_all e cs : hoare allP (insert e cs) allP.
Proof.
  unfold insert. unfold_monad.
  apply hoare_getWorld. intros w0 Hinv0.
  eapply hoare_weaken with (P' := allP); [|by intros ? ->|done].
  apply hoare_bind_inv.
  { case_decide; [by apply hoare_modify|apply hoare_ret]. }
  intros _. apply hoare_bind_inv; [by apply hoare_modify|].
  intros _. apply hoare_bind_inv; [|intros _; apply hoare_ret].
  apply hoare_forEach. intros c _. apply emplace_all.
Qed.

Lemma remove_all e type : hoare allP (WorldDefs.remove e type) allP.
Proof.
  unfold WorldDefs.remove. unfold_monad.
  apply hoare_getWorld. intros w0 Hinv0.
  eapply hoare_weaken with (P' := allP); [|by intros ? ->|done].
  destruct (tsGet (components w0) type) as [st|]; [|apply hoare_ret].
  apply hoare_bind_inv; [by apply hoare_modify|].
  intros _. destruct (st !! e) as [c|]; [|apply hoare_ret].
  destruct (indexesByComponent w0 !! type) as [ixs|]; [|apply hoare_ret].
  apply hoare_bind_inv; [|intros _; apply hoare_ret].
  apply hoare_forEach. intros i _. apply hoare_remove_all.
Qed.

Lemma destroyCleanup_all e : hoare allP (destroyCleanup e) allP.
Proof.
  unfold destroyCleanup. unfold_monad.
  apply hoare_bind_inv; [by apply hoare_modify|]. intros _.
  apply hoare_getWorld. intros w1 Hinv1.
  eapply hoare_weaken with (P' := allP); [|by intros ? ->|done].
  apply hoare_bind_inv; [by apply hoare_modify|].
  intros _. apply hoare_bind_inv; [|intros _; apply hoare_ret].
  apply hoare_forEachSubsequenceIndex; [done|].
  intros i. apply hoare_remove_all.
Qed.

Lemma registerSingleton_all c : hoare allP (registerSingleton c) allP.
Proof.
  unfold registerSingleton. unfold_monad.
  apply hoare_getWorld. intros w0 Hinv0.
  eapply hoare_weaken with (P' := allP); [|by intros ? ->|done].
  apply hoare_bind_inv; [|intros _; apply emplace_all].
  destruct (negb _); [|apply hoare_ret]. by apply hoare_modify.
Qed.

Lemma removeSingleton_all type : hoare allP (removeSingleton type) allP.
Proof.
  unfold removeSingleton. unfold_monad.
  apply hoare_getWorld. intros w0 Hinv0.
  eapply hoare_weaken with (P' := allP); [|by intros ? ->|done].
  destruct (negb _); [apply hoare_ret|].
  apply hoare_bind_inv; [apply remove_all|intros _; apply hoare_ret].
Qed.

Lemma newIndexIterator_all i ns : hoare allP (newIndexIterator i ns) allP.
Proof.
  unfold newIndexIterator. unfold_monad.
  apply hoare_bind_inv; [|intros it; apply hoare_ret].
  apply hoare_withIndex_all. intros ib a ib' Hib [= _ <-]. exact (P_observe ib ns Hib).
Qed.

Lemma index_all spec : hoare allP (index spec) allP.
Proof.
  unfold index. unfold_monad.
  apply hoare_bind_inv.
  { apply hoare_forEach. intros s _. by apply hoare_modify. }
  intros _.
  destruct (adjacentDuplicate None _) as [dup|]; [apply hoare_throw|].
  apply hoare_getWorld. intros w1 Hinv1.
  eapply hoare_weaken with (P' := allP); [|by intros ? ->|done].
  destruct (TrieDefs.getInTrie (indexByComponents w1) _) as [i|]; [apply newIndexIterator_all|].
  apply hoare_bind_inv.
  { apply hoare_modify. intros w Hw. unfold allP in *. simpl.
    apply Forall_app. split; [done|]. by apply Forall_singleton. }
  intros _. apply hoare_bind_inv; [by apply hoare_modify|].
  intros _. apply hoare_bind_inv.
  { apply hoare_forEach. intros c _. by apply hoare_modify. }
  intros _. apply hoare_bind_inv; [|intros _; apply newIndexIterator_all].
  apply hoare_forEach. intros e _.
  apply hoare_getWorld. intros w2 Hinv2.
  eapply hoare_weaken with (P' := allP); [|by intros ? ->|done].
  apply hoare_bind_inv; [apply hoare_liftResult|]. intros [ecs|]; [|apply hoare_ret].
  apply hoare_add_all.
Qed.

Lemma reachable_all w : reachable w → Forall P (indexes w).
Proof.
  intros [calls ->]. change (allP (run calls new)).
  assert (Hrun : ∀ calls w, allP w → allP (run calls w)).
  { clear calls. induction calls as [|c calls IH]; intros w Hw; [done|].
    simpl. apply IH. destruct c; simpl.
    - by apply create_all.
    - by apply insert_all.
    - by apply emplace_all.
    - by apply remove_all.
    - by apply destroyCleanup_all.
    - by apply index_all.
    - by apply registerSingleton_all.
    - by apply removeSingleton_all. }
  apply Hrun. constructor.
Qed.

End index_property.

Section index_iteration_world.
Import IndexDefs WorldDefs IndexIteratorDefs.

Lemma reachable_laidOut w i ib : reachable w → indexes w !! i = Some ib → laidOut ib.
Proof.
  intros Hreach Hib. eapply Forall_lookup_1; [|exact Hib].
  apply (reachable_all laidOut); [apply laidOut_new|..|done].
  - intros e cs ib'. apply add_laidOut.
  - intros e type c ib1 b ib2. apply emplace_laidOut.
  - intros e ib'. apply remove_laidOut.
  - intros ib' ns. apply newIndexIteratorBase_laidOut.
Qed.

Lemma records_bound ib : laidOut ib → (length (storage ib) / recordLength ib ≤ length (storage ib))%nat.
Proof.
  intros ([k Hlen] & _). rewrite Hlen at 1. rewrite Nat.div_mul by done.
  unfold recordLength in *. nia.
Qed.

(** X27. Iterating an index of a world within the scope of the
    embedding with an iterator whose names differ from each other and
    from the members of the iterator, from [start()] until [next()]
    answers [false], in whatever state the iterator was left before: the
    loop ends, and its rounds see exactly the entities that are in the
    index, each of them once, with the components that the index stores
    for the entity, one for every name of the iterator. *)
Theorem index_iteration_visits_members (w : World) (i : nat) (ib : IndexBase)
    (c : IndexCursor) (calls fuel : nat) :
  inScope w → indexes w !! i = Some ib →
  fieldNames (names (iterator c)) = true →
  length (names (iterator c)) = length (types ib) →
  (length (storage ib) < calls)%nat → (length (storage ib) < fuel)%nat →
  ∃ rs, iterate calls fuel c ib = Some rs ∧
    NoDup (fst <$> rs) ∧
    (∀ e, inIndex e i w = true ↔ Some (CEntity e) ∈ fst <$> rs) ∧
    (∀ x fs, (x, fs) ∈ rs →
       ∃ e, x = Some (CEntity e) ∧ rowOf ib e = Some fs ∧
            length fs = length (names (iterator c))).
Proof.
  intros Hreach%inScope_reachable Hib _ Hnames Hcalls Hfuel.
  pose proof (reachable_laidOut w i ib Hreach Hib) as Hlaid.
  pose proof (records_bound ib Hlaid) as Hbound.
  destruct (records_members ib Hlaid) as [Hnd Hmem].
  exists (records ib). split; [apply iterate_records; [done|done|lia|lia]|].
  split; [done|]. split.
  - intros e. unfold inIndex. rewrite Hib, bool_decide_eq_true. split.
    + intros [iS He]. apply list_elem_of_fmap.
      exists (Some (CEntity e), cellsAt (storage ib) iS (length (types ib))). split; [done|].
      apply Hmem. exists e. split; [done|]. by rewrite rowOf_cellsAt, He.
    + intros ([x fs] & Hx & (e' & -> & Hrow)%Hmem)%list_elem_of_fmap.
      simpl in Hx. injection Hx as ->. rewrite rowOf_cellsAt in Hrow.
      by destruct (entityISByEntity ib !! e').
  - intros x fs (e & -> & Hrow)%Hmem. exists e. split; [done|]. split; [done|].
    rewrite rowOf_cellsAt in Hrow. destruct (entityISByEntity ib !! e); [|done].
    simpl in Hrow. injection Hrow as <-. unfold cellsAt.
    by rewrite length_fmap, length_seq.
Qed.

(** X28. The methods of [IndexBase] on an index whose storage is laid
    out in records keep it so, and they act on the components stored for
    the entities as on a map: [add] stores the components given for the
    entity, [undefined] where the array is too short; [emplace] replaces
    the component at the place of the type, answers [false] without a
    change for an entity that is not in the index, and never touches
    another entity, and throws for an entity of the index and a type that
    is not one of the index; [remove] forgets the entity. *)
Theorem index_rows (ib : IndexBase) (e : Z) :
  laidOut ib →
  (∀ cs, laidOut (add e cs ib) ∧
     ∀ e', rowOf (add e cs ib) e' =
             if decide (e' = e)
             then Some ((λ iC : nat, cellOf (mjoin (cs !! iC))) <$> seq 0 (length (types ib)))
             else rowOf ib e') ∧
  (∀ type c b ib', IndexDefs.emplace e type c ib = Ok (b, ib') →
     laidOut ib' ∧ b = bool_decide (is_Some (rowOf ib e)) ∧
     ∀ e', rowOf ib' e' =
             if decide (e' = e)
             then (λ row, match list_find (λ t, t = type) (types ib) with
                          | Some (iC, _) => <[iC := CComponent c]> row
                          | None => row
                          end) <$> rowOf ib e
             else rowOf ib e') ∧
  (∀ type c, is_Some (rowOf ib e) → type ∉ types ib →
     IndexDefs.emplace e type c ib = Throw (TypeNotInIndex type)) ∧
  (laidOut (IndexDefs.remove e ib).2 ∧
   (IndexDefs.remove e ib).1 = bool_decide (is_Some (rowOf ib e)) ∧
   ∀ e', rowOf (IndexDefs.remove e ib).2 e' = if decide (e' = e) then None else rowOf ib e').
Proof.
  intros Hlaid.
  assert (Hsome : is_Some (rowOf ib e) ↔ is_Some (entityISByEntity ib !! e)).
  { rewrite rowOf_cellsAt. by rewrite fmap_is_Some. }
  split_and!.
  - intros cs. split; [by apply add_laidOut|]. intros e'. by apply add_row.
  - intros type c b ib' Hemplace. split; [by eapply emplace_laidOut|]. split.
    + destruct (emplace_place _ _ _ _ _ _ Hemplace)
        as [(He & -> & _)|(iS & iC & He & -> & _)]; symmetry.
      * apply bool_decide_eq_false. rewrite Hsome, He. by intros [].
      * apply bool_decide_eq_true. rewrite Hsome, He. by eexists.
    + intros e'. by eapply emplace_row.
  - intros type c [iS He]%Hsome Hty. unfold IndexDefs.emplace. rewrite He.
    destruct (list_find _ _) as [[iC t]|] eqn:Hfind; [|done].
    apply list_find_Some in Hfind as (Hat & -> & _).
    destruct Hty. by eapply list_elem_of_lookup_2.
  - by apply remove_laidOut.
  - unfold IndexDefs.remove. destruct (entityISByEntity ib !! e) eqn:He; simpl; symmetry.
    + apply bool_decide_eq_true. apply Hsome. by eexists.
    + apply bool_decide_eq_false. intros Hrow%Hsome. by destruct Hrow.
  - intros e'. by apply remove_row.
Qed.

(** The storage of an [IndexBase] never shrinks: [remove] keeps
    its length and puts the record of the entity on the free list; [add]
    of an entity that is not in the index takes the record freed last,
    and only with an empty free list it makes the storage one record
    longer. *)
Theorem index_storage_reuse (ib : IndexBase) (e : Z) (cs : list (option Component)) :
  laidOut ib →
  length (storage (IndexDefs.remove e ib).2) = length (storage ib) ∧
  (∀ iS, entityISByEntity ib !! e = Some iS →
     freeISs (IndexDefs.remove e ib).2 = freeISs ib ++ [iS]) ∧
  (is_Some (entityISByEntity ib !! e) →
     length (storage (add e cs ib)) = length (storage ib) ∧
     entityISByEntity (add e cs ib) !! e = entityISByEntity ib !! e) ∧
  (entityISByEntity ib !! e = None →
     match last (freeISs ib) with
     | Some iS =>
         length (storage (add e cs ib)) = length (storage ib) ∧
         entityISByEntity (add e cs ib) !! e = Some iS ∧
         freeISs (add e cs ib) = removelast (freeISs ib)
     | None =>
         length (storage (add e cs ib)) = (length (storage ib) + recordLength ib)%nat ∧
         entityISByEntity (add e cs ib) !! e = Some (length (storage ib))
     end).
Proof.
  intros Hlaid. pose proof Hlaid as (Hlen & Hmem & Hnd & Hfree & Hall).
  assert (Hwrite : ∀ (iS : nat) x cs', Nat.divide (recordLength ib) iS →
            (iS < length (storage ib))%nat →
            length (storeComponents iS (length (types ib)) cs'
                      (arraySet CUndefined (storage ib) iS x)) = length (storage ib)).
  { intros iS x cs' Hd Hlt.
    destruct (write_record (storage ib) (length (types ib)) iS x cs') as (Hlen' & _); [lia|].
    unfold recordLength in *. pose proof (divide_room _ _ _ Hd Hlen Hlt). lia. }
  split_and!.
  - unfold IndexDefs.remove. destruct (entityISByEntity ib !! e) as [iS|] eqn:He; [|done].
    simpl. destruct (Hmem e iS He) as [Hd Hs]. apply Hwrite; [done|].
    by eapply lookup_lt_Some.
  - intros iS He. unfold IndexDefs.remove. by rewrite He.
  - intros [iS He]. unfold add. rewrite He. simpl. rewrite lookup_insert_eq.
    destruct (Hmem e iS He) as [Hd Hs]. split; [|done]. apply Hwrite; [done|].
    by eapply lookup_lt_Some.
  - intros He. unfold add, arrayPop. rewrite He.
    destruct (last (freeISs ib)) as [iS|] eqn:Hlast; simpl; rewrite lookup_insert_eq.
    + split; [|done]. apply last_Some_elem_of in Hlast. destruct (Hfree iS Hlast) as [Hd Hs].
      apply Hwrite; [done|]. by eapply lookup_lt_Some.
    + split; [|done].
      destruct (write_record (storage ib) (length (types ib)) (length (storage ib))
                  (CEntity e) cs) as (Hlen' & _); [lia|].
      rewrite Hlen'. unfold recordLength. lia.
Qed.

End index_iteration_world.

Section index_iteration_witnesses.
Import IndexDefs WorldDefs IndexIteratorDefs.

(** Three entities in the index on [A] and [B], the second of them
    destroyed; an iterator that was left in the middle of the storage. *)
Lemma index_iteration_visits_members_witness :
  let mk := λ t p, MkComponent t p false in
  let w := run [CallIndex [("a", "A"); ("b", "B")]%string;
                CallCreate [mk "A" 1; mk "B" 2]%string;
                CallCreate [mk "B" 4; mk "A" 3]%string;
                CallCreate [mk "A" 5; mk "B" 6]%string;
                CallDestroy 1] new in
  let ib := default (IndexDefs.new []) (indexes w !! 0%nat) in
  let c := MkIndexCursor (MkIndexIterator ["a"; "b"]%string 3 0 0) None [] in
  inScope w ∧ indexes w !! 0%nat = Some ib ∧
  fieldNames (names (iterator c)) = true ∧
  length (names (iterator c)) = length (types ib) ∧
  (length (storage ib) < 10)%nat ∧
  ∃ rs, iterate 10 10 c ib = Some rs ∧
    NoDup (fst <$> rs) ∧
    (∀ e, inIndex e 0 w = true ↔ Some (CEntity e) ∈ fst <$> rs) ∧
    (∀ x fs, (x, fs) ∈ rs →
       ∃ e, x = Some (CEntity e) ∧ rowOf ib e = Some fs ∧
            length fs = length (names (iterator c))).
Proof.
  intros mk w ib c.
  assert (Hreach : inScope w) by (eexists; split; [|reflexivity]; vm_compute; reflexivity).
  assert (Hib : indexes w !! 0%nat = Some ib) by reflexivity.
  assert (Hfields : fieldNames (names (iterator c)) = true) by (vm_compute; reflexivity).
  assert (Hnames : length (names (iterator c)) = length (types ib)) by reflexivity.
  assert (Hlen : (length (storage ib) < 10)%nat) by (vm_compute; lia).
  split; [exact Hreach|]. split; [exact Hib|]. split; [exact Hfields|].
  split; [exact Hnames|]. split; [exact Hlen|].
  exact (index_iteration_visits_members w 0 ib c 10 10 Hreach Hib Hfields Hnames Hlen Hlen).
Defined.

(** The index on [A] and [B] with entity 0 in it. *)
Lemma index_rows_witness :
  let w := run [CallIndex [("a", "A"); ("b", "B")]%string;
                CallCreate [MkComponent "A" 1 false; MkComponent "B" 2 false]] new in
  let ib := default (IndexDefs.new []) (indexes w !! 0%nat) in
  let e := 0 in
  laidOut ib ∧
  rowOf ib e = Some [CComponent (MkComponent "A" 1 false); CComponent (MkComponent "B" 2 false)] ∧
  (∀ cs, laidOut (add e cs ib) ∧
     ∀ e', rowOf (add e cs ib) e' =
             if decide (e' = e)
             then Some ((λ iC : nat, cellOf (mjoin (cs !! iC))) <$> seq 0 (length (types ib)))
             else rowOf ib e') ∧
  (∀ type c b ib', IndexDefs.emplace e type c ib = Ok (b, ib') →
     laidOut ib' ∧ b = bool_decide (is_Some (rowOf ib e)) ∧
     ∀ e', rowOf ib' e' =
             if decide (e' = e)
             then (λ row, match list_find (λ t, t = type) (types ib) with
                          | Some (iC, _) => <[iC := CComponent c]> row
                          | None => row
                          end) <$> rowOf ib e
             else rowOf ib e') ∧
  (∀ type c, is_Some (rowOf ib e) → type ∉ types ib →
     IndexDefs.emplace e type c ib = Throw (TypeNotInIndex type)) ∧
  (laidOut (IndexDefs.remove e ib).2 ∧
   (IndexDefs.remove e ib).1 = bool_decide (is_Some (rowOf ib e)) ∧
   ∀ e', rowOf (IndexDefs.remove e ib).2 e' = if decide (e' = e) then None else rowOf ib e').
Proof.
  intros w ib e.
  assert (Hlaid : laidOut ib).
  { apply (reachable_laidOut w 0 ib); [eexists|]; reflexivity. }
  split; [exact Hlaid|]. split; [reflexivity|].
  exact (index_rows ib e Hlaid).
Defined.

(** Entity 0 is removed from the index and entity 7 takes its record. *)
Lemma index_storage_reuse_witness :
  let w := run [CallIndex [("a", "A")]%string;
                CallCreate [MkComponent "A" 1 false]; CallCreate [MkComponent "A" 2 false]] new in
  let ib := default (IndexDefs.new []) (indexes w !! 0%nat) in
  let ib' := (IndexDefs.remove 0 ib).2 in
  let cs := [Some (MkComponent "A" 3 false)] in
  laidOut ib' ∧ entityISByEntity ib' !! 7 = None ∧
  length (storage (add 7 cs ib')) = length (storage ib) ∧
  entityISByEntity (add 7 cs ib') !! 7 = entityISByEntity ib !! 0.
Proof.
  intros w ib ib' cs.
  assert (Hlaid : laidOut ib').
  { apply remove_laidOut. apply (reachable_laidOut w 0 ib); [eexists|]; reflexivity. }
  assert (Hnew : entityISByEntity ib' !! 7 = None) by reflexivity.
  split; [exact Hlaid|]. split; [exact Hnew|].
  pose proof (proj2 (proj2 (proj2 (index_storage_reuse ib' 7 cs Hlaid))) Hnew) as Hadd.
  change (last (freeISs ib')) with (Some 0%nat) in Hadd.
  destruct Hadd as (Hlength & Hplace & _). split; [exact Hlength|exact Hplace].
Defined.

End index_iteration_witnesses.

(** ** The World on IdPool and SparseSet *)

Section sparse_world.
Import IndexDefs SparseSetDefs IdPoolDefs SparseWorldDefs.
Implicit Types (w : World) (st : ComponentStorage).








(** [SparseSet.remove] of a value that is not the last one of [dense]
    puts the last value at its place. *)
Lemma remove_moves_last v m s i :
  consistent s → 0 ≤ i < SparseSetDefs.size s →
  taGet (dense s) i = Some v → taGet (dense s) (SparseSetDefs.size s - 1) = Some m → m ≠ v →
  SparseSetDefs.get v s = Some i ∧
  SparseSetDefs.has v (SparseSetDefs.remove v s) = false ∧
  SparseSetDefs.has m (SparseSetDefs.remove v s) = true ∧
  SparseSetDefs.get m (SparseSetDefs.remove v s) = Some i.
Proof.
  intros Hc Hi Hdi Hlast Hne. pose proof Hc as (Hwf & Hcap & Hsz & Hint & Hinv).
  destruct (Hinv i Hi) as (v' & Hv' & Hv0 & Hsv). rewrite Hdi in Hv'. injection Hv' as <-.
  destruct (Hinv (SparseSetDefs.size s - 1)) as (m' & Hm' & Hm0 & Hsm); [lia|].
  rewrite Hlast in Hm'. injection Hm' as <-.
  assert (Hstored_v : stored s v) by by exists i.
  assert (Hstored_m : stored s m) by (exists (SparseSetDefs.size s - 1); split; [lia|done]).
  destruct (remove_stored v s Hc Hstored_v) as (Hc' & _ & Hst').
  split; [done|]. split; [|split].
  - apply (has_false_stored _ v Hc'). rewrite Hst'. by intros [_ ?].
  - apply (has_stored _ m Hc'). by rewrite Hst'.
  - assert (Hil : i ≠ SparseSetDefs.size s - 1) by (intros ->; congruence).
    pose proof (taGet_lt _ _ _ Hsm) as Hmlt.
    unfold SparseSetDefs.get, SparseSetDefs.remove. rewrite decide_False by lia.
    rewrite Hsv, Hlast. simpl.
    rewrite (taGet_taSet (dense s) i), decide_False by (intros [? _]; done).
    rewrite Hlast. rewrite taGet_taSet_eq by done. f_equal. apply toInt32_id.
    unfold int32. lia.
Qed.

Lemma csGet_fmap (f : ComponentStorage → ComponentStorage) (cs : TypeStorage) type :
  csGet ((λ kst, (kst.1, f kst.2)) <$> cs) type = f <$> csGet cs type.
Proof.
  induction cs as [|[k st] cs IH]; [done|]. csimpl. by case_decide.
Qed.

(** X30. [destroy] takes the entity out of the set of every component
    storage but leaves the array of the components as it is. So when the
    entity is not the last one of a storage, the last one moves to its
    position in the set and, from then on, [get] answers for it the
    component that the destroyed entity held. *)
Theorem destroy_hands_over_component (w : World) (type : string) (st : ComponentStorage)
    (e last : Z) :
  csGet (componentsStorage w) type = Some st → consistent (sparseSet st) →
  has e type w = true →
  taGet (dense (sparseSet st)) (SparseSetDefs.size (sparseSet st) - 1) = Some last →
  last ≠ e →
  let w' := (destroy e w).1 in
  has e type w' = false ∧ has last type w' = true ∧ get last type w' = get e type w.
Proof.
  intros Hst Hc He Hlast Hne w'. unfold has in He. rewrite Hst in He.
  pose proof He as (i & Hi & Hdi)%(has_stored _ e Hc).
  destruct (remove_moves_last e last (sparseSet st) i Hc Hi Hdi Hlast Hne)
    as (Hget & Hgone & Hthere & Hmoved).
  assert (Hst' : csGet (componentsStorage w') type =
            Some (MkComponentStorage (components st) (SparseSetDefs.remove e (sparseSet st)))).
  { unfold w', destroy. simpl. rewrite (csGet_fmap (λ st, (destroyIn e st).2)), Hst. simpl.
    unfold destroyIn. by rewrite He. }
  unfold has, get. rewrite Hst', Hst. simpl. rewrite Hgone, Hthere, He, Hmoved, Hget. done.
Qed.

End sparse_world.

Section sparse_world_witnesses.
Import IndexDefs SparseSetDefs IdPoolDefs SparseWorldDefs.


(** Two entities with a component of the class [A]; the first one is
    destroyed, and the second one gets its component. *)
Lemma destroy_hands_over_component_witness :
  let c1 := MkComponent "A" 1 false in
  let c2 := MkComponent "A" 2 false in
  let w := createAll [[c1]; [c2]] new in
  let st := default (MkComponentStorage [] (SparseSetDefs.new 0))
              (csGet (componentsStorage w) "A") in
  let w' := (destroy 1 w).1 in
  csGet (componentsStorage w) "A" = Some st ∧ consistent (sparseSet st) ∧
  has 1 "A" w = true ∧
  taGet (dense (sparseSet st)) (SparseSetDefs.size (sparseSet st) - 1) = Some 2 ∧ 2 ≠ 1 ∧
  get 2 "A" w = Some c2 ∧
  has 1 "A" w' = false ∧ has 2 "A" w' = true ∧ get 2 "A" w' = get 1 "A" w.
Proof.
  intros c1 c2 w st w'.
  assert (Hst : csGet (componentsStorage w) "A" = Some st) by reflexivity.
  assert (Hc : consistent (sparseSet st)).
  { destruct (add_absent 1 (SparseSetDefs.new 2048)) as (s1 & H1 & Hc1 & _ & _ & _ & Hst1).
    { apply new_consistent. lia. }
    { unfold maxCapacity. lia. }
    { intros (i & Hi & _). simpl in Hi. lia. }
    destruct (add_absent 2 s1) as (s2 & H2 & Hc2 & _).
    { exact Hc1. }
    { unfold maxCapacity. lia. }
    { intros [Heq|(i & Hi & _)]%Hst1; [lia|simpl in Hi; lia]. }
    assert (Hs1 : s1 = (default (SparseSetDefs.new 0)
                          (snd <$> match add 1 (SparseSetDefs.new 2048) with
                                   | Ok x => Some x | Throw _ => None end))).
    { by rewrite H1. }
    assert (Hs2 : s2 = (default (SparseSetDefs.new 0)
                          (snd <$> match add 2 s1 with
                                   | Ok x => Some x | Throw _ => None end))).
    { by rewrite H2. }
    rewrite Hs1 in Hs2. rewrite Hs2 in Hc2. exact Hc2. }
  assert (He : has 1 "A" w = true) by reflexivity.
  assert (Hlast : taGet (dense (sparseSet st)) (SparseSetDefs.size (sparseSet st) - 1) = Some 2)
    by reflexivity.
  assert (Hne : 2 ≠ 1) by lia.
  split; [exact Hst|]. split; [exact Hc|]. split; [exact He|]. split; [exact Hlast|].
  split; [exact Hne|]. split; [reflexivity|].
  exact (destroy_hands_over_component w "A" st 1 2 Hst Hc He Hlast Hne).
Defined.

End sparse_world_witnesses.
